(** * CompactMapper: the LAS point codec, the CSV sorter and the colour rule

    A shallow embedding of the Go packages [las] (writer.go, reader.go),
    [sorter] and [converter], and the properties of the specification that
    are about them.

    Conventions.
    - A Go [float64] is its IEEE-754 binary64 bit pattern, a [Z] in
      [0, 2^64); arithmetic decodes the pattern to Rocq's [spec_float],
      applies the correctly rounded operation of [SpecFloat] (precision 53,
      [emax] 1024, round to nearest even) and encodes the result. Every
      operation is rounded by itself, as the compiler has it on amd64: a
      product and a sum are not fused. A result that is a NaN has no
      payload in [spec_float]; statements about the bits of a result are
      made where the result is not a NaN.
    - [uint8], [uint16], [uint32] values are [Z] with their range stated by
      a well-formedness predicate; conversions write the wrap-around out.
    - A Go [string] is a byte sequence: Rocq's [string], whose elements are
      8-bit [ascii] values. [len] and slicing count bytes, as in Go.
    - Files are byte lists in a finite map from path to content. I/O faults
      of the operating system (permission, disk full) are not modelled.
    - Memory: the one allocation whose size a file decides, the slice
      [ReadPoints] makes for the points, is in module [machine]. *)

From Stdlib Require Reals Lra.
From Stdlib Require Import ZArith Lia Ascii String Floats.SpecFloat.
From coqutil Require Import Byte Word.LittleEndianList.
From stdpp Require Import base list gmap strings.

Local Open Scope Z_scope.

(** ** Go's float64 *)

Module f64.

Definition float64 := Z.

Definition prec : Z := 53.
Definition emax : Z := 1024.

Definition wf (x : float64) : Prop := 0 <= x < 2 ^ 64.

(** The value a bit pattern denotes. *)
Definition to_sf (b : float64) : spec_float :=
  let s := Z.testbit b 63 in
  let e := Z.land (Z.shiftr b 52) 0x7FF in
  let m := Z.land b 0xFFFFFFFFFFFFF in
  if e =? 0 then
    match m with
    | Zpos p => S754_finite s p (-1074)
    | _ => S754_zero s
    end
  else if e =? 0x7FF then
    (if m =? 0 then S754_infinity s else S754_nan)
  else
    match m + 2 ^ 52 with
    | Zpos p => S754_finite s p (e - 1075)
    | _ => S754_nan
    end.

Definition sign_bit (s : bool) : Z := if s then 2 ^ 63 else 0.

(** The bit pattern of a value. A NaN gets Go's [math.NaN] pattern here:
    the sign and the payload that the machine gives a NaN result (on
    amd64 the pattern 0xFFF8000000000000 for an invalid operation, the
    payload of the operand for a NaN operand) are not modelled. *)
Definition of_sf (f : spec_float) : float64 :=
  match f with
  | S754_zero s => sign_bit s
  | S754_infinity s => sign_bit s + 0x7FF0000000000000
  | S754_nan => 0x7FF8000000000001
  | S754_finite s m e =>
      if 2 ^ 52 <=? Zpos m
      then sign_bit s + (e + 1075) * 2 ^ 52 + (Zpos m - 2 ^ 52)
      else sign_bit s + Zpos m
  end.

Definition add (x y : float64) : float64 :=
  of_sf (SFadd prec emax (to_sf x) (to_sf y)).
Definition sub (x y : float64) : float64 :=
  of_sf (SFsub prec emax (to_sf x) (to_sf y)).
Definition mul (x y : float64) : float64 :=
  of_sf (SFmul prec emax (to_sf x) (to_sf y)).
Definition div (x y : float64) : float64 :=
  of_sf (SFdiv prec emax (to_sf x) (to_sf y)).
Definition abs (x : float64) : float64 := of_sf (SFabs (to_sf x)).

(** [x < y] and [x > y]: false as soon as one side is a NaN. *)
Definition ltb (x y : float64) : bool := SFltb (to_sf x) (to_sf y).
Definition gtb (x y : float64) : bool := ltb y x.

(** [float64(n)] for an integer [n]; exact for 32-bit integers. *)
Definition of_int (n : Z) : float64 :=
  of_sf (binary_normalize prec emax n 0 false).

(** The integer part of a finite value, rounding toward zero. *)
Definition trunc (f : spec_float) : option Z :=
  match f with
  | S754_zero _ => Some 0
  | S754_finite s m e =>
      Some (if 0 <=? e
            then cond_Zopp s (Zpos m) * 2 ^ e
            else Z.quot (cond_Zopp s (Zpos m)) (2 ^ (- e)))
  | _ => None
  end.

Definition in_int32 (z : Z) : bool := (- 2 ^ 31 <=? z) && (z <? 2 ^ 31).

(** What [int32(x)] yields when [x] is a NaN, an infinity or has an
    integer part outside the 32-bit range. The Go specification leaves
    that value to the implementation; this is amd64's CVTTSD2SL. *)
Definition int32_indefinite : Z := - 2 ^ 31.

(** [int32(x)]: Go's conversion truncates toward zero. *)
Definition to_int32 (x : float64) : Z :=
  match trunc (to_sf x) with
  | Some z => if in_int32 z then z else int32_indefinite
  | None => int32_indefinite
  end.

(** [math.MaxFloat64] and its negation. *)
Definition MaxFloat64 : float64 := 0x7FEFFFFFFFFFFFFF.
Definition NegMaxFloat64 : float64 := 0xFFEFFFFFFFFFFFFF.

(** [math.Float64bits] and [math.Float64frombits]. *)
Definition Float64bits (x : float64) : Z := x.
Definition Float64frombits (b : Z) : float64 := b.

End f64.

Abbreviation float64 := f64.float64.

(** ** Integer conversions *)

Definition uint16 (z : Z) : Z := z mod 2 ^ 16.
Definition uint32 (z : Z) : Z := z mod 2 ^ 32.

(** [int32(u)] for a [uint32] [u]: the same 32 bits, read as two's
    complement. *)
Definition int32_of_uint32 (u : Z) : Z :=
  if u <? 2 ^ 31 then u else u - 2 ^ 32.

Definition wf_uint8 (z : Z) : Prop := 0 <= z < 2 ^ 8.
Definition wf_uint16 (z : Z) : Prop := 0 <= z < 2 ^ 16.
Definition wf_uint32 (z : Z) : Prop := 0 <= z < 2 ^ 32.
Definition wf_int32 (z : Z) : Prop := - 2 ^ 31 <= z < 2 ^ 31.

(** ** encoding/binary, little endian *)

Module LittleEndian.

Definition PutUint16 (v : Z) : list byte := le_split 2 v.
Definition PutUint32 (v : Z) : list byte := le_split 4 v.
Definition PutUint64 (v : Z) : list byte := le_split 8 v.

Definition Uint16 (b : list byte) : Z := le_combine (take 2 b).
Definition Uint32 (b : list byte) : Z := le_combine (take 4 b).
Definition Uint64 (b : list byte) : Z := le_combine (take 8 b).

End LittleEndian.

(** [b[lo:hi]] *)
Definition slice {A} (lo hi : nat) (l : list A) : list A :=
  take (hi - lo) (drop lo l).

(** [copy(dst[off:], src)] when [src] fits. *)
Definition copy_at {A} (off : nat) (src dst : list A) : list A :=
  list_inserts off src dst.

(** The bytes of a string constant. *)
Fixpoint bytes_of_string (s : string) : list byte :=
  match s with
  | EmptyString => []
  | String a s' => byte.of_Z (Z.of_nat (Ascii.nat_of_ascii a)) :: bytes_of_string s'
  end.

(** ** Package converter *)

Module converter.

(** [determineColor]: red under target, green at target, blue over. *)
Definition determineColor (passCount targPass : Z) : Z * Z * Z :=
  if passCount <? targPass then (65535, 0, 0)
  else if passCount =? targPass then (0, 65535, 0)
  else (0, 0, 65535).

End converter.

(** ** Results and the file system *)

Inductive error :=
  | ErrNoPoints                 (* "no points to write" *)
  | ErrOpen                     (* "error opening file" *)
  | ErrReadHeader               (* "error reading header" *)
  | ErrWrongSignature           (* "invalid LAS file: wrong signature" *)
  | ErrReadPoint (i : nat)      (* "error reading point i" *)
  | ErrUnsupportedFormat (f : Z) (* "unsupported point format" *)
  | ErrInvalidTime              (* "invalid time format" *)
  | ErrParseDate (s : string)   (* "error parsing date from 's'" *)
  | ErrReadCSVHeader            (* "error reading header" of a CSV file *)
  | ErrMissingColumn (c : string) (* "missing required column: c" *)
  | ErrReadRow (n : nat)        (* "error reading row n" *).

Inductive result (A : Type) :=
  | Ok (a : A)
  | Err (e : error).
Arguments Ok {A} a.
Arguments Err {A} e.

Definition is_err {A} (r : result A) : bool :=
  match r with Ok _ => false | Err _ => true end.

#[global] Instance byte_eq_dec : EqDecision byte := Byte.byte_eq_dec.

Definition byte_at (l : list byte) (i : nat) : byte :=
  default Byte.x00 (l !! i).

(** Paths to contents. *)
Abbreviation filesystem := (gmap string (list byte)).

(** [os.Create]: the file exists and is empty afterwards. *)
Definition os_Create (name : string) (fs : gmap string (list byte))
  : gmap string (list byte) := <[name := []]> fs.

(** [file.Write] on the handle [os.Create] returned, which is only ever
    written sequentially: the bytes go to the end of the file. *)
Definition file_Write (name : string) (b : list byte)
    (fs : gmap string (list byte)) : gmap string (list byte) :=
  <[name := default [] (fs !! name) ++ b]> fs.

(** An open file: its bytes and the read position. *)
Record File := { content : list byte; offset : nat }.

(** [io.ReadFull(f, buf)] with [len(buf) = n]: all [n] bytes or an error;
    a short read leaves the position at the end of the file. *)
Definition ReadFull (f : File) (n : nat) : option (list byte) * File :=
  let rest := drop (offset f) (content f) in
  if (n <=? length rest)%nat
  then (Some (take n rest), {| content := content f; offset := offset f + n |})
  else (None, {| content := content f;
                 offset := Nat.max (offset f) (length (content f)) |}).

(** [f.Seek(n, 0)] *)
Definition Seek (f : File) (n : nat) : File :=
  {| content := content f; offset := n |}.

(** [time.Now()], as far as the writer looks at it. *)
Record Time := { YearDay : Z; Year : Z }.

(** ** Package las *)

Module las.

Import LittleEndian.

Record Point := {
  X : float64; Y : float64; Z_ : float64;
  Intensity : Z;
  R : Z; G : Z; B : Z;
  Classification : Z;
  GPSTime : float64
}.

Record Writer := {
  points : list Point;
  minX : float64; minY : float64; minZ : float64;
  maxX : float64; maxY : float64; maxZ : float64
}.

Definition NewWriter : Writer :=
  {| points := [];
     minX := f64.MaxFloat64; minY := f64.MaxFloat64; minZ := f64.MaxFloat64;
     maxX := f64.NegMaxFloat64; maxY := f64.NegMaxFloat64;
     maxZ := f64.NegMaxFloat64 |}.

Definition AddPoint (w : Writer) (p : Point) : Writer :=
  {| points := points w ++ [p];
     minX := if f64.ltb (X p) (minX w) then X p else minX w;
     minY := if f64.ltb (Y p) (minY w) then Y p else minY w;
     minZ := if f64.ltb (Z_ p) (minZ w) then Z_ p else minZ w;
     maxX := if f64.gtb (X p) (maxX w) then X p else maxX w;
     maxY := if f64.gtb (Y p) (maxY w) then Y p else maxY w;
     maxZ := if f64.gtb (Z_ p) (maxZ w) then Z_ p else maxZ w |}.

(** The scale factor [0.001], as the compiler rounds the constant. *)
Definition scale : float64 := 0x3F50624DD2F1A9FC.

(** The 227 header bytes [Write] assembles, statement by statement. *)
Definition header_bytes (w : Writer) (now : Time) : list byte :=
  let header := replicate 227 Byte.x00 in
  let header := copy_at 0 (bytes_of_string "LASF") header in
  let header := copy_at 4 (PutUint16 0) header in
  let header := copy_at 6 (PutUint16 1) header in
  let header := <[24%nat := byte.of_Z 1]> header in
  let header := <[25%nat := byte.of_Z 2]> header in
  let header := copy_at 26 (bytes_of_string "CompactMapper") header in
  let header := copy_at 58 (bytes_of_string "CompactMapper v1.0") header in
  let header := copy_at 90 (PutUint16 (uint16 (YearDay now))) header in
  let header := copy_at 92 (PutUint16 (uint16 (Year now))) header in
  let header := copy_at 94 (PutUint16 227) header in
  let header := copy_at 96 (PutUint32 227) header in
  let header := copy_at 100 (PutUint32 0) header in
  let header := <[104%nat := byte.of_Z 3]> header in
  let header := copy_at 105 (PutUint16 34) header in
  let header :=
    copy_at 107 (PutUint32 (uint32 (Z.of_nat (length (points w))))) header in
  let header :=
    copy_at 111 (PutUint32 (uint32 (Z.of_nat (length (points w))))) header in
  let xScale := scale in
  let yScale := scale in
  let zScale := scale in
  let header := copy_at 131 (PutUint64 (f64.Float64bits xScale)) header in
  let header := copy_at 139 (PutUint64 (f64.Float64bits yScale)) header in
  let header := copy_at 147 (PutUint64 (f64.Float64bits zScale)) header in
  let header := copy_at 155 (PutUint64 (f64.Float64bits (minX w))) header in
  let header := copy_at 163 (PutUint64 (f64.Float64bits (minY w))) header in
  let header := copy_at 171 (PutUint64 (f64.Float64bits (minZ w))) header in
  let header := copy_at 179 (PutUint64 (f64.Float64bits (maxX w))) header in
  let header := copy_at 187 (PutUint64 (f64.Float64bits (maxY w))) header in
  let header := copy_at 195 (PutUint64 (f64.Float64bits (maxZ w))) header in
  let header := copy_at 203 (PutUint64 (f64.Float64bits (minX w))) header in
  let header := copy_at 211 (PutUint64 (f64.Float64bits (minY w))) header in
  let header := copy_at 219 (PutUint64 (f64.Float64bits (minZ w))) header in
  header.

(** The 34 bytes the loop body of [Write] assembles for one point. *)
Definition point_bytes (w : Writer) (p : Point) : list byte :=
  let xScale := scale in
  let yScale := scale in
  let zScale := scale in
  let pointData := replicate 34 Byte.x00 in
  let x := f64.to_int32 (f64.div (f64.sub (X p) (minX w)) xScale) in
  let y := f64.to_int32 (f64.div (f64.sub (Y p) (minY w)) yScale) in
  let z := f64.to_int32 (f64.div (f64.sub (Z_ p) (minZ w)) zScale) in
  let pointData := copy_at 0 (PutUint32 (uint32 x)) pointData in
  let pointData := copy_at 4 (PutUint32 (uint32 y)) pointData in
  let pointData := copy_at 8 (PutUint32 (uint32 z)) pointData in
  let pointData := copy_at 12 (PutUint16 (Intensity p)) pointData in
  let pointData := <[14%nat := byte.of_Z 0x01]> pointData in
  let pointData := <[15%nat := byte.of_Z (Classification p)]> pointData in
  let pointData := <[16%nat := byte.of_Z 0]> pointData in
  let pointData := <[17%nat := byte.of_Z 0]> pointData in
  let pointData := copy_at 18 (PutUint16 0) pointData in
  let pointData :=
    copy_at 20 (PutUint64 (f64.Float64bits (GPSTime p))) pointData in
  let pointData := copy_at 28 (PutUint16 (R p)) pointData in
  let pointData := copy_at 30 (PutUint16 (G p)) pointData in
  let pointData := copy_at 32 (PutUint16 (B p)) pointData in
  pointData.

(** [Writer.Write]: the error (if any) and the file system afterwards. *)
Definition Write (w : Writer) (filename : string) (now : Time)
    (fs : gmap string (list byte)) : option error * gmap string (list byte) :=
  if (length (points w) =? 0)%nat then (Some ErrNoPoints, fs)
  else
    let fs := os_Create filename fs in
    let fs := file_Write filename (header_bytes w now) fs in
    let fs :=
      foldl (fun fs p => file_Write filename (point_bytes w p) fs)
            fs (points w) in
    (None, fs).

Record Header := {
  VersionMajor : Z;
  VersionMinor : Z;
  PointFormat : Z;
  PointCount : Z;
  PointRecordLength : Z;
  XScale : float64; YScale : float64; ZScale : float64;
  XOffset : float64; YOffset : float64; ZOffset : float64;
  MinX : float64; MinY : float64; MinZ : float64;
  MaxX : float64; MaxY : float64; MaxZ : float64
}.

Definition zero_Header : Header :=
  {| VersionMajor := 0; VersionMinor := 0; PointFormat := 0;
     PointCount := 0; PointRecordLength := 0;
     XScale := 0; YScale := 0; ZScale := 0;
     XOffset := 0; YOffset := 0; ZOffset := 0;
     MinX := 0; MinY := 0; MinZ := 0;
     MaxX := 0; MaxY := 0; MaxZ := 0 |}.

Record Reader := { file : File; header : Header }.

Definition parse_float (b : list byte) : float64 :=
  f64.Float64frombits (Uint64 b).

(** The fields [readHeader] takes from the 227 header bytes. *)
Definition parseHeader (hdr : list byte) : Header :=
  {| VersionMajor := byte.unsigned (byte_at hdr 24);
     VersionMinor := byte.unsigned (byte_at hdr 25);
     PointFormat := byte.unsigned (byte_at hdr 104);
     PointRecordLength := Uint16 (slice 105 107 hdr);
     PointCount := Uint32 (slice 107 111 hdr);
     XScale := parse_float (slice 131 139 hdr);
     YScale := parse_float (slice 139 147 hdr);
     ZScale := parse_float (slice 147 155 hdr);
     XOffset := parse_float (slice 155 163 hdr);
     YOffset := parse_float (slice 163 171 hdr);
     ZOffset := parse_float (slice 171 179 hdr);
     MaxX := parse_float (slice 179 187 hdr);
     MaxY := parse_float (slice 187 195 hdr);
     MaxZ := parse_float (slice 195 203 hdr);
     MinX := parse_float (slice 203 211 hdr);
     MinY := parse_float (slice 211 219 hdr);
     MinZ := parse_float (slice 219 227 hdr) |}.

(** [Reader.readHeader] *)
Definition readHeader (r : Reader) : option error * Reader :=
  match ReadFull (file r) 227 with
  | (None, f) => (Some ErrReadHeader, {| file := f; header := header r |})
  | (Some hdr, f) =>
      if bool_decide (slice 0 4 hdr = bytes_of_string "LASF")
      then (None, {| file := f; header := parseHeader hdr |})
      else (Some ErrWrongSignature, {| file := f; header := header r |})
  end.

(** [NewReader]: open the file, read the header. *)
Definition NewReader (filename : string) (fs : gmap string (list byte))
    : result Reader :=
  match fs !! filename with
  | None => Err ErrOpen
  | Some bytes =>
      let reader :=
        {| file := {| content := bytes; offset := 0 |};
           header := zero_Header |} in
      match readHeader reader with
      | (Some e, _) => Err e
      | (None, reader) => Ok reader
      end
  end.

Definition GetHeader (r : Reader) : Header := header r.

(** One Format 2 record (26 bytes, no GPS time). *)
Definition decodeFormat2 (h : Header) (pointData : list byte) : Point :=
  let x := int32_of_uint32 (Uint32 (slice 0 4 pointData)) in
  let y := int32_of_uint32 (Uint32 (slice 4 8 pointData)) in
  let z := int32_of_uint32 (Uint32 (slice 8 12 pointData)) in
  {| X := f64.add (f64.mul (f64.of_int x) (XScale h)) (XOffset h);
     Y := f64.add (f64.mul (f64.of_int y) (YScale h)) (YOffset h);
     Z_ := f64.add (f64.mul (f64.of_int z) (ZScale h)) (ZOffset h);
     Intensity := Uint16 (slice 12 14 pointData);
     Classification := byte.unsigned (byte_at pointData 15);
     GPSTime := 0;
     R := Uint16 (slice 20 22 pointData);
     G := Uint16 (slice 22 24 pointData);
     B := Uint16 (slice 24 26 pointData) |}.

(** One Format 3 record (34 bytes, GPS time before the colour). *)
Definition decodeFormat3 (h : Header) (pointData : list byte) : Point :=
  let x := int32_of_uint32 (Uint32 (slice 0 4 pointData)) in
  let y := int32_of_uint32 (Uint32 (slice 4 8 pointData)) in
  let z := int32_of_uint32 (Uint32 (slice 8 12 pointData)) in
  {| X := f64.add (f64.mul (f64.of_int x) (XScale h)) (XOffset h);
     Y := f64.add (f64.mul (f64.of_int y) (YScale h)) (YOffset h);
     Z_ := f64.add (f64.mul (f64.of_int z) (ZScale h)) (ZOffset h);
     Intensity := Uint16 (slice 12 14 pointData);
     Classification := byte.unsigned (byte_at pointData 15);
     GPSTime := parse_float (slice 20 28 pointData);
     R := Uint16 (slice 28 30 pointData);
     G := Uint16 (slice 30 32 pointData);
     B := Uint16 (slice 32 34 pointData) |}.

(** The read loop shared by both formats: [n] records are left to read,
    [i] is the loop counter, [acc] the slice appended to so far. *)
Fixpoint readLoop (recLen : nat) (decode : list byte -> Point)
    (n : nat) (i : nat) (f : File) (acc : list Point)
    : result (list Point) * File :=
  match n with
  | O => (Ok acc, f)
  | S n' =>
      match ReadFull f recLen with
      | (None, f') => (Err (ErrReadPoint i), f')
      | (Some pointData, f') =>
          readLoop recLen decode n' (S i) f' (acc ++ [decode pointData])
      end
  end.

Definition readPointsFormat2 (r : Reader) : result (list Point) * Reader :=
  let '(res, f) :=
    readLoop 26 (decodeFormat2 (header r))
             (Z.to_nat (PointCount (header r))) 0 (file r) [] in
  (res, {| file := f; header := header r |}).

Definition readPointsFormat3 (r : Reader) : result (list Point) * Reader :=
  let '(res, f) :=
    readLoop 34 (decodeFormat3 (header r))
             (Z.to_nat (PointCount (header r))) 0 (file r) [] in
  (res, {| file := f; header := header r |}).

(** [Reader.ReadPoints] *)
Definition ReadPoints (r : Reader) : result (list Point) * Reader :=
  let r := {| file := Seek (file r) 227; header := header r |} in
  if PointFormat (header r) =? 2 then readPointsFormat2 r
  else if PointFormat (header r) =? 3 then readPointsFormat3 r
  else (Err (ErrUnsupportedFormat (PointFormat (header r))), r).

End las.

(** ** Package time: [Parse] and [Format] for the two layouts in use

    [sorter.parseDate] calls [time.Parse("2006/Jan/02 15:04:05.999", s)]
    and formats the result with ["2006-01-02"]. The functions below are the
    standard library's [getnum], [lookup], [match], [skip], [cutspace],
    [atoi], [leadingInt], [parseNanoseconds] and [daysIn]; [Parse] is the
    library's loop unrolled over the elements of that one layout, which
    [nextStdChunk] yields in this order: stdLongYear, "/", stdMonth, "/",
    stdZeroDay, " ", stdHour, ":", stdZeroMinute, ":", stdZeroSecond,
    stdFracSecond9. *)

Module time.


Definition byte_of (c : Ascii.ascii) : Z := Z.of_nat (Ascii.nat_of_ascii c).

Definition is_digit (c : Ascii.ascii) : bool :=
  (48 <=? byte_of c) && (byte_of c <=? 57).

Definition digit_val (c : Ascii.ascii) : Z := byte_of c - 48.

(** [isDigit(s, i)] *)
Definition isDigit (s : string) (i : nat) : bool :=
  match String.get i s with
  | Some c => is_digit c
  | None => false
  end.

(** [s[n:]] for [n <= len(s)] *)
Fixpoint drop_bytes (n : nat) (s : string) : string :=
  match n, s with
  | O, _ => s
  | S n', String _ s' => drop_bytes n' s'
  | S _, EmptyString => EmptyString
  end.

(** [getnum(s, fixed)]: one or two digits, exactly two when [fixed]. *)
Definition getnum (s : string) (fixed : bool) : option (Z * string) :=
  if negb (isDigit s 0) then None
  else if negb (isDigit s 1) then
    if fixed then None
    else
      match s with
      | String c0 s1 => Some (digit_val c0, s1)
      | EmptyString => None
      end
  else
    match s with
    | String c0 (String c1 s2) => Some (digit_val c0 * 10 + digit_val c1, s2)
    | _ => None
    end.

(** [leadingInt]: the digits at the front and the rest. (The overflow
    error needs more than 18 digits and is left out.) *)
Fixpoint leadingInt_from (x : Z) (s : string) : Z * string :=
  match s with
  | String c s' =>
      if is_digit c then leadingInt_from (x * 10 + digit_val c) s'
      else (x, s)
  | EmptyString => (x, s)
  end.

Definition leadingInt (s : string) : Z * string := leadingInt_from 0 s.

(** [atoi] *)
Definition atoi (s : string) : option Z :=
  let '(neg, s) :=
    match s with
    | String c s' =>
        if Ascii.eqb c "-"%char then (true, s')
        else if Ascii.eqb c "+"%char then (false, s')
        else (false, s)
    | EmptyString => (false, s)
    end in
  let '(q, rem) := leadingInt s in
  if (0 <? String.length rem)%nat then None
  else Some (if neg then - q else q).

(** [match(s1, s2)]: equal ignoring ASCII case; the strings have the same
    length. *)
Definition match_byte (c1 c2 : Ascii.ascii) : bool :=
  if Ascii.eqb c1 c2 then true
  else
    let c1 := Z.lor (byte_of c1) 32 in
    let c2 := Z.lor (byte_of c2) 32 in
    negb (negb (c1 =? c2) || (c1 <? 97) || (122 <? c1)).

Fixpoint match_fold (s1 s2 : string) : bool :=
  match s1, s2 with
  | String c1 r1, String c2 r2 => match_byte c1 c2 && match_fold r1 r2
  | _, _ => true
  end.

Definition shortMonthNames : list string :=
  ["Jan"; "Feb"; "Mar"; "Apr"; "May"; "Jun";
   "Jul"; "Aug"; "Sep"; "Oct"; "Nov"; "Dec"].

(** [lookup(tab, val)]: the first entry that is a prefix of [val] ignoring
    case, with its index, and the rest of [val]. *)
Fixpoint lookup_from (i : Z) (tab : list string) (val : string)
    : option (Z * string) :=
  match tab with
  | [] => None
  | v :: tab' =>
      if (String.length v <=? String.length val)%nat
         && match_fold (String.substring 0 (String.length v) val) v
      then Some (i, drop_bytes (String.length v) val)
      else lookup_from (i + 1) tab' val
  end.

Definition lookup (tab : list string) (val : string) : option (Z * string) :=
  lookup_from 0 tab val.

(** [cutspace] *)
Fixpoint cutspace (s : string) : string :=
  match s with
  | String c s' => if Ascii.eqb c " "%char then cutspace s' else s
  | EmptyString => s
  end.

(** [skip(value, prefix)]: a space of the layout stands for one or more
    spaces of the value (or for its end). Go continues with
    [cutspace(prefix)]; here the recursion stays structural on [prefix] and
    [cut] records that the spaces at its front are being cut. *)
Fixpoint skip_from (cut : bool) (value prefix : string) : option string :=
  match prefix with
  | EmptyString => Some value
  | String p prefix' =>
      if Ascii.eqb p " "%char then
        if cut then skip_from true value prefix'
        else
          match value with
          | String v _ =>
              if negb (Ascii.eqb v " "%char) then None
              else skip_from true (cutspace value) prefix'
          | EmptyString => skip_from true (cutspace value) prefix'
          end
      else
        match value with
        | String v value' =>
            if Ascii.eqb v p then skip_from false value' prefix' else None
        | EmptyString => None
        end
  end.

Definition skip (value prefix : string) : option string :=
  skip_from false value prefix.

Definition commaOrPeriod (c : Ascii.ascii) : bool :=
  Ascii.eqb c "."%char || Ascii.eqb c ","%char.

(** The digits at the front of [s], counted. *)
Fixpoint count_digits (s : string) : nat :=
  match s with
  | String c s' => if is_digit c then S (count_digits s') else O
  | EmptyString => O
  end.

(** [parseNanoseconds(value, nbytes)] for a [value] that starts with a
    separator followed by [nbytes - 1] digits: at most nine digits count,
    scaled to nanoseconds. *)
Definition parseNanoseconds (value : string) (nbytes : nat) : option Z :=
  match value with
  | String c _ =>
      if negb (commaOrPeriod c) then None
      else
        let nbytes := if (10 <? nbytes)%nat then 10%nat else nbytes in
        match atoi (String.substring 1 (nbytes - 1) value) with
        | None => None
        | Some ns =>
            if ns <? 0 then None
            else Some (ns * 10 ^ Z.of_nat (10 - nbytes))
        end
  | EmptyString => None
  end.

(** The stdFracSecond9 element: a separator and digits are consumed when
    they are there, whatever their number, and nothing otherwise. *)
Definition fracSecond9 (value : string) : option (Z * string) :=
  match value with
  | String c0 (String c1 _) =>
      if negb (commaOrPeriod c0) || negb (is_digit c1) then Some (0, value)
      else
        let i := count_digits (drop_bytes 1 value) in
        match parseNanoseconds value (1 + i) with
        | None => None
        | Some nsec => Some (nsec, drop_bytes (1 + i) value)
        end
  | _ => Some (0, value)
  end.

Definition isLeap (year : Z) : bool :=
  (year mod 4 =? 0) && (negb (year mod 100 =? 0) || (year mod 400 =? 0)).

(** [daysIn(month, year)] *)
Definition daysIn (month year : Z) : Z :=
  if (month =? 2) && isLeap year then 29
  else
    match month with
    | 2 => 28
    | 4 | 6 | 9 | 11 => 30
    | _ => 31
    end.

Record Time := {
  Year : Z; Month : Z; Day : Z;
  Hour : Z; Minute : Z; Second : Z; Nanosecond : Z
}.

(** [time.Parse("2006/Jan/02 15:04:05.999", value)] *)
Definition Parse (value : string) : option Time :=
  (* stdLongYear *)
  if (String.length value <? 4)%nat || negb (isDigit value 0) then None else
  year ← atoi (String.substring 0 4 value);
  let value := drop_bytes 4 value in
  value ← skip value "/";
  (* stdMonth *)
  '(month, value) ← lookup shortMonthNames value;
  let month := month + 1 in
  value ← skip value "/";
  (* stdZeroDay: any two digits; the date is validated at the end *)
  '(day, value) ← getnum value true;
  value ← skip value " ";
  (* stdHour *)
  '(hour, value) ← getnum value false;
  if (hour <? 0) || (24 <=? hour) then None else
  value ← skip value ":";
  (* stdZeroMinute *)
  '(min, value) ← getnum value true;
  if (min <? 0) || (60 <=? min) then None else
  value ← skip value ":";
  (* stdZeroSecond *)
  '(sec, value) ← getnum value true;
  if (sec <? 0) || (60 <=? sec) then None else
  (* stdFracSecond9 *)
  '(nsec, value) ← fracSecond9 value;
  (* end of layout: extra text *)
  if (0 <? String.length value)%nat then None else
  (* the day of the month *)
  if (day <? 1) || (daysIn month year <? day) then None else
  Some {| Year := year; Month := month; Day := day;
          Hour := hour; Minute := min; Second := sec; Nanosecond := nsec |}.

Definition digit_char (d : Z) : Ascii.ascii :=
  Ascii.ascii_of_nat (Z.to_nat (48 + d mod 10)).

(** [appendInt(b, x, width)] for [0 <= x < 10 ^ width], width 2 and 4. *)
Definition pad2 (x : Z) : string :=
  String (digit_char (x / 10)) (String (digit_char x) EmptyString).
Definition pad4 (x : Z) : string :=
  String (digit_char (x / 1000)) (String (digit_char (x / 100))
    (String (digit_char (x / 10)) (String (digit_char x) EmptyString))).

(** [t.Format("2006-01-02")] for a year in [0, 9999]. *)
Definition Format_date (t : Time) : string :=
  pad4 (Year t) +:+ "-" +:+ pad2 (Month t) +:+ "-" +:+ pad2 (Day t).

End time.

(** ** Package sorter *)

Module sorter.


(** [ChunkSize]: rows processed at once. *)
Definition ChunkSize : nat := 10000.

(** The character class of [sanitizeFilename]: the angle brackets, the
    colon, the double quote (byte 34), both slashes, the bar, the question
    mark and the star. *)
Definition unsafe_char (c : Ascii.ascii) : bool :=
  Ascii.eqb c "<"%char || Ascii.eqb c ">"%char || Ascii.eqb c ":"%char
  || Ascii.eqb c (Ascii.ascii_of_nat 34) || Ascii.eqb c "/"%char
  || Ascii.eqb c "\"%char || Ascii.eqb c "|"%char || Ascii.eqb c "?"%char
  || Ascii.eqb c "*"%char.

(** [sanitizeFilename]: every match of the character class is replaced by
    the empty string. *)
Fixpoint sanitizeFilename (filename : string) : string :=
  match filename with
  | EmptyString => EmptyString
  | String c rest =>
      if unsafe_char c then sanitizeFilename rest
      else String c (sanitizeFilename rest)
  end.

(** [parseDate] *)
Definition parseDate (timeStr : string) : result string :=
  match time.Parse timeStr with
  | None => Err ErrInvalidTime
  | Some t => Ok (time.Format_date t)
  end.

(** [strings.ReplaceAll(s, old, "")] for a one-byte [old]. *)
Fixpoint remove_all (old : Ascii.ascii) (s : string) : string :=
  match s with
  | EmptyString => EmptyString
  | String c rest =>
      if Ascii.eqb c old then remove_all old rest
      else String c (remove_all old rest)
  end.

(** [normalizeAmp] *)
Definition normalizeAmp (amp : string) : string :=
  if String.eqb amp "" || String.eqb amp "?" then "no_amp"
  else
    let normalized := remove_all "."%char amp in
    if (3 <? String.length normalized)%nat
    then String.substring 0 3 normalized
    else normalized.

(** [generateFilename] *)
Definition generateFilename (date design amp : string) : string :=
  if String.eqb amp "no_amp" then date +:+ "design" +:+ design +:+ "amp.csv"
  else date +:+ "design" +:+ design +:+ "amp" +:+ amp +:+ ".csv".

Record GroupKey := { Date : string; DesignName : string; Amp : string }.

#[global] Instance GroupKey_eq_dec : EqDecision GroupKey.
Proof. solve_decision. Defined.

#[global] Instance GroupKey_countable : Countable GroupKey :=
  inj_countable'
    (fun k => (Date k, DesignName k, Amp k))
    (fun t => {| Date := t.1.1; DesignName := t.1.2; Amp := t.2 |})
    (fun k => match k with Build_GroupKey _ _ _ => eq_refl end).

(** A CSV record. *)
Definition row := list string.

(** [row[i]]; the CSV reader only hands out records with as many fields
    as the header, so the index is in range. *)
Definition field (r : list string) (i : nat) : string := default "" (r !! i).

(** The key of a record, when its time parses. *)
Definition key_of (timeIdx designIdx ampIdx : nat) (r : list string)
    : result GroupKey :=
  match parseDate (field r timeIdx) with
  | Err e => Err e
  | Ok date =>
      Ok {| Date := date;
            DesignName := field r designIdx;
            Amp := normalizeAmp (field r ampIdx) |}
  end.

(** [processChunk]: the rows skipped, the fatal error if any, and the
    groups map after the rows of the chunk were added to it. (Lines for
    the error log are left out.) *)
Fixpoint processChunk (chunk : list (list string))
    (timeIdx designIdx ampIdx : nat)
    (groups : gmap GroupKey (list (list string))) (skipErrors : bool)
    (skippedRows : nat)
    : nat * option error * gmap GroupKey (list (list string)) :=
  match chunk with
  | [] => (skippedRows, None, groups)
  | r :: chunk' =>
      match parseDate (field r timeIdx) with
      | Err _ =>
          if skipErrors
          then processChunk chunk' timeIdx designIdx ampIdx groups
                            skipErrors (S skippedRows)
          else (skippedRows, Some (ErrParseDate (field r timeIdx)), groups)
      | Ok date =>
          let design := field r designIdx in
          let amp := normalizeAmp (field r ampIdx) in
          let key := {| Date := date; DesignName := design; Amp := amp |} in
          let groups :=
            <[key := default [] (groups !! key) ++ [r]]> groups in
          processChunk chunk' timeIdx designIdx ampIdx groups
                       skipErrors skippedRows
      end
  end.

(** What [csv.Reader.Read] makes of one line of the input: its fields, or
    an error for a line that does not parse or has another number of
    fields than the first. *)
Inductive csv_line :=
  | Fields (r : list string)
  | Malformed.

Definition csv_Read (nfields : nat) (l : csv_line) : option (list string) :=
  match l with
  | Fields r => if (length r =? nfields)%nat then Some r else None
  | Malformed => None
  end.

(** [colMap[col]]: the index of the last column of that name. *)
Fixpoint colMap_from (i : nat) (header : list string) (col : string)
    : option nat :=
  match header with
  | [] => None
  | c :: header' =>
      match colMap_from (S i) header' col with
      | Some j => Some j
      | None => if String.eqb c col then Some i else None
      end
  end.

Definition colMap (header : list string) (col : string) : option nat :=
  colMap_from 0 header col.

(** The read loop of [SortCSV]: [lines] is what the reader has left,
    [chunk] the rows waiting; at the end of the input the last chunk is
    processed. *)
Fixpoint readRows (lines : list csv_line) (nfields : nat)
    (timeIdx designIdx ampIdx : nat) (skipErrors : bool)
    (chunk : list (list string))
    (groups : gmap GroupKey (list (list string)))
    (rowCount skippedRows : nat)
    : result (gmap GroupKey (list (list string)) * nat) :=
  match lines with
  | [] =>
      if (0 <? length chunk)%nat then
        let '(skipped, err, groups) :=
          processChunk chunk timeIdx designIdx ampIdx groups skipErrors 0 in
        match err with
        | Some e => if negb skipErrors then Err e
                    else Ok (groups, (skippedRows + skipped)%nat)
        | None => Ok (groups, (skippedRows + skipped)%nat)
        end
      else Ok (groups, skippedRows)
  | l :: lines' =>
      match csv_Read nfields l with
      | None =>
          if skipErrors
          then readRows lines' nfields timeIdx designIdx ampIdx skipErrors
                        chunk groups rowCount (S skippedRows)
          else Err (ErrReadRow (rowCount + 2))
      | Some record =>
          let chunk := chunk ++ [record] in
          let rowCount := S rowCount in
          if (ChunkSize <=? length chunk)%nat then
            let '(skipped, err, groups) :=
              processChunk chunk timeIdx designIdx ampIdx groups skipErrors 0 in
            match err with
            | Some e =>
                if negb skipErrors then Err e
                else readRows lines' nfields timeIdx designIdx ampIdx
                       skipErrors [] groups rowCount
                       (skippedRows + skipped)%nat
            | None =>
                readRows lines' nfields timeIdx designIdx ampIdx
                  skipErrors [] groups rowCount (skippedRows + skipped)%nat
            end
          else readRows lines' nfields timeIdx designIdx ampIdx skipErrors
                        chunk groups rowCount skippedRows
      end
  end.

(** The first half of [SortCSV]: header, required columns, rows into
    groups. The input is the file as the CSV reader delivers it, the
    header line first. *)
Definition groupRows (input : list csv_line) (skipErrors : bool)
    : result (list string * gmap GroupKey (list (list string))) :=
  match input with
  | Fields header :: lines =>
      match colMap header "Time", colMap header "DesignName",
            colMap header "LastAmp" with
      | None, _, _ => Err (ErrMissingColumn "Time")
      | Some _, None, _ => Err (ErrMissingColumn "DesignName")
      | Some _, Some _, None => Err (ErrMissingColumn "LastAmp")
      | Some timeIdx, Some designIdx, Some ampIdx =>
          match readRows lines (length header) timeIdx designIdx ampIdx
                         skipErrors [] ∅ 0 0 with
          | Err e => Err e
          | Ok (groups, _) => Ok (header, groups)
          end
      end
  | _ => Err ErrReadCSVHeader
  end.

(** The name of the artifact of a key. *)
Definition artifact_name (key : GroupKey) : string :=
  sanitizeFilename (generateFilename (Date key) (DesignName key) (Amp key)).

(** The body of the write loop of [SortCSV] for one group: the file is
    opened for appending and gets the header line when it is new. The
    output directory is a map from file name to the records written. *)
Definition writeGroup (header : list string)
    (out : gmap string (list (list string)))
    (kv : GroupKey * list (list string))
    : gmap string (list (list string)) :=
  let outputPath := artifact_name kv.1 in
  match out !! outputPath with
  | Some old => <[outputPath := old ++ kv.2]> out
  | None => <[outputPath := header :: kv.2]> out
  end.

(** [for key, rows := range groups]: Go visits the entries of a map in an
    order it does not specify; [order] is the order of one run. *)
Definition writeGroups (header : list string)
    (order : list (GroupKey * list (list string)))
    (out : gmap string (list (list string)))
    : gmap string (list (list string)) :=
  foldl (writeGroup header) out order.

(** [SortCSV] takes the output directory from [out] to [out']: the rows
    are grouped, and the groups written in some order. (Faults of the
    file system are not modelled.) *)
Definition SortCSV_run (input : list csv_line) (skipErrors : bool)
    (out out' : gmap string (list (list string))) : Prop :=
  exists header groups order,
    groupRows input skipErrors = Ok (header, groups)
    /\ order ≡ₚ map_to_list groups
    /\ out' = writeGroups header order out.

End sorter.

(** ** Vocabulary of the statements *)

(** The values a [Point] and a [Writer] can hold in Go. *)
Definition wf_Point (p : las.Point) : Prop :=
  f64.wf (las.X p) /\ f64.wf (las.Y p) /\ f64.wf (las.Z_ p)
  /\ wf_uint16 (las.Intensity p)
  /\ wf_uint16 (las.R p) /\ wf_uint16 (las.G p) /\ wf_uint16 (las.B p)
  /\ wf_uint8 (las.Classification p)
  /\ f64.wf (las.GPSTime p).

Definition wf_Writer (w : las.Writer) : Prop :=
  f64.wf (las.minX w) /\ f64.wf (las.minY w) /\ f64.wf (las.minZ w)
  /\ f64.wf (las.maxX w) /\ f64.wf (las.maxY w) /\ f64.wf (las.maxZ w).

(** A writer that was given the points [pts], one [AddPoint] each. *)
Definition writer_of (pts : list las.Point) : las.Writer :=
  foldl las.AddPoint las.NewWriter pts.

(** Opening an artifact and reading its points. *)
Definition decode (filename : string) (fs : gmap string (list byte))
    : result (list las.Point) :=
  match las.NewReader filename fs with
  | Err e => Err e
  | Ok r => fst (las.ReadPoints r)
  end.

(** Encoding the points to [filename], then decoding that file. *)
Definition encode_decode (pts : list las.Point) (filename : string)
    (now : Time) (fs : gmap string (list byte)) : result (list las.Point) :=
  match las.Write (writer_of pts) filename now fs with
  | (Some e, _) => Err e
  | (None, fs') => decode filename fs'
  end.

(** The stored integer of a coordinate [v] on an axis of offset [off],
    and the coordinate the decoder makes of it. *)
Definition stored (v off : float64) : Z :=
  f64.to_int32 (f64.div (f64.sub v off) las.scale).

Definition reconstructed (v off : float64) : float64 :=
  f64.add (f64.mul (f64.of_int (stored v off)) las.scale) off.

(** A point as it comes back from an artifact written by [w]. *)
Definition requantize (w : las.Writer) (p : las.Point) : las.Point :=
  {| las.X := reconstructed (las.X p) (las.minX w);
     las.Y := reconstructed (las.Y p) (las.minY w);
     las.Z_ := reconstructed (las.Z_ p) (las.minZ w);
     las.Intensity := las.Intensity p;
     las.R := las.R p; las.G := las.G p; las.B := las.B p;
     las.Classification := las.Classification p;
     las.GPSTime := las.GPSTime p |}.

(** [|a - b| > tol], the comparison the repository's tests make. *)
Definition differ_by_more_than (tol a b : float64) : bool :=
  f64.gtb (f64.abs (f64.sub a b)) tol.

(** [z] is the integer part of the finite value [f], toward zero: the
    sign of [f] and the largest magnitude that is not above that of [f]. *)
Definition integer_part_toward_zero (f : spec_float) (z : Z) : Prop :=
  match f with
  | S754_zero _ => z = 0
  | S754_finite s m e =>
      z = cond_Zopp s (Z.abs z)
      /\ if 0 <=? e then Z.abs z = Zpos m * 2 ^ e
         else Z.abs z * 2 ^ (- e) <= Zpos m < (Z.abs z + 1) * 2 ^ (- e)
  | _ => False
  end.

(** The first [n] consecutive records of [len] bytes of a buffer. *)
Fixpoint chunks {A} (len n : nat) (l : list A) : list (list A) :=
  match n with
  | O => []
  | S n' => take len l :: chunks len n' (drop len l)
  end.

(** The record variants of the specification and the header fields it
    gives each. *)
Inductive RecordVariant := WithoutTimestamp | WithTimestamp.

Definition variant_format_id (v : RecordVariant) : Z :=
  match v with WithoutTimestamp => 2 | WithTimestamp => 3 end.

Definition variant_record_length (v : RecordVariant) : Z :=
  match v with WithoutTimestamp => 26 | WithTimestamp => 34 end.

(** The artifact of [w]: the header, then one record per point. *)
Definition artifact (w : las.Writer) (now : Time) : list byte :=
  las.header_bytes w now ++ concat (map (las.point_bytes w) (las.points w)).

(** The three axes of a point, with what [Write] and the header hold for
    each: the coordinate, the offset, the place of the stored integer in
    a record and of the scale and the offset in the header. *)
Inductive Axis := AxisX | AxisY | AxisZ.

Definition coord (a : Axis) (p : las.Point) : float64 :=
  match a with
  | AxisX => las.X p | AxisY => las.Y p | AxisZ => las.Z_ p
  end.

Definition axis_offset (a : Axis) (w : las.Writer) : float64 :=
  match a with
  | AxisX => las.minX w | AxisY => las.minY w | AxisZ => las.minZ w
  end.

Definition axis_index (a : Axis) : nat :=
  match a with AxisX => 0 | AxisY => 1 | AxisZ => 2 end.

(** The integer stored for axis [a] in record [i] of the artifact [data]. *)
Definition stored_at (a : Axis) (data : list byte) (i : nat) : Z :=
  let lo := (227 + 34 * i + 4 * axis_index a)%nat in
  int32_of_uint32 (LittleEndian.Uint32 (slice lo (lo + 4) data)).

(** The scale and the offset of axis [a] in the header of [data]. *)
Definition header_scale (a : Axis) (data : list byte) : float64 :=
  let lo := (131 + 8 * axis_index a)%nat in
  las.parse_float (slice lo (lo + 8) data).

Definition header_offset (a : Axis) (data : list byte) : float64 :=
  let lo := (155 + 8 * axis_index a)%nat in
  las.parse_float (slice lo (lo + 8) data).

(** The offset is a coordinate that was seen, unless none was below the
    initial [math.MaxFloat64]. *)
Definition offset_attained (a : Axis) (w : las.Writer)
    (seen : list las.Point) : Prop :=
  axis_offset a w ∈ map (coord a) seen
  \/ (axis_offset a w = f64.MaxFloat64
      /\ forall q, q ∈ seen -> f64.ltb (coord a q) f64.MaxFloat64 = false).

(** The order of two finite values of the same sign, by exponent and
    then by mantissa, as [SFcompare] decides it. *)
Definition cmp_finite (m1 : positive) (e1 : Z) (m2 : positive) (e2 : Z)
    : comparison :=
  match e1 ?= e2 with
  | Lt => Lt
  | Gt => Gt
  | Eq => Pos.compare_cont Eq m1 m2
  end.

(** The three colours of the specification. *)
Definition full_red : Z * Z * Z := (65535, 0, 0).
Definition full_green : Z * Z * Z := (0, 65535, 0).
Definition full_blue : Z * Z * Z := (0, 0, 65535).

(** Amplitude normalisation in the words of the specification: the
    sentinel for the empty string and the placeholder, otherwise the
    decimal points are stripped and at most the first three of the
    remaining bytes are kept. *)
Definition no_amplitude : string := "no_amp".

Definition strip_decimal_points (s : string) : string :=
  string_of_list_ascii
    (filter (fun c => c <> "."%char) (list_ascii_of_string s)).

Definition keep_at_most (n : nat) (s : string) : string :=
  string_of_list_ascii (take n (list_ascii_of_string s)).

(** ** The time strings of the sorter, in the words of a grammar *)

Definition digit (c : ascii) : Prop := time.is_digit c = true.

Definition num2 (c0 c1 : ascii) : Z :=
  time.digit_val c0 * 10 + time.digit_val c1.

Definition num4 (c0 c1 c2 c3 : ascii) : Z :=
  time.digit_val c0 * 1000 + time.digit_val c1 * 100
  + time.digit_val c2 * 10 + time.digit_val c3.

Fixpoint all_digits (s : string) : bool :=
  match s with
  | EmptyString => true
  | String c s' => time.is_digit c && all_digits s'
  end.

Fixpoint all_spaces (s : string) : bool :=
  match s with
  | EmptyString => true
  | String c s' => Ascii.eqb c " "%char && all_spaces s'
  end.

Definition is_upper (c : ascii) : bool :=
  (65 <=? time.byte_of c) && (time.byte_of c <=? 90).

Definition is_lower (c : ascii) : bool :=
  (97 <=? time.byte_of c) && (time.byte_of c <=? 122).

Definition to_lower (c : ascii) : ascii :=
  if is_upper c then ascii_of_nat (nat_of_ascii c + 32) else c.

Fixpoint lower_string (s : string) : string :=
  match s with
  | EmptyString => EmptyString
  | String c s' => String (to_lower c) (lower_string s')
  end.

Fixpoint all_letters (s : string) : bool :=
  match s with
  | EmptyString => true
  | String c s' => (is_upper c || is_lower c) && all_letters s'
  end.

Definition month_abbreviations : list string :=
  ["jan"; "feb"; "mar"; "apr"; "may"; "jun";
   "jul"; "aug"; "sep"; "oct"; "nov"; "dec"].

Fixpoint index_of (x : string) (l : list string) : option nat :=
  match l with
  | [] => None
  | y :: l' => if String.eqb x y then Some O else S <$> index_of x l'
  end.

(** The number of the month a three-letter abbreviation names, whatever
    the case of its letters. *)
Definition month_number (mon : string) : option Z :=
  (fun i => Z.of_nat i + 1) <$> index_of (lower_string mon) month_abbreviations.

(** One or two digits and their value. *)
Inductive one_or_two_digits : string -> Z -> Prop :=
  | one_digit c0 :
      digit c0 ->
      one_or_two_digits (String c0 EmptyString) (time.digit_val c0)
  | two_digits c0 c1 :
      digit c0 -> digit c1 ->
      one_or_two_digits (String c0 (String c1 EmptyString)) (num2 c0 c1).

(** Nothing, or a period or comma followed by one or more digits. *)
Inductive optional_fraction : string -> Prop :=
  | no_fraction : optional_fraction EmptyString
  | some_fraction sep c ds :
      time.commaOrPeriod sep = true -> digit c -> all_digits ds = true ->
      optional_fraction (String sep (String c ds)).

(** [accepted_time_string s date]: [s] is
    YYYY/Mon/DD, one or more spaces, H or HH, :MM:SS and an optional
    fraction, with a day that the month has and a time of day that
    exists, and [date] is YYYY-MM-DD for the same year, month and day. *)
Inductive accepted_time_string : string -> string -> Prop :=
  | accepted_intro y1 y2 y3 y4 mon mo d1 d2 spaces hh h m1 m2 s1 s2 frac :
      digit y1 -> digit y2 -> digit y3 -> digit y4 ->
      String.length mon = 3%nat -> month_number mon = Some mo ->
      digit d1 -> digit d2 ->
      1 <= num2 d1 d2 <= time.daysIn mo (num4 y1 y2 y3 y4) ->
      all_spaces spaces = true ->
      one_or_two_digits hh h -> h < 24 ->
      digit m1 -> digit m2 -> num2 m1 m2 < 60 ->
      digit s1 -> digit s2 -> num2 s1 s2 < 60 ->
      optional_fraction frac ->
      accepted_time_string
        (String y1 (String y2 (String y3 (String y4
           ("/" +:+ mon +:+ "/" +:+ String d1 (String d2
              (" " +:+ spaces +:+ hh +:+ ":" +:+ String m1 (String m2
                 (":" +:+ String s1 (String s2 frac))))))))))
        (String y1 (String y2 (String y3 (String y4
           ("-" +:+ time.pad2 mo +:+ "-"
            +:+ String d1 (String d2 EmptyString)))))).

(** A string that does not begin with a space. *)
Definition no_leading_space (r : string) : Prop :=
  match r with
  | EmptyString => True
  | String c _ => Ascii.eqb c " "%char = false
  end.

(** An entry of the table of month names: three letters. *)
Definition month_entry (n : string) : Prop :=
  String.length n = 3%nat /\ all_letters n = true.

(** Every byte, for proofs by enumeration. *)
Definition all_ascii : list ascii := map ascii_of_nat (seq 0 256).

(** ** Vocabulary of the grouping statements *)

#[global] Instance error_eq_dec : EqDecision error.
Proof. solve_decision. Defined.

#[global] Instance result_eq_dec {A} `{EqDecision A} : EqDecision (result A).
Proof. solve_decision. Defined.

(** The records of a chunk that get a key, each with its key. *)
Definition keyed (ti di ai : nat) (rows : list (list string))
    : list (sorter.GroupKey * list string) :=
  omap (fun r => match sorter.key_of ti di ai r with
                 | Ok k => Some (k, r)
                 | Err _ => None
                 end) rows.

(** [groups[key] = append(groups[key], row)] *)
Definition add_row (g : gmap sorter.GroupKey (list (list string)))
    (kr : sorter.GroupKey * list string)
    : gmap sorter.GroupKey (list (list string)) :=
  <[kr.1 := default [] (g !! kr.1) ++ [kr.2]]> g.

(** The records of key [k], in the order of the input. *)
Definition rows_of_key (ti di ai : nat) (k : sorter.GroupKey)
    (records : list (list string)) : list (list string) :=
  filter (fun r => sorter.key_of ti di ai r = Ok k) records.

(** The rows the write loop appends to the file [f] when it visits the
    groups in [order]. *)
Definition appended (f : string)
    (order : list (sorter.GroupKey * list (list string)))
    : list (list string) :=
  concat (map snd (filter (fun kv => sorter.artifact_name kv.1 = f) order)).

(** What a file holds before rows are appended to it: what it held, or
    the header line when it is new. *)
Definition base_content (header : list string)
    (out : gmap string (list (list string))) (f : string)
    : list (list string) :=
  match out !! f with
  | Some old => old
  | None => [header]
  end.

(** The part of the name that comes from the amplitude. *)
Definition amp_suffix (amp : string) : string :=
  if String.eqb amp "no_amp" then "" else amp.

Fixpoint no_unsafe_char (s : string) : bool :=
  match s with
  | EmptyString => true
  | String c s' => negb (sorter.unsafe_char c) && no_unsafe_char s'
  end.

(** Keys whose artifact names tell them apart: a date of ten bytes, no
    byte that [sanitizeFilename] removes in date and design name, and an
    amplitude that is the sentinel or one to three digits. *)
Definition clean_key (k : sorter.GroupKey) : Prop :=
  String.length (sorter.Date k) = 10%nat
  /\ no_unsafe_char (sorter.Date k) = true
  /\ no_unsafe_char (sorter.DesignName k) = true
  /\ (sorter.Amp k = "no_amp"
      \/ (sorter.Amp k <> "" /\ (String.length (sorter.Amp k) <= 3)%nat
          /\ all_digits (sorter.Amp k) = true)).

(** ** Example inputs *)

(** The file of the repository's test [TestReadInvalidFile]. *)
Definition not_a_las_file : list byte := bytes_of_string "NOT A LAS FILE".

(** Some float64 constants, by bit pattern. *)
Definition f_0 : float64 := 0.
Definition f_2_5 : float64 := 0x4004000000000000.            (* 2.5 *)
Definition f_65536 : float64 := 0x40F0000000000000.          (* 65536 *)
Definition f_65536_002 : float64 := 0x40F00000083126E9.      (* 65536.002 *)
Definition f_65536_003 : float64 := 0x40F000000C49BA5E.      (* 65536.003 *)
Definition f_3000000 : float64 := 0x4146E36000000000.        (* 3000000 *)
Definition f_minus_2147483_648 : float64 := 0xC140624DD2F1A9FC.
                                                     (* -2147483.648 *)

Definition point_at (x y z : float64) : las.Point :=
  {| las.X := x; las.Y := y; las.Z_ := z;
     las.Intensity := 0; las.R := 0; las.G := 65535; las.B := 0;
     las.Classification := 1; las.GPSTime := 0 |}.

(** Two points three millimetres apart. *)
Definition near_points : list las.Point :=
  [point_at f_65536 f_0 f_0; point_at f_65536_003 f_0 f_0].

(** Two points three thousand kilometres apart. *)
Definition far_points : list las.Point :=
  [point_at f_0 f_0 f_0; point_at f_3000000 f_0 f_0].

Definition some_day : Time := {| YearDay := 274; Year := 2025 |}.

(** Two records of one day and one amplitude whose design names differ
    in a colon only. *)
Definition sort_header : list string := ["Time"; "DesignName"; "LastAmp"].
Definition record_colon : list string :=
  ["2025/Oct/01 09:30:02.800"; "A:B"; "0.97"].
Definition record_plain : list string :=
  ["2025/Oct/01 09:22:49.600"; "AB"; "0.97"].
Definition colliding_input : list sorter.csv_line :=
  [sorter.Fields sort_header; sorter.Fields record_colon;
   sorter.Fields record_plain].
Definition key_colon : sorter.GroupKey :=
  {| sorter.Date := "2025-10-01"; sorter.DesignName := "A:B";
     sorter.Amp := "097" |}.
Definition key_plain : sorter.GroupKey :=
  {| sorter.Date := "2025-10-01"; sorter.DesignName := "AB";
     sorter.Amp := "097" |}.

(** Three records of two keys, and the directory the sorter makes of
    them. *)
Definition record_later : list string :=
  ["2025/Oct/01 09:30:02.800"; "AB"; "0.97"].
Definition record_next_day : list string :=
  ["2025/Oct/02 10:00:00.000"; "AB"; "0.97"].
Definition key_next_day : sorter.GroupKey :=
  {| sorter.Date := "2025-10-02"; sorter.DesignName := "AB";
     sorter.Amp := "097" |}.
Definition grouping_input : list sorter.csv_line :=
  [sorter.Fields record_plain; sorter.Fields record_next_day;
   sorter.Fields record_later].
Definition grouping_output : gmap string (list (list string)) :=
  <[ "2025-10-02designABamp097.csv" := [sort_header; record_next_day] ]>
    (<[ "2025-10-01designABamp097.csv" :=
          [sort_header; record_plain; record_later] ]> ∅).

(** ** Vocabulary of the statements about bounds *)

(** The maximum [AddPoint] keeps for an axis, and the bounds of an axis
    in a header. *)
Definition axis_max (a : Axis) (w : las.Writer) : float64 :=
  match a with
  | AxisX => las.maxX w | AxisY => las.maxY w | AxisZ => las.maxZ w
  end.

Definition header_min (a : Axis) (h : las.Header) : float64 :=
  match a with
  | AxisX => las.MinX h | AxisY => las.MinY h | AxisZ => las.MinZ h
  end.

Definition header_max (a : Axis) (h : las.Header) : float64 :=
  match a with
  | AxisX => las.MaxX h | AxisY => las.MaxY h | AxisZ => las.MaxZ h
  end.

(** Writing the points to [filename], then opening that file. *)
Definition encode_open (pts : list las.Point) (filename : string)
    (now : Time) (fs : gmap string (list byte)) : result las.Reader :=
  match las.Write (writer_of pts) filename now fs with
  | (Some e, _) => Err e
  | (None, fs') => las.NewReader filename fs'
  end.

(** ** Vocabulary of the statements about the sorter's rows *)

(** A record with a key: its time parses. *)
Definition has_key (ti di ai : nat) (r : list string) : bool :=
  negb (is_err (sorter.key_of ti di ai r)).

(** The rows of all groups. *)
Definition all_rows (g : gmap sorter.GroupKey (list (list string)))
    : list (list string) :=
  concat (map snd (map_to_list g)).

(** The data rows of all files of a directory: every line but the first
    of each. *)
Definition data_rows (out : gmap string (list (list string)))
    : list (list string) :=
  concat (map (fun fc => tail fc.2) (map_to_list out)).

(** The place of the last [c] in a header line. *)
Definition last_column (c : string) (header : list string) (i : nat) : Prop :=
  header !! i = Some c /\ forall j, (i < j)%nat -> header !! j <> Some c.

(** Lines for the examples: a record without a time, and what the rows
    of the grouping example are with it and a line that does not parse
    among them. *)
Definition record_no_time : list string := ["yesterday"; "AB"; "0.97"].
Definition faulty_input : list sorter.csv_line :=
  [sorter.Fields record_plain; sorter.Malformed;
   sorter.Fields record_no_time; sorter.Fields record_later].

(** The directory of the grouping example after the same input was
    sorted into it once more. *)
Definition grouping_output_twice : gmap string (list (list string)) :=
  <[ "2025-10-02designABamp097.csv" :=
       [sort_header; record_next_day; record_next_day] ]>
    (<[ "2025-10-01designABamp097.csv" :=
          [sort_header; record_plain; record_later;
           record_plain; record_later] ]> ∅).


(** ** Package sorter, continued: [SortCSV] with its failures and
    [SortCSVDirectory] *)

(** [SortCSV] as its caller sees it: the rows are grouped and the groups
    written, or grouping fails and the error is returned before anything
    is written. (The input is what the CSV reader makes of the file;
    faults of the file system are not modelled.) *)
Inductive SortCSV (input : list sorter.csv_line) (skipErrors : bool)
    (out : gmap string (list (list string)))
    : option error -> gmap string (list (list string)) -> Prop :=
  | SortCSV_sorted out' :
      sorter.SortCSV_run input skipErrors out out' ->
      SortCSV input skipErrors out None out'
  | SortCSV_failed e :
      sorter.groupRows input skipErrors = Err e ->
      SortCSV input skipErrors out (Some e) out.

(** The errors of [SortCSVDirectory]: no file matched, or (without
    [skipErrors]) the error of a file, with the file's name. *)
Inductive dir_error :=
  | ErrNoCSVFiles
  | ErrProcessing (file : string) (e : error).

(** The loop of [SortCSVDirectory] over the files that matched, each
    with its name and its content: with [skipErrors] a file that fails
    is passed over, without it the loop returns its error. *)
Inductive SortCSVDirectory_loop (skipErrors : bool)
    : list (string * list sorter.csv_line) ->
      gmap string (list (list string)) ->
      option dir_error -> gmap string (list (list string)) -> Prop :=
  | loop_end out : SortCSVDirectory_loop skipErrors [] out None out
  | loop_sorted name input files out out1 res out' :
      SortCSV input skipErrors out None out1 ->
      SortCSVDirectory_loop skipErrors files out1 res out' ->
      SortCSVDirectory_loop skipErrors ((name, input) :: files) out res out'
  | loop_continue name input files out e out1 res out' :
      skipErrors = true ->
      SortCSV input skipErrors out (Some e) out1 ->
      SortCSVDirectory_loop skipErrors files out1 res out' ->
      SortCSVDirectory_loop skipErrors ((name, input) :: files) out res out'
  | loop_return name input files out e out1 :
      skipErrors = false ->
      SortCSV input skipErrors out (Some e) out1 ->
      SortCSVDirectory_loop skipErrors ((name, input) :: files) out
        (Some (ErrProcessing name e)) out1.

(** [SortCSVDirectory] on the files [filepath.Glob] found. *)
Definition SortCSVDirectory (files : list (string * list sorter.csv_line))
    (skipErrors : bool) (out : gmap string (list (list string)))
    (res : option dir_error) (out' : gmap string (list (list string)))
    : Prop :=
  match files with
  | [] => res = Some ErrNoCSVFiles /\ out' = out
  | _ => SortCSVDirectory_loop skipErrors files out res out'
  end.


Definition sorts (skipErrors : bool)
    (file : string * list sorter.csv_line) : Prop :=
  is_err (sorter.groupRows file.2 skipErrors) = false.

(** ** Package time, continued: the two layouts of the converter and
    [Time.Unix]

    [converter.parseTimeToGPS] calls
    [time.Parse("2006/Jan/02 15:04:05.000", s)] and, when that fails,
    [time.Parse("2006/Jan/02 15:04:05", s)]. Up to the seconds the
    elements of both layouts are those of the sorter's layout; they
    differ in what follows the seconds. [Parse_with] is the library's
    loop unrolled as in [time.Parse], with that last part as a
    parameter. *)

Module gotime.

(** The stdFracSecond0 element with three digits: the separator and
    exactly three more bytes are taken, and they must read as a number
    that is not negative. *)
Definition fracSecond0 (value : string) : option (Z * string) :=
  let ndigit := 4%nat in
  if (String.length value <? ndigit)%nat then None
  else
    match time.parseNanoseconds value ndigit with
    | None => None
    | Some nsec => Some (nsec, time.drop_bytes ndigit value)
    end.

(** The end of the stdZeroSecond element in a layout without a
    fraction: a fractional second in the value is read all the same. *)
Definition fracSecondInValue (value : string) : option (Z * string) :=
  match value with
  | String c0 (String c1 _) =>
      if time.commaOrPeriod c0 && time.is_digit c1 then
        let n := (2 + time.count_digits (time.drop_bytes 2 value))%nat in
        match time.parseNanoseconds value n with
        | None => None
        | Some nsec => Some (nsec, time.drop_bytes n value)
        end
      else Some (0, value)
  | _ => Some (0, value)
  end.

(** [time.Parse] for a layout ["2006/Jan/02 15:04:05"] followed by a
    fraction element or by nothing; [frac] reads what follows the
    seconds. *)
Definition Parse_with (frac : string -> option (Z * string))
    (value : string) : option time.Time :=
  (* stdLongYear *)
  if (String.length value <? 4)%nat || negb (time.isDigit value 0)
  then None else
  year ← time.atoi (String.substring 0 4 value);
  let value := time.drop_bytes 4 value in
  value ← time.skip value "/";
  (* stdMonth *)
  '(month, value) ← time.lookup time.shortMonthNames value;
  let month := month + 1 in
  value ← time.skip value "/";
  (* stdZeroDay *)
  '(day, value) ← time.getnum value true;
  value ← time.skip value " ";
  (* stdHour *)
  '(hour, value) ← time.getnum value false;
  if (hour <? 0) || (24 <=? hour) then None else
  value ← time.skip value ":";
  (* stdZeroMinute *)
  '(min, value) ← time.getnum value true;
  if (min <? 0) || (60 <=? min) then None else
  value ← time.skip value ":";
  (* stdZeroSecond *)
  '(sec, value) ← time.getnum value true;
  if (sec <? 0) || (60 <=? sec) then None else
  (* the fraction *)
  '(nsec, value) ← frac value;
  (* end of layout: extra text *)
  if (0 <? String.length value)%nat then None else
  (* the day of the month *)
  if (day <? 1) || (time.daysIn month year <? day) then None else
  Some {| time.Year := year; time.Month := month; time.Day := day;
          time.Hour := hour; time.Minute := min; time.Second := sec;
          time.Nanosecond := nsec |}.

(** [time.Parse("2006/Jan/02 15:04:05.000", value)] *)
Definition Parse_millis : string -> option time.Time :=
  Parse_with fracSecond0.

(** [time.Parse("2006/Jan/02 15:04:05", value)] *)
Definition Parse_seconds : string -> option time.Time :=
  Parse_with fracSecondInValue.

Definition secondsPerMinute : Z := 60.
Definition secondsPerHour : Z := 60 * secondsPerMinute.
Definition secondsPerDay : Z := 24 * secondsPerHour.
Definition daysPer400Years : Z := 365 * 400 + 97.
Definition daysPer100Years : Z := 365 * 100 + 24.
Definition daysPer4Years : Z := 365 * 4 + 1.

(** [daysBefore[month - 1]]: the days of a common year before the
    month. *)
Definition daysBefore (month : Z) : Z :=
  match month with
  | 1 => 0
  | 2 => 31
  | 3 => 31 + 28
  | 4 => 31 + 28 + 31
  | 5 => 31 + 28 + 31 + 30
  | 6 => 31 + 28 + 31 + 30 + 31
  | 7 => 31 + 28 + 31 + 30 + 31 + 30
  | 8 => 31 + 28 + 31 + 30 + 31 + 30 + 31
  | 9 => 31 + 28 + 31 + 30 + 31 + 30 + 31 + 31
  | 10 => 31 + 28 + 31 + 30 + 31 + 30 + 31 + 31 + 30
  | 11 => 31 + 28 + 31 + 30 + 31 + 30 + 31 + 31 + 30 + 31
  | _ => 31 + 28 + 31 + 30 + 31 + 30 + 31 + 31 + 30 + 31 + 30
  end.

(** [daysSinceEpoch(year)], counted from January 1 of the year 1: the
    library counts from a year that lies a multiple of 400 years before
    the year 1 and subtracts the difference again. *)
Definition daysSinceEpoch (year : Z) : Z :=
  let y := year - 1 in
  (* 400-year cycles *)
  let n := y / 400 in
  let y := y - 400 * n in
  let d := daysPer400Years * n in
  (* 100-year cycles *)
  let n := y / 100 in
  let y := y - 100 * n in
  let d := d + daysPer100Years * n in
  (* 4-year cycles *)
  let n := y / 4 in
  let y := y - 4 * n in
  let d := d + daysPer4Years * n in
  (* the years that are left *)
  d + 365 * y.

(** The seconds from January 1 of the year 1 to the Unix epoch. *)
Definition unixToInternal : Z :=
  (1969 * 365 + 1969 / 4 - 1969 / 100 + 1969 / 400) * secondsPerDay.

(** [t.Unix()] for a time [time.Date] made in UTC from fields that are
    in range, as [Parse] leaves them. *)
Definition Unix (t : time.Time) : Z :=
  let d := daysSinceEpoch (time.Year t) in
  let d := d + daysBefore (time.Month t) in
  let d :=
    if time.isLeap (time.Year t) && (3 <=? time.Month t) then d + 1 else d in
  let d := d + (time.Day t - 1) in
  let abs := d * secondsPerDay in
  let abs :=
    abs + (time.Hour t * secondsPerHour + time.Minute t * secondsPerMinute
           + time.Second t) in
  abs - unixToInternal.

End gotime.

(** ** Package strconv *)

Module strconv.

(** The value of a string of decimal digits, if it is one. *)
Fixpoint digits_from (n : Z) (s : string) : option Z :=
  match s with
  | EmptyString => Some n
  | String ch s' =>
      if time.is_digit ch then digits_from (n * 10 + time.digit_val ch) s'
      else None
  end.

(** [strconv.Atoi] on a platform whose [int] has 64 bits: an optional
    sign and one or more decimal digits; a value outside the range of
    [int] is an error. *)
Definition Atoi (s : string) : option Z :=
  match s with
  | EmptyString => None
  | String c0 rest =>
      let neg := Ascii.eqb c0 "-"%char in
      let digits :=
        if Ascii.eqb c0 "-"%char || Ascii.eqb c0 "+"%char then rest else s in
      match digits with
      | EmptyString => None
      | _ =>
          match digits_from 0 digits with
          | None => None
          | Some n =>
              let n := if neg then - n else n in
              if (- 2 ^ 63 <=? n) && (n <? 2 ^ 63) then Some n else None
          end
      end
  end.

End strconv.

(** ** Package path/filepath *)

Module filepath.

Definition IsPathSeparator (c : Ascii.ascii) : bool := Ascii.eqb c "/"%char.

(** The bytes after the separators at the front, and the bytes before
    the first separator. (The path is walked from its end.) *)
Fixpoint dropwhile_sep (l : list Ascii.ascii) : list Ascii.ascii :=
  match l with
  | c :: l' => if IsPathSeparator c then dropwhile_sep l' else l
  | [] => []
  end.

Fixpoint takewhile_nosep (l : list Ascii.ascii) : list Ascii.ascii :=
  match l with
  | c :: l' => if IsPathSeparator c then [] else c :: takewhile_nosep l'
  | [] => []
  end.

(** [Base] on a system whose separator is the slash: the last element
    of the path, after the slashes at its end are dropped. *)
Definition Base (path : string) : string :=
  if String.eqb path "" then "."
  else
    let p := rev (list_ascii_of_string path) in
    (* strip trailing slashes *)
    let p := dropwhile_sep p in
    (* the last element *)
    let b := string_of_list_ascii (rev (takewhile_nosep p)) in
    (* only slashes *)
    if String.eqb b "" then "/" else b.

End filepath.

(** ** Package converter, continued: from CSV rows to a LAS file *)

Module convert.

(** [float64(1e9)] *)
Definition f_1e9 : float64 := 0x41CDCD6500000000.

(** The value [parseTimeToGPS] makes of a parsed time. *)
Definition gps (t : time.Time) : float64 :=
  f64.add (f64.of_int (gotime.Unix t))
          (f64.div (f64.of_int (time.Nanosecond t)) f_1e9).

(** [parseTimeToGPS] *)
Definition parseTimeToGPS (timeStr : string) : result float64 :=
  match gotime.Parse_millis timeStr with
  | Some t => Ok (gps t)
  | None =>
      match gotime.Parse_seconds timeStr with
      | Some t => Ok (gps t)
      | None => Err ErrInvalidTime
      end
  end.

(** The errors [ConvertCSVToLAS] returns. *)
Inductive convert_error :=
  | ErrOpenCSV
  | ErrReadCSV
  | ErrEmptyCSV
  | ErrColumn (col : string)
  | ErrRowValue (row : nat) (col : string)
  | ErrWriteLAS (e : error).

(** How a call ends: it returns, with an error or without and with the
    output directory as it is then, or it panics. *)
Inductive outcome :=
  | Returned (err : option convert_error) (fs : gmap string (list byte))
  | Panicked.

(** [csv.Reader.ReadAll]: all records, or an error when a line does not
    parse or has another number of fields than the first. *)
Definition ReadAll (lines : list sorter.csv_line)
    : option (list (list string)) :=
  match lines with
  | [] => Some []
  | sorter.Fields header :: rest =>
      rows ← mapM (sorter.csv_Read (length header)) rest;
      Some (header :: rows)
  | sorter.Malformed :: _ => None
  end.

Definition required : list string :=
  ["Time"; "CellE_m"; "CellN_m"; "Elevation_m"; "PassCount";
   "TargPassCount"].

(** The first required column that the header does not have. *)
Fixpoint missing_column (header : list string) (cols : list string)
    : option string :=
  match cols with
  | [] => None
  | col :: cols' =>
      match sorter.colMap header col with
      | None => Some col
      | Some _ => missing_column header cols'
      end
  end.

(** [row[colMap[col]]] *)
Definition column (header row : list string) (col : string) : string :=
  sorter.field row (default 0%nat (sorter.colMap header col)).

Section WithParseFloat.

(** [strconv.ParseFloat(s, 64)]: the value, or nothing when it returns
    an error. *)
Variable ParseFloat : string -> option float64.

(** The body of the loop over the rows: the point of a row, or the
    column whose value is not valid. *)
Definition parseRow (header row : list string) : string + las.Point :=
  match parseTimeToGPS (column header row "Time") with
  | Err _ => inl "Time"
  | Ok gpsTime =>
  match ParseFloat (column header row "CellE_m") with
  | None => inl "CellE_m"
  | Some x =>
  match ParseFloat (column header row "CellN_m") with
  | None => inl "CellN_m"
  | Some y =>
  match ParseFloat (column header row "Elevation_m") with
  | None => inl "Elevation_m"
  | Some z =>
  match strconv.Atoi (column header row "PassCount") with
  | None => inl "PassCount"
  | Some passCount =>
  match strconv.Atoi (column header row "TargPassCount") with
  | None => inl "TargPassCount"
  | Some targPass =>
      let '(r, g, b) := converter.determineColor passCount targPass in
      inr {| las.X := x; las.Y := y; las.Z_ := z;
             las.R := r; las.G := g; las.B := b;
             las.Intensity := 0;
             las.Classification := 1;
             las.GPSTime := gpsTime |}
  end end end end end end.

(** The loop over [records[i]], [i >= 1]. *)
Fixpoint parseRows (header : list string) (i : nat)
    (rows : list (list string)) (writer : las.Writer)
    : convert_error + las.Writer :=
  match rows with
  | [] => inr writer
  | row :: rows' =>
      match parseRow header row with
      | inl col => inl (ErrRowValue (i + 1) col)
      | inr p => parseRows header (S i) rows' (las.AddPoint writer p)
      end
  end.

(** [ConvertCSVToLAS]. [inputs] holds for every path that can be opened
    what the CSV reader makes of the file; [fs] is the output directory,
    a file name to its bytes. The directory itself, which [os.MkdirAll]
    makes once the columns are checked and before the first row is
    parsed, is no entry of [fs]: a conversion that fails at a row leaves
    the directory behind and no file in it. The errors of [os.MkdirAll]
    and of the writer's [os.Create], [Write] and [Close] are faults of
    the operating system and have no case here; of the writer's errors
    only the one for an empty list of points has. *)
Definition ConvertCSVToLAS (csvPath : string) (now : Time)
    (inputs : gmap string (list sorter.csv_line))
    (fs : gmap string (list byte)) : outcome :=
  match inputs !! csvPath with
  | None => Returned (Some ErrOpenCSV) fs
  | Some lines =>
  match ReadAll lines with
  | None => Returned (Some ErrReadCSV) fs
  | Some records =>
  if (length records <? 2)%nat then Returned (Some ErrEmptyCSV) fs else
  let header := default [] (head records) in
  match missing_column header required with
  | Some col => Returned (Some (ErrColumn col)) fs
  | None =>
  match parseRows header 1 (tail records) las.NewWriter with
  | inl e => Returned (Some e) fs
  | inr writer =>
  let baseName := filepath.Base csvPath in
  if (String.length baseName <? 4)%nat then Panicked else
  let lasName :=
    String.substring 0 (String.length baseName - 4) baseName +:+ ".las" in
  match las.Write writer lasName now fs with
  | (Some e, fs) => Returned (Some (ErrWriteLAS e)) fs
  | (None, fs) => Returned None fs
  end end end end end.

(** The errors of [ConvertDirectory]. *)
Inductive directory_error :=
  | ErrNoCSV
  | ErrConverting (file : string) (e : convert_error).

(** How [ConvertDirectory] ends: with the number of files converted, an
    error or none, and the output directory; or in a panic. *)
Inductive directory_outcome :=
  | DirReturned (successCount : nat) (err : option directory_error)
      (fs : gmap string (list byte))
  | DirPanicked.

(** The loop of [ConvertDirectory]. *)
Fixpoint convertFiles (files : list string) (now : Time)
    (inputs : gmap string (list sorter.csv_line)) (successCount : nat)
    (fs : gmap string (list byte)) : directory_outcome :=
  match files with
  | [] => DirReturned successCount None fs
  | csvFile :: files' =>
      match ConvertCSVToLAS csvFile now inputs fs with
      | Panicked => DirPanicked
      | Returned (Some e) fs =>
          DirReturned successCount
            (Some (ErrConverting (filepath.Base csvFile) e)) fs
      | Returned None fs =>
          convertFiles files' now inputs (S successCount) fs
      end
  end.

(** [ConvertDirectory] on the files [filepath.Glob] found. *)
Definition ConvertDirectory (files : list string) (now : Time)
    (inputs : gmap string (list sorter.csv_line))
    (fs : gmap string (list byte)) : directory_outcome :=
  if (length files =? 0)%nat then DirReturned 0 (Some ErrNoCSV) fs
  else convertFiles files now inputs 0 fs.

End WithParseFloat.

End convert.

(** ** Example inputs of the converter *)

(** A [ParseFloat] that knows three numbers. *)
Definition example_ParseFloat (s : string) : option float64 :=
  if String.eqb s "1.5" then Some 0x3FF8000000000000
  else if String.eqb s "2" then Some 0x4000000000000000
  else if String.eqb s "100.25" then Some 0x4059100000000000
  else None.

Definition convert_header : list string :=
  ["Time"; "CellE_m"; "CellN_m"; "Elevation_m"; "PassCount";
   "TargPassCount"].
Definition row_under : list string :=
  ["2025/Oct/01 09:31:49.500"; "1.5"; "2"; "100.25"; "3"; "4"].
Definition row_at : list string :=
  ["2025/Oct/01 09:31:50"; "2"; "1.5"; "100.25"; "4"; "4"].
Definition row_invalid : list string :=
  ["2025/Oct/01 09:31:51.000"; "2"; "north"; "100.25"; "4"; "4"].

Definition point_under : las.Point :=
  {| las.X := 0x3FF8000000000000; las.Y := 0x4000000000000000;
     las.Z_ := 0x4059100000000000;
     las.Intensity := 0; las.R := 65535; las.G := 0; las.B := 0;
     las.Classification := 1; las.GPSTime := 0x41DA373D41600000 |}.
Definition point_at_target : las.Point :=
  {| las.X := 0x4000000000000000; las.Y := 0x3FF8000000000000;
     las.Z_ := 0x4059100000000000;
     las.Intensity := 0; las.R := 0; las.G := 65535; las.B := 0;
     las.Classification := 1; las.GPSTime := 0x41DA373D41800000 |}.

Definition good_csv : list sorter.csv_line :=
  [sorter.Fields convert_header; sorter.Fields row_under;
   sorter.Fields row_at].
Definition bad_csv : list sorter.csv_line :=
  [sorter.Fields convert_header; sorter.Fields row_under;
   sorter.Fields row_invalid].

(** What a point holds of its row besides the coordinates: no
    intensity, class 1, the GPS time of the row's time and the colour of
    its two counts. *)
Definition row_attributes (header row : list string) (q : las.Point)
    : Prop :=
  las.Intensity q = 0 /\ las.Classification q = 1
  /\ convert.parseTimeToGPS (convert.column header row "Time")
     = Ok (las.GPSTime q)
  /\ exists passCount targPass,
       strconv.Atoi (convert.column header row "PassCount") = Some passCount
       /\ strconv.Atoi (convert.column header row "TargPassCount")
          = Some targPass
       /\ (las.R q, las.G q, las.B q)
          = converter.determineColor passCount targPass.

(** ** The command-line converter (package main of the CLI tool)

    Its [convertCSVtoLAS] does without the Time column and leaves the
    GPS time of the points at zero; with [skipErrors] it passes over the
    rows that have an invalid value. *)

Module cli.

(** The tool's own [Point]. *)
Record Point := {
  X : float64; Y : float64; Z_ : float64;
  R : Z; G : Z; B : Z;
  PassCount : Z; TargetPass : Z
}.

Definition required : list string :=
  ["CellE_m"; "CellN_m"; "Elevation_m"; "PassCount"; "TargPassCount"].

Section WithParseFloat.

Variable ParseFloat : string -> option float64.

(** The body of the loop over the rows: the point of a row, or the
    column whose value is not valid. *)
Definition parseRow (header row : list string) : string + Point :=
  match ParseFloat (convert.column header row "CellE_m") with
  | None => inl "CellE_m"
  | Some x =>
  match ParseFloat (convert.column header row "CellN_m") with
  | None => inl "CellN_m"
  | Some y =>
  match ParseFloat (convert.column header row "Elevation_m") with
  | None => inl "Elevation_m"
  | Some z =>
  match strconv.Atoi (convert.column header row "PassCount") with
  | None => inl "PassCount"
  | Some passCount =>
  match strconv.Atoi (convert.column header row "TargPassCount") with
  | None => inl "TargPassCount"
  | Some targPass =>
      let '(r, g, b) :=
        if passCount <? targPass then (65535, 0, 0)
        else if passCount =? targPass then (0, 65535, 0)
        else (0, 0, 65535) in
      inr {| X := x; Y := y; Z_ := z; R := r; G := g; B := b;
             PassCount := passCount; TargetPass := targPass |}
  end end end end end.

(** The loop over [records[i]], [i >= 1]: the points and the number of
    rows skipped. *)
Fixpoint parseRows (skipErrors : bool) (header : list string) (i : nat)
    (rows : list (list string)) (points : list Point) (skippedRows : nat)
    : convert.convert_error + (list Point * nat) :=
  match rows with
  | [] => inr (points, skippedRows)
  | row :: rows' =>
      match parseRow header row with
      | inl col =>
          if skipErrors
          then parseRows skipErrors header (S i) rows' points (S skippedRows)
          else inl (convert.ErrRowValue (i + 1) col)
      | inr p =>
          parseRows skipErrors header (S i) rows' (points ++ [p]) skippedRows
      end
  end.

(** The point handed to the writer. *)
Definition las_point (pt : Point) : las.Point :=
  {| las.X := X pt; las.Y := Y pt; las.Z_ := Z_ pt;
     las.R := R pt; las.G := G pt; las.B := B pt;
     las.Intensity := 0;
     las.Classification := 1;
     las.GPSTime := 0 |}.

(** [convertCSVtoLAS]; the error of the writer is returned as it is. *)
Definition convertCSVtoLAS (csvPath : string) (skipErrors : bool)
    (now : Time) (inputs : gmap string (list sorter.csv_line))
    (fs : gmap string (list byte)) : convert.outcome :=
  match inputs !! csvPath with
  | None => convert.Returned (Some convert.ErrOpenCSV) fs
  | Some lines =>
  match convert.ReadAll lines with
  | None => convert.Returned (Some convert.ErrReadCSV) fs
  | Some records =>
  if (length records <? 2)%nat
  then convert.Returned (Some convert.ErrEmptyCSV) fs else
  let header := default [] (head records) in
  match convert.missing_column header required with
  | Some col => convert.Returned (Some (convert.ErrColumn col)) fs
  | None =>
  match parseRows skipErrors header 1 (tail records) [] 0 with
  | inl e => convert.Returned (Some e) fs
  | inr (points, _) =>
  if (String.length csvPath <? 4)%nat then convert.Panicked else
  let outputName :=
    filepath.Base
      (String.substring 0 (String.length csvPath - 4) csvPath +:+ ".las") in
  let writer :=
    foldl (fun w pt => las.AddPoint w (las_point pt)) las.NewWriter points in
  match las.Write writer outputName now fs with
  | (Some e, fs) => convert.Returned (Some (convert.ErrWriteLAS e)) fs
  | (None, fs) => convert.Returned None fs
  end end end end end.

(** The loop of [main] over the files: the count it prints at the end,
    or nothing when a conversion panics. A file that fails is passed
    over without [skipErrors]; with it the loop goes on to count the
    file. [fs] holds the LAS files of the output directory, which the
    conversions write one after the other; [err.log], which [main]
    makes beside them with [skipErrors] and where it notes every file
    that failed, is not among them, and the loop says nothing of it. *)
Fixpoint convertAll (files : list string) (skipErrors : bool) (now : Time)
    (inputs : gmap string (list sorter.csv_line)) (successCount : nat)
    (fs : gmap string (list byte)) : option nat :=
  match files with
  | [] => Some successCount
  | csvFile :: files' =>
      match convertCSVtoLAS csvFile skipErrors now inputs fs with
      | convert.Panicked => None
      | convert.Returned (Some _) fs =>
          if negb skipErrors
          then convertAll files' skipErrors now inputs successCount fs
          else convertAll files' skipErrors now inputs (S successCount) fs
      | convert.Returned None fs =>
          convertAll files' skipErrors now inputs (S successCount) fs
      end
  end.

End WithParseFloat.

End cli.

(** ** The converter of the window application (package main of the
    GUI) *)

Module gui.

Section WithParseFloat.

Variable ParseFloat : string -> option float64.

(** The loop over [records[i]], [i >= 1]. *)
Fixpoint parseRows (header : list string) (i : nat)
    (rows : list (list string)) (points : list cli.Point)
    : convert.convert_error + list cli.Point :=
  match rows with
  | [] => inr points
  | row :: rows' =>
      match cli.parseRow ParseFloat header row with
      | inl col => inl (convert.ErrRowValue (i + 1) col)
      | inr p => parseRows header (S i) rows' (points ++ [p])
      end
  end.

(** [convertCSVtoLAS] *)
Definition convertCSVtoLAS (csvPath : string) (now : Time)
    (inputs : gmap string (list sorter.csv_line))
    (fs : gmap string (list byte)) : convert.outcome :=
  match inputs !! csvPath with
  | None => convert.Returned (Some convert.ErrOpenCSV) fs
  | Some lines =>
  match convert.ReadAll lines with
  | None => convert.Returned (Some convert.ErrReadCSV) fs
  | Some records =>
  if (length records <? 2)%nat
  then convert.Returned (Some convert.ErrEmptyCSV) fs else
  let header := default [] (head records) in
  match convert.missing_column header cli.required with
  | Some col => convert.Returned (Some (convert.ErrColumn col)) fs
  | None =>
  match parseRows header 1 (tail records) [] with
  | inl e => convert.Returned (Some e) fs
  | inr points =>
  if (String.length csvPath <? 4)%nat then convert.Panicked else
  let outputName :=
    filepath.Base
      (String.substring 0 (String.length csvPath - 4) csvPath +:+ ".las") in
  let writer :=
    foldl (fun w pt => las.AddPoint w (cli.las_point pt)) las.NewWriter
          points in
  match las.Write writer outputName now fs with
  | (Some e, fs) => convert.Returned (Some (convert.ErrWriteLAS e)) fs
  | (None, fs) => convert.Returned None fs
  end end end end end.

End WithParseFloat.

End gui.

(** The points of the rows that the command-line converter can read, in
    the order of the rows. *)
Definition cli_valid_points (ParseFloat : string -> option float64)
    (header : list string) (rows : list (list string)) : list cli.Point :=
  omap (fun row => match cli.parseRow ParseFloat header row with
                   | inr p => Some p
                   | inl _ => None
                   end) rows.

(** The name the command-line converter gives the LAS file. *)
Definition cli_output_name (csvPath : string) : string :=
  filepath.Base
    (String.substring 0 (String.length csvPath - 4) csvPath +:+ ".las").

(** ** Vocabulary of the statements about exact coordinates *)

(** A value that is a number: a zero, a subnormal or a normal one. *)
Definition is_finite (x : float64) : bool :=
  match f64.to_sf x with
  | S754_zero _ | S754_finite _ _ _ => true
  | _ => false
  end.

(** The bits of [-0.0]. *)
Definition negative_zero : float64 := 2 ^ 63.

(** An amplitude text that is dots and nothing else. *)
Fixpoint all_dots (s : string) : bool :=
  match s with
  | EmptyString => true
  | String c s' => Ascii.eqb c "."%char && all_dots s'
  end.

(** ** The bytes of a file that the reader looks at

    [readHeader] compares bytes 0 to 3 with the signature; of the header
    fields it fills, [ReadPoints], [readPointsFormat2] and
    [readPointsFormat3] use the format id (byte 104), the point count
    (bytes 107 to 110) and the scales and offsets (bytes 131 to 178); the
    records are read from byte 227 on. *)
Definition used_by_reader (i : nat) : bool :=
  (i <? 4)%nat || (i =? 104)%nat || ((107 <=? i)%nat && (i <? 111)%nat)
  || ((131 <=? i)%nat && (i <? 179)%nat) || (227 <=? i)%nat.


(** ** The reader and the memory of the machine

    [readPointsFormat2] and [readPointsFormat3] begin with
    [make([]Point, 0, r.header.PointCount)], before the first record is
    read. The count is what the file says. When the runtime cannot
    provide a slice of that capacity the program ends there (the fatal
    error "out of memory", or the panic "makeslice: cap out of range")
    and nothing is returned. Which capacities it can provide depends on
    the machine: [can_allocate]. [las.readPointsFormat2] and
    [las.readPointsFormat3] are the two functions from the loop on, and
    [las.ReadPoints] is [ReadPoints] where the slice is provided. *)

Module machine.

(** How a call ends. *)
Inductive outcome (A : Type) :=
  | Returns (a : A)
  | Dies.
Arguments Returns {A} a.
Arguments Dies {A}.

Section WithMemory.

Variable can_allocate : nat -> bool.

Definition readPointsFormat2 (r : las.Reader)
    : outcome (result (list las.Point) * las.Reader) :=
  if can_allocate (Z.to_nat (las.PointCount (las.header r)))
  then Returns (las.readPointsFormat2 r)
  else Dies.

Definition readPointsFormat3 (r : las.Reader)
    : outcome (result (list las.Point) * las.Reader) :=
  if can_allocate (Z.to_nat (las.PointCount (las.header r)))
  then Returns (las.readPointsFormat3 r)
  else Dies.

(** [Reader.ReadPoints] *)
Definition ReadPoints (r : las.Reader)
    : outcome (result (list las.Point) * las.Reader) :=
  let r := {| las.file := Seek (las.file r) 227; las.header := las.header r |} in
  if las.PointFormat (las.header r) =? 2 then readPointsFormat2 r
  else if las.PointFormat (las.header r) =? 3 then readPointsFormat3 r
  else Returns (Err (ErrUnsupportedFormat (las.PointFormat (las.header r))), r).

End WithMemory.

End machine.

(** ** Vocabulary of the statements about the decoder

    The fields of a file [data], each by its place: those of the header,
    and those of record [i] where a record has [len] bytes. *)
Definition header_format (data : list byte) : Z :=
  byte.unsigned (byte_at data 104).

Definition header_count (data : list byte) : nat :=
  Z.to_nat (LittleEndian.Uint32 (slice 107 111 data)).

Definition record_int32 (len : nat) (data : list byte) (i lo : nat) : Z :=
  let at_ := (227 + len * i + lo)%nat in
  int32_of_uint32 (LittleEndian.Uint32 (slice at_ (at_ + 4) data)).

Definition record_uint16 (len : nat) (data : list byte) (i lo : nat) : Z :=
  let at_ := (227 + len * i + lo)%nat in
  LittleEndian.Uint16 (slice at_ (at_ + 2) data).

Definition record_byte (len : nat) (data : list byte) (i lo : nat) : Z :=
  byte.unsigned (byte_at data (227 + len * i + lo)).

Definition record_float64 (len : nat) (data : list byte) (i lo : nat)
    : float64 :=
  let at_ := (227 + len * i + lo)%nat in
  f64.Float64frombits (LittleEndian.Uint64 (slice at_ (at_ + 8) data)).

(** What the point [p] holds of record [i], where the colour begins at
    byte [colour] of a record: the intensity of bytes 12 and 13, the
    class of byte 15, the three colour values, and on every axis the
    stored integer times the scale of the header plus its offset. The
    coordinates are stated for a scale and an offset that are numbers. *)
Definition record_fields (len colour : nat) (data : list byte) (i : nat)
    (p : las.Point) : Prop :=
  las.Intensity p = record_uint16 len data i 12
  /\ las.Classification p = record_byte len data i 15
  /\ las.R p = record_uint16 len data i colour
  /\ las.G p = record_uint16 len data i (colour + 2)
  /\ las.B p = record_uint16 len data i (colour + 4)
  /\ forall a : Axis,
       is_finite (header_scale a data) = true ->
       is_finite (header_offset a data) = true ->
       coord a p
       = f64.add
           (f64.mul (f64.of_int (record_int32 len data i (4 * axis_index a)))
                    (header_scale a data))
           (header_offset a data).

(** A file with the header of [near_points] that says it has a million
    points more. *)
Definition overcounted_file : list byte :=
  copy_at 107 (LittleEndian.PutUint32 1000002)
    (artifact (writer_of near_points) some_day).

(** ** Vocabulary of the statements about the values of a row *)



(** ** Vocabulary of the statements about rounding

    [SpecFloat] rounds a magnitude [m * 2 ^ e] in two steps: the
    mantissa is shifted to the exponent [fexp64] gives its size, and the
    bits shifted out decide whether one is added. *)

(** A shift that lost nothing. *)
Definition shr_exact (mrs : shr_record) : Prop :=
  shr_r mrs = false /\ shr_s mrs = false.

(** The exponent function of binary64. *)
Definition fexp64 (e : Z) : Z := Z.max (e - 53) (-1074).

(** The float64 of sign [s] and magnitude [m * 2 ^ e], for a mantissa
    of at most 53 bits or the next power of two. *)
Definition rounded (s : bool) (m e : Z) : spec_float :=
  let '(m', e') := if m =? 2 ^ 53 then (2 ^ 52, e + 1) else (m, e) in
  match m' with
  | Zpos p => if e' <=? 971 then S754_finite s p e' else S754_infinity s
  | _ => S754_zero s
  end.

(** The mantissas and exponents of binary64 values. *)
Definition bounded64 (m : positive) (e : Z) : Prop :=
  Zpos m < 2 ^ 53 /\ -1074 <= e <= 971 /\ (2 ^ 52 <= Zpos m \/ e = -1074).

(** ** The real numbers that float64 values are *)

Section real_values.

Import Rdefinitions Raxioms RIneq Rbasic_fun Rfunctions.

(** [2 ^ e] for an integer [e]. *)
Definition pow2 (e : Z) : R := powerRZ 2 e.

(** The number a value is; zero stands for the values that are not
    numbers. *)
Definition SF2R (f : spec_float) : R :=
  match f with
  | S754_finite s m e => (IZR (cond_Zopp s (Zpos m)) * pow2 e)%R
  | _ => 0%R
  end.

Definition real_value (x : float64) : R := SF2R (f64.to_sf x).

(** The largest float64 as a number. *)
Definition max_float : R := ((pow2 53 - 1) * pow2 971)%R.

End real_values.

(** A value that is a number. *)
Definition finite_sf (f : spec_float) : bool :=
  match f with
  | S754_zero _ | S754_finite _ _ _ => true
  | _ => false
  end.

(** A value with a mantissa and an exponent of binary64. *)
Definition valid_sf (f : spec_float) : Prop :=
  match f with
  | S754_finite _ m e => bounded64 m e
  | _ => True
  end.

Section rounding_vocabulary.

Import Rdefinitions Raxioms RIneq Rbasic_fun Rfunctions.

(** [r] is what an operation makes of the number [z]: a value of
    binary64 that is no NaN and, when it is a number, lies within the
    relative error [2 ^ -52] and the absolute error [eta] of [z], on
    the same side of zero. *)
Definition rounding_of (eta z : R) (r : spec_float) : Prop :=
  valid_sf r /\ r <> S754_nan
  /\ (finite_sf r = true ->
      (Rabs (SF2R r - z) <= pow2 (-52) * Rabs z + eta)%R
      /\ ((0 <= z)%R -> (0 <= SF2R r)%R)
      /\ ((z <= 0)%R -> (SF2R r <= 0)%R)).

End rounding_vocabulary.

(** The scaled difference of a coordinate [v] and the offset [off] has
    an integer part, and that fits the 32 bits [Write] stores. *)
Definition quotient_fits (v off : float64) : bool :=
  match f64.trunc (f64.to_sf (f64.div (f64.sub v off) las.scale)) with
  | Some z => f64.in_int32 z
  | None => false
  end.

(** * Properties *)

(** ** Slices of byte buffers *)

Section slices.

Context {A : Type}.
Implicit Types (l src dst : list A) (lo hi off i : nat).

Lemma slice_lookup lo hi l i :
  slice lo hi l !! i = if decide (i < hi - lo)%nat then l !! (lo + i)%nat else None.
Proof.
  unfold slice. destruct (decide (i < hi - lo)%nat).
  - by rewrite lookup_take_lt, lookup_drop.
  - apply lookup_take_ge. lia.
Qed.

Lemma length_copy_at off src dst : length (copy_at off src dst) = length dst.
Proof. apply length_inserts. Qed.

Lemma slice_copy_at_same lo hi src dst :
  length src = (hi - lo)%nat -> (hi <= length dst)%nat ->
  slice lo hi (copy_at lo src dst) = src.
Proof.
  intros Hlen Hhi. apply list_eq. intros i. rewrite slice_lookup.
  destruct (decide (i < hi - lo)%nat) as [Hi|Hi].
  - unfold copy_at. rewrite list_lookup_inserts by lia.
    f_equal. lia.
  - symmetry. apply lookup_ge_None. lia.
Qed.

Lemma slice_copy_at_other lo hi off src dst :
  (hi <= off \/ off + length src <= lo)%nat ->
  slice lo hi (copy_at off src dst) = slice lo hi dst.
Proof.
  intros H. apply list_eq. intros i. rewrite !slice_lookup.
  destruct (decide (i < hi - lo)%nat); [|done].
  unfold copy_at. destruct H.
  - apply list_lookup_inserts_lt. lia.
  - apply list_lookup_inserts_ge. lia.
Qed.

Lemma slice_insert_other lo hi i (x : A) dst :
  (i < lo \/ hi <= i)%nat ->
  slice lo hi (<[i := x]> dst) = slice lo hi dst.
Proof.
  intros H. apply list_eq. intros j. rewrite !slice_lookup.
  destruct (decide (j < hi - lo)%nat); [|done].
  apply list_lookup_insert_ne. lia.
Qed.

Lemma slice_app_l lo hi l1 l2 :
  (hi <= length l1)%nat -> slice lo hi (l1 ++ l2) = slice lo hi l1.
Proof.
  intros H. apply list_eq. intros j. rewrite !slice_lookup.
  destruct (decide (j < hi - lo)%nat); [|done].
  apply lookup_app_l. lia.
Qed.

Lemma slice_length lo hi l :
  (hi <= length l)%nat -> length (slice lo hi l) = (hi - lo)%nat.
Proof. intros H. unfold slice. rewrite length_take, length_drop. lia. Qed.

End slices.

Lemma byte_at_copy_at_other i off src dst :
  (i < off \/ off + length src <= i)%nat ->
  byte_at (copy_at off src dst) i = byte_at dst i.
Proof.
  intros H. unfold byte_at, copy_at. f_equal. destruct H.
  - apply list_lookup_inserts_lt. lia.
  - apply list_lookup_inserts_ge. lia.
Qed.

Lemma byte_at_insert_same i x dst :
  (i < length dst)%nat -> byte_at (<[i := x]> dst) i = x.
Proof. intros H. unfold byte_at. by rewrite list_lookup_insert_eq. Qed.

Lemma byte_at_insert_other i j x dst :
  i <> j -> byte_at (<[j := x]> dst) i = byte_at dst i.
Proof. intros H. unfold byte_at. by rewrite list_lookup_insert_ne. Qed.

Lemma byte_at_app_l i l1 l2 :
  (i < length l1)%nat -> byte_at (l1 ++ l2) i = byte_at l1 i.
Proof. intros H. unfold byte_at. by rewrite lookup_app_l. Qed.

(** ** Little-endian fields *)

Lemma length_PutUint16 v : length (LittleEndian.PutUint16 v) = 2%nat.
Proof. apply length_le_split. Qed.
Lemma length_PutUint32 v : length (LittleEndian.PutUint32 v) = 4%nat.
Proof. apply length_le_split. Qed.
Lemma length_PutUint64 v : length (LittleEndian.PutUint64 v) = 8%nat.
Proof. apply length_le_split. Qed.

Lemma Uint16_PutUint16 v :
  LittleEndian.Uint16 (LittleEndian.PutUint16 v) = v mod 2 ^ 16.
Proof.
  unfold LittleEndian.Uint16, LittleEndian.PutUint16.
  rewrite take_ge by (rewrite length_le_split; lia).
  apply le_combine_split.
Qed.

Lemma Uint32_PutUint32 v :
  LittleEndian.Uint32 (LittleEndian.PutUint32 v) = v mod 2 ^ 32.
Proof.
  unfold LittleEndian.Uint32, LittleEndian.PutUint32.
  rewrite take_ge by (rewrite length_le_split; lia).
  apply le_combine_split.
Qed.

Lemma Uint64_PutUint64 v :
  LittleEndian.Uint64 (LittleEndian.PutUint64 v) = v mod 2 ^ 64.
Proof.
  unfold LittleEndian.Uint64, LittleEndian.PutUint64.
  rewrite take_ge by (rewrite length_le_split; lia).
  apply le_combine_split.
Qed.

Lemma Uint32_range b : 0 <= LittleEndian.Uint32 b < 2 ^ 32.
Proof.
  unfold LittleEndian.Uint32.
  pose proof (le_combine_bound (take 4 b)) as H.
  assert (length (take 4 b) <= 4)%nat by (rewrite length_take; lia).
  assert (2 ^ (8 * Z.of_nat (length (take 4 b))) <= 2 ^ 32)
    by (apply Z.pow_le_mono_r; lia).
  lia.
Qed.

Lemma int32_of_uint32_uint32 x :
  wf_int32 x -> int32_of_uint32 (uint32 x) = x.
Proof.
  unfold wf_int32, int32_of_uint32, uint32. intros H.
  change (2 ^ 32) with 4294967296 in *. change (2 ^ 31) with 2147483648 in *.
  destruct (Z.ltb_spec (x mod 4294967296) 2147483648);
    Z.div_mod_to_equations; lia.
Qed.

(** ** The writer *)

Ltac solve_len :=
  rewrite ?length_copy_at, ?length_insert, ?length_replicate,
    ?length_PutUint16, ?length_PutUint32, ?length_PutUint64;
  simpl; lia.

Ltac slice_through :=
  repeat first
    [ rewrite slice_copy_at_other by solve_len
    | rewrite slice_insert_other by lia ].

Ltac slice_hit :=
  slice_through; rewrite slice_copy_at_same by solve_len.

Ltac byte_through :=
  repeat first
    [ rewrite byte_at_copy_at_other by solve_len
    | rewrite byte_at_insert_other by lia ].

Ltac byte_hit :=
  byte_through; rewrite byte_at_insert_same by solve_len.

Lemma length_header_bytes w now : length (las.header_bytes w now) = 227%nat.
Proof. unfold las.header_bytes. solve_len. Qed.

Lemma length_point_bytes w p : length (las.point_bytes w p) = 34%nat.
Proof. unfold las.point_bytes. solve_len. Qed.

Lemma header_signature w now :
  slice 0 4 (las.header_bytes w now) = bytes_of_string "LASF".
Proof. unfold las.header_bytes. cbv zeta. slice_hit. reflexivity. Qed.

Lemma points_foldl_AddPoint pts : forall w,
  las.points (foldl las.AddPoint w pts) = las.points w ++ pts.
Proof.
  induction pts as [|p pts IH]; intros w; simpl.
  - by rewrite app_nil_r.
  - rewrite IH. simpl. by rewrite <- app_assoc.
Qed.

Lemma points_writer_of pts : las.points (writer_of pts) = pts.
Proof. unfold writer_of. by rewrite points_foldl_AddPoint. Qed.

Lemma foldl_file_Write name (enc : las.Point -> list byte) pts :
  forall (fs : gmap string (list byte)) d,
  fs !! name = Some d ->
  foldl (fun fs p => file_Write name (enc p) fs) fs pts
  = <[name := d ++ concat (map enc pts)]> fs.
Proof.
  induction pts as [|p pts IH]; intros fs d Hd; simpl.
  - rewrite app_nil_r. symmetry. by apply insert_id.
  - rewrite (IH _ (d ++ enc p)).
    + unfold file_Write. rewrite insert_insert_eq. by rewrite <- app_assoc.
    + unfold file_Write. rewrite Hd. simpl. by rewrite lookup_insert_eq.
Qed.

(** The bytes of the artifact [w] writes. *)
Lemma Write_ok w name now (fs : gmap string (list byte)) :
  las.points w <> [] ->
  las.Write w name now fs
  = (None, <[name := las.header_bytes w now
                     ++ concat (map (las.point_bytes w) (las.points w))]> fs).
Proof.
  intros Hne. unfold las.Write.
  destruct (las.points w) as [|p pts] eqn:E; [done|].
  change (length (p :: pts) =? 0)%nat with false. cbv iota.
  rewrite (foldl_file_Write _ _ _ _ (las.header_bytes w now)).
  - unfold file_Write, os_Create. by rewrite !insert_insert_eq.
  - unfold file_Write, os_Create. by rewrite lookup_insert_eq, lookup_insert_eq.
Qed.

(** ** The reader *)



(** With enough bytes left, the loop decodes [n] consecutive records. *)
Lemma readLoop_ok recLen dec n : forall i f acc,
  (offset f + n * recLen <= length (content f))%nat ->
  las.readLoop recLen dec n i f acc
  = (Ok (acc ++ map dec (chunks recLen n (drop (offset f) (content f)))),
     {| content := content f; offset := offset f + n * recLen |}).
Proof.
  induction n as [|n IH]; intros i f acc Hlen; simpl.
  - rewrite app_nil_r, Nat.add_0_r. by destruct f.
  - unfold ReadFull. rewrite length_drop.
    destruct (Nat.leb_spec recLen (length (content f) - offset f)); [|lia].
    rewrite IH by (simpl; lia). simpl.
    rewrite drop_drop, <- app_assoc. simpl.
    f_equal. f_equal. lia.
Qed.

(** With too few bytes left, the loop stops at the first record that is
    not complete. *)
Lemma readLoop_short recLen dec n : forall i f acc,
  (0 < recLen)%nat ->
  (offset f <= length (content f))%nat ->
  (length (content f) < offset f + n * recLen)%nat ->
  (las.readLoop recLen dec n i f acc).1
  = Err (ErrReadPoint (i + (length (content f) - offset f) / recLen)).
Proof.
  induction n as [|n IH]; intros i f acc Hpos Hoff Hlen; simpl; [lia|].
  unfold ReadFull. rewrite length_drop.
  destruct (Nat.leb_spec recLen (length (content f) - offset f)) as [Hle|Hgt].
  - rewrite IH by (simpl; lia). simpl. do 2 f_equal.
    replace (length (content f) - offset f)%nat
      with (1 * recLen + (length (content f) - (offset f + recLen)))%nat
      by lia.
    rewrite Nat.div_add_l by lia. lia.
  - simpl. rewrite Nat.div_small by lia. do 2 f_equal. lia.
Qed.

Lemma chunks_length {A} len n (l : list A) : length (chunks len n l) = n.
Proof. revert l. induction n; intros; simpl; auto. Qed.

Lemma chunks_concat {A B} (enc : A -> list B) len (xs : list A) rest :
  (forall x, length (enc x) = len) ->
  chunks len (length xs) (concat (map enc xs) ++ rest) = map enc xs.
Proof.
  intros Hlen. induction xs as [|x xs IH]; simpl; [done|].
  rewrite <- app_assoc.
  rewrite take_app_length' by (symmetry; apply Hlen).
  rewrite drop_app_length' by (symmetry; apply Hlen).
  by rewrite IH.
Qed.

(** [NewReader] on a file of the file system. *)
Lemma NewReader_short name (fs : gmap string (list byte)) data :
  fs !! name = Some data -> (length data < 227)%nat ->
  las.NewReader name fs = Err ErrReadHeader.
Proof.
  intros Hfs Hlen. unfold las.NewReader, las.readHeader, ReadFull.
  rewrite Hfs. cbn [offset content las.file]. rewrite drop_0.
  destruct (Nat.leb_spec 227 (length data)); [lia|done].
Qed.

Lemma NewReader_long name (fs : gmap string (list byte)) data :
  fs !! name = Some data -> (227 <= length data)%nat ->
  las.NewReader name fs
  = if bool_decide (slice 0 4 data = bytes_of_string "LASF")
    then Ok {| las.file := {| content := data; offset := 227 |};
               las.header := las.parseHeader (take 227 data) |}
    else Err ErrWrongSignature.
Proof.
  intros Hfs Hlen. unfold las.NewReader, las.readHeader, ReadFull.
  rewrite Hfs. cbn [offset content las.file]. rewrite drop_0.
  destruct (Nat.leb_spec 227 (length data)); [|lia].
  assert (slice 0 4 (take 227 data) = slice 0 4 data) as ->.
  { unfold slice. rewrite !drop_0, take_take. done. }
  by destruct (bool_decide _).
Qed.

Lemma ReadPoints_unsupported r :
  las.PointFormat (las.header r) <> 2 ->
  las.PointFormat (las.header r) <> 3 ->
  (las.ReadPoints r).1
  = Err (ErrUnsupportedFormat (las.PointFormat (las.header r))).
Proof.
  intros H2 H3. unfold las.ReadPoints. cbn [las.header].
  destruct (Z.eqb_spec (las.PointFormat (las.header r)) 2); [done|].
  by destruct (Z.eqb_spec (las.PointFormat (las.header r)) 3).
Qed.

Lemma ReadPoints_format2 r :
  las.PointFormat (las.header r) = 2 ->
  (las.ReadPoints r).1
  = (las.readLoop 26 (las.decodeFormat2 (las.header r))
       (Z.to_nat (las.PointCount (las.header r))) 0
       (Seek (las.file r) 227) []).1.
Proof.
  intros H2. unfold las.ReadPoints, las.readPointsFormat2.
  cbn [las.header las.file]. rewrite H2. cbn [Z.eqb Pos.eqb].
  by destruct (las.readLoop _ _ _ _ _ _).
Qed.

Lemma ReadPoints_format3 r :
  las.PointFormat (las.header r) = 3 ->
  (las.ReadPoints r).1
  = (las.readLoop 34 (las.decodeFormat3 (las.header r))
       (Z.to_nat (las.PointCount (las.header r))) 0
       (Seek (las.file r) 227) []).1.
Proof.
  intros H3. unfold las.ReadPoints, las.readPointsFormat3.
  cbn [las.header las.file]. rewrite H3. cbn [Z.eqb Pos.eqb].
  by destruct (las.readLoop _ _ _ _ _ _).
Qed.




(** C6. A writer without points fails with "no points to write", and the
    file system is what it was: no file is created, none is written. *)
Theorem Write_no_points (w : las.Writer) (filename : string) (now : Time)
    (fs : gmap string (list byte)) :
  las.points w = [] ->
  las.Write w filename now fs = (Some ErrNoPoints, fs).
Proof. intros H. unfold las.Write. by rewrite H. Qed.

Lemma Write_no_points_witness :
  las.Write las.NewWriter "empty.las" {| YearDay := 1; Year := 2025 |} ∅
  = (Some ErrNoPoints, ∅).
Proof. apply Write_no_points. reflexivity. Defined.

Lemma decodeFormat2_GPSTime h l :
  Forall (fun p => las.GPSTime p = 0) (map (las.decodeFormat2 h) l).
Proof. apply Forall_map, Forall_true. done. Qed.

(** [NewReader] and the loops of [ReadPoints] on a file [data], case by
    case. *)
Lemma NewReader_ReadPoints_cases (name : string)
    (fs : gmap string (list byte)) (data : list byte) :
  fs !! name = Some data ->
  let h := las.parseHeader (take 227 data) in
  let count := Z.to_nat (las.PointCount h) in
  let signature_ok := slice 0 4 data = bytes_of_string "LASF" in
  (~ signature_ok -> exists e, las.NewReader name fs = Err e)
  /\ ((length data < 227)%nat -> las.NewReader name fs = Err ErrReadHeader)
  /\ (signature_ok -> (227 <= length data)%nat ->
      exists r,
        las.NewReader name fs = Ok r /\ las.header r = h
        /\ (las.PointFormat h <> 2 -> las.PointFormat h <> 3 ->
            (las.ReadPoints r).1 = Err (ErrUnsupportedFormat (las.PointFormat h)))
        /\ (las.PointFormat h = 2 ->
            (length data < 227 + count * 26)%nat ->
            (las.ReadPoints r).1
            = Err (ErrReadPoint ((length data - 227) / 26)))
        /\ (las.PointFormat h = 2 ->
            (227 + count * 26 <= length data)%nat ->
            exists pts,
              (las.ReadPoints r).1 = Ok pts
              /\ length pts = count
              /\ pts = map (las.decodeFormat2 h) (chunks 26 count (drop 227 data))
              /\ Forall (fun p => las.GPSTime p = 0) pts)
        /\ (las.PointFormat h = 3 ->
            (length data < 227 + count * 34)%nat ->
            (las.ReadPoints r).1
            = Err (ErrReadPoint ((length data - 227) / 34)))
        /\ (las.PointFormat h = 3 ->
            (227 + count * 34 <= length data)%nat ->
            exists pts,
              (las.ReadPoints r).1 = Ok pts
              /\ length pts = count
              /\ pts = map (las.decodeFormat3 h) (chunks 34 count (drop 227 data)))).
Proof.
  intros Hfs h count signature_ok. split; [|split].
  - intros Hsig. destruct (Nat.lt_ge_cases (length data) 227) as [Hlt|Hge].
    + exists ErrReadHeader. by apply NewReader_short with data.
    + exists ErrWrongSignature. rewrite (NewReader_long _ _ data) by done.
      by rewrite bool_decide_eq_false_2.
  - intros Hlt. by apply NewReader_short with data.
  - intros Hsig Hge.
    exists {| las.file := {| content := data; offset := 227 |};
              las.header := h |}.
    split; [|split; [reflexivity|]].
    { rewrite (NewReader_long _ _ data) by done.
      by rewrite bool_decide_eq_true_2. }
    repeat split.
    + intros. by apply ReadPoints_unsupported.
    + intros H2 Hshort. rewrite ReadPoints_format2 by done.
      rewrite readLoop_short; cbn [Seek offset content las.file las.header];
        try done; lia.
    + intros H2 Hlong. eexists. rewrite ReadPoints_format2 by done.
      rewrite readLoop_ok by (cbn [Seek offset content las.file las.header]; lia).
      cbn [fst app Seek offset content las.file las.header].
      split; [reflexivity|]. split; [|split; [reflexivity|]].
      * by rewrite length_map, chunks_length.
      * apply decodeFormat2_GPSTime.
    + intros H3 Hshort. rewrite ReadPoints_format3 by done.
      rewrite readLoop_short; cbn [Seek offset content las.file las.header];
        try done; lia.
    + intros H3 Hlong. eexists. rewrite ReadPoints_format3 by done.
      rewrite readLoop_ok by (cbn [Seek offset content las.file las.header]; lia).
      cbn [fst app Seek offset content las.file las.header].
      split; [reflexivity|]. split; [|reflexivity].
      by rewrite length_map, chunks_length.
Qed.

(** ** What the writer puts into the header and the records *)

Lemma byte_unsigned_of_Z_small z :
  wf_uint8 z -> byte.unsigned (byte.of_Z z) = z.
Proof.
  intros H. rewrite byte.unsigned_of_Z. unfold byte.wrap.
  apply Z.mod_small. exact H.
Qed.

Lemma parse_float_PutUint64 x :
  f64.wf x -> las.parse_float (LittleEndian.PutUint64 (f64.Float64bits x)) = x.
Proof.
  intros H. unfold las.parse_float, f64.Float64frombits, f64.Float64bits.
  rewrite Uint64_PutUint64. apply Z.mod_small. exact H.
Qed.

Lemma to_int32_wf x : wf_int32 (f64.to_int32 x).
Proof.
  unfold f64.to_int32, f64.int32_indefinite, wf_int32.
  destruct (f64.trunc (f64.to_sf x)) as [z|]; [|lia].
  destruct (f64.in_int32 z) eqn:E; [|lia].
  unfold f64.in_int32 in E. apply andb_true_iff in E as [E1 E2].
  apply Z.leb_le in E1. apply Z.ltb_lt in E2. lia.
Qed.

Lemma scale_wf : f64.wf las.scale.
Proof. unfold f64.wf, las.scale. lia. Qed.

Lemma header_VersionMajor w now :
  byte_at (las.header_bytes w now) 24 = byte.of_Z 1.
Proof. unfold las.header_bytes. cbv zeta. byte_hit. reflexivity. Qed.

Lemma header_VersionMinor w now :
  byte_at (las.header_bytes w now) 25 = byte.of_Z 2.
Proof. unfold las.header_bytes. cbv zeta. byte_hit. reflexivity. Qed.

Lemma header_PointFormat w now :
  byte_at (las.header_bytes w now) 104 = byte.of_Z 3.
Proof. unfold las.header_bytes. cbv zeta. byte_hit. reflexivity. Qed.

Lemma header_PointRecordLength w now :
  slice 105 107 (las.header_bytes w now) = LittleEndian.PutUint16 34.
Proof. unfold las.header_bytes. cbv zeta. slice_hit. reflexivity. Qed.

Lemma header_PointCount w now :
  slice 107 111 (las.header_bytes w now)
  = LittleEndian.PutUint32 (uint32 (Z.of_nat (length (las.points w)))).
Proof. unfold las.header_bytes. cbv zeta. slice_hit. reflexivity. Qed.

Lemma header_XScale w now :
  slice 131 139 (las.header_bytes w now)
  = LittleEndian.PutUint64 (f64.Float64bits las.scale).
Proof. unfold las.header_bytes. cbv zeta. slice_hit. reflexivity. Qed.

Lemma header_YScale w now :
  slice 139 147 (las.header_bytes w now)
  = LittleEndian.PutUint64 (f64.Float64bits las.scale).
Proof. unfold las.header_bytes. cbv zeta. slice_hit. reflexivity. Qed.

Lemma header_ZScale w now :
  slice 147 155 (las.header_bytes w now)
  = LittleEndian.PutUint64 (f64.Float64bits las.scale).
Proof. unfold las.header_bytes. cbv zeta. slice_hit. reflexivity. Qed.

Lemma header_XOffset w now :
  slice 155 163 (las.header_bytes w now)
  = LittleEndian.PutUint64 (f64.Float64bits (las.minX w)).
Proof. unfold las.header_bytes. cbv zeta. slice_hit. reflexivity. Qed.

Lemma header_YOffset w now :
  slice 163 171 (las.header_bytes w now)
  = LittleEndian.PutUint64 (f64.Float64bits (las.minY w)).
Proof. unfold las.header_bytes. cbv zeta. slice_hit. reflexivity. Qed.

Lemma header_ZOffset w now :
  slice 171 179 (las.header_bytes w now)
  = LittleEndian.PutUint64 (f64.Float64bits (las.minZ w)).
Proof. unfold las.header_bytes. cbv zeta. slice_hit. reflexivity. Qed.

Lemma header_MaxX w now :
  slice 179 187 (las.header_bytes w now)
  = LittleEndian.PutUint64 (f64.Float64bits (las.maxX w)).
Proof. unfold las.header_bytes. cbv zeta. slice_hit. reflexivity. Qed.

Lemma header_MaxY w now :
  slice 187 195 (las.header_bytes w now)
  = LittleEndian.PutUint64 (f64.Float64bits (las.maxY w)).
Proof. unfold las.header_bytes. cbv zeta. slice_hit. reflexivity. Qed.

Lemma header_MaxZ w now :
  slice 195 203 (las.header_bytes w now)
  = LittleEndian.PutUint64 (f64.Float64bits (las.maxZ w)).
Proof. unfold las.header_bytes. cbv zeta. slice_hit. reflexivity. Qed.

Lemma header_MinX w now :
  slice 203 211 (las.header_bytes w now)
  = LittleEndian.PutUint64 (f64.Float64bits (las.minX w)).
Proof. unfold las.header_bytes. cbv zeta. slice_hit. reflexivity. Qed.

Lemma header_MinY w now :
  slice 211 219 (las.header_bytes w now)
  = LittleEndian.PutUint64 (f64.Float64bits (las.minY w)).
Proof. unfold las.header_bytes. cbv zeta. slice_hit. reflexivity. Qed.

Lemma header_MinZ w now :
  slice 219 227 (las.header_bytes w now)
  = LittleEndian.PutUint64 (f64.Float64bits (las.minZ w)).
Proof. unfold las.header_bytes. cbv zeta. slice_hit. reflexivity. Qed.

(** The header a reader takes from the bytes a writer assembled. *)
Lemma parseHeader_header_bytes w now :
  wf_Writer w ->
  las.parseHeader (las.header_bytes w now)
  = {| las.VersionMajor := 1; las.VersionMinor := 2;
       las.PointFormat := 3;
       las.PointCount := uint32 (Z.of_nat (length (las.points w)));
       las.PointRecordLength := 34;
       las.XScale := las.scale; las.YScale := las.scale;
       las.ZScale := las.scale;
       las.XOffset := las.minX w; las.YOffset := las.minY w;
       las.ZOffset := las.minZ w;
       las.MinX := las.minX w; las.MinY := las.minY w;
       las.MinZ := las.minZ w;
       las.MaxX := las.maxX w; las.MaxY := las.maxY w;
       las.MaxZ := las.maxZ w |}.
Proof.
  intros (?&?&?&?&?&?). unfold las.parseHeader.
  rewrite header_VersionMajor, header_VersionMinor, header_PointFormat,
    header_PointRecordLength, header_PointCount, header_XScale,
    header_YScale, header_ZScale, header_XOffset, header_YOffset,
    header_ZOffset, header_MaxX, header_MaxY, header_MaxZ, header_MinX,
    header_MinY, header_MinZ.
  rewrite !parse_float_PutUint64 by (done || apply scale_wf).
  rewrite Uint16_PutUint16, Uint32_PutUint32.
  f_equal; try reflexivity.
  unfold uint32. apply Z.mod_mod. lia.
Qed.

(** The record of a point, read back with the header of its writer. *)
Lemma decodeFormat3_point_bytes w p h :
  wf_Point p ->
  las.XScale h = las.scale -> las.YScale h = las.scale ->
  las.ZScale h = las.scale ->
  las.XOffset h = las.minX w -> las.YOffset h = las.minY w ->
  las.ZOffset h = las.minZ w ->
  las.decodeFormat3 h (las.point_bytes w p) = requantize w p.
Proof.
  intros (?&?&?&?&?&?&?&?&?) Hxs Hys Hzs Hxo Hyo Hzo.
  unfold las.decodeFormat3, requantize, reconstructed, stored.
  rewrite Hxs, Hys, Hzs, Hxo, Hyo, Hzo.
  assert (slice 0 4 (las.point_bytes w p)
          = LittleEndian.PutUint32 (uint32 (f64.to_int32
              (f64.div (f64.sub (las.X p) (las.minX w)) las.scale)))) as ->.
  { unfold las.point_bytes. cbv zeta. slice_hit. reflexivity. }
  assert (slice 4 8 (las.point_bytes w p)
          = LittleEndian.PutUint32 (uint32 (f64.to_int32
              (f64.div (f64.sub (las.Y p) (las.minY w)) las.scale)))) as ->.
  { unfold las.point_bytes. cbv zeta. slice_hit. reflexivity. }
  assert (slice 8 12 (las.point_bytes w p)
          = LittleEndian.PutUint32 (uint32 (f64.to_int32
              (f64.div (f64.sub (las.Z_ p) (las.minZ w)) las.scale)))) as ->.
  { unfold las.point_bytes. cbv zeta. slice_hit. reflexivity. }
  assert (slice 12 14 (las.point_bytes w p)
          = LittleEndian.PutUint16 (las.Intensity p)) as ->.
  { unfold las.point_bytes. cbv zeta. slice_hit. reflexivity. }
  assert (byte_at (las.point_bytes w p) 15
          = byte.of_Z (las.Classification p)) as ->.
  { unfold las.point_bytes. cbv zeta. byte_hit. reflexivity. }
  assert (slice 20 28 (las.point_bytes w p)
          = LittleEndian.PutUint64 (f64.Float64bits (las.GPSTime p))) as ->.
  { unfold las.point_bytes. cbv zeta. slice_hit. reflexivity. }
  assert (slice 28 30 (las.point_bytes w p)
          = LittleEndian.PutUint16 (las.R p)) as ->.
  { unfold las.point_bytes. cbv zeta. slice_hit. reflexivity. }
  assert (slice 30 32 (las.point_bytes w p)
          = LittleEndian.PutUint16 (las.G p)) as ->.
  { unfold las.point_bytes. cbv zeta. slice_hit. reflexivity. }
  assert (slice 32 34 (las.point_bytes w p)
          = LittleEndian.PutUint16 (las.B p)) as ->.
  { unfold las.point_bytes. cbv zeta. slice_hit. reflexivity. }
  rewrite !Uint32_PutUint32, !Uint16_PutUint16.
  rewrite parse_float_PutUint64 by done.
  rewrite byte_unsigned_of_Z_small by done.
  change (?x mod 2 ^ 32) with (uint32 x).
  assert (forall x, uint32 (uint32 x) = uint32 x) as Hmm
    by (intros; unfold uint32; apply Z.mod_mod; lia).
  rewrite !Hmm, !int32_of_uint32_uint32 by apply to_int32_wf.
  rewrite !Z.mod_small by done.
  reflexivity.
Qed.

(** ** Order of float64 values *)

Section float_order.

Lemma cmp_finite_Lt_trans m1 e1 m2 e2 m3 e3 :
  cmp_finite m1 e1 m2 e2 = Lt -> cmp_finite m2 e2 m3 e3 = Lt ->
  cmp_finite m1 e1 m3 e3 = Lt.
Proof.
  unfold cmp_finite. change (Pos.compare_cont Eq) with Pos.compare.
  destruct (Z.compare_spec e1 e2), (Z.compare_spec e2 e3),
    (Z.compare_spec e1 e3); try lia; try congruence; intros H12 H23.
  rewrite Pos.compare_lt_iff in *. lia.
Qed.

Lemma cmp_finite_Gt_trans m1 e1 m2 e2 m3 e3 :
  cmp_finite m1 e1 m2 e2 = Gt -> cmp_finite m2 e2 m3 e3 = Gt ->
  cmp_finite m1 e1 m3 e3 = Gt.
Proof.
  unfold cmp_finite. change (Pos.compare_cont Eq) with Pos.compare.
  destruct (Z.compare_spec e1 e2), (Z.compare_spec e2 e3),
    (Z.compare_spec e1 e3); try lia; try congruence; intros H12 H23.
  rewrite Pos.compare_gt_iff in *. lia.
Qed.

Lemma SFcompare_finite s1 m1 e1 s2 m2 e2 :
  SFcompare (S754_finite s1 m1 e1) (S754_finite s2 m2 e2)
  = Some match s1, s2 with
         | true, false => Lt
         | false, true => Gt
         | false, false => cmp_finite m1 e1 m2 e2
         | true, true => CompOpp (cmp_finite m1 e1 m2 e2)
         end.
Proof.
  unfold cmp_finite. simpl. destruct s1, s2; try reflexivity.
  by destruct (e1 ?= e2).
Qed.

Lemma CompOpp_Lt c : CompOpp c = Lt <-> c = Gt.
Proof. destruct c; simpl; split; congruence. Qed.

(** [<] on float64 values is transitive (NaNs compare with nothing). *)
Lemma SFltb_trans a b c :
  SFltb a b = true -> SFltb b c = true -> SFltb a c = true.
Proof.
  unfold SFltb.
  destruct a as [sa|sa| |sa ma ea], b as [sb|sb| |sb mb eb],
    c as [sc|sc| |sc mc ec];
    rewrite ?SFcompare_finite;
    try (cbn; repeat match goal with s : bool |- _ => destruct s end;
         cbn; congruence).
  destruct sa, sb, sc; try congruence.
  - destruct (CompOpp (cmp_finite ma ea mb eb)) eqn:E1; try congruence.
    destruct (CompOpp (cmp_finite mb eb mc ec)) eqn:E2; try congruence.
    apply CompOpp_Lt in E1, E2.
    by rewrite (cmp_finite_Gt_trans _ _ _ _ _ _ E1 E2).
  - destruct (cmp_finite ma ea mb eb) eqn:E1; try congruence.
    destruct (cmp_finite mb eb mc ec) eqn:E2; try congruence.
    by rewrite (cmp_finite_Lt_trans _ _ _ _ _ _ E1 E2).
Qed.

End float_order.

Lemma f64_ltb_trans a b c :
  f64.ltb a b = true -> f64.ltb b c = true -> f64.ltb a c = true.
Proof. unfold f64.ltb. apply SFltb_trans. Qed.

(** ** Encoding, then decoding *)

Lemma wf_MaxFloat64 : f64.wf f64.MaxFloat64 /\ f64.wf f64.NegMaxFloat64.
Proof. unfold f64.wf, f64.MaxFloat64, f64.NegMaxFloat64. lia. Qed.

Lemma wf_Writer_AddPoint w p :
  wf_Writer w -> wf_Point p -> wf_Writer (las.AddPoint w p).
Proof.
  intros (?&?&?&?&?&?) (?&?&?&_). unfold wf_Writer, las.AddPoint.
  cbn [las.minX las.minY las.minZ las.maxX las.maxY las.maxZ].
  unfold f64.wf in *.
  repeat split; first [destruct (f64.ltb _ _) | destruct (f64.gtb _ _)]; lia.
Qed.

Lemma wf_Writer_foldl pts : forall w,
  wf_Writer w -> Forall wf_Point pts -> wf_Writer (foldl las.AddPoint w pts).
Proof.
  induction pts as [|p pts IH]; intros w Hw Hpts; cbn [foldl]; [exact Hw|].
  inversion Hpts; subst. apply IH; [|assumption].
  apply wf_Writer_AddPoint; assumption.
Qed.

Lemma wf_writer_of pts : Forall wf_Point pts -> wf_Writer (writer_of pts).
Proof.
  intros H. apply wf_Writer_foldl; [|exact H].
  destruct wf_MaxFloat64. unfold wf_Writer, las.NewWriter.
  cbn [las.minX las.minY las.minZ las.maxX las.maxY las.maxZ].
  tauto.
Qed.

Lemma length_concat_map {A B} (enc : A -> list B) len (xs : list A) :
  (forall x, length (enc x) = len) ->
  length (concat (map enc xs)) = (length xs * len)%nat.
Proof.
  intros H. induction xs as [|x xs IH]; cbn [map concat length]; [reflexivity|].
  rewrite length_app, H, IH. lia.
Qed.

Lemma length_artifact w now :
  length (artifact w now) = (227 + length (las.points w) * 34)%nat.
Proof.
  unfold artifact.
  rewrite length_app, length_header_bytes.
  rewrite (length_concat_map _ 34) by apply length_point_bytes.
  reflexivity.
Qed.

Lemma take_header_artifact w now :
  take 227 (artifact w now) = las.header_bytes w now.
Proof.
  unfold artifact. apply take_app_length'.
  symmetry. apply length_header_bytes.
Qed.

Lemma drop_header_artifact w now :
  drop 227 (artifact w now) = concat (map (las.point_bytes w) (las.points w)).
Proof.
  unfold artifact. apply drop_app_length'.
  symmetry. apply length_header_bytes.
Qed.

(** Decoding the artifact of a writer gives its points back, each with
    its coordinates reconstructed from the stored integers. *)
Lemma decode_artifact w now name (fs : gmap string (list byte)) :
  wf_Writer w -> Forall wf_Point (las.points w) ->
  Z.of_nat (length (las.points w)) < 2 ^ 32 ->
  decode name (<[name := artifact w now]> fs)
  = Ok (map (requantize w) (las.points w)).
Proof.
  intros Hw Hpts Hlen. unfold decode.
  rewrite (NewReader_long _ _ (artifact w now)).
  2: apply lookup_insert_eq.
  2: rewrite length_artifact; lia.
  assert (slice 0 4 (artifact w now) = bytes_of_string "LASF") as Hsig.
  { unfold artifact.
    rewrite slice_app_l by (rewrite length_header_bytes; lia).
    apply header_signature. }
  rewrite (bool_decide_eq_true_2 _ Hsig).
  rewrite take_header_artifact, (parseHeader_header_bytes _ _ Hw).
  rewrite ReadPoints_format3 by reflexivity.
  cbn [las.header las.file las.PointCount].
  assert (Z.to_nat (uint32 (Z.of_nat (length (las.points w))))
          = length (las.points w)) as ->.
  { unfold uint32. rewrite Z.mod_small by lia. apply Nat2Z.id. }
  rewrite readLoop_ok
    by (cbn [Seek offset content]; rewrite length_artifact; lia).
  cbn [fst app Seek offset content].
  rewrite drop_header_artifact.
  rewrite <- (app_nil_r (concat _)).
  rewrite (chunks_concat _ 34) by apply length_point_bytes.
  f_equal. rewrite map_map. apply map_ext_in. intros p Hp.
  apply decodeFormat3_point_bytes; try reflexivity.
  rewrite Forall_forall in Hpts. apply Hpts. by apply list_elem_of_In.
Qed.

(** Encoding one or more points and decoding the artifact yields the
    image of the input under [requantize]. *)
Lemma encode_decode_map_requantize (pts : list las.Point) (filename : string)
    (now : Time) (fs : gmap string (list byte)) :
  pts <> [] -> Forall wf_Point pts -> Z.of_nat (length pts) < 2 ^ 32 ->
  encode_decode pts filename now fs
  = Ok (map (requantize (writer_of pts)) pts).
Proof.
  intros Hne Hwf Hlen.
  unfold encode_decode.
  rewrite Write_ok by (rewrite points_writer_of; exact Hne).
  fold (artifact (writer_of pts) now).
  pose proof (decode_artifact (writer_of pts) now filename fs) as H.
  rewrite points_writer_of in H. apply H.
  - apply wf_writer_of, Hwf.
  - exact Hwf.
  - exact Hlen.
Qed.

Ltac wf_points :=
  repeat (apply Forall_cons_2;
          [vm_compute; repeat split; (discriminate || reflexivity)|]);
  apply Forall_nil_2.

(** C1, as the claim has it, fails. Two points 65536.000 and 65536.003 on
    the X axis are stored as 0 and 2, the second comes back as 65536.002,
    and in binary64 that is more than 0.001 away from the original. Two
    points 0 and 3000000 on the X axis: the scaled difference does not
    fit 32 bits, the stored integer is the indefinite value and the point
    comes back at -2147483.648. *)
Lemma roundtrip_exceeds_tolerance :
  (encode_decode near_points "near.las" some_day ∅
   = Ok [point_at f_65536 f_0 f_0; point_at f_65536_002 f_0 f_0]
   /\ differ_by_more_than las.scale f_65536_002 f_65536_003 = true)
  /\ (encode_decode far_points "far.las" some_day ∅
      = Ok [point_at f_0 f_0 f_0; point_at f_minus_2147483_648 f_0 f_0]
      /\ differ_by_more_than las.scale f_minus_2147483_648 f_3000000 = true).
Proof. vm_compute. repeat split. Qed.

(** ** The record variant *)

(** C3, as the claim has it, fails: no call of [Write] yields the header
    fields of the variant without timestamp. *)
Lemma no_artifact_without_timestamp :
  ~ exists w filename now (fs fs' : gmap string (list byte)) data,
      las.Write w filename now fs = (None, fs')
      /\ fs' !! filename = Some data
      /\ byte.unsigned (byte_at data 104)
         = variant_format_id WithoutTimestamp.
Proof.
  intros (w & filename & now & fs & fs' & data & HW & Hdata & Hfmt).
  destruct (decide (las.points w = [])) as [He|Hne].
  - rewrite Write_no_points in HW by exact He. discriminate.
  - rewrite Write_ok in HW by exact Hne.
    assert (fs' = <[filename := artifact w now]> fs) as ->
      by (unfold artifact; congruence).
    rewrite lookup_insert_eq in Hdata.
    assert (data = artifact w now) as -> by congruence.
    unfold artifact in Hfmt.
    rewrite byte_at_app_l in Hfmt by (rewrite length_header_bytes; lia).
    rewrite header_PointFormat in Hfmt. discriminate.
Qed.

(** C3, as the code has it. [Write] takes no record variant: every
    artifact it writes has point format id 3 and point record length 34
    in its header, and 227 + 34 N bytes for N points. *)
Theorem Write_always_format3 (w : las.Writer) (filename : string)
    (now : Time) (fs fs' : gmap string (list byte)) :
  las.Write w filename now fs = (None, fs') ->
  exists data,
    fs' !! filename = Some data
    /\ byte.unsigned (byte_at data 104) = variant_format_id WithTimestamp
    /\ LittleEndian.Uint16 (slice 105 107 data)
       = variant_record_length WithTimestamp
    /\ length data = (227 + 34 * length (las.points w))%nat.
Proof.
  intros HW.
  destruct (decide (las.points w = [])) as [He|Hne].
  { rewrite Write_no_points in HW by exact He. discriminate. }
  rewrite Write_ok in HW by exact Hne.
  assert (fs' = <[filename := artifact w now]> fs) as ->
    by (unfold artifact; congruence).
  exists (artifact w now). split; [apply lookup_insert_eq|].
  unfold artifact at 1 2.
  rewrite byte_at_app_l by (rewrite length_header_bytes; lia).
  rewrite slice_app_l by (rewrite length_header_bytes; lia).
  rewrite header_PointFormat, header_PointRecordLength, Uint16_PutUint16.
  rewrite length_artifact.
  split; [reflexivity|]. split; [reflexivity|]. lia.
Qed.

Lemma Write_always_format3_witness :
  exists data,
    (las.Write (writer_of near_points) "near.las" some_day ∅).2
      !! "near.las" = Some data
    /\ byte.unsigned (byte_at data 104) = 3
    /\ LittleEndian.Uint16 (slice 105 107 data) = 34
    /\ length data = 295%nat.
Proof.
  apply (Write_always_format3 (writer_of near_points) "near.las" some_day ∅).
  vm_compute. reflexivity.
Defined.

(** ** The stored integers and the offsets *)

Lemma cmp_finite_refl m e : cmp_finite m e m e = Eq.
Proof.
  unfold cmp_finite. rewrite Z.compare_refl.
  change (Pos.compare_cont Eq m m) with (Pos.compare m m).
  apply Pos.compare_refl.
Qed.

Lemma SFltb_irrefl a : SFltb a a = false.
Proof.
  unfold SFltb. destruct a as [s|s| |s m e];
    rewrite ?SFcompare_finite, ?cmp_finite_refl; try (by destruct s).
  reflexivity.
Qed.

Lemma f64_ltb_irrefl a : f64.ltb a a = false.
Proof. apply SFltb_irrefl. Qed.

Lemma axis_offset_AddPoint a w p :
  axis_offset a (las.AddPoint w p)
  = if f64.ltb (coord a p) (axis_offset a w) then coord a p
    else axis_offset a w.
Proof. by destruct a. Qed.

(** No coordinate seen so far is below the offset the writer holds. *)
Lemma axis_offset_below_step a w p (seen : list las.Point) :
  (forall q, q ∈ seen -> f64.ltb (coord a q) (axis_offset a w) = false) ->
  forall q, q ∈ seen ++ [p] ->
    f64.ltb (coord a q) (axis_offset a (las.AddPoint w p)) = false.
Proof.
  intros Hseen q Hq. rewrite axis_offset_AddPoint.
  apply elem_of_app in Hq as [Hq|Hq].
  - destruct (f64.ltb (coord a p) (axis_offset a w)) eqn:E; [|by apply Hseen].
    destruct (f64.ltb (coord a q) (coord a p)) eqn:E'; [|reflexivity].
    rewrite <- (Hseen q Hq). symmetry.
    by apply f64_ltb_trans with (coord a p).
  - apply list_elem_of_singleton in Hq as ->.
    destruct (f64.ltb (coord a p) (axis_offset a w)) eqn:E; [|exact E].
    apply f64_ltb_irrefl.
Qed.

Lemma axis_offset_below_foldl a pts : forall w (seen : list las.Point),
  (forall q, q ∈ seen -> f64.ltb (coord a q) (axis_offset a w) = false) ->
  forall q, q ∈ seen ++ pts ->
    f64.ltb (coord a q) (axis_offset a (foldl las.AddPoint w pts)) = false.
Proof.
  induction pts as [|p pts IH]; intros w seen Hseen q Hq; cbn [foldl].
  - rewrite app_nil_r in Hq. by apply Hseen.
  - apply (IH _ (seen ++ [p])).
    + by apply axis_offset_below_step.
    + by rewrite <- app_assoc.
Qed.

Lemma axis_offset_below a pts q :
  q ∈ pts -> f64.ltb (coord a q) (axis_offset a (writer_of pts)) = false.
Proof.
  intros Hq. apply (axis_offset_below_foldl a pts las.NewWriter []); [|done].
  intros ? H. by apply elem_of_nil in H.
Qed.

Lemma offset_attained_foldl a pts : forall w (seen : list las.Point),
  offset_attained a w seen ->
  offset_attained a (foldl las.AddPoint w pts) (seen ++ pts).
Proof.
  induction pts as [|p pts IH]; intros w seen H; cbn [foldl].
  - by rewrite app_nil_r.
  - replace (seen ++ p :: pts) with ((seen ++ [p]) ++ pts)
      by (by rewrite <- app_assoc).
    apply IH.
    unfold offset_attained. rewrite axis_offset_AddPoint.
    destruct (f64.ltb (coord a p) (axis_offset a w)) eqn:E.
    + left. rewrite map_app. apply elem_of_app. right. apply list_elem_of_singleton.
      reflexivity.
    + destruct H as [H|[H1 H2]].
      * left. rewrite map_app. apply elem_of_app. by left.
      * right. split; [exact H1|]. intros q Hq.
        apply elem_of_app in Hq as [Hq|Hq]; [by apply H2|].
        apply list_elem_of_singleton in Hq as ->. by rewrite <- H1.
Qed.

Lemma offset_attained_writer_of a pts :
  offset_attained a (writer_of pts) pts.
Proof.
  apply (offset_attained_foldl a pts las.NewWriter []).
  right. split; [by destruct a|]. intros ? H. by apply elem_of_nil in H.
Qed.

(** [trunc] is the integer part toward zero. *)
Lemma trunc_toward_zero f z :
  f64.trunc f = Some z -> integer_part_toward_zero f z.
Proof.
  destruct f as [s|s| |s m e]; cbn [f64.trunc integer_part_toward_zero];
    try discriminate.
  - congruence.
  - intros [= <-]. destruct (Z.leb_spec 0 e) as [He|He].
    + assert (0 < 2 ^ e) by (apply Z.pow_pos_nonneg; lia).
      destruct s; cbn [cond_Zopp]; split; nia.
    + assert (0 < 2 ^ (- e)) as Hd by (apply Z.pow_pos_nonneg; lia).
      set (d := 2 ^ (- e)) in *.
      assert (Z.quot (Zpos m) d = Zpos m / d) as Hq
        by (apply Z.quot_div_nonneg; lia).
      assert (0 <= Zpos m / d) by (apply Z.div_pos; lia).
      pose proof (Z.div_mod (Zpos m) d ltac:(lia)) as Hdm.
      pose proof (Z.mod_pos_bound (Zpos m) d Hd) as Hmb.
      destruct s; cbn [cond_Zopp].
      * rewrite Z.quot_opp_l by lia. rewrite Hq.
        rewrite Z.abs_opp, Z.abs_eq by lia. split; [reflexivity|nia].
      * rewrite Hq. rewrite Z.abs_eq by lia. split; [reflexivity|nia].
Qed.

Lemma lookup_concat_map {A B} (enc : A -> list B) len (xs : list A) :
  (forall x, length (enc x) = len) ->
  forall i x j, xs !! i = Some x -> (j < len)%nat ->
  concat (map enc xs) !! (len * i + j)%nat = enc x !! j.
Proof.
  intros Hlen. induction xs as [|y ys IH]; intros i x j Hi Hj; [done|].
  cbn [map concat]. destruct i as [|i].
  - injection Hi as ->. rewrite Nat.mul_0_r. apply lookup_app_l.
    rewrite Hlen. lia.
  - rewrite lookup_app_r by (rewrite Hlen; lia).
    rewrite Hlen. rewrite <- (IH i x j Hi Hj). f_equal. lia.
Qed.

Lemma slice_concat_map {A B} (enc : A -> list B) len (xs : list A)
    i x lo hi :
  (forall x, length (enc x) = len) -> xs !! i = Some x -> (hi <= len)%nat ->
  slice (len * i + lo) (len * i + hi) (concat (map enc xs))
  = slice lo hi (enc x).
Proof.
  intros Hlen Hi Hhi. apply list_eq. intros j. rewrite !slice_lookup.
  replace (len * i + hi - (len * i + lo))%nat with (hi - lo)%nat by lia.
  destruct (decide (j < hi - lo)%nat); [|reflexivity].
  rewrite <- Nat.add_assoc. apply (lookup_concat_map enc len); [done..|lia].
Qed.

Lemma slice_app_r {A} lo hi (l1 l2 : list A) :
  slice (length l1 + lo) (length l1 + hi) (l1 ++ l2) = slice lo hi l2.
Proof.
  apply list_eq. intros j. rewrite !slice_lookup.
  replace (length l1 + hi - (length l1 + lo))%nat with (hi - lo)%nat by lia.
  destruct (decide (j < hi - lo)%nat); [|reflexivity].
  rewrite lookup_app_r by lia. f_equal. lia.
Qed.

(** The stored integers of record [i] of an artifact. *)
Lemma stored_at_artifact a w now i p :
  las.points w !! i = Some p ->
  stored_at a (artifact w now) i = stored (coord a p) (axis_offset a w).
Proof.
  intros Hi. unfold stored_at, artifact. cbv zeta.
  pose proof (length_header_bytes w now) as Hh.
  replace (227 + 34 * i + 4 * axis_index a)%nat
    with (length (las.header_bytes w now) + (34 * i + 4 * axis_index a))%nat
    by lia.
  rewrite <- Nat.add_assoc, slice_app_r.
  rewrite <- Nat.add_assoc.
  rewrite (slice_concat_map _ 34 _ i p)
    by (done || apply length_point_bytes || (destruct a; cbn; lia)).
  assert (slice (4 * axis_index a) (4 * axis_index a + 4) (las.point_bytes w p)
          = LittleEndian.PutUint32
              (uint32 (stored (coord a p) (axis_offset a w)))) as ->.
  { unfold stored.
    destruct a; cbn [axis_index coord axis_offset Nat.mul Nat.add];
      unfold las.point_bytes; cbv zeta; slice_hit; reflexivity. }
  rewrite Uint32_PutUint32.
  change (?x mod 2 ^ 32) with (uint32 x).
  replace (uint32 (uint32 (stored (coord a p) (axis_offset a w))))
    with (uint32 (stored (coord a p) (axis_offset a w)))
    by (unfold uint32; symmetry; apply Z.mod_mod; lia).
  apply int32_of_uint32_uint32, to_int32_wf.
Qed.

Lemma header_scale_artifact a w now :
  header_scale a (artifact w now) = las.scale.
Proof.
  unfold header_scale, artifact. cbv zeta.
  rewrite slice_app_l by (rewrite length_header_bytes; destruct a; cbn; lia).
  destruct a; cbn [axis_index Nat.mul Nat.add];
    rewrite ?header_XScale, ?header_YScale, ?header_ZScale;
    apply parse_float_PutUint64, scale_wf.
Qed.

Lemma header_offset_artifact a w now :
  wf_Writer w ->
  header_offset a (artifact w now) = axis_offset a w.
Proof.
  intros (?&?&?&_). unfold header_offset, artifact. cbv zeta.
  rewrite slice_app_l by (rewrite length_header_bytes; destruct a; cbn; lia).
  destruct a; cbn [axis_index Nat.mul Nat.add axis_offset];
    rewrite ?header_XOffset, ?header_YOffset, ?header_ZOffset;
    by apply parse_float_PutUint64.
Qed.

(** C2, as the code has it. For every point [p] (the [i]-th) and every
    axis, the 32-bit integer stored in record [i] of the artifact is Go's
    [int32((v - offset) / scale)], where the scale is the binary64 nearest
    to 1/1000 and is what the header holds, and the offset, also in the
    header, is the minimum [AddPoint] kept for the axis: no coordinate
    seen is below it, and it is one of them unless none was below
    [math.MaxFloat64]. Whenever the integer part of the quotient fits 32
    bits, the stored integer is that integer part, taken toward zero and
    not to nearest. *)
Theorem stored_integer_truncates (pts : list las.Point) (a : Axis)
    (i : nat) (p : las.Point) (filename : string) (now : Time)
    (fs : gmap string (list byte)) :
  Forall wf_Point pts -> pts !! i = Some p ->
  let w := writer_of pts in
  let data := artifact w now in
  let q := f64.div (f64.sub (coord a p) (axis_offset a w)) las.scale in
  las.Write w filename now fs = (None, <[filename := data]> fs)
  /\ stored_at a data i = f64.to_int32 q
  /\ (forall z, f64.trunc (f64.to_sf q) = Some z -> f64.in_int32 z = true ->
      stored_at a data i = z /\ integer_part_toward_zero (f64.to_sf q) z)
  /\ las.scale = f64.div (f64.of_int 1) (f64.of_int 1000)
  /\ header_scale a data = las.scale
  /\ header_offset a data = axis_offset a w
  /\ (forall p', p' ∈ pts -> f64.ltb (coord a p') (axis_offset a w) = false)
  /\ offset_attained a w pts.
Proof.
  intros Hwf Hi w data q.
  assert (las.points w = pts) as Hpts by apply points_writer_of.
  assert (stored_at a data i = f64.to_int32 q) as Hst.
  { unfold data. rewrite (stored_at_artifact a w now i p) by (by rewrite Hpts).
    reflexivity. }
  split; [|split; [exact Hst|split; [|split; [|split; [|split; [|split]]]]]].
  - unfold data, artifact. apply Write_ok. rewrite Hpts.
    intros ->. discriminate.
  - intros z Hz Hin. split; [|by apply trunc_toward_zero].
    rewrite Hst. unfold f64.to_int32. by rewrite Hz, Hin.
  - vm_compute. reflexivity.
  - apply header_scale_artifact.
  - apply header_offset_artifact, wf_writer_of, Hwf.
  - intros p' Hp'. by apply axis_offset_below.
  - apply offset_attained_writer_of.
Qed.

Lemma stored_integer_truncates_witness :
  stored_at AxisX (artifact (writer_of near_points) some_day) 1 = 2
  /\ integer_part_toward_zero
       (f64.to_sf (f64.div (f64.sub f_65536_003 f_65536) las.scale)) 2
  /\ f64.gtb (f64.div (f64.sub f_65536_003 f_65536) las.scale) f_2_5 = true.
Proof.
  assert (Forall wf_Point near_points) as Hwf
    by (unfold near_points; wf_points).
  assert (near_points !! 1%nat = Some (point_at f_65536_003 f_0 f_0)) as Hi
    by reflexivity.
  destruct (stored_integer_truncates near_points AxisX 1
              (point_at f_65536_003 f_0 f_0) "near.las" some_day ∅ Hwf Hi)
    as (_ & _ & Htr & _).
  destruct (Htr 2) as [H1 H2]; [vm_compute; reflexivity..|].
  split; [exact H1|]. split; [exact H2|]. vm_compute. reflexivity.
Defined.

(** C2, as the claim has it, fails. For the points 0 and 3000000 on the X
    axis the quotient (v - offset) / scale has the integer part
    3000000000, which no 32-bit integer holds: the stored integer is the
    indefinite value of the conversion. *)
Lemma stored_integer_out_of_range :
  f64.trunc (f64.to_sf (f64.div (f64.sub f_3000000
               (las.minX (writer_of far_points))) las.scale))
  = Some 3000000000
  /\ stored_at AxisX (artifact (writer_of far_points) some_day) 1
     = -2147483648.
Proof. vm_compute. split; reflexivity. Qed.

(** ** The colour rule *)

(** C8. The colour of two counters is full red when the pass count is
    below the target, full green when they are equal (ties go to green)
    and full blue when it is above. *)
Theorem determineColor_tri_state (passCount targPass : Z) :
  (passCount < targPass ->
   converter.determineColor passCount targPass = full_red)
  /\ (passCount = targPass ->
      converter.determineColor passCount targPass = full_green)
  /\ (passCount > targPass ->
      converter.determineColor passCount targPass = full_blue).
Proof.
  unfold converter.determineColor.
  destruct (Z.ltb_spec passCount targPass), (Z.eqb_spec passCount targPass);
    repeat split; intros; (reflexivity || lia).
Qed.

Lemma determineColor_tri_state_witness :
  converter.determineColor 1 4 = full_red
  /\ converter.determineColor 4 4 = full_green
  /\ converter.determineColor 5 4 = full_blue.
Proof.
  split; [|split].
  - apply (proj1 (determineColor_tri_state 1 4)). lia.
  - apply (proj1 (proj2 (determineColor_tri_state 4 4))). reflexivity.
  - apply (proj2 (proj2 (determineColor_tri_state 5 4))). lia.
Defined.

(** ** Amplitude normalisation *)

Lemma remove_all_strip s :
  sorter.remove_all "."%char s = strip_decimal_points s.
Proof.
  unfold strip_decimal_points. induction s as [|c s IH]; [reflexivity|].
  cbn [sorter.remove_all list_ascii_of_string]. rewrite filter_cons.
  destruct (Ascii.eqb_spec c "."%char) as [->|Hne].
  - rewrite decide_False by (intros H; by apply H). exact IH.
  - rewrite decide_True by exact Hne.
    cbn [string_of_list_ascii]. by rewrite IH.
Qed.

Lemma substring_0_keep n s : String.substring 0 n s = keep_at_most n s.
Proof.
  unfold keep_at_most. revert s. induction n as [|n IH]; intros s.
  - by destruct s.
  - destruct s as [|c s]; [reflexivity|].
    cbn [String.substring list_ascii_of_string take string_of_list_ascii].
    by rewrite IH.
Qed.

Lemma keep_at_most_all n s :
  (String.length s <= n)%nat -> keep_at_most n s = s.
Proof.
  unfold keep_at_most. revert s. induction n as [|n IH]; intros s Hlen.
  - destruct s; [reflexivity|cbn in Hlen; lia].
  - destruct s as [|c s]; [reflexivity|].
    cbn [list_ascii_of_string take string_of_list_ascii].
    rewrite IH; [reflexivity|cbn in Hlen; lia].
Qed.

(** C5. The empty string and ["?"] give the sentinel; every other string
    gives its first three bytes (or fewer, if there are fewer) after the
    decimal points are removed: bytes are cut, nothing is rounded. *)
Theorem normalizeAmp_truncates (amp : string) :
  (amp = "" \/ amp = "?" -> sorter.normalizeAmp amp = no_amplitude)
  /\ (amp <> "" -> amp <> "?" ->
      sorter.normalizeAmp amp = keep_at_most 3 (strip_decimal_points amp))
  /\ sorter.normalizeAmp "0.97" = "097"
  /\ sorter.normalizeAmp "2.10" = "210"
  /\ sorter.normalizeAmp "1.5" = "15"
  /\ sorter.normalizeAmp "0.9789" = "097".
Proof.
  split; [|split; [|by vm_compute]].
  - by intros [-> | ->].
  - intros H1 H2. unfold sorter.normalizeAmp.
    rewrite (proj2 (String.eqb_neq amp "") H1).
    rewrite (proj2 (String.eqb_neq amp "?") H2). cbn [orb].
    rewrite remove_all_strip.
    destruct (Nat.ltb_spec 3 (String.length (strip_decimal_points amp))).
    + apply substring_0_keep.
    + symmetry. by apply keep_at_most_all.
Qed.

Lemma normalizeAmp_truncates_witness :
  sorter.normalizeAmp "" = no_amplitude
  /\ sorter.normalizeAmp "?" = no_amplitude
  /\ sorter.normalizeAmp "12.3456"
     = keep_at_most 3 (strip_decimal_points "12.3456").
Proof.
  split; [|split].
  - apply (proj1 (normalizeAmp_truncates "")). left. reflexivity.
  - apply (proj1 (normalizeAmp_truncates "?")). right. reflexivity.
  - apply (proj1 (proj2 (normalizeAmp_truncates "12.3456"))); discriminate.
Defined.

(** ** Parsing the time of a record *)

Lemma all_ascii_complete c : In c all_ascii.
Proof.
  unfold all_ascii. rewrite <- (ascii_nat_embedding c).
  apply in_map, in_seq. pose proof (nat_ascii_bounded c). lia.
Qed.

(** A boolean property that holds of the 256 bytes holds of every byte. *)
Lemma ascii_enum (P : ascii -> bool) :
  forallb P all_ascii = true -> forall c, P c = true.
Proof.
  intros H c. rewrite forallb_forall in H. apply H, all_ascii_complete.
Qed.

Lemma ascii_enum2 (P : ascii -> ascii -> bool) :
  forallb (fun c1 => forallb (P c1) all_ascii) all_ascii = true ->
  forall c1 c2, P c1 c2 = true.
Proof.
  intros H c1 c2.
  pose proof (ascii_enum _ H c1) as H1. cbv beta in H1.
  by apply (ascii_enum _ H1 c2).
Qed.

Lemma digit_not_sign c :
  digit c -> Ascii.eqb c "-"%char = false /\ Ascii.eqb c "+"%char = false.
Proof.
  unfold digit. intros H.
  pose proof (ascii_enum
    (fun c => implb (time.is_digit c)
                (negb (Ascii.eqb c "-"%char) && negb (Ascii.eqb c "+"%char)))
    ltac:(vm_compute; reflexivity) c) as E.
  cbv beta in E. rewrite H in E. cbn [implb] in E.
  apply andb_true_iff in E as [E1 E2].
  by rewrite (negb_true_iff _), (negb_true_iff _) in *.
Qed.

Lemma digit_val_range c : digit c -> 0 <= time.digit_val c <= 9.
Proof.
  unfold digit, time.is_digit, time.digit_val. intros H.
  apply andb_true_iff in H as [H1 H2].
  apply Z.leb_le in H1, H2. lia.
Qed.

Lemma digit_char_digit_val c : digit c -> time.digit_char (time.digit_val c) = c.
Proof.
  intros H. pose proof (digit_val_range c H) as Hr.
  unfold time.digit_char. rewrite Z.mod_small by lia.
  unfold time.digit_val, time.byte_of in *.
  replace (48 + (Z.of_nat (nat_of_ascii c) - 48)) with (Z.of_nat (nat_of_ascii c))
    by lia.
  rewrite Nat2Z.id. apply ascii_nat_embedding.
Qed.

Lemma digit_not_space c : digit c -> Ascii.eqb c " "%char = false.
Proof.
  unfold digit. intros H.
  pose proof (ascii_enum
    (fun c => implb (time.is_digit c) (negb (Ascii.eqb c " "%char)))
    ltac:(vm_compute; reflexivity) c) as E.
  cbv beta in E. rewrite H in E. cbn [implb] in E.
  by apply negb_true_iff in E.
Qed.

(** [match] compares bytes as their lower-case forms. *)
Lemma match_byte_lower c1 c2 :
  is_upper c2 || is_lower c2 = true ->
  time.match_byte c1 c2 = Ascii.eqb (to_lower c1) (to_lower c2).
Proof.
  intros H.
  pose proof (ascii_enum2
    (fun c1 c2 => implb (is_upper c2 || is_lower c2)
       (Bool.eqb (time.match_byte c1 c2)
                 (Ascii.eqb (to_lower c1) (to_lower c2))))
    ltac:(vm_compute; reflexivity) c1 c2) as E.
  cbv beta in E. rewrite H in E. cbn [implb] in E.
  by apply Bool.eqb_prop in E.
Qed.

Lemma append_nil r : "" +:+ r = r.
Proof. reflexivity. Qed.

Lemma append_cons c s r : String c s +:+ r = String c (s +:+ r).
Proof. reflexivity. Qed.

Lemma skip_byte p v r :
  Ascii.eqb p " "%char = false ->
  time.skip v (String p EmptyString) = Some r <-> v = String p r.
Proof.
  intros Hp. unfold time.skip. cbn [time.skip_from]. rewrite Hp.
  destruct v as [|c v']; [split; discriminate|].
  destruct (Ascii.eqb_spec c p) as [->|Hne]; split; intros H;
    congruence.
Qed.

Lemma cutspace_spaces sp r :
  all_spaces sp = true ->
  time.cutspace (sp +:+ r) = time.cutspace r.
Proof.
  induction sp as [|c sp IH]; rewrite ?append_nil, ?append_cons;
    cbn [all_spaces time.cutspace]; [done|].
  intros H. apply andb_true_iff in H as [H1 H2]. rewrite H1. by apply IH.
Qed.

Lemma cutspace_inv v :
  exists sp, v = sp +:+ time.cutspace v /\ all_spaces sp = true.
Proof.
  induction v as [|c v (sp & IH1 & IH2)].
  - by exists "".
  - cbn [time.cutspace]. destruct (Ascii.eqb c " ") eqn:E.
    + exists (String c sp). rewrite append_cons. cbn [all_spaces].
      rewrite E, IH2. by rewrite <- IH1.
    + by exists "".
Qed.

Lemma cutspace_id r : no_leading_space r -> time.cutspace r = r.
Proof. destruct r as [|c r]; [done|]. cbn. by intros ->. Qed.

Lemma skip_space_ok sp r :
  all_spaces sp = true -> no_leading_space r ->
  time.skip (String " " (sp +:+ r)) " " = Some r.
Proof.
  intros Hsp Hr. unfold time.skip. cbn [time.skip_from].
  change (Ascii.eqb " " " ") with true. cbn [negb time.cutspace].
  change (Ascii.eqb " " " ") with true. cbv iota.
  by rewrite cutspace_spaces, cutspace_id.
Qed.

Lemma skip_space_inv v r :
  time.skip v " " = Some r ->
  (v = "" /\ r = "")
  \/ exists sp, v = String " " (sp +:+ r) /\ all_spaces sp = true.
Proof.
  unfold time.skip. cbn [time.skip_from].
  change (Ascii.eqb " " " ") with true. cbv iota.
  destruct v as [|c v']; [intros [= <-]; by left|].
  destruct (Ascii.eqb_spec c " ") as [->|Hne]; [|discriminate].
  cbn [negb time.cutspace]. change (Ascii.eqb " " " ") with true. cbv iota.
  intros [= <-]. right.
  destruct (cutspace_inv v') as (sp & H1 & H2). exists sp.
  by rewrite <- H1.
Qed.

Lemma isDigit_0 c s : time.isDigit (String c s) 0 = time.is_digit c.
Proof. reflexivity. Qed.

Lemma isDigit_1 c0 c1 s :
  time.isDigit (String c0 (String c1 s)) 1 = time.is_digit c1.
Proof. reflexivity. Qed.

Lemma getnum_fixed s v rest :
  time.getnum s true = Some (v, rest)
  <-> exists c0 c1, s = String c0 (String c1 rest) /\ digit c0 /\ digit c1
                    /\ v = num2 c0 c1.
Proof.
  unfold time.getnum, digit. split.
  - destruct s as [|c0 [|c1 s']]; [done| |].
    + rewrite isDigit_0. by destruct (time.is_digit c0).
    + rewrite isDigit_0, isDigit_1.
      destruct (time.is_digit c0) eqn:E0; [|done].
      destruct (time.is_digit c1) eqn:E1; [|done].
      cbn [negb]. intros [= <- <-]. by exists c0, c1.
  - intros (c0 & c1 & -> & H0 & H1 & ->).
    rewrite isDigit_0, isDigit_1, H0, H1. reflexivity.
Qed.

Lemma getnum_free_inv s v rest :
  time.getnum s false = Some (v, rest) ->
  exists hh, s = hh +:+ rest /\ one_or_two_digits hh v.
Proof.
  unfold time.getnum.
  destruct s as [|c0 s1]; [done|]. rewrite isDigit_0.
  destruct (time.is_digit c0) eqn:E0; [|done]. cbn [negb].
  destruct s1 as [|c1 s2].
  - cbn. intros [= <- <-]. exists (String c0 ""). split; [done|].
    by constructor.
  - rewrite isDigit_1. destruct (time.is_digit c1) eqn:E1; cbn [negb].
    + intros [= <- <-]. exists (String c0 (String c1 "")). split; [done|].
      by constructor.
    + intros [= <- <-]. exists (String c0 ""). split; [done|].
      by constructor.
Qed.

Lemma getnum_free_colon hh v r :
  one_or_two_digits hh v ->
  time.getnum (hh +:+ String ":" r) false = Some (v, String ":" r).
Proof.
  intros [c0 H0|c0 c1 H0 H1]; unfold time.getnum;
    rewrite ?append_cons, ?append_nil.
  - rewrite isDigit_0, isDigit_1, H0. reflexivity.
  - rewrite isDigit_0, isDigit_1, H0, H1. reflexivity.
Qed.

Lemma leadingInt_all_digits s : forall x,
  all_digits s = true -> 0 <= x ->
  exists n, time.leadingInt_from x s = (n, "") /\ 0 <= n.
Proof.
  induction s as [|c s IH]; intros x Hs Hx; cbn [time.leadingInt_from].
  - by exists x.
  - cbn [all_digits] in Hs. apply andb_true_iff in Hs as [Hc Hs].
    rewrite Hc. apply IH; [done|].
    pose proof (digit_val_range c Hc). lia.
Qed.

Lemma atoi_digits c s :
  digit c -> all_digits s = true ->
  exists n, time.atoi (String c s) = Some n /\ 0 <= n.
Proof.
  intros Hc Hs. unfold time.atoi.
  destruct (digit_not_sign c Hc) as [-> ->].
  destruct (leadingInt_all_digits (String c s) 0) as (n & Hn & Hpos);
    [cbn [all_digits]; by rewrite Hc, Hs|lia|].
  unfold time.leadingInt. rewrite Hn. cbn. by exists n.
Qed.

Lemma atoi_year y1 y2 y3 y4 y :
  digit y1 ->
  time.atoi (String y1 (String y2 (String y3 (String y4 ""))) ) = Some y
  <-> digit y2 /\ digit y3 /\ digit y4 /\ y = num4 y1 y2 y3 y4.
Proof.
  intros H1. unfold time.atoi, digit in *.
  destruct (digit_not_sign y1 H1) as [-> ->].
  unfold time.leadingInt. cbn [time.leadingInt_from]. rewrite H1.
  unfold num4.
  destruct (time.is_digit y2), (time.is_digit y3), (time.is_digit y4);
    cbn [String.length Nat.ltb Nat.leb]; split;
    try (intros H; discriminate H);
    try (intros (?&?&?&?); discriminate).
  - intros [= <-]. repeat split; lia.
  - intros (_&_&_&->). f_equal. lia.
Qed.

Lemma match_fold_lower s1 : forall s2,
  String.length s1 = String.length s2 -> all_letters s2 = true ->
  time.match_fold s1 s2 = String.eqb (lower_string s1) (lower_string s2).
Proof.
  induction s1 as [|c1 s1 IH]; intros [|c2 s2] Hlen Hl;
    try discriminate; [reflexivity|].
  cbn [all_letters] in Hl. apply andb_true_iff in Hl as [Hc Hl].
  cbn [time.match_fold lower_string String.eqb].
  rewrite match_byte_lower by exact Hc.
  rewrite IH by first [exact Hl | cbn in Hlen; congruence].
  by destruct (Ascii.eqb _ _).
Qed.

Lemma lookup_from_three a b c rest tab : forall i,
  Forall month_entry tab ->
  time.lookup_from i tab (String a (String b (String c rest)))
  = (fun k => (i + Z.of_nat k, rest))
      <$> index_of (lower_string (String a (String b (String c ""))))
                   (map lower_string tab).
Proof.
  induction tab as [|n tab IH]; intros i Htab; [reflexivity|].
  apply Forall_cons in Htab as [[Hlen Hlet] Htab].
  cbn [time.lookup_from map index_of]. rewrite Hlen.
  cbn [String.length Nat.leb String.substring time.drop_bytes andb].
  replace (String.substring 0 0 rest) with "" by (by destruct rest).
  rewrite match_fold_lower
    by first [exact Hlet | rewrite Hlen; reflexivity].
  destruct (String.eqb _ _); cbn [fmap option_fmap option_map].
  - do 2 f_equal. lia.
  - rewrite IH by exact Htab.
    destruct (index_of _ _); cbn [fmap option_fmap option_map]; [|done].
    do 2 f_equal. lia.
Qed.

Lemma lookup_from_short val tab : forall i,
  Forall month_entry tab -> (String.length val < 3)%nat ->
  time.lookup_from i tab val = None.
Proof.
  induction tab as [|n tab IH]; intros i Htab Hval; [reflexivity|].
  apply Forall_cons in Htab as [[Hlen Hlet] Htab].
  cbn [time.lookup_from]. rewrite Hlen.
  destruct (Nat.leb_spec 3 (String.length val)); [lia|].
  cbn [andb]. by apply IH.
Qed.

Lemma shortMonthNames_entries : Forall month_entry time.shortMonthNames.
Proof. unfold time.shortMonthNames. repeat constructor. Qed.

Lemma month_lookup val i rest :
  time.lookup time.shortMonthNames val = Some (i, rest)
  <-> exists mon, val = mon +:+ rest /\ String.length mon = 3%nat
                  /\ month_number mon = Some (i + 1).
Proof.
  unfold time.lookup.
  destruct val as [|a [|b [|c r]]];
    try (rewrite lookup_from_short
           by (apply shortMonthNames_entries || (cbn; lia));
         split; [discriminate|];
         intros ([|x [|y [|z [|]]]] & H & Hl & _); discriminate).
  rewrite lookup_from_three by apply shortMonthNames_entries.
  change (map lower_string time.shortMonthNames) with month_abbreviations.
  unfold month_number. split.
  - destruct (index_of _ _) as [k|] eqn:E;
      cbn [fmap option_fmap option_map]; [|discriminate].
    intros [= <- <-]. exists (String a (String b (String c ""))).
    split; [reflexivity|]. split; [reflexivity|].
    rewrite E. cbn [fmap option_fmap option_map]. reflexivity.
  - intros ([|x [|y [|z [|]]]] & H & Hl & Hm); try discriminate.
    rewrite !append_cons, append_nil in H. injection H as -> -> -> ->.
    destruct (index_of _ _) as [k|];
      cbn [fmap option_fmap option_map] in *; [|discriminate].
    injection Hm as Hm. do 2 f_equal. lia.
Qed.

Lemma count_digits_all s :
  all_digits s = true -> time.count_digits s = String.length s.
Proof.
  induction s as [|c s IH]; [done|]. cbn [all_digits time.count_digits].
  intros H. apply andb_true_iff in H as [-> H]. cbn. by rewrite IH.
Qed.

Lemma drop_bytes_length s : time.drop_bytes (String.length s) s = "".
Proof. induction s as [|c s IH]; [done|]. exact IH. Qed.

Lemma drop_count_digits s :
  time.drop_bytes (time.count_digits s) s = "" -> all_digits s = true.
Proof.
  induction s as [|c s IH]; [done|]. cbn [all_digits time.count_digits].
  destruct (time.is_digit c); [exact IH|discriminate].
Qed.

Lemma all_digits_substring s : forall m,
  all_digits s = true -> all_digits (String.substring 0 m s) = true.
Proof.
  induction s as [|c s IH]; intros [|m] H; try reflexivity.
  cbn [all_digits String.substring] in *.
  apply andb_true_iff in H as [-> H]. by apply IH.
Qed.

(** The fraction of a second, when the rest of the value is all of it. *)
Lemma fracSecond9_ok frac :
  optional_fraction frac -> exists n, time.fracSecond9 frac = Some (n, "").
Proof.
  intros [|sep c ds Hsep Hc Hds]; [by exists 0|].
  unfold time.fracSecond9. rewrite Hsep, Hc. cbn [negb orb].
  cbn [time.drop_bytes time.count_digits]. rewrite Hc.
  rewrite (count_digits_all ds Hds).
  unfold time.parseNanoseconds. rewrite Hsep. cbn [negb].
  set (nbytes := if (10 <? 1 + S (String.length ds))%nat then 10%nat
                 else (1 + S (String.length ds))%nat).
  assert (exists m, (nbytes - 1 = S m)%nat) as [m Hm].
  { unfold nbytes. destruct (_ <? _)%nat; eexists; simpl; reflexivity. }
  rewrite Hm. cbn [String.substring].
  destruct (atoi_digits c (String.substring 0 m ds) Hc
              (all_digits_substring ds m Hds)) as (ns & -> & Hns).
  destruct (Z.ltb_spec ns 0); [lia|].
  eexists. f_equal. f_equal. apply drop_bytes_length.
Qed.

Lemma fracSecond9_inv frac n :
  time.fracSecond9 frac = Some (n, "") -> optional_fraction frac.
Proof.
  unfold time.fracSecond9.
  destruct frac as [|c0 [|c1 rest]]; [constructor|discriminate|].
  destruct (time.commaOrPeriod c0) eqn:E0; [|discriminate].
  destruct (time.is_digit c1) eqn:E1; [|discriminate].
  cbn [negb orb time.drop_bytes time.count_digits]. rewrite E1.
  destruct (time.parseNanoseconds _ _); [|discriminate].
  intros [= _ H]. cbn [Nat.add time.drop_bytes] in H.
  constructor; [done..|]. by apply drop_count_digits.
Qed.

Lemma digit_char_mod a b :
  a mod 10 = b mod 10 -> time.digit_char a = time.digit_char b.
Proof. unfold time.digit_char. by intros ->. Qed.

Lemma pad2_num2 c0 c1 :
  digit c0 -> digit c1 -> time.pad2 (num2 c0 c1) = String c0 (String c1 "").
Proof.
  intros H0 H1.
  transitivity (String (time.digit_char (time.digit_val c0))
                  (String (time.digit_char (time.digit_val c1)) ""));
    [|by rewrite !digit_char_digit_val].
  pose proof (digit_val_range c0 H0). pose proof (digit_val_range c1 H1).
  unfold time.pad2, num2.
  generalize dependent (time.digit_val c0).
  generalize dependent (time.digit_val c1). intros z1 ? z0 ?.
  f_equal; [|f_equal]; apply digit_char_mod; Z.div_mod_to_equations; lia.
Qed.

Lemma pad4_num4 c0 c1 c2 c3 :
  digit c0 -> digit c1 -> digit c2 -> digit c3 ->
  time.pad4 (num4 c0 c1 c2 c3)
  = String c0 (String c1 (String c2 (String c3 ""))).
Proof.
  intros H0 H1 H2 H3.
  transitivity (String (time.digit_char (time.digit_val c0))
                  (String (time.digit_char (time.digit_val c1))
                     (String (time.digit_char (time.digit_val c2))
                        (String (time.digit_char (time.digit_val c3)) ""))));
    [|by rewrite !digit_char_digit_val].
  pose proof (digit_val_range c0 H0). pose proof (digit_val_range c1 H1).
  pose proof (digit_val_range c2 H2). pose proof (digit_val_range c3 H3).
  unfold time.pad4, num4.
  generalize dependent (time.digit_val c0).
  generalize dependent (time.digit_val c1).
  generalize dependent (time.digit_val c2).
  generalize dependent (time.digit_val c3). intros z3 ? z2 ? z1 ? z0 ?.
  f_equal; [|f_equal; [|f_equal; [|f_equal]]];
    apply digit_char_mod; Z.div_mod_to_equations; lia.
Qed.

Lemma Parse_inv s t :
  time.Parse s = Some t ->
  accepted_time_string s (time.Format_date t).
Proof.
  unfold time.Parse.
  destruct s as [|y1 [|y2 [|y3 [|y4 v1]]]]; try discriminate.
  cbn [String.length Nat.ltb Nat.leb orb String.substring time.drop_bytes].
  rewrite isDigit_0.
  destruct (time.is_digit y1) eqn:Hy1; [|discriminate]. cbn [negb].
  replace (String.substring 0 0 v1) with "" by (by destruct v1).
  destruct (time.atoi _) as [year|] eqn:Hyear; [|discriminate].
  apply (atoi_year _ _ _ _ _ Hy1) in Hyear as (Hy2 & Hy3 & Hy4 & ->).
  cbn [mbind option_bind].
  destruct (time.skip v1 "/") as [v2|] eqn:Hs1; [|discriminate].
  apply skip_byte in Hs1 as ->; [|reflexivity].
  cbn [mbind option_bind].
  destruct (time.lookup _ v2) as [[mo0 v3]|] eqn:Hmon; [|discriminate].
  apply month_lookup in Hmon as (mon & -> & Hmonlen & Hmo).
  cbn [mbind option_bind].
  destruct (time.skip v3 "/") as [v4|] eqn:Hs2; [|discriminate].
  apply skip_byte in Hs2 as ->; [|reflexivity].
  cbn [mbind option_bind].
  destruct (time.getnum v4 true) as [[day v5]|] eqn:Hday; [|discriminate].
  apply getnum_fixed in Hday as (d1 & d2 & -> & Hd1 & Hd2 & ->).
  cbn [mbind option_bind].
  destruct (time.skip v5 " ") as [v6|] eqn:Hs3; [|discriminate].
  cbn [mbind option_bind].
  destruct (time.getnum v6 false) as [[hour v7]|] eqn:Hhour; [|discriminate].
  apply skip_space_inv in Hs3 as [[-> ->]|(sp & -> & Hsp)]; [discriminate|].
  apply getnum_free_inv in Hhour as (hh & -> & Hhh).
  cbn [mbind option_bind].
  destruct (Z.ltb_spec hour 0); [discriminate|].
  destruct (Z.leb_spec 24 hour); [discriminate|]. cbn [orb].
  destruct (time.skip v7 ":") as [v8|] eqn:Hs4; [|discriminate].
  apply skip_byte in Hs4 as ->; [|reflexivity].
  cbn [mbind option_bind].
  destruct (time.getnum v8 true) as [[mi v9]|] eqn:Hmin; [|discriminate].
  apply getnum_fixed in Hmin as (m1 & m2 & -> & Hm1 & Hm2 & ->).
  cbn [mbind option_bind].
  destruct (Z.ltb_spec (num2 m1 m2) 0); [discriminate|].
  destruct (Z.leb_spec 60 (num2 m1 m2)); [discriminate|]. cbn [orb].
  destruct (time.skip v9 ":") as [v10|] eqn:Hs5; [|discriminate].
  apply skip_byte in Hs5 as ->; [|reflexivity].
  cbn [mbind option_bind].
  destruct (time.getnum v10 true) as [[sec v11]|] eqn:Hsec; [|discriminate].
  apply getnum_fixed in Hsec as (s1 & s2 & -> & Hs1 & Hs2 & ->).
  cbn [mbind option_bind].
  destruct (Z.ltb_spec (num2 s1 s2) 0); [discriminate|].
  destruct (Z.leb_spec 60 (num2 s1 s2)); [discriminate|]. cbn [orb].
  destruct (time.fracSecond9 v11) as [[nsec v12]|] eqn:Hfrac; [|discriminate].
  cbn [mbind option_bind].
  destruct v12 as [|? ?]; [|discriminate].
  cbn [String.length Nat.ltb Nat.leb].
  apply fracSecond9_inv in Hfrac.
  destruct (Z.ltb_spec (num2 d1 d2) 1); [discriminate|].
  destruct (Z.ltb_spec (time.daysIn (mo0 + 1) (num4 y1 y2 y3 y4)) (num2 d1 d2));
    [discriminate|].
  cbn [orb]. intros [= <-].
  unfold time.Format_date.
  cbn [time.Year time.Month time.Day].
  rewrite pad4_num4, pad2_num2 by done.
  rewrite !append_cons, !append_nil.
  by apply (accepted_intro y1 y2 y3 y4 mon (mo0 + 1) d1 d2 sp hh hour
              m1 m2 s1 s2 v11).
Qed.

Lemma skip_byte_ok p r :
  Ascii.eqb p " "%char = false ->
  time.skip (String p r) (String p EmptyString) = Some r.
Proof. intros H. by apply skip_byte. Qed.

Lemma one_or_two_digits_range hh h : one_or_two_digits hh h -> 0 <= h.
Proof.
  intros [c0 H0|c0 c1 H0 H1]; unfold num2;
    pose proof (digit_val_range c0 H0);
    try pose proof (digit_val_range c1 H1); lia.
Qed.

Lemma one_or_two_digits_no_space hh h r :
  one_or_two_digits hh h -> no_leading_space (hh +:+ r).
Proof.
  intros [c0 H0|c0 c1 H0 H1]; rewrite append_cons;
    by apply digit_not_space.
Qed.

Lemma num2_nonneg c0 c1 : digit c0 -> digit c1 -> 0 <= num2 c0 c1.
Proof.
  intros H0 H1. unfold num2.
  pose proof (digit_val_range c0 H0). pose proof (digit_val_range c1 H1). lia.
Qed.

Lemma Parse_ok s date :
  accepted_time_string s date ->
  exists t, time.Parse s = Some t /\ time.Format_date t = date.
Proof.
  intros [y1 y2 y3 y4 mon mo d1 d2 sp hh h m1 m2 s1 s2 frac
            Hy1 Hy2 Hy3 Hy4 Hmonlen Hmo Hd1 Hd2 Hday Hsp Hhh Hh
            Hm1 Hm2 Hmin Hs1 Hs2 Hsec Hfrac].
  destruct (fracSecond9_ok frac Hfrac) as [nsec Hnsec].
  exists {| time.Year := num4 y1 y2 y3 y4; time.Month := mo;
            time.Day := num2 d1 d2; time.Hour := h;
            time.Minute := num2 m1 m2; time.Second := num2 s1 s2;
            time.Nanosecond := nsec |}.
  split.
  2: { unfold time.Format_date. cbn [time.Year time.Month time.Day].
       rewrite pad4_num4, pad2_num2 by done. reflexivity. }
  unfold time.Parse.
  cbn [String.length Nat.ltb Nat.leb orb String.substring time.drop_bytes].
  rewrite isDigit_0, Hy1. cbn [negb].
  match goal with |- context [String.substring 0 0 ?r] =>
    replace (String.substring 0 0 r) with "" by (by destruct r) end.
  rewrite (proj2 (atoi_year y1 y2 y3 y4 _ Hy1)) by done.
  cbn [mbind option_bind].
  rewrite !append_cons, !append_nil.
  rewrite skip_byte_ok by reflexivity. cbn [mbind option_bind].
  rewrite (proj2 (month_lookup _ (mo - 1) _))
    by (exists mon; split; [reflexivity|]; split; [done|];
        rewrite Hmo; f_equal; lia).
  cbn [mbind option_bind].
  rewrite skip_byte_ok by reflexivity. cbn [mbind option_bind].
  rewrite (proj2 (getnum_fixed _ (num2 d1 d2) _)) by (by exists d1, d2).
  cbn [mbind option_bind].
  rewrite skip_space_ok
    by (done || by apply (one_or_two_digits_no_space hh h)).
  cbn [mbind option_bind].
  rewrite (getnum_free_colon hh h) by done. cbn [mbind option_bind].
  pose proof (one_or_two_digits_range hh h Hhh).
  destruct (Z.ltb_spec h 0); [lia|].
  destruct (Z.leb_spec 24 h); [lia|]. cbn [orb].
  rewrite skip_byte_ok by reflexivity. cbn [mbind option_bind].
  rewrite (proj2 (getnum_fixed _ (num2 m1 m2) _)) by (by exists m1, m2).
  cbn [mbind option_bind].
  pose proof (num2_nonneg m1 m2 Hm1 Hm2).
  destruct (Z.ltb_spec (num2 m1 m2) 0); [lia|].
  destruct (Z.leb_spec 60 (num2 m1 m2)); [lia|]. cbn [orb].
  rewrite skip_byte_ok by reflexivity. cbn [mbind option_bind].
  rewrite (proj2 (getnum_fixed _ (num2 s1 s2) _)) by (by exists s1, s2).
  cbn [mbind option_bind].
  pose proof (num2_nonneg s1 s2 Hs1 Hs2).
  destruct (Z.ltb_spec (num2 s1 s2) 0); [lia|].
  destruct (Z.leb_spec 60 (num2 s1 s2)); [lia|]. cbn [orb].
  rewrite Hnsec. cbn [mbind option_bind String.length Nat.ltb Nat.leb].
  replace (mo - 1 + 1) with mo by lia.
  destruct (Z.ltb_spec (num2 d1 d2) 1); [lia|].
  destruct (Z.ltb_spec (time.daysIn mo (num4 y1 y2 y3 y4)) (num2 d1 d2));
    [lia|].
  reflexivity.
Qed.

(** C4, as the code has it. [parseDate] succeeds on exactly the strings
    YYYY/Mon/DD, one or more spaces, H or HH, :MM:SS and, optionally, a
    period or comma followed by one or more digits, where the month
    abbreviation may be in any letter case, the day exists in that month
    of that year, the hour is below 24 and minute and second are below 60.
    It returns YYYY-MM-DD. Every other string fails: another separator, a
    month name that is none of the twelve, a fraction separator without a
    digit, text after the seconds or the fraction, a day or a time out of
    range. *)
Theorem parseDate_accepts_exactly (s date : string) :
  sorter.parseDate s = Ok date <-> accepted_time_string s date.
Proof.
  unfold sorter.parseDate. split.
  - destruct (time.Parse s) as [t|] eqn:E; [|discriminate].
    intros [= <-]. by apply Parse_inv.
  - intros H. destruct (Parse_ok s date H) as (t & -> & <-). reflexivity.
Qed.

(** C4, as the claim has it, fails: a time without the fractional part is
    accepted, and so are a month in lower case, several spaces, a
    one-digit hour and a fraction of other than three digits after a
    comma. *)
Lemma parseDate_accepts_more :
  sorter.parseDate "2025/Oct/01 09:30:02" = Ok "2025-10-01"
  /\ sorter.parseDate "2025/oct/01   9:30:02,8" = Ok "2025-10-01".
Proof. vm_compute. split; reflexivity. Qed.

Lemma parseDate_examples :
  sorter.parseDate "2025/Oct/01 09:30:02.800" = Ok "2025-10-01"
  /\ sorter.parseDate "2024/Dec/31 23:59:59.999" = Ok "2024-12-31"
  /\ sorter.parseDate "invalid" = Err ErrInvalidTime
  /\ sorter.parseDate "2025-10-01" = Err ErrInvalidTime
  /\ sorter.parseDate "2025/Okt/01 09:30:02.800" = Err ErrInvalidTime
  /\ sorter.parseDate "2025/Oct/01 09:30:02." = Err ErrInvalidTime
  /\ sorter.parseDate "2025/Feb/29 09:30:02.800" = Err ErrInvalidTime.
Proof. vm_compute. repeat split. Qed.

(** ** Grouping *)

Lemma keyed_app ti di ai l1 l2 :
  keyed ti di ai (l1 ++ l2) = keyed ti di ai l1 ++ keyed ti di ai l2.
Proof. apply omap_app. Qed.

(** [processChunk] adds the keyed records of the chunk to the groups; in
    skip mode it reports no error. *)
Lemma processChunk_spec ti di ai skip chunk : forall g n,
  let '(_, err, g') := sorter.processChunk chunk ti di ai g skip n in
  (err = None -> g' = foldl add_row g (keyed ti di ai chunk))
  /\ (skip = true -> err = None).
Proof.
  induction chunk as [|r chunk IH]; intros g n; cbn [sorter.processChunk].
  { done. }
  unfold keyed. cbn [omap list_omap]. unfold sorter.key_of.
  destruct (sorter.parseDate (sorter.field r ti)) as [date|e].
  - specialize (IH (add_row g
      ({| sorter.Date := date; sorter.DesignName := sorter.field r di;
          sorter.Amp := sorter.normalizeAmp (sorter.field r ai) |}, r)) n).
    unfold add_row in IH at 1. cbn [fst snd] in IH.
    destruct (sorter.processChunk chunk _ _ _ _ _ _) as [[n' err] g'].
    exact IH.
  - destruct skip.
    + specialize (IH g (S n)).
      destruct (sorter.processChunk chunk _ _ _ _ _ _) as [[n' err] g'].
      exact IH.
    + split; discriminate.
Qed.

(** A run of the read loop that ends well has added the keyed records of
    the waiting chunk and of the lines left, in that order. *)
Lemma readRows_spec nf ti di ai skip lines : forall chunk g rc sk g' sk',
  sorter.readRows lines nf ti di ai skip chunk g rc sk = Ok (g', sk') ->
  g' = foldl add_row g
         (keyed ti di ai (chunk ++ omap (sorter.csv_Read nf) lines)).
Proof.
  induction lines as [|l lines IH]; intros chunk g rc sk g' sk';
    cbn [sorter.readRows omap list_omap].
  - rewrite app_nil_r. destruct (0 <? length chunk)%nat eqn:E.
    + pose proof (processChunk_spec ti di ai skip chunk g 0) as H.
      destruct (sorter.processChunk chunk _ _ _ _ _ _) as [[n' err] g1].
      destruct H as [H1 H2]. destruct err as [e|].
      * destruct skip; [by specialize (H2 eq_refl)|discriminate].
      * intros [= <- _]. by apply H1.
    + apply Nat.ltb_ge in E. assert (chunk = []) as ->
        by (destruct chunk; [done|cbn in E; lia]).
      by intros [= <- _].
  - destruct (sorter.csv_Read nf l) as [record|].
    + destruct (sorter.ChunkSize <=? length (chunk ++ [record]))%nat.
      * pose proof (processChunk_spec ti di ai skip (chunk ++ [record]) g 0)
          as H.
        destruct (sorter.processChunk (chunk ++ [record]) _ _ _ _ _ _)
          as [[n' err] g1].
        destruct H as [H1 H2].
        destruct err as [e|];
          [destruct skip; [by specialize (H2 eq_refl)|discriminate]|].
        intros Hrun. apply IH in Hrun. rewrite Hrun, (H1 eq_refl).
        rewrite app_nil_l, <- foldl_app, <- keyed_app.
        by rewrite <- app_assoc.
      * intros Hrun. apply IH in Hrun. by rewrite <- app_assoc in Hrun.
    + destruct skip; [|discriminate]. apply IH.
Qed.

Lemma lookup_foldl_add_row krs : forall g k,
  foldl add_row g krs !! k
  = let l := map snd (filter (fun kr => kr.1 = k) krs) in
    if decide (l = []) then g !! k else Some (default [] (g !! k) ++ l).
Proof.
  induction krs as [|[k' r] krs IH]; intros g k; cbn [foldl].
  { cbv zeta. rewrite filter_nil. cbn [map]. by rewrite decide_True. }
  rewrite IH. cbv zeta. rewrite filter_cons. cbn [fst].
  unfold add_row at 1 2. cbn [fst snd].
  destruct (decide (k' = k)) as [->|Hne].
  - rewrite lookup_insert_eq. cbn [map snd default]. unfold id.
    destruct (decide (r :: _ = [])) as [?|_]; [discriminate|].
    destruct (decide (map snd (filter _ krs) = [])) as [->|_].
    + done.
    + by rewrite <- app_assoc.
  - by rewrite lookup_insert_ne.
Qed.

Lemma rows_of_keyed ti di ai k records :
  map snd (filter (fun kr => kr.1 = k) (keyed ti di ai records))
  = rows_of_key ti di ai k records.
Proof.
  unfold keyed, rows_of_key.
  induction records as [|r records IH]; [done|].
  cbn [omap list_omap]. rewrite (filter_cons _ r).
  destruct (sorter.key_of ti di ai r) as [k'|e].
  - rewrite filter_cons. cbn [fst].
    destruct (decide (k' = k)) as [->|Hne].
    + rewrite decide_True by done. cbn [map snd]. by rewrite IH.
    + rewrite decide_False by congruence. exact IH.
  - rewrite decide_False by discriminate. exact IH.
Qed.

(** The groups of a run that ends well: every key has its records, in
    the order of the input, and no key has an empty group. *)
Lemma groupRows_spec header lines skip groups hdr :
  sorter.groupRows (sorter.Fields header :: lines) skip = Ok (hdr, groups) ->
  hdr = header
  /\ exists ti di ai,
       sorter.colMap header "Time" = Some ti
       /\ sorter.colMap header "DesignName" = Some di
       /\ sorter.colMap header "LastAmp" = Some ai
       /\ forall k,
            groups !! k
            = let l := rows_of_key ti di ai k
                         (omap (sorter.csv_Read (length header)) lines) in
              if decide (l = []) then None else Some l.
Proof.
  unfold sorter.groupRows.
  destruct (sorter.colMap header "Time") as [ti|]; [|discriminate].
  destruct (sorter.colMap header "DesignName") as [di|]; [|discriminate].
  destruct (sorter.colMap header "LastAmp") as [ai|]; [|discriminate].
  destruct (sorter.readRows _ _ _ _ _ _ _ _ _ _) as [[g sk]|e] eqn:E;
    [|discriminate].
  intros [= <- <-]. split; [done|]. exists ti, di, ai.
  split; [done|]. split; [done|]. split; [done|]. intros k.
  apply readRows_spec in E. rewrite E, app_nil_l.
  rewrite lookup_foldl_add_row. cbv zeta. rewrite rows_of_keyed.
  rewrite lookup_empty. cbn [default]. by rewrite app_nil_l.
Qed.

(** ** Writing the groups *)

Lemma appended_nil f : appended f [] = [].
Proof. reflexivity. Qed.

Lemma appended_cons f kv order :
  appended f (kv :: order)
  = if decide (sorter.artifact_name kv.1 = f)
    then kv.2 ++ appended f order else appended f order.
Proof.
  unfold appended. rewrite filter_cons.
  by destruct (decide (sorter.artifact_name kv.1 = f)).
Qed.

Lemma appended_app f o1 o2 :
  appended f (o1 ++ o2) = appended f o1 ++ appended f o2.
Proof.
  unfold appended. by rewrite filter_app, map_app, concat_app.
Qed.

(** The write loop leaves in every file what it held (or the header line,
    for a file it creates), followed by the rows of the groups of that
    file in the order of the visit; files of no group are not touched. *)
Lemma writeGroups_lookup header order : forall out f,
  Forall (fun kv : sorter.GroupKey * list (list string) => kv.2 <> []) order ->
  sorter.writeGroups header order out !! f
  = if decide (appended f order = []) then out !! f
    else Some (base_content header out f ++ appended f order).
Proof.
  unfold sorter.writeGroups.
  induction order as [|kv order IH]; intros out f Hne; cbn [foldl].
  { by rewrite appended_nil, decide_True. }
  apply Forall_cons in Hne as [Hkv Hne].
  rewrite IH by exact Hne. rewrite appended_cons.
  unfold sorter.writeGroup, base_content.
  destruct (decide (sorter.artifact_name kv.1 = f)) as [<-|Hf].
  - assert (kv.2 ++ appended (sorter.artifact_name kv.1) order <> []) as Hne'.
    { intros H. apply app_eq_nil in H as [H _]. by apply Hkv. }
    rewrite (decide_False (P := _ ++ _ = [])) by exact Hne'.
    destruct (out !! sorter.artifact_name kv.1) as [old|] eqn:E;
      rewrite lookup_insert_eq;
      destruct (decide (appended _ order = [])) as [->|_];
      rewrite ?app_nil_r, <- ?app_assoc; reflexivity.
  - destruct (out !! sorter.artifact_name kv.1) as [old|] eqn:E;
      rewrite lookup_insert_ne by exact Hf; reflexivity.
Qed.

Lemma groups_nonempty (groups : gmap sorter.GroupKey (list (list string)))
    (rows_of : sorter.GroupKey -> list (list string)) order :
  (forall k, groups !! k
             = if decide (rows_of k = []) then None else Some (rows_of k)) ->
  order ≡ₚ map_to_list groups ->
  Forall (fun kv : sorter.GroupKey * list (list string) =>
            kv.2 = rows_of kv.1 /\ kv.2 <> []) order.
Proof.
  intros Hg Hperm. apply Forall_forall. intros [k rows] Hin.
  rewrite Hperm in Hin. apply elem_of_map_to_list in Hin.
  rewrite Hg in Hin. cbn [fst snd].
  destruct (decide (rows_of k = [])); [discriminate|].
  injection Hin as <-. done.
Qed.

Lemma group_in_order (groups : gmap sorter.GroupKey (list (list string)))
    order k rows :
  order ≡ₚ map_to_list groups -> groups !! k = Some rows ->
  exists o1 o2, order = o1 ++ (k, rows) :: o2.
Proof.
  intros Hperm Hk. apply list_elem_of_split.
  rewrite Hperm. by apply elem_of_map_to_list.
Qed.

Lemma elem_of_appended f order r :
  r ∈ appended f order ->
  exists kv, kv ∈ order /\ sorter.artifact_name kv.1 = f /\ r ∈ kv.2.
Proof.
  unfold appended. intros H.
  apply list_elem_of_In, in_concat in H as (rows & Hrows & Hr).
  apply list_elem_of_In in Hrows, Hr.
  apply list_elem_of_fmap in Hrows as (kv & -> & Hkv).
  apply list_elem_of_filter in Hkv as [Hf Hkv]. by exists kv.
Qed.

(** ** Names of artifacts *)

Lemma sanitize_app a b :
  sorter.sanitizeFilename (a +:+ b)
  = sorter.sanitizeFilename a +:+ sorter.sanitizeFilename b.
Proof.
  induction a as [|c a IH]; [reflexivity|].
  rewrite append_cons. cbn [sorter.sanitizeFilename].
  destruct (sorter.unsafe_char c); [exact IH|].
  by rewrite append_cons, IH.
Qed.

Lemma sanitize_safe s :
  no_unsafe_char s = true -> sorter.sanitizeFilename s = s.
Proof.
  induction s as [|c s IH]; [reflexivity|].
  cbn [no_unsafe_char sorter.sanitizeFilename]. intros H.
  apply andb_true_iff in H as [Hc Hs]. apply negb_true_iff in Hc.
  rewrite Hc. by rewrite IH.
Qed.

Lemma digit_safe c : digit c -> sorter.unsafe_char c = false.
Proof.
  unfold digit. intros H.
  pose proof (ascii_enum
    (fun c => implb (time.is_digit c) (negb (sorter.unsafe_char c)))
    ltac:(vm_compute; reflexivity) c) as E.
  cbv beta in E. rewrite H in E. cbn [implb] in E.
  by apply negb_true_iff in E.
Qed.

Lemma digits_safe s : all_digits s = true -> no_unsafe_char s = true.
Proof.
  induction s as [|c s IH]; [reflexivity|].
  cbn [all_digits no_unsafe_char]. intros H.
  apply andb_true_iff in H as [Hc Hs].
  by rewrite (digit_safe c Hc), IH.
Qed.

Lemma artifact_name_clean k :
  clean_key k ->
  sorter.artifact_name k
  = sorter.Date k +:+ "design" +:+ sorter.DesignName k +:+ "amp"
    +:+ amp_suffix (sorter.Amp k) +:+ ".csv"
  /\ (String.length (amp_suffix (sorter.Amp k)) <= 3)%nat
  /\ all_digits (amp_suffix (sorter.Amp k)) = true.
Proof.
  intros (Hlen & Hdate & Hdesign & Hamp).
  unfold sorter.artifact_name, sorter.generateFilename, amp_suffix.
  destruct Hamp as [->|(Hne & Hl3 & Hdig)].
  - change (String.eqb "no_amp" "no_amp") with true. cbv iota.
    split; [|split; [cbn; lia|reflexivity]].
    rewrite !sanitize_app, !sanitize_safe by (done || reflexivity).
    reflexivity.
  - destruct (String.eqb_spec (sorter.Amp k) "no_amp") as [E|_].
    { rewrite E in Hl3. cbn in Hl3. lia. }
    split; [|done].
    rewrite !sanitize_app, !sanitize_safe
      by (done || reflexivity || by apply digits_safe).
    reflexivity.
Qed.

Lemma append_inj_length a b x y :
  String.length a = String.length b -> a +:+ x = b +:+ y -> a = b /\ x = y.
Proof.
  revert b. induction a as [|c a IH]; intros [|d b] Hlen H;
    try discriminate; [done|].
  rewrite !append_cons in H. injection H as -> H.
  destruct (IH b) as [-> ->]; [by injection Hlen|done|done].
Qed.

Lemma list_ascii_append a b :
  list_ascii_of_string (a +:+ b)
  = list_ascii_of_string a ++ list_ascii_of_string b.
Proof.
  induction a as [|c a IH]; [reflexivity|].
  rewrite append_cons. cbn [list_ascii_of_string app]. by rewrite IH.
Qed.

Lemma list_ascii_inj a b :
  list_ascii_of_string a = list_ascii_of_string b -> a = b.
Proof.
  intros H. rewrite <- (string_of_list_ascii_of_string a),
    <- (string_of_list_ascii_of_string b). by rewrite H.
Qed.

Lemma not_digit_amp :
  time.is_digit "a" = false /\ time.is_digit "m" = false
  /\ time.is_digit "p" = false.
Proof. by vm_compute. Qed.

(** A design name and an amplitude of at most three digits can be read
    off the end of a name. *)
Lemma design_amp_inj D1 D2 s1 s2 :
  (String.length s1 <= 3)%nat -> (String.length s2 <= 3)%nat ->
  all_digits s1 = true -> all_digits s2 = true ->
  D1 +:+ "amp" +:+ s1 +:+ ".csv" = D2 +:+ "amp" +:+ s2 +:+ ".csv" ->
  D1 = D2 /\ s1 = s2.
Proof.
  intros Hl1 Hl2 Hd1 Hd2 H.
  apply (f_equal list_ascii_of_string) in H.
  rewrite !list_ascii_append in H.
  rewrite !(assoc_L (++) _ _ (list_ascii_of_string ".csv")) in H.
  apply app_inv_tail in H.
  apply (f_equal (@rev ascii)) in H.
  rewrite !rev_app_distr in H.
  destruct not_digit_amp as (Ha & Hm & Hp).
  destruct s1 as [|a1 [|b1 [|c1 [|? ?]]]]; try (cbn in Hl1; lia);
    destruct s2 as [|a2 [|b2 [|c2 [|? ?]]]]; try (cbn in Hl2; lia);
    cbn [all_digits] in Hd1, Hd2;
    repeat match goal with
      | H : _ && _ = true |- _ => apply andb_true_iff in H as [? H]
      end;
    cbn [list_ascii_of_string rev app] in H;
    repeat match goal with
      | E : _ :: _ = _ :: _ |- _ => injection E; clear E; intros; subst
      end;
    try congruence.
  all: match goal with
       | E : rev _ = rev _ |- _ =>
           apply (f_equal (@rev ascii)) in E; rewrite !rev_involutive in E;
           apply list_ascii_inj in E; by subst
       end.
Qed.

(** ** The sorter returns *)

(** [processChunk] reports no error in skip mode, and none when every
    row of the chunk has a key. *)
Lemma processChunk_no_error ti di ai skip chunk : forall g n,
  skip = true
  \/ Forall (fun r => is_err (sorter.key_of ti di ai r) = false) chunk ->
  (sorter.processChunk chunk ti di ai g skip n).1.2 = None.
Proof.
  induction chunk as [|r chunk IH]; intros g n H; cbn [sorter.processChunk].
  { done. }
  assert (skip = true
          \/ Forall (fun r => is_err (sorter.key_of ti di ai r) = false) chunk)
    as H'.
  { destruct H as [H|H]; [by left|right]. by apply Forall_cons_1 in H as [_ H]. }
  destruct (sorter.parseDate (sorter.field r ti)) as [date|e] eqn:E.
  - by apply IH.
  - destruct skip; [by apply IH|].
    destruct H as [H|H]; [discriminate|].
    apply Forall_cons_1 in H as [H _].
    unfold sorter.key_of in H. by rewrite E in H.
Qed.

(** The read loop ends well in skip mode, and when every line is a record
    with a key. *)
Lemma readRows_total nf ti di ai skip lines : forall chunk g rc sk,
  skip = true
  \/ (Forall (fun l => is_Some (sorter.csv_Read nf l)) lines
      /\ Forall (fun r => is_err (sorter.key_of ti di ai r) = false)
           (chunk ++ omap (sorter.csv_Read nf) lines)) ->
  exists g' sk',
    sorter.readRows lines nf ti di ai skip chunk g rc sk = Ok (g', sk').
Proof.
  induction lines as [|l lines IH]; intros chunk g rc sk H;
    cbn [sorter.readRows omap list_omap] in *.
  - destruct (0 <? length chunk)%nat; [|by eexists _, _].
    pose proof (processChunk_no_error ti di ai skip chunk g 0) as Hp.
    destruct (sorter.processChunk chunk _ _ _ _ _ _) as [[n' err] g1].
    cbn [fst snd] in Hp. rewrite Hp; [by eexists _, _|].
    destruct H as [H|[_ H]]; [by left|right]. by rewrite app_nil_r in H.
  - destruct (sorter.csv_Read nf l) as [record|] eqn:E.
    + assert (forall chunk',
                Forall (fun r => is_err (sorter.key_of ti di ai r) = false)
                  (chunk ++ record :: omap (sorter.csv_Read nf) lines) ->
                chunk' = [] \/ chunk' = chunk ++ [record] ->
                Forall (fun r => is_err (sorter.key_of ti di ai r) = false)
                  (chunk' ++ omap (sorter.csv_Read nf) lines)) as Hk.
      { intros chunk' Hall [->| ->].
        - apply Forall_app in Hall as [_ Hall].
          by apply Forall_cons_1 in Hall as [_ Hall].
        - by rewrite <- app_assoc. }
      destruct (sorter.ChunkSize <=? length (chunk ++ [record]))%nat.
      * pose proof (processChunk_no_error ti di ai skip (chunk ++ [record])
                      g 0) as Hp.
        destruct (sorter.processChunk (chunk ++ [record]) _ _ _ _ _ _)
          as [[n' err] g1].
        cbn [fst snd] in Hp. rewrite Hp.
        -- apply IH. destruct H as [H|[Hl Hr]]; [by left|right].
           apply Forall_cons_1 in Hl as [_ Hl]. split; [done|].
           apply Hk; [done|by left].
        -- destruct H as [H|[_ Hr]]; [by left|right].
           apply Forall_app. apply Forall_app in Hr as [Hc Hr].
           apply Forall_cons_1 in Hr as [Hr _].
           split; [done|]. by apply Forall_cons_2.
      * apply IH. destruct H as [H|[Hl Hr]]; [by left|right].
        apply Forall_cons_1 in Hl as [_ Hl]. split; [done|].
        apply Hk; [done|by right].
    + destruct H as [->|[Hl _]]; [by apply IH; left|].
      apply Forall_cons_1 in Hl as [[? Hl] _]. congruence.
Qed.

(** [SortCSV] gets through grouping when the header has the three
    columns and, unless it skips errors, every line is a record with a
    key; the groups are the keyed records, added one by one. *)
Lemma groupRows_total header lines skip ti di ai :
  sorter.colMap header "Time" = Some ti ->
  sorter.colMap header "DesignName" = Some di ->
  sorter.colMap header "LastAmp" = Some ai ->
  skip = true
  \/ (Forall (fun l => is_Some (sorter.csv_Read (length header) l)) lines
      /\ Forall (fun r => is_err (sorter.key_of ti di ai r) = false)
           (omap (sorter.csv_Read (length header)) lines)) ->
  sorter.groupRows (sorter.Fields header :: lines) skip
  = Ok (header,
        foldl add_row ∅
          (keyed ti di ai (omap (sorter.csv_Read (length header)) lines))).
Proof.
  intros Hti Hdi Hai H. unfold sorter.groupRows. rewrite Hti, Hdi, Hai.
  destruct (readRows_total (length header) ti di ai skip lines [] ∅ 0%nat
              0%nat) as (g' & sk' & E); [by rewrite app_nil_l|].
  rewrite E. apply readRows_spec in E. by rewrite E, app_nil_l.
Qed.

(** ** One artifact for one key *)

Lemma amp_suffix_inj a1 a2 :
  (a1 = "no_amp" \/ (a1 <> "" /\ (String.length a1 <= 3)%nat
                     /\ all_digits a1 = true)) ->
  (a2 = "no_amp" \/ (a2 <> "" /\ (String.length a2 <= 3)%nat
                     /\ all_digits a2 = true)) ->
  amp_suffix a1 = amp_suffix a2 -> a1 = a2.
Proof.
  assert (forall a, a <> "" -> (String.length a <= 3)%nat ->
                    amp_suffix a = a) as Hs.
  { intros a _ Hl. unfold amp_suffix.
    destruct (String.eqb_spec a "no_amp") as [->|_]; [cbn in Hl; lia|done]. }
  intros [->|(Hn1 & Hl1 & _)] [->|(Hn2 & Hl2 & _)]; [done| | |].
  - rewrite (Hs a2) by done. intros H. by destruct Hn2.
  - rewrite (Hs a1) by done. intros H. by destruct Hn1.
  - by rewrite (Hs a1), (Hs a2).
Qed.

(** Clean keys that differ have artifact names that differ. *)
Lemma artifact_name_inj k1 k2 :
  clean_key k1 -> clean_key k2 ->
  sorter.artifact_name k1 = sorter.artifact_name k2 -> k1 = k2.
Proof.
  intros Hc1 Hc2.
  destruct (artifact_name_clean k1 Hc1) as (-> & Hl1 & Hd1).
  destruct (artifact_name_clean k2 Hc2) as (-> & Hl2 & Hd2).
  destruct Hc1 as (Hlen1 & _ & _ & Ha1). destruct Hc2 as (Hlen2 & _ & _ & Ha2).
  intros H.
  apply append_inj_length in H as [Hdate H]; [|congruence].
  apply (append_inj_length "design" "design") in H as [_ H]; [|reflexivity].
  apply design_amp_inj in H as [Hdesign Hamp]; [|done..].
  apply amp_suffix_inj in Hamp; [|done..].
  destruct k1, k2. cbn in *. congruence.
Qed.

(** What a run of [SortCSV] that ends well leaves in each file. *)
Lemma SortCSV_run_files (header : list string)
    (lines : list sorter.csv_line) (skipErrors : bool)
    (out out' : gmap string (list (list string))) :
  sorter.SortCSV_run (sorter.Fields header :: lines) skipErrors out out' ->
  exists ti di ai,
    sorter.colMap header "Time" = Some ti
    /\ sorter.colMap header "DesignName" = Some di
    /\ sorter.colMap header "LastAmp" = Some ai
    /\ forall f, exists written : list (list string),
         out' !! f
         = (if decide (written = []) then out !! f
            else Some (base_content header out f ++ written))
         /\ (forall r, r ∈ written ->
               exists k, sorter.key_of ti di ai r = Ok k
                         /\ sorter.artifact_name k = f)
         /\ (forall k, sorter.artifact_name k = f ->
               exists before after,
                 written
                 = before
                   ++ rows_of_key ti di ai k
                        (omap (sorter.csv_Read (length header)) lines)
                   ++ after).
Proof.
  intros (hdr & groups & order & Hg & Hperm & ->).
  apply groupRows_spec in Hg as (-> & ti & di & ai & Hti & Hdi & Hai & Hgroups).
  exists ti, di, ai. split; [done|]. split; [done|]. split; [done|].
  set (records := omap (sorter.csv_Read (length header)) lines) in *.
  cbv zeta in Hgroups.
  pose proof (groups_nonempty groups (fun k => rows_of_key ti di ai k records)
                order Hgroups Hperm) as Horder.
  intros f. exists (appended f order). split; [|split].
  - apply writeGroups_lookup. eapply Forall_impl; [exact Horder|].
    by intros kv [_ H].
  - intros r Hr.
    apply elem_of_appended in Hr as ([k rows] & Hin & Hname & Hrow).
    rewrite Forall_forall in Horder.
    destruct (Horder _ Hin) as [Hrows _]. cbn [fst snd] in *. subst rows.
    apply list_elem_of_filter in Hrow as [Hkey _]. by exists k.
  - intros k Hname.
    destruct (decide (rows_of_key ti di ai k records = [])) as [->|Hne].
    { exists (appended f order), []. by rewrite !app_nil_r. }
    destruct (group_in_order groups order k (rows_of_key ti di ai k records))
      as (o1 & o2 & ->); [done| |].
    { rewrite Hgroups. by rewrite decide_False. }
    exists (appended f o1), (appended f o2).
    rewrite appended_app, appended_cons. cbn [fst snd].
    by rewrite decide_True.
Qed.

(** ** The sorter on examples *)

Lemma rows_of_key_cons ti di ai k r rs :
  rows_of_key ti di ai k (r :: rs)
  = if decide (sorter.key_of ti di ai r = Ok k)
    then r :: rows_of_key ti di ai k rs else rows_of_key ti di ai k rs.
Proof. unfold rows_of_key. by rewrite filter_cons. Qed.

Lemma sort_header_columns :
  sorter.colMap sort_header "Time" = Some 0%nat
  /\ sorter.colMap sort_header "DesignName" = Some 1%nat
  /\ sorter.colMap sort_header "LastAmp" = Some 2%nat.
Proof. by vm_compute. Qed.

Lemma example_keys :
  sorter.key_of 0 1 2 record_colon = Ok key_colon
  /\ sorter.key_of 0 1 2 record_plain = Ok key_plain
  /\ sorter.key_of 0 1 2 record_later = Ok key_plain
  /\ sorter.key_of 0 1 2 record_next_day = Ok key_next_day.
Proof. by vm_compute. Qed.

Lemma example_names :
  sorter.artifact_name key_colon = "2025-10-01designABamp097.csv"
  /\ sorter.artifact_name key_plain = "2025-10-01designABamp097.csv"
  /\ sorter.artifact_name key_next_day = "2025-10-02designABamp097.csv".
Proof. by vm_compute. Qed.

(** The sorter on three records of two keys. *)
Lemma grouping_run :
  sorter.SortCSV_run (sorter.Fields sort_header :: grouping_input) false
    ∅ grouping_output.
Proof.
  destruct sort_header_columns as (Hti & Hdi & Hai).
  destruct example_keys as (_ & Kp & Kl & Kn).
  destruct example_names as (_ & Np & Nn).
  exists sort_header. eexists.
  exists [(key_plain, [record_plain; record_later]);
          (key_next_day, [record_next_day])].
  split; [|split].
  - apply (groupRows_total _ _ _ _ _ _ Hti Hdi Hai). right.
    change (omap _ grouping_input)
      with [record_plain; record_next_day; record_later].
    split; repeat first [apply Forall_cons_2 | apply Forall_nil_2];
      first [by eexists | by rewrite Kp | by rewrite Kl | by rewrite Kn ].
  - change (omap _ grouping_input)
      with [record_plain; record_next_day; record_later].
    unfold keyed. cbn [omap list_omap]. rewrite Kp, Kl, Kn.
    cbn [foldl]. unfold add_row. cbn [fst snd].
    assert (key_next_day <> key_plain) as Hne by discriminate.
    rewrite lookup_empty. cbn [default app].
    rewrite (lookup_insert_ne _ key_plain key_next_day) by done.
    rewrite lookup_empty.
    rewrite lookup_insert_ne, lookup_insert_eq by done.
    cbn [default app].
    rewrite (insert_insert_ne _ key_plain key_next_day) by done.
    rewrite insert_insert_eq.
    rewrite map_to_list_insert, map_to_list_insert, map_to_list_empty;
      [apply perm_swap|apply lookup_empty|].
    by rewrite lookup_insert_ne, lookup_empty.
  - unfold sorter.writeGroups. cbn [foldl]. unfold sorter.writeGroup.
    cbn [fst snd]. rewrite Np, Nn.
    rewrite lookup_empty, lookup_insert_ne, lookup_empty by discriminate.
    reflexivity.
Qed.

(** C9, as the code has it. After a run of [SortCSV] that ends well, for
    every file name [f] of the output directory there is the list
    [written] of the rows the run appended to [f] (none, and then the
    file is as it was; or some, after what the file held before, which is
    the header line for a new file), such that: every row in [written]
    is a record whose key has the artifact name [f]; and for every key of
    that name all the records of the key stand together in [written], in
    the order of the input. So the records of one key go to one artifact
    and to no other. Records of two keys share an artifact exactly when
    the two keys have the same artifact name; keys that are clean (a date
    of ten bytes, no byte that sanitizing removes, an amplitude of one to
    three digits or the sentinel) have different names when they
    differ. *)
Theorem same_key_one_artifact (header : list string)
    (lines : list sorter.csv_line) (skipErrors : bool)
    (out out' : gmap string (list (list string))) :
  sorter.SortCSV_run (sorter.Fields header :: lines) skipErrors out out' ->
  exists ti di ai,
    sorter.colMap header "Time" = Some ti
    /\ sorter.colMap header "DesignName" = Some di
    /\ sorter.colMap header "LastAmp" = Some ai
    /\ (forall f, exists written : list (list string),
          out' !! f
          = (if decide (written = []) then out !! f
             else Some (base_content header out f ++ written))
          /\ (forall r, r ∈ written ->
                exists k, sorter.key_of ti di ai r = Ok k
                          /\ sorter.artifact_name k = f)
          /\ (forall k, sorter.artifact_name k = f ->
                exists before after,
                  written
                  = before
                    ++ rows_of_key ti di ai k
                         (omap (sorter.csv_Read (length header)) lines)
                    ++ after))
    /\ (forall k1 k2, clean_key k1 -> clean_key k2 -> k1 <> k2 ->
          sorter.artifact_name k1 <> sorter.artifact_name k2).
Proof.
  intros Hrun.
  destruct (SortCSV_run_files _ _ _ _ _ Hrun)
    as (ti & di & ai & Hti & Hdi & Hai & Hfiles).
  exists ti, di, ai. split; [done|]. split; [done|]. split; [done|].
  split; [exact Hfiles|].
  intros k1 k2 H1 H2 Hne Hname. apply Hne. by apply artifact_name_inj.
Qed.

Lemma same_key_one_artifact_witness :
  sorter.SortCSV_run (sorter.Fields sort_header :: grouping_input) false
    ∅ grouping_output
  /\ exists ti di ai,
    sorter.colMap sort_header "Time" = Some ti
    /\ sorter.colMap sort_header "DesignName" = Some di
    /\ sorter.colMap sort_header "LastAmp" = Some ai
    /\ (forall f, exists written : list (list string),
          grouping_output !! f
          = (if decide (written = [])
             then (∅ : gmap string (list (list string))) !! f
             else Some (base_content sort_header ∅ f ++ written))
          /\ (forall r, r ∈ written ->
                exists k, sorter.key_of ti di ai r = Ok k
                          /\ sorter.artifact_name k = f)
          /\ (forall k, sorter.artifact_name k = f ->
                exists before after,
                  written
                  = before
                    ++ rows_of_key ti di ai k
                         (omap (sorter.csv_Read (length sort_header))
                               grouping_input)
                    ++ after))
    /\ (forall k1 k2, clean_key k1 -> clean_key k2 -> k1 <> k2 ->
          sorter.artifact_name k1 <> sorter.artifact_name k2).
Proof.
  split; [exact grouping_run|].
  exact (same_key_one_artifact sort_header grouping_input false ∅
           grouping_output grouping_run).
Defined.

Lemma different_keys_one_artifact :
  sorter.key_of 0 1 2 record_colon = Ok key_colon
  /\ sorter.key_of 0 1 2 record_plain = Ok key_plain
  /\ key_colon <> key_plain
  /\ (exists out', sorter.SortCSV_run colliding_input false ∅ out')
  /\ (forall out', sorter.SortCSV_run colliding_input false ∅ out' ->
        exists content,
          out' !! "2025-10-01designABamp097.csv" = Some content
          /\ record_colon ∈ content /\ record_plain ∈ content).
Proof.
  destruct sort_header_columns as (Hti & Hdi & Hai).
  destruct example_keys as (Kc & Kp & _).
  destruct example_names as (Nc & Np & _).
  split; [done|]. split; [done|]. split; [discriminate|]. split.
  - eexists. exists sort_header. eexists. eexists.
    split; [|split; reflexivity].
    apply (groupRows_total _ _ _ _ _ _ Hti Hdi Hai). right.
    change (omap _ _) with [record_colon; record_plain].
    split; repeat first [apply Forall_cons_2 | apply Forall_nil_2];
      first [by eexists | by rewrite Kc | by rewrite Kp ].
  - intros out' Hrun.
    destruct (SortCSV_run_files _ _ _ _ _ Hrun)
      as (ti & di & ai & Hti' & Hdi' & Hai' & Hfiles).
    assert (ti = 0%nat) as -> by congruence.
    assert (di = 1%nat) as -> by congruence.
    assert (ai = 2%nat) as -> by congruence.
    destruct (Hfiles "2025-10-01designABamp097.csv")
      as (written & Hout & _ & Hkeys).
    change (omap _ _) with [record_colon; record_plain] in Hkeys.
    destruct (Hkeys key_colon Nc) as (b1 & a1 & H1).
    destruct (Hkeys key_plain Np) as (b2 & a2 & H2).
    rewrite !rows_of_key_cons, Kc, Kp in H1, H2.
    rewrite decide_True in H1 by done.
    rewrite decide_False in H1 by discriminate.
    rewrite decide_False in H2 by discriminate.
    rewrite decide_True in H2 by done.
    assert (record_colon ∈ written) as Hc.
    { rewrite H1. apply elem_of_app. right. by left. }
    assert (record_plain ∈ written) as Hp.
    { rewrite H2. apply elem_of_app. right. by left. }
    destruct (decide (written = [])) as [->|_]; [by apply elem_of_nil in Hc|].
    eexists. split; [exact Hout|]. split; apply elem_of_app; by right.
Qed.

(** * Further properties *)

(** ** The header of a written file *)

Lemma NewReader_artifact w now name (fs : gmap string (list byte)) :
  wf_Writer w ->
  las.NewReader name (<[name := artifact w now]> fs)
  = Ok {| las.file := {| content := artifact w now; offset := 227 |};
          las.header :=
            {| las.VersionMajor := 1; las.VersionMinor := 2;
               las.PointFormat := 3;
               las.PointCount := uint32 (Z.of_nat (length (las.points w)));
               las.PointRecordLength := 34;
               las.XScale := las.scale; las.YScale := las.scale;
               las.ZScale := las.scale;
               las.XOffset := las.minX w; las.YOffset := las.minY w;
               las.ZOffset := las.minZ w;
               las.MinX := las.minX w; las.MinY := las.minY w;
               las.MinZ := las.minZ w;
               las.MaxX := las.maxX w; las.MaxY := las.maxY w;
               las.MaxZ := las.maxZ w |} |}.
Proof.
  intros Hw.
  rewrite (NewReader_long _ _ (artifact w now)).
  2: apply lookup_insert_eq.
  2: rewrite length_artifact; lia.
  assert (slice 0 4 (artifact w now) = bytes_of_string "LASF") as Hsig.
  { unfold artifact.
    rewrite slice_app_l by (rewrite length_header_bytes; lia).
    apply header_signature. }
  rewrite (bool_decide_eq_true_2 _ Hsig).
  by rewrite take_header_artifact, (parseHeader_header_bytes _ _ Hw).
Qed.

Lemma encode_open_artifact pts name now (fs : gmap string (list byte)) :
  pts <> [] -> Forall wf_Point pts ->
  encode_open pts name now fs
  = las.NewReader name (<[name := artifact (writer_of pts) now]> fs).
Proof.
  intros Hne Hwf. unfold encode_open.
  rewrite Write_ok by (by rewrite points_writer_of).
  reflexivity.
Qed.

(** X1. A file that [Write] wrote opens, and its header says: version
    1.2, point format 3 with records of 34 bytes, as many points as were
    added (modulo [2^32], the width of the field), the scale 0.001 on
    every axis, and for every axis the minimum of the writer both as the
    offset and as the lower bound, its maximum as the upper bound. *)
Theorem written_header_read_back (pts : list las.Point) (filename : string)
    (now : Time) (fs : gmap string (list byte)) :
  pts <> [] -> Forall wf_Point pts ->
  exists r,
    encode_open pts filename now fs = Ok r
    /\ let h := las.GetHeader r in
       let w := writer_of pts in
       las.VersionMajor h = 1 /\ las.VersionMinor h = 2
       /\ las.PointFormat h = 3 /\ las.PointRecordLength h = 34
       /\ las.PointCount h = Z.of_nat (length pts) mod 2 ^ 32
       /\ (forall a, header_scale a (content (las.file r)) = las.scale)
       /\ las.XScale h = las.scale /\ las.YScale h = las.scale
       /\ las.ZScale h = las.scale
       /\ las.XOffset h = las.minX w /\ las.YOffset h = las.minY w
       /\ las.ZOffset h = las.minZ w
       /\ (forall a, header_min a h = axis_offset a w
                     /\ header_max a h = axis_max a w).
Proof.
  intros Hne Hwf. rewrite encode_open_artifact by done.
  rewrite NewReader_artifact by (by apply wf_writer_of).
  eexists. split; [reflexivity|]. cbv zeta.
  unfold las.GetHeader. cbn [las.header las.file content].
  cbn [las.VersionMajor las.VersionMinor las.PointFormat
       las.PointRecordLength las.PointCount las.XScale las.YScale las.ZScale
       las.XOffset las.YOffset las.ZOffset].
  rewrite points_writer_of.
  repeat (split; [reflexivity|]).
  split; [intros a; apply header_scale_artifact|].
  do 6 (split; [reflexivity|]).
  intros a. by destruct a.
Qed.

Lemma written_header_read_back_witness :
  exists r,
    encode_open near_points "near.las" some_day ∅ = Ok r
    /\ las.VersionMajor (las.GetHeader r) = 1
    /\ las.VersionMinor (las.GetHeader r) = 2
    /\ las.PointFormat (las.GetHeader r) = 3
    /\ las.PointRecordLength (las.GetHeader r) = 34
    /\ las.PointCount (las.GetHeader r) = 2
    /\ las.XOffset (las.GetHeader r) = f_65536
    /\ las.MaxX (las.GetHeader r) = f_65536_003.
Proof.
  assert (near_points <> []) as Hne by discriminate.
  assert (Forall wf_Point near_points) as Hwf.
  { repeat first [apply Forall_cons_2 | apply Forall_nil_2];
      vm_compute; repeat split; (discriminate || reflexivity). }
  destruct (written_header_read_back near_points "near.las" some_day ∅
              Hne Hwf)
    as (r & Hr & H1 & H2 & H3 & H4 & H5 & _ & _ & _ & _ & H6 & _ & _ & H7).
  exists r. do 5 (split; [assumption|]).
  split; [exact H5|]. split; [rewrite H6; by vm_compute|].
  destruct (H7 AxisX) as [_ Hmax]. cbn [header_max] in Hmax.
  rewrite Hmax. by vm_compute.
Defined.

(** ** The bounds *)

Lemma axis_max_AddPoint a w p :
  axis_max a (las.AddPoint w p)
  = if f64.gtb (coord a p) (axis_max a w) then coord a p else axis_max a w.
Proof. by destruct a. Qed.

Lemma axis_max_above_foldl a pts : forall w (seen : list las.Point),
  (forall q, q ∈ seen -> f64.gtb (coord a q) (axis_max a w) = false) ->
  forall q, q ∈ seen ++ pts ->
    f64.gtb (coord a q) (axis_max a (foldl las.AddPoint w pts)) = false.
Proof.
  induction pts as [|p pts IH]; intros w seen Hseen q Hq; cbn [foldl].
  { rewrite app_nil_r in Hq. by apply Hseen. }
  apply (IH (las.AddPoint w p) (seen ++ [p])); [|by rewrite <- app_assoc].
  clear q Hq. intros q Hq. rewrite axis_max_AddPoint. unfold f64.gtb in *.
  destruct (f64.ltb (axis_max a w) (coord a p)) eqn:E.
  - apply elem_of_app in Hq as [Hq|Hq].
    + destruct (f64.ltb (coord a p) (coord a q)) eqn:E2; [|done].
      specialize (Hseen q Hq). by rewrite (f64_ltb_trans _ _ _ E E2) in Hseen.
    + apply list_elem_of_singleton in Hq as ->. apply f64_ltb_irrefl.
  - apply elem_of_app in Hq as [Hq|Hq]; [by apply Hseen|].
    by apply list_elem_of_singleton in Hq as ->.
Qed.

Lemma axis_max_above a pts q :
  q ∈ pts -> f64.gtb (coord a q) (axis_max a (writer_of pts)) = false.
Proof.
  intros Hq. apply (axis_max_above_foldl a pts las.NewWriter []); [|done].
  intros ? H. by apply elem_of_nil in H.
Qed.

(** X2. The bounds in the header of a written file enclose the points:
    on every axis no point that was added lies below the minimum the
    header holds, and none above its maximum. (A NaN coordinate compares
    false with everything and so is neither.) *)
Theorem header_bounds_enclose (pts : list las.Point) (filename : string)
    (now : Time) (fs : gmap string (list byte)) :
  pts <> [] -> Forall wf_Point pts ->
  exists r,
    encode_open pts filename now fs = Ok r
    /\ forall a p, p ∈ pts ->
         f64.ltb (coord a p) (header_min a (las.GetHeader r)) = false
         /\ f64.gtb (coord a p) (header_max a (las.GetHeader r)) = false.
Proof.
  intros Hne Hwf. rewrite encode_open_artifact by done.
  rewrite NewReader_artifact by (by apply wf_writer_of).
  eexists. split; [reflexivity|]. intros a p Hp.
  pose proof (axis_offset_below a pts p Hp) as Hmin.
  pose proof (axis_max_above a pts p Hp) as Hmax.
  unfold las.GetHeader. cbn [las.header]. by destruct a.
Qed.

Lemma header_bounds_enclose_witness :
  exists r,
    encode_open near_points "near.las" some_day ∅ = Ok r
    /\ forall a p, p ∈ near_points ->
         f64.ltb (coord a p) (header_min a (las.GetHeader r)) = false
         /\ f64.gtb (coord a p) (header_max a (las.GetHeader r)) = false.
Proof.
  apply (header_bounds_enclose near_points "near.las" some_day ∅).
  - discriminate.
  - repeat first [apply Forall_cons_2 | apply Forall_nil_2];
      vm_compute; repeat split; (discriminate || reflexivity).
Defined.

(** ** The file [Write] touches *)

(** X3. [Write] touches the file it is given and no other, whether it
    fails or not; and when it writes, what the file held before is gone:
    the file is the artifact, 227 bytes of header and 34 bytes for every
    point. *)
Theorem Write_replaces_one_file (w : las.Writer) (filename : string)
    (now : Time) (fs : gmap string (list byte)) :
  (forall other, other <> filename ->
     (las.Write w filename now fs).2 !! other = fs !! other)
  /\ (las.points w <> [] ->
      forall old,
        (las.Write w filename now (<[filename := old]> fs)).2
        = (las.Write w filename now fs).2
        /\ (las.Write w filename now fs).2 !! filename
           = Some (artifact w now)
        /\ length (artifact w now)
           = (227 + 34 * length (las.points w))%nat).
Proof.
  split.
  - intros other Hother.
    destruct (decide (las.points w = [])) as [E|E].
    + unfold las.Write. by rewrite E.
    + rewrite Write_ok by done. cbn [snd]. by rewrite lookup_insert_ne.
  - intros Hne old. rewrite !Write_ok by done. cbn [snd].
    split; [by rewrite insert_insert_eq|].
    split; [by rewrite lookup_insert_eq|].
    rewrite length_artifact. lia.
Qed.

(** ** File names *)

Lemma sanitize_no_unsafe s :
  no_unsafe_char (sorter.sanitizeFilename s) = true.
Proof.
  induction s as [|c s IH]; [reflexivity|]. cbn [sorter.sanitizeFilename].
  destruct (sorter.unsafe_char c) eqn:E; [exact IH|].
  cbn [no_unsafe_char]. by rewrite E, IH.
Qed.

Lemma sanitize_length s :
  (String.length (sorter.sanitizeFilename s) <= String.length s)%nat.
Proof.
  induction s as [|c s IH]; [done|]. cbn [sorter.sanitizeFilename].
  destruct (sorter.unsafe_char c); cbn [String.length]; lia.
Qed.

(** X4. [sanitizeFilename] leaves none of the nine characters in its
    result, changes nothing in a name that has none of them (so doing it
    twice is doing it once), never makes a name longer, and works byte by
    byte: the result for two strings put together is the two results put
    together. *)
Theorem sanitizeFilename_removes_exactly (s t : string) :
  no_unsafe_char (sorter.sanitizeFilename s) = true
  /\ (no_unsafe_char s = true <-> sorter.sanitizeFilename s = s)
  /\ sorter.sanitizeFilename (sorter.sanitizeFilename s)
     = sorter.sanitizeFilename s
  /\ (String.length (sorter.sanitizeFilename s) <= String.length s)%nat
  /\ sorter.sanitizeFilename (s +:+ t)
     = sorter.sanitizeFilename s +:+ sorter.sanitizeFilename t.
Proof.
  split; [apply sanitize_no_unsafe|]. split; [|split; [|split]].
  - split; [apply sanitize_safe|].
    intros E. rewrite <- E. apply sanitize_no_unsafe.
  - apply sanitize_safe, sanitize_no_unsafe.
  - apply sanitize_length.
  - apply sanitize_app.
Qed.

Lemma digit_char_is_digit x : digit (time.digit_char x).
Proof.
  unfold digit, time.digit_char.
  pose proof (Z.mod_pos_bound x 10 ltac:(lia)) as H.
  assert (x mod 10 = 0 \/ x mod 10 = 1 \/ x mod 10 = 2 \/ x mod 10 = 3
          \/ x mod 10 = 4 \/ x mod 10 = 5 \/ x mod 10 = 6 \/ x mod 10 = 7
          \/ x mod 10 = 8 \/ x mod 10 = 9) as Hc by lia.
  repeat destruct Hc as [Hc|Hc]; rewrite Hc; reflexivity.
Qed.

Lemma parseDate_shape s d :
  sorter.parseDate s = Ok d ->
  String.length d = 10%nat /\ no_unsafe_char d = true.
Proof.
  unfold sorter.parseDate.
  destruct (time.Parse s) as [t|] eqn:E; [|discriminate].
  intros [= <-]. unfold time.Format_date, time.pad4, time.pad2.
  rewrite !append_cons, !append_nil. split; [reflexivity|].
  cbn [no_unsafe_char].
  rewrite !(digit_safe _ (digit_char_is_digit _)). reflexivity.
Qed.

Lemma normalizeAmp_short amp :
  sorter.normalizeAmp amp = "no_amp"
  \/ (String.length (sorter.normalizeAmp amp) <= 3)%nat.
Proof.
  unfold sorter.normalizeAmp.
  destruct (String.eqb amp "" || String.eqb amp "?"); [by left|right].
  destruct (Nat.ltb_spec 3 (String.length (sorter.remove_all "." amp)))
    as [H|H]; [|done].
  clear H. generalize (sorter.remove_all "." amp). intros n.
  destruct n as [|a [|b [|c n]]]; cbn; try lia.
  destruct n; cbn; lia.
Qed.

(** X5. The name of the file a record goes to: the date as ten bytes
    YYYY-MM-DD that sanitizing leaves alone, then [design], the design
    name without the nine characters, [amp], the amplitude part (nothing
    for the sentinel, otherwise at most three bytes before sanitizing)
    and [.csv]; none of the nine characters is left in it. *)
Theorem artifact_name_shape (ti di ai : nat) (r : list string)
    (k : sorter.GroupKey) :
  sorter.key_of ti di ai r = Ok k ->
  sorter.artifact_name k
  = sorter.Date k +:+ "design"
    +:+ sorter.sanitizeFilename (sorter.field r di) +:+ "amp"
    +:+ sorter.sanitizeFilename (amp_suffix (sorter.Amp k)) +:+ ".csv"
  /\ String.length (sorter.Date k) = 10%nat
  /\ sorter.Amp k = sorter.normalizeAmp (sorter.field r ai)
  /\ (String.length (amp_suffix (sorter.Amp k)) <= 3)%nat
  /\ no_unsafe_char (sorter.artifact_name k) = true.
Proof.
  unfold sorter.key_of.
  destruct (sorter.parseDate (sorter.field r ti)) as [date|e] eqn:E;
    [|discriminate].
  intros [= <-]. apply parseDate_shape in E as [Hlen Hsafe].
  cbn [sorter.Date sorter.DesignName sorter.Amp].
  split; [|split; [done|split; [done|split]]].
  - unfold sorter.artifact_name, sorter.generateFilename, amp_suffix.
    cbn [sorter.Date sorter.DesignName sorter.Amp].
    destruct (String.eqb _ "no_amp");
      rewrite !sanitize_app, (sanitize_safe date) by done; reflexivity.
  - unfold amp_suffix.
    destruct (String.eqb_spec (sorter.normalizeAmp (sorter.field r ai))
                "no_amp") as [_|Hne]; [cbn; lia|].
    by destruct (normalizeAmp_short (sorter.field r ai)).
  - apply sanitize_no_unsafe.
Qed.

Lemma artifact_name_shape_witness :
  sorter.artifact_name key_colon
  = "2025-10-01" +:+ "design" +:+ "AB" +:+ "amp" +:+ "097" +:+ ".csv"
  /\ String.length (sorter.Date key_colon) = 10%nat.
Proof.
  destruct example_keys as (Kc & _).
  destruct (artifact_name_shape 0 1 2 record_colon key_colon Kc)
    as (H & Hl & _).
  split; [exact H|exact Hl].
Defined.

(** ** The columns and the errors of grouping *)

Lemma colMap_from_None header c : forall i,
  sorter.colMap_from i header c = None <-> c ∉ header.
Proof.
  induction header as [|h header IH]; intros i; cbn [sorter.colMap_from].
  { split; [intros _ H; by apply elem_of_nil in H|done]. }
  rewrite not_elem_of_cons.
  destruct (sorter.colMap_from (S i) header c) as [j|] eqn:E.
  - split; [discriminate|]. intros [_ H]. apply (IH (S i)) in H. congruence.
  - apply IH in E. destruct (String.eqb_spec h c) as [->|Hne].
    + split; [discriminate|]. by intros [? _].
    + split; [done|done].
Qed.

Lemma colMap_from_Some header c : forall i j,
  sorter.colMap_from i header c = Some j ->
  exists n, j = (i + n)%nat /\ last_column c header n.
Proof.
  induction header as [|h header IH]; intros i j; cbn [sorter.colMap_from].
  { discriminate. }
  destruct (sorter.colMap_from (S i) header c) as [j'|] eqn:E.
  - intros [= <-]. apply IH in E as (n & -> & Hn & Hlast).
    exists (S n). split; [lia|]. split; [done|].
    intros [|m] Hm; [lia|]. cbn. apply Hlast. lia.
  - destruct (String.eqb_spec h c) as [->|Hne]; [|discriminate].
    intros [= <-]. exists 0%nat. split; [lia|]. split; [done|].
    intros [|m] Hm; [lia|]. cbn. intros Hc.
    apply (colMap_from_None header c (S i)) in E. apply E.
    by apply list_elem_of_lookup_2 in Hc.
Qed.

Lemma last_column_unique c header n m :
  last_column c header n -> last_column c header m -> n = m.
Proof.
  intros [Hn Ln] [Hm Lm].
  destruct (Nat.lt_trichotomy n m) as [H|[H|H]]; [|done|].
  - by destruct (Ln m H).
  - by destruct (Lm n H).
Qed.

Lemma colMap_last header c i :
  sorter.colMap header c = Some i <-> last_column c header i.
Proof.
  unfold sorter.colMap. split.
  - intros H. by apply colMap_from_Some in H as (n & -> & Hn).
  - intros Hi. destruct (sorter.colMap_from 0 header c) as [j|] eqn:E.
    + apply colMap_from_Some in E as (n & -> & Hn).
      by rewrite (last_column_unique _ _ _ _ Hn Hi).
    + apply colMap_from_None in E. destruct Hi as [Hi _].
      by apply list_elem_of_lookup_2 in Hi.
Qed.

(** X6. The columns of the sorter. A required column is looked up by
    name, and when the header has the name more than once the last place
    counts. Without a header line (no input, or a first line that does
    not parse) sorting fails on the header; when a required column is
    missing it fails on the first missing one of Time, DesignName and
    LastAmp, in that order, whatever the rows are and in skip mode
    too. *)
Theorem missing_column_first (header : list string)
    (lines : list sorter.csv_line) (skipErrors : bool) :
  (forall c i, sorter.colMap header c = Some i <-> last_column c header i)
  /\ (forall c, sorter.colMap header c = None <-> c ∉ header)
  /\ sorter.groupRows [] skipErrors = Err ErrReadCSVHeader
  /\ sorter.groupRows (sorter.Malformed :: lines) skipErrors
     = Err ErrReadCSVHeader
  /\ ("Time" ∉ header ->
      sorter.groupRows (sorter.Fields header :: lines) skipErrors
      = Err (ErrMissingColumn "Time"))
  /\ ("Time" ∈ header -> "DesignName" ∉ header ->
      sorter.groupRows (sorter.Fields header :: lines) skipErrors
      = Err (ErrMissingColumn "DesignName"))
  /\ ("Time" ∈ header -> "DesignName" ∈ header -> "LastAmp" ∉ header ->
      sorter.groupRows (sorter.Fields header :: lines) skipErrors
      = Err (ErrMissingColumn "LastAmp")).
Proof.
  assert (forall c, sorter.colMap header c = None <-> c ∉ header) as HN.
  { intros c. apply colMap_from_None. }
  assert (forall c, c ∈ header -> exists i, sorter.colMap header c = Some i)
    as HS.
  { intros c Hc. destruct (sorter.colMap header c) as [i|] eqn:E;
      [by exists i|]. by apply HN in E. }
  split; [intros c i; apply colMap_last|]. split; [exact HN|].
  split; [reflexivity|]. split; [reflexivity|].
  unfold sorter.groupRows. split; [|split].
  - intros H. apply HN in H. by rewrite H.
  - intros H1 H2. apply HS in H1 as [i ->]. apply HN in H2. by rewrite H2.
  - intros H1 H2 H3. apply HS in H1 as [i ->]. apply HS in H2 as [j ->].
    apply HN in H3. by rewrite H3.
Qed.

(** ** Every line is accounted for *)

Lemma all_rows_add_row g kr : all_rows (add_row g kr) ≡ₚ all_rows g ++ [kr.2].
Proof.
  unfold all_rows, add_row. destruct (g !! kr.1) as [l|] eqn:E.
  - rewrite <- (insert_delete_id g kr.1 l E) at 2.
    rewrite <- insert_delete_eq.
    rewrite !map_to_list_insert by apply lookup_delete_eq.
    cbn [map concat snd default]. rewrite <- !app_assoc.
    apply Permutation_app_head, Permutation_app_comm.
  - rewrite map_to_list_insert by done.
    cbn [map concat snd default app]. apply Permutation_cons_append.
Qed.

Lemma all_rows_foldl krs : forall g,
  all_rows (foldl add_row g krs) ≡ₚ all_rows g ++ map snd krs.
Proof.
  induction krs as [|kr krs IH]; intros g; cbn [foldl map].
  { by rewrite app_nil_r. }
  rewrite IH, all_rows_add_row, <- app_assoc. reflexivity.
Qed.

Lemma keyed_rows ti di ai rows :
  map snd (keyed ti di ai rows) = filter (fun r => has_key ti di ai r) rows.
Proof.
  induction rows as [|r rows IH]; [reflexivity|].
  unfold keyed, has_key in *. cbn [omap list_omap]. rewrite filter_cons.
  destruct (sorter.key_of ti di ai r) as [k|e]; cbn [is_err negb].
  - rewrite decide_True by done. cbn [map snd]. by rewrite <- IH.
  - rewrite decide_False by (by intros []). exact IH.
Qed.

Lemma length_keyed_app ti di ai l1 l2 :
  length (keyed ti di ai (l1 ++ l2))
  = (length (keyed ti di ai l1) + length (keyed ti di ai l2))%nat.
Proof. by rewrite keyed_app, length_app. Qed.

(** The rows [processChunk] skips are the rows without a key. *)
Lemma processChunk_skipped ti di ai skip chunk : forall g n,
  let '(skipped, err, _) := sorter.processChunk chunk ti di ai g skip n in
  err = None ->
  (skipped + length (keyed ti di ai chunk) = n + length chunk)%nat.
Proof.
  induction chunk as [|r chunk IH]; intros g n; cbn [sorter.processChunk].
  { intros _. cbn. lia. }
  unfold keyed. cbn [omap list_omap length]. unfold sorter.key_of.
  destruct (sorter.parseDate (sorter.field r ti)) as [date|e].
  - match goal with |- context [sorter.processChunk chunk _ _ _ ?g' _ _] =>
      specialize (IH g' n) end.
    destruct (sorter.processChunk chunk _ _ _ _ _ _) as [[n' err] g'].
    intros H. specialize (IH H). unfold keyed, sorter.key_of in IH.
    cbn [length]. lia.
  - destruct skip; [|discriminate].
    specialize (IH g (S n)).
    destruct (sorter.processChunk chunk _ _ _ _ _ _) as [[n' err] g'].
    intros H. specialize (IH H). unfold keyed, sorter.key_of in IH. lia.
Qed.

(** The count the read loop ends with: the lines that are no records and
    the records without a key. *)
Lemma readRows_skipped nf ti di ai skip lines : forall chunk g rc sk g' sk',
  sorter.readRows lines nf ti di ai skip chunk g rc sk = Ok (g', sk') ->
  (sk' + length (keyed ti di ai (chunk ++ omap (sorter.csv_Read nf) lines))
   = sk + length chunk + length lines)%nat.
Proof.
  induction lines as [|l lines IH]; intros chunk g rc sk g' sk';
    cbn [sorter.readRows omap list_omap length].
  - rewrite app_nil_r. destruct (0 <? length chunk)%nat eqn:E.
    + pose proof (processChunk_skipped ti di ai skip chunk g 0) as H.
      pose proof (processChunk_spec ti di ai skip chunk g 0) as H'.
      destruct (sorter.processChunk chunk _ _ _ _ _ _) as [[n' err] g1].
      destruct H' as [_ H2]. destruct err as [e|].
      * destruct skip; [by specialize (H2 eq_refl)|discriminate].
      * intros [= _ <-]. specialize (H eq_refl). lia.
    + apply Nat.ltb_ge in E. assert (chunk = []) as ->
        by (destruct chunk; [done|cbn in E; lia]).
      intros [= _ <-]. cbn. lia.
  - destruct (sorter.csv_Read nf l) as [record|].
    + destruct (sorter.ChunkSize <=? length (chunk ++ [record]))%nat.
      * pose proof (processChunk_skipped ti di ai skip (chunk ++ [record])
                      g 0) as H.
        pose proof (processChunk_spec ti di ai skip (chunk ++ [record]) g 0)
          as H'.
        destruct (sorter.processChunk (chunk ++ [record]) _ _ _ _ _ _)
          as [[n' err] g1].
        destruct H' as [_ H2].
        destruct err as [e|];
          [destruct skip; [by specialize (H2 eq_refl)|discriminate]|].
        intros Hrun. apply IH in Hrun. specialize (H eq_refl).
        rewrite app_nil_l in Hrun.
        rewrite (length_keyed_app _ _ _ chunk).
        change (record :: omap (sorter.csv_Read nf) lines)
          with ([record] ++ omap (sorter.csv_Read nf) lines).
        rewrite (length_keyed_app _ _ _ [record]).
        rewrite length_keyed_app, length_app in H. cbn [length] in *. lia.
      * intros Hrun. apply IH in Hrun.
        rewrite <- app_assoc, length_app in Hrun. cbn [app length] in *. lia.
    + destruct skip; [|discriminate].
      intros Hrun. apply IH in Hrun. lia.
Qed.

(** X7. With [skipErrors] the read loop of [SortCSV] always ends well
    once the header has the three columns, and every line of the input
    is accounted for: the rows of the groups are the records whose time
    parses, each one once, and the count of skipped rows is the number of
    all other lines (those the CSV reader rejects and the records whose
    time does not parse). *)
Theorem skip_mode_accounts_for_every_line (header : list string)
    (lines : list sorter.csv_line) (ti di ai : nat) :
  sorter.colMap header "Time" = Some ti ->
  sorter.colMap header "DesignName" = Some di ->
  sorter.colMap header "LastAmp" = Some ai ->
  exists groups skipped,
    sorter.readRows lines (length header) ti di ai true [] ∅ 0 0
    = Ok (groups, skipped)
    /\ sorter.groupRows (sorter.Fields header :: lines) true
       = Ok (header, groups)
    /\ all_rows groups
       ≡ₚ filter (fun r => has_key ti di ai r)
            (omap (sorter.csv_Read (length header)) lines)
    /\ (length (all_rows groups) + skipped = length lines)%nat.
Proof.
  intros Hti Hdi Hai.
  destruct (readRows_total (length header) ti di ai true lines [] ∅ 0%nat
              0%nat) as (g & sk & E); [by left|].
  exists g, sk. split; [exact E|].
  pose proof (readRows_spec _ _ _ _ _ _ _ _ _ _ _ _ E) as Hg.
  pose proof (readRows_skipped _ _ _ _ _ _ _ _ _ _ _ _ E) as Hsk.
  rewrite app_nil_l in Hg, Hsk.
  assert (all_rows g
          ≡ₚ filter (fun r => has_key ti di ai r)
               (omap (sorter.csv_Read (length header)) lines)) as Hrows.
  { rewrite Hg, all_rows_foldl, <- keyed_rows. reflexivity. }
  split; [|split; [exact Hrows|]].
  - unfold sorter.groupRows. by rewrite Hti, Hdi, Hai, E.
  - rewrite Hrows, <- keyed_rows, length_map. cbn [length] in Hsk. lia.
Qed.

Lemma skip_mode_accounts_for_every_line_witness :
  exists groups skipped,
    sorter.readRows faulty_input (length sort_header) 0 1 2 true [] ∅ 0 0
    = Ok (groups, skipped)
    /\ sorter.groupRows (sorter.Fields sort_header :: faulty_input) true
       = Ok (sort_header, groups)
    /\ all_rows groups
       ≡ₚ filter (fun r => has_key 0 1 2 r)
            (omap (sorter.csv_Read (length sort_header)) faulty_input)
    /\ (length (all_rows groups) + skipped = length faulty_input)%nat.
Proof.
  apply (skip_mode_accounts_for_every_line sort_header faulty_input 0 1 2);
    reflexivity.
Defined.

(** ** Where sorting stops without [skipErrors] *)

Lemma processChunk_first_error ti di ai r post : forall pre g n,
  Forall (fun r => is_err (sorter.key_of ti di ai r) = false) pre ->
  is_err (sorter.key_of ti di ai r) = true ->
  (sorter.processChunk (pre ++ r :: post) ti di ai g false n).1.2
  = Some (ErrParseDate (sorter.field r ti)).
Proof.
  induction pre as [|p pre IH]; intros g n Hpre Hr;
    cbn [app sorter.processChunk].
  - unfold sorter.key_of in Hr.
    by destruct (sorter.parseDate (sorter.field r ti)).
  - apply Forall_cons_1 in Hpre as [Hp Hpre]. unfold sorter.key_of in Hp.
    destruct (sorter.parseDate (sorter.field p ti)); [|discriminate].
    by apply IH.
Qed.

Lemma readRows_malformed nf ti di ai bad rest good :
  forall chunk g rc sk,
  Forall (fun l => is_Some (sorter.csv_Read nf l)) good ->
  sorter.csv_Read nf bad = None ->
  Forall (fun r => is_err (sorter.key_of ti di ai r) = false)
    (chunk ++ omap (sorter.csv_Read nf) good)
  \/ (length chunk + length good < sorter.ChunkSize)%nat ->
  sorter.readRows (good ++ bad :: rest) nf ti di ai false chunk g rc sk
  = Err (ErrReadRow (rc + length good + 2)).
Proof.
  induction good as [|l good IH]; intros chunk g rc sk Hgood Hbad H;
    cbn [app sorter.readRows length].
  { rewrite Hbad. cbn. do 2 f_equal. lia. }
  apply Forall_cons_1 in Hgood as [[record Hl] Hgood]. rewrite Hl.
  cbn [omap list_omap] in H. rewrite Hl in H.
  destruct (Nat.leb_spec sorter.ChunkSize (length (chunk ++ [record])))
    as [Hfull|Hroom].
  - destruct H as [H|H]; [|rewrite length_app in Hfull; cbn in *; lia].
    pose proof (processChunk_no_error ti di ai false (chunk ++ [record]) g 0)
      as Hp.
    destruct (sorter.processChunk (chunk ++ [record]) _ _ _ _ _ _)
      as [[n' err] g1].
    cbn [fst snd] in Hp. rewrite Hp.
    + rewrite IH; [do 2 f_equal; lia|done|done|left].
      apply Forall_app in H as [_ H].
      by apply Forall_cons_1 in H as [_ H].
    + right. apply Forall_app in H as [Hc H].
      apply Forall_cons_1 in H as [Hr _].
      apply Forall_app. split; [done|by apply Forall_cons_2].
  - rewrite IH; [do 2 f_equal; lia|done|done|].
    destruct H as [H|H]; [left; by rewrite <- app_assoc|right].
    rewrite length_app. cbn [length] in *. lia.
Qed.

Lemma readRows_bad_time nf ti di ai r pre post lines :
  forall chunk g rc sk,
  Forall (fun l => is_Some (sorter.csv_Read nf l)) lines ->
  chunk ++ omap (sorter.csv_Read nf) lines = pre ++ r :: post ->
  Forall (fun r => is_err (sorter.key_of ti di ai r) = false) pre ->
  is_err (sorter.key_of ti di ai r) = true ->
  sorter.readRows lines nf ti di ai false chunk g rc sk
  = Err (ErrParseDate (sorter.field r ti)).
Proof.
  revert pre.
  induction lines as [|l lines IH]; intros pre chunk g rc sk Hlines E Hpre Hr;
    cbn [sorter.readRows omap list_omap] in *.
  - rewrite app_nil_r in E. subst chunk.
    rewrite length_app. cbn [length].
    replace (0 <? length pre + S (length post))%nat with true
      by (symmetry; apply Nat.ltb_lt; lia).
    pose proof (processChunk_first_error ti di ai r post pre g 0 Hpre Hr)
      as Hp.
    destruct (sorter.processChunk (pre ++ r :: post) _ _ _ _ _ _)
      as [[n' err] g1].
    cbn [fst snd] in Hp. by rewrite Hp.
  - apply Forall_cons_1 in Hlines as [[record Hl] Hlines].
    rewrite Hl in *.
    assert ((chunk ++ [record]) ++ omap (sorter.csv_Read nf) lines
            = pre ++ r :: post) as E' by (by rewrite <- app_assoc).
    destruct (sorter.ChunkSize <=? length (chunk ++ [record]))%nat;
      [|by apply (IH pre)].
    apply app_eq_app in E' as [m [[E1 E2]|[E1 E2]]].
    + destruct m as [|r' m].
      * rewrite app_nil_r in E1. cbn [app] in E2.
        pose proof (processChunk_no_error ti di ai false (chunk ++ [record])
                      g 0) as Hp.
        destruct (sorter.processChunk (chunk ++ [record]) _ _ _ _ _ _)
          as [[n' err] g1].
        cbn [fst snd] in Hp. rewrite Hp by (right; by rewrite E1).
        apply (IH []); [done|by rewrite app_nil_l|done|done].
      * injection E2 as <- E2. rewrite E1.
        pose proof (processChunk_first_error ti di ai r m pre g 0 Hpre Hr)
          as Hp.
        destruct (sorter.processChunk (pre ++ r :: m) _ _ _ _ _ _)
          as [[n' err] g1].
        cbn [fst snd] in Hp. by rewrite Hp.
    + subst pre. apply Forall_app in Hpre as [Hc Hm].
      pose proof (processChunk_no_error ti di ai false (chunk ++ [record])
                    g 0) as Hp.
      destruct (sorter.processChunk (chunk ++ [record]) _ _ _ _ _ _)
        as [[n' err] g1].
      cbn [fst snd] in Hp. rewrite Hp by (by right).
      apply (IH m); [done|by rewrite app_nil_l|done|done].
Qed.

(** X8. Without [skipErrors], a line that the CSV reader rejects stops
    the sort with an error that carries its line number (the header is
    line 1), when the records before it all have a time that parses or
    are fewer than a chunk. (Times are looked at only when a chunk is
    full or the input ends, so within the first chunk the line is
    reported even after a record whose time does not parse.) *)
Theorem malformed_line_stops_sort (header : list string)
    (good rest : list sorter.csv_line) (bad : sorter.csv_line)
    (ti di ai : nat) :
  sorter.colMap header "Time" = Some ti ->
  sorter.colMap header "DesignName" = Some di ->
  sorter.colMap header "LastAmp" = Some ai ->
  Forall (fun l => is_Some (sorter.csv_Read (length header) l)) good ->
  sorter.csv_Read (length header) bad = None ->
  Forall (fun r => is_err (sorter.key_of ti di ai r) = false)
    (omap (sorter.csv_Read (length header)) good)
  \/ (length good < sorter.ChunkSize)%nat ->
  sorter.groupRows (sorter.Fields header :: good ++ bad :: rest) false
  = Err (ErrReadRow (length good + 2)).
Proof.
  intros Hti Hdi Hai Hgood Hbad H. unfold sorter.groupRows.
  rewrite Hti, Hdi, Hai.
  by rewrite (readRows_malformed _ ti di ai bad rest good [] ∅ 0%nat 0%nat).
Qed.

Lemma malformed_line_stops_sort_witness :
  sorter.groupRows
    (sorter.Fields sort_header
     :: [sorter.Fields record_plain; sorter.Fields record_no_time]
        ++ sorter.Malformed :: [sorter.Fields record_later]) false
  = Err (ErrReadRow 4).
Proof.
  apply (malformed_line_stops_sort sort_header
           [sorter.Fields record_plain; sorter.Fields record_no_time]
           [sorter.Fields record_later] sorter.Malformed 0 1 2);
    try reflexivity.
  - repeat first [apply Forall_cons_2 | apply Forall_nil_2]; by eexists.
  - right. vm_compute. lia.
Defined.

(** X9. Without [skipErrors], when every line is a record, the first
    record whose time does not parse stops the sort, and the error
    carries the text of its Time field. *)
Theorem bad_time_stops_sort (header : list string)
    (lines : list sorter.csv_line) (pre post : list (list string))
    (r : list string) (ti di ai : nat) :
  sorter.colMap header "Time" = Some ti ->
  sorter.colMap header "DesignName" = Some di ->
  sorter.colMap header "LastAmp" = Some ai ->
  Forall (fun l => is_Some (sorter.csv_Read (length header) l)) lines ->
  omap (sorter.csv_Read (length header)) lines = pre ++ r :: post ->
  Forall (fun r => is_err (sorter.key_of ti di ai r) = false) pre ->
  is_err (sorter.key_of ti di ai r) = true ->
  sorter.groupRows (sorter.Fields header :: lines) false
  = Err (ErrParseDate (sorter.field r ti)).
Proof.
  intros Hti Hdi Hai Hlines E Hpre Hr. unfold sorter.groupRows.
  rewrite Hti, Hdi, Hai.
  by rewrite (readRows_bad_time _ ti di ai r pre post lines [] ∅ 0%nat 0%nat).
Qed.

Lemma bad_time_stops_sort_witness :
  sorter.groupRows
    [sorter.Fields sort_header; sorter.Fields record_plain;
     sorter.Fields record_no_time; sorter.Fields record_later] false
  = Err (ErrParseDate "yesterday").
Proof.
  destruct example_keys as (_ & Kp & _).
  apply (bad_time_stops_sort sort_header
           [sorter.Fields record_plain; sorter.Fields record_no_time;
            sorter.Fields record_later]
           [record_plain] [record_later] record_no_time 0 1 2);
    try reflexivity.
  - repeat first [apply Forall_cons_2 | apply Forall_nil_2]; by eexists.
  - repeat first [apply Forall_cons_2 | apply Forall_nil_2]. by rewrite Kp.
Defined.

(** ** Every record is written once *)

Lemma data_rows_insert (out : gmap string (list (list string))) f content :
  out !! f = None ->
  data_rows (<[f := content]> out) ≡ₚ tail content ++ data_rows out.
Proof.
  intros H. unfold data_rows. by rewrite map_to_list_insert.
Qed.

Lemma data_rows_writeGroup header (out : gmap string (list (list string))) kv :
  (forall f content, out !! f = Some content -> content <> []) ->
  data_rows (sorter.writeGroup header out kv) ≡ₚ data_rows out ++ kv.2
  /\ (forall f content,
        sorter.writeGroup header out kv !! f = Some content -> content <> []).
Proof.
  intros Hout. unfold sorter.writeGroup.
  destruct (out !! sorter.artifact_name kv.1) as [old|] eqn:E.
  - split.
    + rewrite <- (insert_delete_id out _ old E) at 2.
      rewrite <- insert_delete_eq.
      rewrite !data_rows_insert by apply lookup_delete_eq.
      specialize (Hout _ _ E). destruct old as [|h old]; [done|].
      cbn [tail app]. rewrite <- !app_assoc.
      apply Permutation_app_head, Permutation_app_comm.
    + intros f content. rewrite lookup_insert.
      destruct (decide (sorter.artifact_name kv.1 = f)) as [_|_];
        [|apply Hout].
      intros [= <-]. specialize (Hout _ _ E). by destruct old.
  - split.
    + rewrite data_rows_insert by done. cbn [tail].
      apply Permutation_app_comm.
    + intros f content. rewrite lookup_insert.
      destruct (decide (sorter.artifact_name kv.1 = f)) as [_|_];
        [|apply Hout].
      by intros [= <-].
Qed.

Lemma data_rows_writeGroups header order :
  forall out : gmap string (list (list string)),
  (forall f content, out !! f = Some content -> content <> []) ->
  data_rows (sorter.writeGroups header order out)
  ≡ₚ data_rows out ++ concat (map snd order).
Proof.
  unfold sorter.writeGroups.
  induction order as [|kv order IH]; intros out Hout; cbn [foldl map concat].
  { by rewrite app_nil_r. }
  destruct (data_rows_writeGroup header out kv Hout) as [Hrows Hne].
  rewrite (IH _ Hne), Hrows, <- app_assoc. reflexivity.
Qed.

Lemma concat_snd_Permutation {K A} (l1 l2 : list (K * list A)) :
  l1 ≡ₚ l2 -> concat (map snd l1) ≡ₚ concat (map snd l2).
Proof.
  induction 1 as [|x l1 l2 _ IH|x y l|l1 l2 l3 _ IH1 _ IH2];
    cbn [map concat].
  - reflexivity.
  - by rewrite IH.
  - rewrite !app_assoc. apply Permutation_app_tail, Permutation_app_comm.
  - by rewrite IH1.
Qed.

Lemma sorted_files_begin_with_header header lines skipErrors
    (out' : gmap string (list (list string))) f content :
  sorter.SortCSV_run (sorter.Fields header :: lines) skipErrors ∅ out' ->
  out' !! f = Some content ->
  exists rows, content = header :: rows /\ rows <> [].
Proof.
  intros (hdr & groups & order & Hg & Hperm & ->).
  apply groupRows_spec in Hg
    as (-> & ti & di & ai & Hti & Hdi & Hai & Hgroups).
  pose proof (groups_nonempty groups _ order Hgroups Hperm) as Horder.
  rewrite writeGroups_lookup
    by (eapply Forall_impl; [exact Horder|]; by intros kv [_ H]).
  destruct (decide (appended f order = [])) as [_|Hne].
  - by rewrite lookup_empty.
  - unfold base_content. rewrite lookup_empty. intros [= <-].
    by exists (appended f order).
Qed.

(** X10. A sort into an empty directory writes every record whose time
    parses exactly once: the data rows of all the files together are
    those records, each as often as the input has it. Every file begins
    with the header line of the input and has at least one data row. *)
Theorem every_record_written_once (header : list string)
    (lines : list sorter.csv_line) (skipErrors : bool)
    (out' : gmap string (list (list string))) :
  sorter.SortCSV_run (sorter.Fields header :: lines) skipErrors ∅ out' ->
  exists ti di ai,
    sorter.colMap header "Time" = Some ti
    /\ sorter.colMap header "DesignName" = Some di
    /\ sorter.colMap header "LastAmp" = Some ai
    /\ data_rows out'
       ≡ₚ filter (fun r => has_key ti di ai r)
            (omap (sorter.csv_Read (length header)) lines)
    /\ (forall f content,
          out' !! f = Some content ->
          exists rows, content = header :: rows /\ rows <> []).
Proof.
  intros Hrun. pose proof Hrun as (hdr & groups & order & Hg & Hperm & ->).
  pose proof Hg as Hspec.
  apply groupRows_spec in Hspec
    as (-> & ti & di & ai & Hti & Hdi & Hai & Hgroups).
  exists ti, di, ai. split; [done|]. split; [done|]. split; [done|].
  split.
  - rewrite data_rows_writeGroups
      by (intros f content H; by rewrite lookup_empty in H).
    unfold data_rows at 1. rewrite map_to_list_empty. cbn [map concat app].
    rewrite (concat_snd_Permutation _ _ Hperm).
    unfold sorter.groupRows in Hg. rewrite Hti, Hdi, Hai in Hg.
    destruct (sorter.readRows _ _ _ _ _ _ _ _ _ _) as [[g sk]|e] eqn:E;
      [|discriminate].
    injection Hg as <-. apply readRows_spec in E. rewrite app_nil_l in E.
    fold (all_rows g). by rewrite E, all_rows_foldl, <- keyed_rows.
  - intros f content. by apply sorted_files_begin_with_header with lines skipErrors.
Qed.

Lemma every_record_written_once_witness :
  exists ti di ai,
    sorter.colMap sort_header "Time" = Some ti
    /\ sorter.colMap sort_header "DesignName" = Some di
    /\ sorter.colMap sort_header "LastAmp" = Some ai
    /\ data_rows grouping_output
       ≡ₚ filter (fun r => has_key ti di ai r)
            (omap (sorter.csv_Read (length sort_header)) grouping_input)
    /\ (forall f content,
          grouping_output !! f = Some content ->
          exists rows, content = sort_header :: rows /\ rows <> []).
Proof.
  exact (every_record_written_once sort_header grouping_input false
           grouping_output grouping_run).
Defined.

(** X13. A second sort into the same directory appends. A file that the
    first sort made keeps its lines, the header line of the first input
    at the top, and gets the rows of the second input that have its name
    after them, with no second header line (also when the header of the
    second input is another one); a name that is new gets the header of
    the second input and then its rows. *)
Theorem second_sort_appends (header1 header2 : list string)
    (lines1 lines2 : list sorter.csv_line) (skip1 skip2 : bool)
    (out1 out2 : gmap string (list (list string))) :
  sorter.SortCSV_run (sorter.Fields header1 :: lines1) skip1 ∅ out1 ->
  sorter.SortCSV_run (sorter.Fields header2 :: lines2) skip2 out1 out2 ->
  exists ti di ai,
    sorter.colMap header2 "Time" = Some ti
    /\ sorter.colMap header2 "DesignName" = Some di
    /\ sorter.colMap header2 "LastAmp" = Some ai
    /\ forall f, exists written : list (list string),
         (forall r, r ∈ written ->
            exists k, sorter.key_of ti di ai r = Ok k
                      /\ sorter.artifact_name k = f)
         /\ (forall k, sorter.artifact_name k = f ->
               exists before after,
                 written
                 = before
                   ++ rows_of_key ti di ai k
                        (omap (sorter.csv_Read (length header2)) lines2)
                   ++ after)
         /\ match out1 !! f with
            | Some old =>
                (exists rows, old = header1 :: rows /\ rows <> [])
                /\ out2 !! f = Some (old ++ written)
            | None =>
                out2 !! f
                = if decide (written = []) then None
                  else Some (header2 :: written)
            end.
Proof.
  intros Hrun1 Hrun2.
  destruct (SortCSV_run_files _ _ _ _ _ Hrun2)
    as (ti & di & ai & Hti & Hdi & Hai & Hfiles).
  exists ti, di, ai. split; [done|]. split; [done|]. split; [done|].
  intros f. destruct (Hfiles f) as (written & Hout & Hrows & Hkeys).
  exists written. split; [done|]. split; [done|].
  unfold base_content in Hout.
  destruct (out1 !! f) as [old|] eqn:E.
  - split; [by apply sorted_files_begin_with_header
                 with lines1 skip1 out1 f|].
    destruct (decide (written = [])) as [->|_]; [|done].
    by rewrite app_nil_r.
  - by destruct (decide (written = [])).
Qed.

Lemma grouping_run_again :
  sorter.SortCSV_run (sorter.Fields sort_header :: grouping_input) false
    grouping_output grouping_output_twice.
Proof.
  destruct sort_header_columns as (Hti & Hdi & Hai).
  destruct example_keys as (_ & Kp & Kl & Kn).
  destruct example_names as (_ & Np & Nn).
  exists sort_header. eexists.
  exists [(key_plain, [record_plain; record_later]);
          (key_next_day, [record_next_day])].
  split; [|split].
  - apply (groupRows_total _ _ _ _ _ _ Hti Hdi Hai). right.
    change (omap _ grouping_input)
      with [record_plain; record_next_day; record_later].
    split; repeat first [apply Forall_cons_2 | apply Forall_nil_2];
      first [by eexists | by rewrite Kp | by rewrite Kl | by rewrite Kn ].
  - change (omap _ grouping_input)
      with [record_plain; record_next_day; record_later].
    unfold keyed. cbn [omap list_omap]. rewrite Kp, Kl, Kn.
    cbn [foldl]. unfold add_row. cbn [fst snd].
    assert (key_next_day <> key_plain) as Hne by discriminate.
    rewrite lookup_empty. cbn [default app].
    rewrite (lookup_insert_ne _ key_plain key_next_day) by done.
    rewrite lookup_empty.
    rewrite lookup_insert_ne, lookup_insert_eq by done.
    cbn [default app].
    rewrite (insert_insert_ne _ key_plain key_next_day) by done.
    rewrite insert_insert_eq.
    rewrite map_to_list_insert, map_to_list_insert, map_to_list_empty;
      [apply perm_swap|apply lookup_empty|].
    by rewrite lookup_insert_ne, lookup_empty.
  - unfold sorter.writeGroups. cbn [foldl]. unfold sorter.writeGroup.
    cbn [fst snd]. rewrite Np, Nn. unfold grouping_output.
    rewrite lookup_insert_ne, lookup_insert_eq by discriminate.
    rewrite lookup_insert_ne, lookup_insert_eq by discriminate.
    cbn [app]. unfold grouping_output_twice.
    rewrite (insert_insert_ne _ "2025-10-01designABamp097.csv"
               "2025-10-02designABamp097.csv" _
               [sort_header; record_next_day]) by discriminate.
    by rewrite !insert_insert_eq.
Qed.

Lemma second_sort_appends_witness :
  exists ti di ai,
    sorter.colMap sort_header "Time" = Some ti
    /\ sorter.colMap sort_header "DesignName" = Some di
    /\ sorter.colMap sort_header "LastAmp" = Some ai
    /\ forall f, exists written : list (list string),
         (forall r, r ∈ written ->
            exists k, sorter.key_of ti di ai r = Ok k
                      /\ sorter.artifact_name k = f)
         /\ (forall k, sorter.artifact_name k = f ->
               exists before after,
                 written
                 = before
                   ++ rows_of_key ti di ai k
                        (omap (sorter.csv_Read (length sort_header))
                              grouping_input)
                   ++ after)
         /\ match grouping_output !! f with
            | Some old =>
                (exists rows, old = sort_header :: rows /\ rows <> [])
                /\ grouping_output_twice !! f = Some (old ++ written)
            | None =>
                grouping_output_twice !! f
                = if decide (written = []) then None
                  else Some (sort_header :: written)
            end.
Proof.
  exact (second_sort_appends sort_header sort_header grouping_input
           grouping_input false false grouping_output grouping_output_twice
           grouping_run grouping_run_again).
Defined.

(** ** Sorting a directory *)

Lemma SortCSV_outcome input skipErrors (out : gmap string (list (list string))) :
  exists res out', SortCSV input skipErrors out res out'.
Proof.
  destruct (sorter.groupRows input skipErrors) as [[hdr groups]|e] eqn:E.
  - exists None, (sorter.writeGroups hdr (map_to_list groups) out).
    constructor. by exists hdr, groups, (map_to_list groups).
  - exists (Some e), out. by constructor.
Qed.

Lemma SortCSV_inv input skipErrors (out : gmap string (list (list string)))
    res out' :
  SortCSV input skipErrors out res out' ->
  (res = None /\ sorter.SortCSV_run input skipErrors out out'
   /\ is_err (sorter.groupRows input skipErrors) = false)
  \/ (exists e, res = Some e /\ sorter.groupRows input skipErrors = Err e
                /\ out' = out).
Proof.
  intros [out1 Hrun|e He].
  - left. split; [done|]. split; [done|].
    destruct Hrun as (hdr & groups & order & -> & _). reflexivity.
  - right. by exists e.
Qed.

Lemma loop_outcome skipErrors files :
  forall out : gmap string (list (list string)),
  exists res out', SortCSVDirectory_loop skipErrors files out res out'.
Proof.
  induction files as [|[name input] files IH]; intros out.
  { exists None, out. constructor. }
  destruct (SortCSV_outcome input skipErrors out) as (res & out1 & H).
  destruct res as [e|].
  - destruct skipErrors eqn:Es.
    + destruct (IH out1) as (res' & out' & H').
      exists res', out'. by eapply loop_continue.
    + exists (Some (ErrProcessing name e)), out1. by eapply loop_return.
  - destruct (IH out1) as (res' & out' & H').
    exists res', out'. by eapply loop_sorted.
Qed.



Lemma loop_first_failure good name input rest e :
  forall (out : gmap string (list (list string))) res out',
  Forall (sorts false) good ->
  sorter.groupRows input false = Err e ->
  SortCSVDirectory_loop false (good ++ (name, input) :: rest) out res out' ->
  res = Some (ErrProcessing name e)
  /\ SortCSVDirectory_loop false good out None out'.
Proof.
  induction good as [|[n i] good IH]; intros out res out' Hgood He H;
    cbn [app] in H.
  - inversion H as [|? ? ? ? ? ? ? Hs|? ? ? ? ? ? ? ? Hskip|? ? ? ? ? ? _ Hs];
      subst.
    + apply SortCSV_inv in Hs as [(_ & _ & Hok)|(e' & ? & _)];
        [by rewrite He in Hok|discriminate].
    + discriminate.
    + apply SortCSV_inv in Hs as [(? & _)|(e' & [= <-] & He' & ->)];
        [discriminate|].
      rewrite He in He'. injection He' as <-. split; [done|constructor].
  - apply Forall_cons_1 in Hgood as [Hi Hgood]. unfold sorts in Hi.
    cbn [snd] in Hi.
    inversion H
      as [|? ? ? ? out1 ? ? Hs Hl|? ? ? ? ? ? ? ? Hskip|? ? ? ? e' ? _ Hs];
      subst.
    + destruct (IH _ _ _ Hgood He Hl) as [-> Hl'].
      split; [done|]. by eapply loop_sorted.
    + discriminate.
    + apply SortCSV_inv in Hs as [(? & _)|(e'' & _ & He' & _)];
        [discriminate|]. by rewrite He' in Hi.
Qed.

(** X12. Without [skipErrors], [SortCSVDirectory] stops at the first
    file that cannot be sorted and returns that file's error with its
    name. The files before it have been sorted into the output directory
    and stay there; the file itself and the files after it add
    nothing. *)
Theorem directory_stops_at_first_failure
    (good rest : list (string * list sorter.csv_line)) (name : string)
    (input : list sorter.csv_line) (e : error)
    (out : gmap string (list (list string))) :
  Forall (sorts false) good ->
  sorter.groupRows input false = Err e ->
  (exists out',
     SortCSVDirectory (good ++ (name, input) :: rest) false out
       (Some (ErrProcessing name e)) out')
  /\ forall res out',
       SortCSVDirectory (good ++ (name, input) :: rest) false out res out' ->
       res = Some (ErrProcessing name e)
       /\ SortCSVDirectory_loop false good out None out'.
Proof.
  intros Hgood He.
  assert (forall res out',
            SortCSVDirectory (good ++ (name, input) :: rest) false out res out'
            <-> SortCSVDirectory_loop false (good ++ (name, input) :: rest)
                  out res out') as Hloop.
  { intros res out'. by destruct good. }
  split.
  - destruct (loop_outcome false (good ++ (name, input) :: rest) out)
      as (res & out' & H).
    destruct (loop_first_failure _ _ _ _ _ _ _ _ Hgood He H) as [-> _].
    exists out'. by apply Hloop.
  - intros res out' H. apply Hloop in H.
    by apply (loop_first_failure good name input rest e).
Qed.

Lemma directory_stops_at_first_failure_witness :
  exists out',
    SortCSVDirectory
      ([("a.csv", sorter.Fields sort_header :: grouping_input)]
       ++ ("b.csv", [sorter.Fields ["Time"; "LastAmp"]])
       :: [("c.csv", sorter.Fields sort_header :: grouping_input)])
      false ∅ (Some (ErrProcessing "b.csv" (ErrMissingColumn "DesignName")))
      out'.
Proof.
  apply (directory_stops_at_first_failure
           [("a.csv", sorter.Fields sort_header :: grouping_input)]
           [("c.csv", sorter.Fields sort_header :: grouping_input)]
           "b.csv" [sorter.Fields ["Time"; "LastAmp"]]
           (ErrMissingColumn "DesignName") ∅).
  - apply Forall_cons_2; [|apply Forall_nil_2].
    unfold sorts. cbn [snd].
    destruct grouping_run as (hdr & groups & order & -> & _). reflexivity.
  - reflexivity.
Defined.

(** ** The times of the converter *)

Lemma fracSecondInValue_fracSecond9 value :
  gotime.fracSecondInValue value = time.fracSecond9 value.
Proof.
  unfold gotime.fracSecondInValue, time.fracSecond9.
  destruct value as [|c0 [|c1 rest]]; [reflexivity..|].
  destruct (time.commaOrPeriod c0); [|reflexivity].
  cbn [negb orb andb]. destruct (time.is_digit c1) eqn:E; [|reflexivity].
  cbn [negb time.drop_bytes time.count_digits]. rewrite E. reflexivity.
Qed.

(** The layout without a fraction reads what the sorter's layout
    reads. *)
Lemma Parse_seconds_Parse s : gotime.Parse_seconds s = time.Parse s.
Proof.
  unfold gotime.Parse_seconds, gotime.Parse_with, time.Parse.
  repeat match goal with
  | |- (if ?b then _ else _) = (if ?b then _ else _) =>
      destruct b; [reflexivity|]
  | |- (?m ≫= _) = (?m ≫= _) =>
      destruct m as [[]|]; [|reflexivity]; cbn [mbind option_bind]
  | |- (?m ≫= _) = (?m ≫= _) =>
      destruct m as [|]; [|reflexivity]; cbn [mbind option_bind]
  end.
  by rewrite fracSecondInValue_fracSecond9.
Qed.

Lemma Parse_with_unique (f g : string -> option (Z * string)) s t t' :
  (forall v n n', f v = Some (n, "") -> g v = Some (n', "") -> n = n') ->
  gotime.Parse_with f s = Some t -> gotime.Parse_with g s = Some t' ->
  t = t'.
Proof.
  intros Hfg. unfold gotime.Parse_with.
  repeat match goal with
  | |- (if ?b then _ else _) = Some _ -> _ => destruct b; [discriminate|]
  | |- (?m ≫= _) = Some _ -> (?m ≫= _) = Some _ -> _ =>
      destruct m as [[]|]; [|discriminate]; cbn [mbind option_bind]
  | |- (?m ≫= _) = Some _ -> (?m ≫= _) = Some _ -> _ =>
      destruct m as [|]; [|discriminate]; cbn [mbind option_bind]
  end.
  match goal with |- (f ?v ≫= _) = _ -> _ =>
    specialize (Hfg v);
    destruct (f v) as [[n r]|]; cbn [mbind option_bind]; [|discriminate];
    destruct (g v) as [[n' r']|]; cbn [mbind option_bind];
      [|intros _; discriminate]
  end.
  destruct r; [|discriminate]. destruct r'; [|intros _; discriminate].
  cbn [String.length Nat.ltb Nat.leb].
  rewrite (Hfg n n' eq_refl eq_refl).
  destruct (_ || _); [discriminate|]. congruence.
Qed.

Lemma fracSecond0_fracSecond9 v n n' :
  gotime.fracSecond0 v = Some (n, "") -> time.fracSecond9 v = Some (n', "") ->
  n = n'.
Proof.
  unfold gotime.fracSecond0.
  destruct v as [|c0 [|c1 [|c2 [|c3 [|c4 r]]]]]; try discriminate.
  - cbn [String.length Nat.ltb Nat.leb].
    destruct (time.parseNanoseconds _ 4) as [ns|] eqn:E; [|discriminate].
    intros [= <-]. unfold time.fracSecond9.
    destruct (negb (time.commaOrPeriod c0) || negb (time.is_digit c1)) eqn:E1;
      [discriminate|].
    apply orb_false_elim in E1 as [_ E1]. apply negb_false_iff in E1.
    cbn [time.drop_bytes time.count_digits]. rewrite E1.
    destruct (time.is_digit c2);
      [|cbn -[time.parseNanoseconds time.is_digit];
        destruct (time.parseNanoseconds _ 2);
        [intros H; injection H; intros; discriminate|discriminate]].
    destruct (time.is_digit c3);
      [|cbn -[time.parseNanoseconds time.is_digit];
        destruct (time.parseNanoseconds _ 3);
        [intros H; injection H; intros; discriminate|discriminate]].
    cbn -[time.parseNanoseconds time.is_digit]. rewrite E. congruence.
  - cbn [String.length Nat.ltb Nat.leb].
    destruct (time.parseNanoseconds _ 4); discriminate.
Qed.

Lemma parseTimeToGPS_Parse s t :
  time.Parse s = Some t -> convert.parseTimeToGPS s = Ok (convert.gps t).
Proof.
  intros E. unfold convert.parseTimeToGPS.
  destruct (gotime.Parse_millis s) as [t'|] eqn:E'.
  - rewrite <- Parse_seconds_Parse in E.
    rewrite (Parse_with_unique _ _ s t' t
               (fun v n n' H H' =>
                  fracSecond0_fracSecond9 v n n' H
                    (eq_trans (eq_sym (fracSecondInValue_fracSecond9 v)) H'))
               E' E).
    reflexivity.
  - by rewrite Parse_seconds_Parse, E.
Qed.

(** X14. Every time string the sorter accepts, the converter accepts
    too, and for the same instant: when [parseDate] succeeds,
    [parseTimeToGPS] returns the GPS time of the time that the sorter's
    layout parses, whichever of its own two layouts reads the string. *)
Theorem sorter_times_convert (s date : string) :
  sorter.parseDate s = Ok date ->
  exists t,
    time.Parse s = Some t /\ date = time.Format_date t
    /\ convert.parseTimeToGPS s = Ok (convert.gps t).
Proof.
  unfold sorter.parseDate.
  destruct (time.Parse s) as [t|] eqn:E; [|discriminate].
  intros [= <-]. exists t. split; [done|]. split; [done|].
  by apply parseTimeToGPS_Parse.
Qed.

Lemma sorter_times_convert_witness :
  exists t,
    time.Parse "2025/Oct/01 09:31:49.500" = Some t
    /\ "2025-10-01" = time.Format_date t
    /\ convert.parseTimeToGPS "2025/Oct/01 09:31:49.500"
       = Ok (convert.gps t).
Proof.
  apply (sorter_times_convert "2025/Oct/01 09:31:49.500" "2025-10-01").
  by vm_compute.
Defined.

(** X21. In the pipeline the sorted files are the converter's input. In
    every file of a sort into an empty directory, the Time of every data
    row, taken from the column the converter takes it from, is a time
    the converter can read: a sorted file never fails conversion on its
    Time column. *)
Theorem sorted_rows_have_convertible_times (header : list string)
    (lines : list sorter.csv_line) (skipErrors : bool)
    (out' : gmap string (list (list string))) (f : string)
    (content : list (list string)) :
  sorter.SortCSV_run (sorter.Fields header :: lines) skipErrors ∅ out' ->
  out' !! f = Some content ->
  exists rows,
    content = header :: rows /\ rows <> []
    /\ Forall (fun row =>
                 exists g,
                   convert.parseTimeToGPS (convert.column header row "Time")
                   = Ok g) rows.
Proof.
  intros Hrun Hf.
  destruct (SortCSV_run_files _ _ _ _ _ Hrun)
    as (ti & di & ai & Hti & Hdi & Hai & Hfiles).
  destruct (Hfiles f) as (written & Hout & Hrows & _).
  rewrite Hf in Hout. unfold base_content in Hout.
  rewrite lookup_empty in Hout.
  destruct (decide (written = [])) as [->|Hne]; [discriminate|].
  injection Hout as ->. exists written. split; [done|]. split; [done|].
  apply Forall_forall. intros row Hrow.
  destruct (Hrows row Hrow) as (k & Hk & _).
  unfold convert.column. rewrite Hti. cbn [default].
  unfold sorter.key_of, sorter.parseDate in Hk.
  destruct (time.Parse (sorter.field row ti)) as [t|] eqn:E; [|discriminate].
  exists (convert.gps t). by apply parseTimeToGPS_Parse.
Qed.

Lemma sorted_rows_have_convertible_times_witness :
  exists rows,
    [sort_header; record_next_day] = sort_header :: rows /\ rows <> []
    /\ Forall (fun row =>
                 exists g,
                   convert.parseTimeToGPS
                     (convert.column sort_header row "Time") = Ok g) rows.
Proof.
  apply (sorted_rows_have_convertible_times sort_header grouping_input false
           grouping_output "2025-10-02designABamp097.csv"
           [sort_header; record_next_day] grouping_run).
  unfold grouping_output. apply lookup_insert_eq.
Defined.

(** ** From rows to points *)

Lemma parseRows_ok PF header rows pts : forall i w,
  Forall2 (fun row p => convert.parseRow PF header row = inr p) rows pts ->
  convert.parseRows PF header i rows w = inr (foldl las.AddPoint w pts).
Proof.
  intros i w H. revert i w.
  induction H as [|row p rows pts Hp _ IH]; intros i w;
    cbn [convert.parseRows foldl]; [reflexivity|].
  rewrite Hp. apply IH.
Qed.

Lemma parseRows_inv PF header rows : forall i w w',
  convert.parseRows PF header i rows w = inr w' ->
  exists pts,
    Forall2 (fun row p => convert.parseRow PF header row = inr p) rows pts
    /\ w' = foldl las.AddPoint w pts.
Proof.
  induction rows as [|row rows IH]; intros i w w'; cbn [convert.parseRows].
  { intros [= <-]. exists []. split; [constructor|reflexivity]. }
  destruct (convert.parseRow PF header row) as [col|p] eqn:E; [discriminate|].
  intros H. apply IH in H as (pts & Hpts & ->).
  exists (p :: pts). split; [by constructor|reflexivity].
Qed.


Lemma parseRows_error_row PF header rows : forall i w e,
  convert.parseRows PF header i rows w = inl e ->
  exists row col, e = convert.ErrRowValue row col.
Proof.
  induction rows as [|row rows IH]; intros i w e; cbn [convert.parseRows].
  { discriminate. }
  destruct (convert.parseRow PF header row) as [col|p].
  - intros [= <-]. by eexists _, _.
  - apply IH.
Qed.

Lemma length_string_app a b :
  String.length (a +:+ b) = (String.length a + String.length b)%nat.
Proof.
  induction a as [|c a IH]; rewrite ?append_nil, ?append_cons;
    cbn [String.length]; lia.
Qed.

Lemma substring_prefix stem ext n :
  String.length ext = n ->
  String.substring 0 (String.length (stem +:+ ext) - n) (stem +:+ ext) = stem.
Proof.
  intros <-.
  assert (String.length (stem +:+ ext) - String.length ext
          = String.length stem)%nat as ->.
  { rewrite length_string_app. lia. }
  induction stem as [|c stem IH]; rewrite ?append_nil, ?append_cons.
  - by destruct ext.
  - cbn [String.length String.substring]. by rewrite IH.
Qed.

Lemma length_writer_points pts w :
  length (las.points (foldl las.AddPoint w pts))
  = (length (las.points w) + length pts)%nat.
Proof. by rewrite points_foldl_AddPoint, length_app. Qed.

(** What [ConvertCSVToLAS] does once the rows are points. *)
Lemma ConvertCSVToLAS_parsed PF csvPath now
    (inputs : gmap string (list sorter.csv_line))
    (fs : gmap string (list byte)) lines header rows pts :
  inputs !! csvPath = Some lines ->
  convert.ReadAll lines = Some (header :: rows) ->
  rows <> [] ->
  convert.missing_column header convert.required = None ->
  Forall2 (fun row p => convert.parseRow PF header row = inr p) rows pts ->
  convert.ConvertCSVToLAS PF csvPath now inputs fs
  = if (String.length (filepath.Base csvPath) <? 4)%nat
    then convert.Panicked
    else
      convert.Returned None
        (<[String.substring 0 (String.length (filepath.Base csvPath) - 4)
             (filepath.Base csvPath) +:+ ".las"
           := artifact (writer_of pts) now]> fs).
Proof.
  intros Hin Hread Hrows Hcols Hpts. unfold convert.ConvertCSVToLAS.
  rewrite Hin, Hread.
  change (default [] (head (header :: rows))) with header.
  change (tail (header :: rows)) with rows.
  destruct rows as [|row rows]; [done|].
  assert ((length (header :: row :: rows) <? 2)%nat = false) as ->
    by (apply Nat.ltb_ge; cbn [length]; lia).
  rewrite Hcols, (parseRows_ok _ _ _ _ _ _ Hpts).
  destruct (String.length (filepath.Base csvPath) <? 4)%nat; [reflexivity|].
  fold (writer_of pts). rewrite Write_ok; [reflexivity|].
  rewrite points_writer_of. apply Forall2_length in Hpts.
  destruct pts; [discriminate|done].
Qed.

Lemma parsed_rows_points PF (records : list (list string)) w :
  (length records <? 2)%nat = false ->
  convert.parseRows PF (default [] (head records)) 1 (tail records)
    las.NewWriter = inr w ->
  las.points w <> [].
Proof.
  intros Elen E. apply parseRows_inv in E as (pts & Hpts & ->).
  rewrite points_foldl_AddPoint. cbn [las.points las.NewWriter app].
  apply Forall2_length in Hpts. apply Nat.ltb_ge in Elen.
  destruct records as [|h [|r rs]]; cbn [length tail] in *; try lia.
  destruct pts; [discriminate|done].
Qed.

Lemma ConvertCSVToLAS_error_frame PF csvPath now
    (inputs : gmap string (list sorter.csv_line))
    (fs fs' : gmap string (list byte)) e :
  convert.ConvertCSVToLAS PF csvPath now inputs fs
  = convert.Returned (Some e) fs' ->
  fs' = fs.
Proof.
  unfold convert.ConvertCSVToLAS.
  destruct (inputs !! csvPath) as [lines|] eqn:Hin; [|by intros [= <- <-]].
  destruct (convert.ReadAll lines) as [records|] eqn:Hread;
    [|by intros [= <- <-]].
  destruct (length records <? 2)%nat eqn:Elen; [by intros [= <- <-]|].
  destruct (convert.missing_column _ _); [by intros [= <- <-]|].
  destruct (convert.parseRows _ _ _ _ _) as [err|w] eqn:E;
    [by intros [= <- <-]|].
  destruct (String.length _ <? 4)%nat; [discriminate|].
  rewrite Write_ok; [discriminate|].
  by eapply parsed_rows_points.
Qed.

Lemma ReadAll_records lines header rows :
  convert.ReadAll lines = Some (header :: rows) ->
  length lines = S (length rows)
  /\ Forall (fun row => length row = length header) rows.
Proof.
  unfold convert.ReadAll. destruct lines as [|[h|] rest]; try discriminate.
  destruct (mapM (sorter.csv_Read (length h)) rest) as [rs|] eqn:E;
    [|discriminate].
  cbn [mbind option_bind]. intros [= <- <-].
  apply mapM_Some in E. split.
  - cbn [length]. f_equal. by apply Forall2_length in E.
  - clear -E. induction E as [|l r ls rs Hl _ IH]; constructor; [|exact IH].
    unfold sorter.csv_Read in Hl. destruct l as [r'|]; [|discriminate].
    destruct (Nat.eqb_spec (length r') (length h)); [|discriminate].
    by injection Hl as <-.
Qed.

(** X17. A CSV file with a header that has the six columns and with one
    or more data rows that all have valid values is converted: the
    output directory gets one file, named like the CSV file with its
    last four bytes replaced by [.las] (whatever those bytes are), and
    its content is the artifact of the points of the rows in their
    order, 227 bytes and 34 for every data row. A file of that name that
    was there before is replaced. *)
Theorem conversion_writes_one_point_per_row
    (ParseFloat : string -> option float64) (csvPath : string) (now : Time)
    (inputs : gmap string (list sorter.csv_line))
    (fs : gmap string (list byte)) (lines : list sorter.csv_line)
    (header : list string) (rows : list (list string))
    (pts : list las.Point) (stem ext : string) :
  inputs !! csvPath = Some lines ->
  convert.ReadAll lines = Some (header :: rows) ->
  rows <> [] ->
  convert.missing_column header convert.required = None ->
  Forall2 (fun row p => convert.parseRow ParseFloat header row = inr p)
    rows pts ->
  filepath.Base csvPath = stem +:+ ext ->
  String.length ext = 4%nat ->
  convert.ConvertCSVToLAS ParseFloat csvPath now inputs fs
  = convert.Returned None
      (<[stem +:+ ".las" := artifact (writer_of pts) now]> fs)
  /\ length (artifact (writer_of pts) now)
     = (227 + 34 * (length lines - 1))%nat.
Proof.
  intros Hin Hread Hrows Hcols Hpts Hbase Hext.
  rewrite (ConvertCSVToLAS_parsed _ _ _ _ _ _ _ _ _ Hin Hread Hrows Hcols
             Hpts).
  rewrite Hbase.
  assert ((String.length (stem +:+ ext) <? 4)%nat = false) as ->
    by (apply Nat.ltb_ge; rewrite length_string_app; lia).
  rewrite (substring_prefix stem ext 4 Hext).
  split; [reflexivity|].
  rewrite length_artifact, points_writer_of.
  apply ReadAll_records in Hread as [-> _].
  apply Forall2_length in Hpts. lia.
Qed.

Lemma good_csv_points :
  Forall2 (fun row p =>
             convert.parseRow example_ParseFloat convert_header row = inr p)
    [row_under; row_at] [point_under; point_at_target].
Proof. repeat constructor; by vm_compute. Qed.

Lemma conversion_writes_one_point_per_row_witness :
  convert.ConvertCSVToLAS example_ParseFloat "in/good.csv" some_day
    {[ "in/good.csv" := good_csv ]} ∅
  = convert.Returned None
      (<[ "good" +:+ ".las"
          := artifact (writer_of [point_under; point_at_target]) some_day ]>
         ∅)
  /\ length (artifact (writer_of [point_under; point_at_target]) some_day)
     = (227 + 34 * (length good_csv - 1))%nat.
Proof.
  apply (conversion_writes_one_point_per_row example_ParseFloat
           "in/good.csv" some_day {[ "in/good.csv" := good_csv ]} ∅
           good_csv convert_header [row_under; row_at]
           [point_under; point_at_target] "good" ".csv").
  - apply lookup_singleton_eq.
  - reflexivity.
  - discriminate.
  - reflexivity.
  - exact good_csv_points.
  - by vm_compute.
  - reflexivity.
Defined.

Lemma parseRow_attributes PF header row p :
  convert.parseRow PF header row = inr p -> row_attributes header row p.
Proof.
  unfold convert.parseRow, row_attributes.
  destruct (convert.parseTimeToGPS _) as [g|]; [|discriminate].
  destruct (PF (convert.column header row "CellE_m")); [|discriminate].
  destruct (PF (convert.column header row "CellN_m")); [|discriminate].
  destruct (PF (convert.column header row "Elevation_m")); [|discriminate].
  destruct (strconv.Atoi (convert.column header row "PassCount")) as [pc|];
    [|discriminate].
  destruct (strconv.Atoi (convert.column header row "TargPassCount"))
    as [tp|]; [|discriminate].
  destruct (converter.determineColor pc tp) as [[r gr] b] eqn:E.
  intros [= <-]. cbn [las.Intensity las.Classification las.GPSTime las.R
                       las.G las.B].
  repeat split. by exists pc, tp.
Qed.

(** X18. From CSV to LAS and back. Reading the points of a converted
    file gives one point for every data row, in the order of the rows:
    intensity 0, class 1, the GPS time that [parseTimeToGPS] makes of the
    row's Time with all its bits, and the colour that [determineColor]
    gives the row's PassCount and TargPassCount. *)
Theorem converted_file_reads_back
    (ParseFloat : string -> option float64) (csvPath : string) (now : Time)
    (inputs : gmap string (list sorter.csv_line))
    (fs : gmap string (list byte)) (lines : list sorter.csv_line)
    (header : list string) (rows : list (list string))
    (pts : list las.Point) (stem ext : string) :
  inputs !! csvPath = Some lines ->
  convert.ReadAll lines = Some (header :: rows) ->
  rows <> [] ->
  convert.missing_column header convert.required = None ->
  Forall2 (fun row p => convert.parseRow ParseFloat header row = inr p)
    rows pts ->
  filepath.Base csvPath = stem +:+ ext ->
  String.length ext = 4%nat ->
  Forall wf_Point pts ->
  Z.of_nat (length pts) < 2 ^ 32 ->
  exists fs' decoded,
    convert.ConvertCSVToLAS ParseFloat csvPath now inputs fs
    = convert.Returned None fs'
    /\ decode (stem +:+ ".las") fs' = Ok decoded
    /\ length decoded = length rows
    /\ Forall2 (row_attributes header) rows decoded.
Proof.
  intros Hin Hread Hrows Hcols Hpts Hbase Hext Hwf Hlen.
  rewrite (ConvertCSVToLAS_parsed _ _ _ _ _ _ _ _ _ Hin Hread Hrows Hcols
             Hpts).
  rewrite Hbase.
  assert ((String.length (stem +:+ ext) <? 4)%nat = false) as ->
    by (apply Nat.ltb_ge; rewrite length_string_app; lia).
  rewrite (substring_prefix stem ext 4 Hext).
  eexists _, _. split; [reflexivity|].
  pose proof (decode_artifact (writer_of pts) now (stem +:+ ".las") fs)
    as Hdec.
  rewrite points_writer_of in Hdec.
  rewrite Hdec by (try apply wf_writer_of; done).
  split; [reflexivity|]. split.
  - rewrite length_map. symmetry. by apply Forall2_length in Hpts.
  - apply Forall2_fmap_r. eapply Forall2_impl; [exact Hpts|].
    intros row p Hp. apply parseRow_attributes in Hp.
    exact Hp.
Qed.

Lemma converted_file_reads_back_witness :
  exists fs' decoded,
    convert.ConvertCSVToLAS example_ParseFloat "in/good.csv" some_day
      {[ "in/good.csv" := good_csv ]} ∅
    = convert.Returned None fs'
    /\ decode ("good" +:+ ".las") fs' = Ok decoded
    /\ length decoded = length [row_under; row_at]
    /\ Forall2 (row_attributes convert_header) [row_under; row_at] decoded.
Proof.
  apply (converted_file_reads_back example_ParseFloat
           "in/good.csv" some_day {[ "in/good.csv" := good_csv ]} ∅
           good_csv convert_header [row_under; row_at]
           [point_under; point_at_target] "good" ".csv").
  - apply lookup_singleton_eq.
  - reflexivity.
  - discriminate.
  - reflexivity.
  - exact good_csv_points.
  - by vm_compute.
  - reflexivity.
  - repeat first [apply Forall_cons_2 | apply Forall_nil_2];
      vm_compute; repeat split; (discriminate || reflexivity).
  - reflexivity.
Defined.

(** X19. [ConvertCSVToLAS] panics in one case only: the rows have all
    been read as points, and the last element of the path has fewer than
    four bytes, so that cutting the four bytes of the extension off it
    slices out of range. *)
Theorem conversion_panics_on_short_name
    (ParseFloat : string -> option float64) (csvPath : string) (now : Time)
    (inputs : gmap string (list sorter.csv_line))
    (fs : gmap string (list byte)) :
  convert.ConvertCSVToLAS ParseFloat csvPath now inputs fs = convert.Panicked
  <-> (String.length (filepath.Base csvPath) < 4)%nat
      /\ exists lines header rows pts,
           inputs !! csvPath = Some lines
           /\ convert.ReadAll lines = Some (header :: rows)
           /\ rows <> []
           /\ convert.missing_column header convert.required = None
           /\ Forall2 (fun row p =>
                         convert.parseRow ParseFloat header row = inr p)
                rows pts.
Proof.
  split.
  - unfold convert.ConvertCSVToLAS.
    destruct (inputs !! csvPath) as [lines|]; [|discriminate].
    destruct (convert.ReadAll lines) as [records|] eqn:Hread; [|discriminate].
    destruct (length records <? 2)%nat eqn:Elen; [discriminate|].
    destruct (convert.missing_column _ _) eqn:Hcols; [discriminate|].
    destruct (convert.parseRows _ _ _ _ _) as [err|w] eqn:E; [discriminate|].
    destruct (String.length _ <? 4)%nat eqn:Eb.
    + intros _. split; [by apply Nat.ltb_lt|].
      apply Nat.ltb_ge in Elen.
      destruct records as [|header [|row rows]]; cbn [length] in Elen;
        try lia.
      apply parseRows_inv in E as (pts & Hpts & _).
      by exists lines, header, (row :: rows), pts.
    + by destruct (las.Write _ _ _ _) as [[e|] fs'].
  - intros (Hlen & lines & header & rows & pts & Hin & Hread & Hrows & Hcols
            & Hpts).
    rewrite (ConvertCSVToLAS_parsed _ _ _ _ _ _ _ _ _ Hin Hread Hrows Hcols
               Hpts).
    apply Nat.ltb_lt in Hlen. by rewrite Hlen.
Qed.

(** ** Converting a directory *)

Lemma convertFiles_inv PF now (inputs : gmap string (list sorter.csv_line))
    files : forall c (fs : gmap string (list byte)) n err fs',
  convert.convertFiles PF files now inputs c fs
  = convert.DirReturned n err fs' ->
  (c <= n)%nat
  /\ convert.convertFiles PF (take (n - c) files) now inputs c fs
     = convert.DirReturned n None fs'
  /\ match err with
     | None => (n - c)%nat = length files
     | Some de =>
         exists bad e,
           files !! (n - c)%nat = Some bad
           /\ de = convert.ErrConverting (filepath.Base bad) e
           /\ convert.ConvertCSVToLAS PF bad now inputs fs'
              = convert.Returned (Some e) fs'
     end.
Proof.
  induction files as [|f files IH]; intros c fs n err fs';
    cbn [convert.convertFiles].
  { intros [= <- <- <-]. rewrite Nat.sub_diag. by repeat split. }
  destruct (convert.ConvertCSVToLAS PF f now inputs fs) as [[e|] fs1|] eqn:E;
    [| |discriminate].
  - intros [= <- <- <-]. rewrite Nat.sub_diag. cbn [take].
    pose proof (ConvertCSVToLAS_error_frame _ _ _ _ _ _ _ E) as ->.
    split; [done|]. split; [reflexivity|].
    by exists f, e.
  - intros H. apply IH in H as (Hle & Htake & Herr).
    split; [lia|].
    replace (n - c)%nat with (S (n - S c)) by lia.
    cbn [take convert.convertFiles lookup list_lookup length]. rewrite E.
    split; [exact Htake|].
    destruct err as [de|]; [exact Herr|]. by rewrite Herr.
Qed.

(** X20. [ConvertDirectory] without files fails with a count of 0. With
    files, the count it returns is the number of files it converted
    before it stopped, and the output directory holds what converting
    exactly those files, in their order, gives. Without an error that is
    all of them; with an error it stopped at the file after them, the
    error names that file and is the error of its conversion, and that
    file has added nothing. *)
Theorem directory_conversion_counts
    (ParseFloat : string -> option float64) (files : list string)
    (now : Time) (inputs : gmap string (list sorter.csv_line))
    (fs fs' : gmap string (list byte)) (n : nat)
    (err : option convert.directory_error) :
  convert.ConvertDirectory ParseFloat files now inputs fs
  = convert.DirReturned n err fs' ->
  match files with
  | [] => n = 0%nat /\ err = Some convert.ErrNoCSV /\ fs' = fs
  | _ =>
      convert.convertFiles ParseFloat (take n files) now inputs 0 fs
      = convert.DirReturned n None fs'
      /\ match err with
         | None => n = length files
         | Some de =>
             exists bad e,
               files !! n = Some bad
               /\ de = convert.ErrConverting (filepath.Base bad) e
               /\ convert.ConvertCSVToLAS ParseFloat bad now inputs fs'
                  = convert.Returned (Some e) fs'
         end
  end.
Proof.
  unfold convert.ConvertDirectory. destruct files as [|f files].
  { by intros [= <- <- <-]. }
  cbn [length Nat.eqb]. intros H.
  apply convertFiles_inv in H as (_ & Htake & Herr).
  rewrite Nat.sub_0_r in Htake, Herr. by split.
Qed.

Lemma directory_conversion_counts_witness :
  convert.convertFiles example_ParseFloat
    (take 1 ["in/good.csv"; "in/bad.csv"]) some_day
    {[ "in/good.csv" := good_csv; "in/bad.csv" := bad_csv ]} 0 ∅
  = convert.DirReturned 1 None
      (<[ "good.las"
          := artifact (writer_of [point_under; point_at_target]) some_day ]>
         ∅)
  /\ exists bad e,
       ["in/good.csv"; "in/bad.csv"] !! 1%nat = Some bad
       /\ convert.ErrConverting "bad.csv" (convert.ErrRowValue 3 "CellN_m")
          = convert.ErrConverting (filepath.Base bad) e
       /\ convert.ConvertCSVToLAS example_ParseFloat bad some_day
            {[ "in/good.csv" := good_csv; "in/bad.csv" := bad_csv ]}
            (<[ "good.las"
                := artifact (writer_of [point_under; point_at_target])
                     some_day ]> ∅)
          = convert.Returned (Some e)
              (<[ "good.las"
                  := artifact (writer_of [point_under; point_at_target])
                       some_day ]> ∅).
Proof.
  apply (directory_conversion_counts example_ParseFloat
           ["in/good.csv"; "in/bad.csv"] some_day
           {[ "in/good.csv" := good_csv; "in/bad.csv" := bad_csv ]} ∅
           (<[ "good.las"
               := artifact (writer_of [point_under; point_at_target])
                    some_day ]> ∅)
           1 (Some (convert.ErrConverting "bad.csv"
                      (convert.ErrRowValue 3 "CellN_m")))).
  vm_compute. reflexivity.
Defined.

(** ** The command-line converter *)

Lemma cli_parseRows_skip PF header rows : forall i points sk,
  cli.parseRows PF true header i rows points sk
  = inr (points ++ cli_valid_points PF header rows,
         (sk + (length rows - length (cli_valid_points PF header rows)))%nat).
Proof.
  assert (forall rows, length (cli_valid_points PF header rows) <= length rows)%nat
    as Hle.
  { intros rs. induction rs as [|r rs IH]; [done|].
    unfold cli_valid_points in *. cbn [omap list_omap length].
    destruct (cli.parseRow PF header r); cbn [length]; lia. }
  induction rows as [|row rows IH]; intros i points sk;
    cbn [cli.parseRows].
  { unfold cli_valid_points. cbn. by rewrite app_nil_r, Nat.add_0_r. }
  specialize (Hle rows).
  unfold cli_valid_points in *. cbn [omap list_omap].
  destruct (cli.parseRow PF header row) as [col|p].
  - rewrite IH. do 2 f_equal; cbn [length]; lia.
  - rewrite IH, <- app_assoc. do 2 f_equal; cbn [length]; lia.
Qed.

Lemma foldl_AddPoint_las_point points : forall w,
  foldl (fun w pt => las.AddPoint w (cli.las_point pt)) w points
  = foldl las.AddPoint w (map cli.las_point points).
Proof.
  induction points as [|p points IH]; intros w; [reflexivity|].
  cbn [foldl map]. apply IH.
Qed.

Lemma cli_parseRow_colour PF header row p :
  cli.parseRow PF header row = inr p ->
  (cli.R p, cli.G p, cli.B p)
  = converter.determineColor (cli.PassCount p) (cli.TargetPass p).
Proof.
  unfold cli.parseRow, converter.determineColor.
  destruct (PF (convert.column header row "CellE_m")); [|discriminate].
  destruct (PF (convert.column header row "CellN_m")); [|discriminate].
  destruct (PF (convert.column header row "Elevation_m")); [|discriminate].
  destruct (strconv.Atoi (convert.column header row "PassCount")) as [pc|];
    [|discriminate].
  destruct (strconv.Atoi (convert.column header row "TargPassCount"))
    as [tp|]; [|discriminate].
  destruct (pc <? tp) eqn:E1;
    [intros [= <-];
     cbn [cli.R cli.G cli.B cli.PassCount cli.TargetPass]; by rewrite E1|].
  destruct (pc =? tp) eqn:E2; intros [= <-];
    cbn [cli.R cli.G cli.B cli.PassCount cli.TargetPass];
    by rewrite E1, E2.
Qed.

(** X22. The command-line converter with [skipErrors]: of a CSV file
    with the five columns and at least one data row it writes the points
    of the rows whose values are all valid, in the order of the rows,
    and passes over the others. When no row is valid it fails with the
    writer's error for an empty point list and writes no file. The
    points carry no time (their GPS time is zero), intensity 0 and class
    1, and the colour is the one [determineColor] gives the two
    counts. *)
Theorem cli_skip_mode_keeps_valid_rows
    (ParseFloat : string -> option float64) (csvPath : string) (now : Time)
    (inputs : gmap string (list sorter.csv_line))
    (fs : gmap string (list byte)) (lines : list sorter.csv_line)
    (header : list string) (rows : list (list string)) :
  inputs !! csvPath = Some lines ->
  convert.ReadAll lines = Some (header :: rows) ->
  rows <> [] ->
  convert.missing_column header cli.required = None ->
  (4 <= String.length csvPath)%nat ->
  let valid := cli_valid_points ParseFloat header rows in
  let pts := map cli.las_point valid in
  cli.convertCSVtoLAS ParseFloat csvPath true now inputs fs
  = (if decide (valid = [])
     then convert.Returned (Some (convert.ErrWriteLAS ErrNoPoints)) fs
     else convert.Returned None
            (<[cli_output_name csvPath := artifact (writer_of pts) now]> fs))
  /\ Forall (fun p => las.GPSTime p = 0 /\ las.Intensity p = 0
                      /\ las.Classification p = 1) pts
  /\ Forall (fun pt =>
               (cli.R pt, cli.G pt, cli.B pt)
               = converter.determineColor (cli.PassCount pt)
                   (cli.TargetPass pt)) valid.
Proof.
  intros Hin Hread Hrows Hcols Hlen valid pts. split; [|split].
  - unfold cli.convertCSVtoLAS. rewrite Hin, Hread.
    change (default [] (head (header :: rows))) with header.
    change (tail (header :: rows)) with rows.
    assert ((length (header :: rows) <? 2)%nat = false) as ->.
    { apply Nat.ltb_ge. destruct rows; [done|]. cbn [length]. lia. }
    rewrite Hcols, cli_parseRows_skip. cbn [app].
    fold valid.
    assert ((String.length csvPath <? 4)%nat = false) as ->
      by (by apply Nat.ltb_ge).
    rewrite foldl_AddPoint_las_point. fold pts. fold (writer_of pts).
    fold (cli_output_name csvPath).
    destruct (decide (valid = [])) as [E|E].
    + subst pts. rewrite E. cbn [map]. reflexivity.
    + rewrite Write_ok; [reflexivity|].
      rewrite points_writer_of. subst pts. by destruct valid.
  - subst pts. apply Forall_forall. intros p Hp.
    apply list_elem_of_fmap in Hp as (pt & -> & _). done.
  - subst valid. unfold cli_valid_points. apply Forall_forall. intros pt Hpt.
    apply list_elem_of_omap in Hpt as (row & _ & Hrow).
    destruct (cli.parseRow ParseFloat header row) as [col|p] eqn:E;
      [discriminate|].
    injection Hrow as ->. by apply cli_parseRow_colour in E.
Qed.

Lemma cli_skip_mode_keeps_valid_rows_witness :
  let valid :=
    cli_valid_points example_ParseFloat convert_header
      [row_under; row_invalid] in
  let pts := map cli.las_point valid in
  cli.convertCSVtoLAS example_ParseFloat "in/bad.csv" true some_day
    {[ "in/bad.csv" := bad_csv ]} ∅
  = (if decide (valid = [])
     then convert.Returned (Some (convert.ErrWriteLAS ErrNoPoints)) ∅
     else convert.Returned None
            (<[cli_output_name "in/bad.csv"
               := artifact (writer_of pts) some_day]> ∅))
  /\ Forall (fun p => las.GPSTime p = 0 /\ las.Intensity p = 0
                      /\ las.Classification p = 1) pts
  /\ Forall (fun pt =>
               (cli.R pt, cli.G pt, cli.B pt)
               = converter.determineColor (cli.PassCount pt)
                   (cli.TargetPass pt)) valid.
Proof.
  apply (cli_skip_mode_keeps_valid_rows example_ParseFloat "in/bad.csv"
           some_day {[ "in/bad.csv" := bad_csv ]} ∅ bad_csv convert_header
           [row_under; row_invalid]).
  - apply lookup_singleton_eq.
  - reflexivity.
  - discriminate.
  - reflexivity.
  - vm_compute. lia.
Defined.

(** ** The converter of the window application *)

Lemma gui_parseRows_cli PF header rows : forall i points sk,
  cli.parseRows PF false header i rows points sk
  = match gui.parseRows PF header i rows points with
    | inl e => inl e
    | inr pts => inr (pts, sk)
    end.
Proof.
  induction rows as [|row rows IH]; intros i points sk;
    cbn [cli.parseRows gui.parseRows]; [reflexivity|].
  destruct (cli.parseRow PF header row); [reflexivity|apply IH].
Qed.

(** X24. The converter of the window application is the command-line
    converter without [skipErrors]: for every path, input and output
    directory the two end the same way. *)
Theorem gui_converter_is_cli_without_skip
    (ParseFloat : string -> option float64) (csvPath : string) (now : Time)
    (inputs : gmap string (list sorter.csv_line))
    (fs : gmap string (list byte)) :
  gui.convertCSVtoLAS ParseFloat csvPath now inputs fs
  = cli.convertCSVtoLAS ParseFloat csvPath false now inputs fs.
Proof.
  unfold gui.convertCSVtoLAS, cli.convertCSVtoLAS.
  destruct (inputs !! csvPath) as [lines|]; [|reflexivity].
  destruct (convert.ReadAll lines) as [records|]; [|reflexivity].
  destruct (length records <? 2)%nat; [reflexivity|].
  destruct (convert.missing_column _ _); [reflexivity|].
  rewrite gui_parseRows_cli.
  by destruct (gui.parseRows _ _ _ _ _).
Qed.

(** ** The minimum of an axis is exact *)

Lemma float64_fields b :
  f64.wf b ->
  let s := Z.testbit b 63 in
  let e := Z.land (Z.shiftr b 52) 0x7FF in
  let m := Z.land b 0xFFFFFFFFFFFFF in
  b = f64.sign_bit s + e * 2 ^ 52 + m /\ 0 <= e < 2048 /\ 0 <= m < 2 ^ 52.
Proof.
  intros [H0 H1]. cbv zeta.
  change 0x7FF with (Z.ones 11). change 0xFFFFFFFFFFFFF with (Z.ones 52).
  rewrite !Z.land_ones by lia. rewrite Z.shiftr_div_pow2 by lia.
  rewrite Z.testbit_odd, Z.shiftr_div_pow2 by lia.
  assert (b / 2 ^ 63 = 0 \/ b / 2 ^ 63 = 1) as Hs.
  { assert (0 <= b / 2 ^ 63 < 2) by
      (split; [apply Z.div_pos; lia|apply Z.div_lt_upper_bound; lia]).
    lia. }
  unfold f64.sign_bit.
  destruct Hs as [Hs|Hs]; rewrite Hs; cbn [Z.odd];
    repeat split; try (apply Z.mod_pos_bound; lia);
    change (2 ^ 63) with (2 ^ 11 * 2 ^ 52) in Hs;
    change (2 ^ 11) with 2048 in *;
    Z.div_mod_to_equations; lia.
Qed.

Lemma of_sf_to_sf b :
  f64.wf b -> is_finite b = true -> f64.of_sf (f64.to_sf b) = b.
Proof.
  intros Hwf. destruct (float64_fields b Hwf) as (Hb & He & Hm).
  cbv zeta in Hb, He, Hm. unfold is_finite, f64.to_sf.
  set (s := Z.testbit b 63) in *.
  set (e := Z.land (Z.shiftr b 52) 0x7FF) in *.
  set (m := Z.land b 0xFFFFFFFFFFFFF) in *.
  destruct (Z.eqb_spec e 0) as [E0|E0].
  - destruct m as [|p|p] eqn:Em; intros _; unfold f64.of_sf; [lia| |lia].
    destruct (Z.leb_spec (2 ^ 52) (Z.pos p)); lia.
  - destruct (Z.eqb_spec e 2047) as [E1|E1].
    { by destruct (m =? 0). }
    destruct (m + 2 ^ 52) as [|p|p] eqn:Em; [done| |done].
    intros _. unfold f64.of_sf.
    destruct (Z.leb_spec (2 ^ 52) (Z.pos p)); lia.
Qed.

Lemma sub_self v : is_finite v = true -> f64.sub v v = 0.
Proof.
  unfold is_finite, f64.sub.
  destruct (f64.to_sf v) as [s|s| |s m e]; try discriminate; intros _.
  - by destruct s.
  - unfold SFsub. by rewrite Z.sub_diag.
Qed.

Lemma add_zero v :
  f64.wf v -> is_finite v = true -> v <> negative_zero -> f64.add 0 v = v.
Proof.
  intros Hwf Hfin Hnz. pose proof (of_sf_to_sf v Hwf Hfin) as Hv.
  unfold is_finite in Hfin. unfold f64.add.
  change (f64.to_sf 0) with (S754_zero false).
  destruct (f64.to_sf v) as [s|s| |s m e]; try discriminate.
  - destruct s; [|exact Hv]. by destruct Hnz.
  - exact Hv.
Qed.

Lemma stored_reconstructed_self v :
  f64.wf v -> is_finite v = true -> v <> negative_zero ->
  stored v v = 0 /\ reconstructed v v = v.
Proof.
  intros Hwf Hfin Hnz. unfold reconstructed, stored.
  rewrite (sub_self v Hfin).
  assert (f64.to_int32 (f64.div 0 las.scale) = 0) as -> by (by vm_compute).
  split; [reflexivity|].
  assert (f64.mul (f64.of_int 0) las.scale = 0) as -> by (by vm_compute).
  by apply add_zero.
Qed.

(** X25. The minimum of an axis is stored as the integer 0 and read
    back exactly: a point whose coordinate on an axis is the writer's
    minimum of that axis, a number and not the negative zero, comes back
    from the file with the same coordinate on that axis, bit for bit. *)
Theorem minimum_reads_back_exactly (pts : list las.Point) (a : Axis)
    (i : nat) (p : las.Point) (filename : string) (now : Time)
    (fs : gmap string (list byte)) :
  Forall wf_Point pts ->
  Z.of_nat (length pts) < 2 ^ 32 ->
  pts !! i = Some p ->
  coord a p = axis_offset a (writer_of pts) ->
  is_finite (coord a p) = true ->
  coord a p <> negative_zero ->
  stored_at a (artifact (writer_of pts) now) i = 0
  /\ exists decoded q,
       encode_decode pts filename now fs = Ok decoded
       /\ decoded !! i = Some q
       /\ coord a q = coord a p.
Proof.
  intros Hwf Hlen Hi Hmin Hfin Hnz.
  assert (f64.wf (coord a p)) as Hwfp.
  { rewrite Forall_forall in Hwf.
    destruct (Hwf p (list_elem_of_lookup_2 _ _ _ Hi)) as (? & ? & ? & _).
    by destruct a. }
  destruct (stored_reconstructed_self _ Hwfp Hfin Hnz) as [Hs Hr].
  split.
  - rewrite (stored_at_artifact a _ now i p)
      by (by rewrite points_writer_of).
    by rewrite <- Hmin.
  - assert (pts <> []) as Hne by (intros ->; discriminate).
    exists (map (requantize (writer_of pts)) pts), (requantize (writer_of pts) p).
    split; [|split].
    + unfold encode_decode.
      rewrite Write_ok by (by rewrite points_writer_of).
      pose proof (decode_artifact (writer_of pts) now filename fs) as Hdec.
      rewrite points_writer_of in Hdec.
      apply Hdec; [by apply wf_writer_of|done|done].
    + by rewrite list_lookup_fmap, Hi.
    + destruct a; cbn [coord requantize las.X las.Y las.Z_] in *;
        cbn [axis_offset] in Hmin; by rewrite <- Hmin.
Qed.

Lemma minimum_reads_back_exactly_witness :
  stored_at AxisX (artifact (writer_of near_points) some_day) 0 = 0
  /\ exists decoded q,
       encode_decode near_points "near.las" some_day ∅ = Ok decoded
       /\ decoded !! 0%nat = Some q
       /\ coord AxisX q = coord AxisX (point_at f_65536 f_0 f_0).
Proof.
  apply (minimum_reads_back_exactly near_points AxisX 0
           (point_at f_65536 f_0 f_0) "near.las" some_day ∅).
  - repeat first [apply Forall_cons_2 | apply Forall_nil_2];
      vm_compute; repeat split; (discriminate || reflexivity).
  - reflexivity.
  - reflexivity.
  - by vm_compute.
  - by vm_compute.
  - by vm_compute.
Defined.

(** ** An amplitude of dots *)

Lemma remove_all_dots amp :
  all_dots amp = true -> sorter.remove_all "." amp = "".
Proof.
  induction amp as [|c amp IH]; [done|]. cbn [all_dots sorter.remove_all].
  intros H. apply andb_prop in H as [Hc H]. rewrite Hc. by apply IH.
Qed.

(** X26. An amplitude that is only dots (a single [.], say) normalises
    to the empty string, not to the sentinel, so its records have a key
    of their own; but the file name of that key is the file name of the
    records without amplitude, and both kinds of record end up in one
    file. *)
Theorem dots_amplitude_shares_file (amp date design : string) :
  amp <> "" -> all_dots amp = true ->
  sorter.normalizeAmp amp = ""
  /\ sorter.normalizeAmp amp <> sorter.normalizeAmp ""
  /\ sorter.artifact_name
       {| sorter.Date := date; sorter.DesignName := design;
          sorter.Amp := sorter.normalizeAmp amp |}
     = sorter.artifact_name
         {| sorter.Date := date; sorter.DesignName := design;
            sorter.Amp := sorter.normalizeAmp "" |}.
Proof.
  intros Hne Hdots.
  assert (sorter.normalizeAmp amp = "") as E.
  { unfold sorter.normalizeAmp. rewrite (remove_all_dots amp Hdots).
    destruct amp as [|c amp]; [done|].
    cbn [all_dots] in Hdots. apply andb_prop in Hdots as [Hc _].
    apply Ascii.eqb_eq in Hc as ->. by destruct amp. }
  rewrite E. split; [done|]. split; [done|]. reflexivity.
Qed.

Lemma dots_amplitude_shares_file_witness :
  sorter.normalizeAmp "." = ""
  /\ sorter.normalizeAmp "." <> sorter.normalizeAmp ""
  /\ sorter.artifact_name
       {| sorter.Date := "2025-10-01"; sorter.DesignName := "AB";
          sorter.Amp := sorter.normalizeAmp "." |}
     = sorter.artifact_name
         {| sorter.Date := "2025-10-01"; sorter.DesignName := "AB";
            sorter.Amp := sorter.normalizeAmp "" |}.
Proof.
  by apply (dots_amplitude_shares_file "." "2025-10-01" "AB").
Defined.

(** ** A file holds the rows of one date *)

Lemma substring_front a b :
  String.substring 0 (String.length a) (a +:+ b) = a.
Proof.
  rewrite <- (substring_prefix a b (String.length b) eq_refl) at 3.
  f_equal. rewrite length_string_app. lia.
Qed.

Lemma artifact_name_date ti di ai r k :
  sorter.key_of ti di ai r = Ok k ->
  sorter.parseDate (sorter.field r ti) = Ok (sorter.Date k)
  /\ String.substring 0 10 (sorter.artifact_name k) = sorter.Date k.
Proof.
  unfold sorter.key_of.
  destruct (sorter.parseDate (sorter.field r ti)) as [date|e] eqn:E;
    [|discriminate].
  intros [= <-]. cbn [sorter.Date]. split; [done|].
  apply parseDate_shape in E as [Hlen Hsafe].
  unfold sorter.artifact_name, sorter.generateFilename.
  cbn [sorter.Date sorter.DesignName sorter.Amp].
  destruct (String.eqb _ "no_amp");
    rewrite sanitize_app, (sanitize_safe date) by done;
    rewrite <- Hlen; apply substring_front.
Qed.

(** X27. A file of the sorter holds rows of one date, the date its name
    begins with: after a sort into an empty directory, the Time of every
    data row of a file parses to the date that the first ten bytes of
    the file's name spell. *)
Theorem file_holds_one_date (header : list string)
    (lines : list sorter.csv_line) (skipErrors : bool)
    (out' : gmap string (list (list string))) (f : string)
    (content : list (list string)) :
  sorter.SortCSV_run (sorter.Fields header :: lines) skipErrors ∅ out' ->
  out' !! f = Some content ->
  exists ti rows,
    sorter.colMap header "Time" = Some ti
    /\ content = header :: rows
    /\ Forall (fun row =>
                 sorter.parseDate (sorter.field row ti)
                 = Ok (String.substring 0 10 f)) rows.
Proof.
  intros Hrun Hf.
  destruct (SortCSV_run_files _ _ _ _ _ Hrun)
    as (ti & di & ai & Hti & Hdi & Hai & Hfiles).
  destruct (Hfiles f) as (written & Hout & Hrows & _).
  rewrite Hf in Hout. unfold base_content in Hout.
  rewrite lookup_empty in Hout.
  destruct (decide (written = [])) as [->|Hne]; [discriminate|].
  injection Hout as ->. exists ti, written. split; [done|]. split; [done|].
  apply Forall_forall. intros row Hrow.
  destruct (Hrows row Hrow) as (k & Hk & <-).
  apply artifact_name_date in Hk as [Hd Hs]. by rewrite Hs.
Qed.

Lemma file_holds_one_date_witness :
  exists ti rows,
    sorter.colMap sort_header "Time" = Some ti
    /\ [sort_header; record_next_day] = sort_header :: rows
    /\ Forall (fun row =>
                 sorter.parseDate (sorter.field row ti)
                 = Ok (String.substring 0 10 "2025-10-02designABamp097.csv"))
         rows.
Proof.
  apply (file_holds_one_date sort_header grouping_input false
           grouping_output "2025-10-02designABamp097.csv"
           [sort_header; record_next_day] grouping_run).
  unfold grouping_output. apply lookup_insert_eq.
Defined.

(** ** Chunks do not show *)

Lemma processChunk_no_error_inv ti di ai chunk : forall g n,
  (sorter.processChunk chunk ti di ai g false n).1.2 = None ->
  Forall (fun r => is_err (sorter.key_of ti di ai r) = false) chunk.
Proof.
  induction chunk as [|r chunk IH]; intros g n; cbn [sorter.processChunk].
  { intros _. constructor. }
  unfold sorter.key_of at 1.
  destruct (sorter.parseDate (sorter.field r ti)) as [date|e] eqn:E;
    [|discriminate].
  intros H. apply IH in H. apply Forall_cons_2; [|exact H].
  unfold sorter.key_of. by rewrite E.
Qed.

Lemma readRows_no_skip_inv nf ti di ai lines : forall chunk g rc sk g' sk',
  sorter.readRows lines nf ti di ai false chunk g rc sk = Ok (g', sk') ->
  Forall (fun r => is_err (sorter.key_of ti di ai r) = false)
    (chunk ++ omap (sorter.csv_Read nf) lines).
Proof.
  induction lines as [|l lines IH]; intros chunk g rc sk g' sk';
    cbn [sorter.readRows omap list_omap].
  - rewrite app_nil_r. destruct (0 <? length chunk)%nat eqn:E.
    + pose proof (processChunk_no_error_inv ti di ai chunk g 0) as H.
      destruct (sorter.processChunk chunk _ _ _ _ _ _) as [[n' err] g1].
      cbn [fst snd negb] in *. destruct err; [discriminate|].
      intros _. by apply H.
    + apply Nat.ltb_ge in E. destruct chunk; [constructor|cbn in E; lia].
  - destruct (sorter.csv_Read nf l) as [record|]; [|discriminate].
    destruct (sorter.ChunkSize <=? length (chunk ++ [record]))%nat.
    + pose proof (processChunk_no_error_inv ti di ai (chunk ++ [record]) g 0)
        as H.
      destruct (sorter.processChunk (chunk ++ [record]) _ _ _ _ _ _)
        as [[n' err] g1].
      cbn [fst snd negb] in *. destruct err; [discriminate|].
      intros Hrun. apply IH in Hrun. rewrite app_nil_l in Hrun.
      specialize (H eq_refl). apply Forall_app in H as [Hc Hr].
      apply Forall_app. split; [done|].
      apply Forall_cons_1 in Hr as [Hr _]. by apply Forall_cons_2.
    + intros Hrun. apply IH in Hrun. by rewrite <- app_assoc in Hrun.
Qed.

(** X28. The chunks of [SortCSV] do not show in its result: when
    grouping ends well, the groups are the groups that a single call of
    [processChunk] on all the records of the input makes from an empty
    map, and that call reports no error. *)
Theorem chunking_is_invisible (header : list string)
    (lines : list sorter.csv_line) (skipErrors : bool)
    (hdr : list string)
    (groups : gmap sorter.GroupKey (list (list string))) :
  sorter.groupRows (sorter.Fields header :: lines) skipErrors
  = Ok (hdr, groups) ->
  exists ti di ai skipped,
    sorter.colMap header "Time" = Some ti
    /\ sorter.colMap header "DesignName" = Some di
    /\ sorter.colMap header "LastAmp" = Some ai
    /\ sorter.processChunk (omap (sorter.csv_Read (length header)) lines)
         ti di ai ∅ skipErrors 0
       = (skipped, None, groups).
Proof.
  unfold sorter.groupRows.
  destruct (sorter.colMap header "Time") as [ti|]; [|discriminate].
  destruct (sorter.colMap header "DesignName") as [di|]; [|discriminate].
  destruct (sorter.colMap header "LastAmp") as [ai|]; [|discriminate].
  destruct (sorter.readRows _ _ _ _ _ _ _ _ _ _) as [[g sk]|e] eqn:E;
    [|discriminate].
  intros [= <- <-]. exists ti, di, ai.
  pose proof (readRows_spec _ _ _ _ _ _ _ _ _ _ _ _ E) as Hg.
  rewrite app_nil_l in Hg.
  set (records := omap (sorter.csv_Read (length header)) lines) in *.
  pose proof (processChunk_spec ti di ai skipErrors records ∅ 0) as Hspec.
  pose proof (processChunk_no_error ti di ai skipErrors records ∅ 0) as Hno.
  destruct (sorter.processChunk records _ _ _ _ _ _) as [[n err] g1].
  cbn [fst snd] in Hno. destruct Hspec as [Hspec _].
  assert (err = None) as ->.
  { apply Hno. destruct skipErrors; [by left|right].
    apply readRows_no_skip_inv in E. by rewrite app_nil_l in E. }
  exists n. repeat split; try done. by rewrite Hg, (Hspec eq_refl).
Qed.

Lemma chunking_is_invisible_witness :
  exists ti di ai skipped,
    sorter.colMap sort_header "Time" = Some ti
    /\ sorter.colMap sort_header "DesignName" = Some di
    /\ sorter.colMap sort_header "LastAmp" = Some ai
    /\ sorter.processChunk
         (omap (sorter.csv_Read (length sort_header)) grouping_input)
         ti di ai ∅ false 0
       = (skipped, None,
          foldl add_row ∅
            (keyed 0 1 2
               (omap (sorter.csv_Read (length sort_header)) grouping_input))).
Proof.
  destruct sort_header_columns as (Hti & Hdi & Hai).
  destruct example_keys as (_ & Kp & Kl & Kn).
  apply (chunking_is_invisible sort_header grouping_input false sort_header).
  apply (groupRows_total _ _ _ _ _ _ Hti Hdi Hai). right.
  change (omap _ grouping_input)
    with [record_plain; record_next_day; record_later].
  split; repeat first [apply Forall_cons_2 | apply Forall_nil_2];
    first [by eexists | by rewrite Kp | by rewrite Kl | by rewrite Kn ].
Defined.

(** ** What the reader does not look at *)

Lemma slice_agree {A} lo hi (l l' : list A) :
  (forall i, (lo <= i < hi)%nat -> l !! i = l' !! i) ->
  slice lo hi l = slice lo hi l'.
Proof.
  intros H. apply list_eq. intros i. rewrite !slice_lookup.
  destruct (decide (i < hi - lo)%nat); [|done]. apply H. lia.
Qed.

Lemma readLoop_rest recLen dec dec' n : forall i f f' acc,
  drop (offset f) (content f) = drop (offset f') (content f') ->
  (forall b, dec b = dec' b) ->
  (las.readLoop recLen dec n i f acc).1
  = (las.readLoop recLen dec' n i f' acc).1.
Proof.
  induction n as [|n IH]; intros i f f' acc Hrest Hdec;
    cbn [las.readLoop]; [done|].
  unfold ReadFull. rewrite Hrest.
  destruct (recLen <=? length (drop (offset f') (content f')))%nat; [|done].
  rewrite Hdec. apply IH; [|done]. cbn [offset content].
  by rewrite <- !drop_drop, Hrest.
Qed.

Lemma decodeFormat2_fields h h' b :
  las.XScale h = las.XScale h' -> las.YScale h = las.YScale h' ->
  las.ZScale h = las.ZScale h' -> las.XOffset h = las.XOffset h' ->
  las.YOffset h = las.YOffset h' -> las.ZOffset h = las.ZOffset h' ->
  las.decodeFormat2 h b = las.decodeFormat2 h' b.
Proof. unfold las.decodeFormat2. by intros -> -> -> -> -> ->. Qed.

Lemma decodeFormat3_fields h h' b :
  las.XScale h = las.XScale h' -> las.YScale h = las.YScale h' ->
  las.ZScale h = las.ZScale h' -> las.XOffset h = las.XOffset h' ->
  las.YOffset h = las.YOffset h' -> las.ZOffset h = las.ZOffset h' ->
  las.decodeFormat3 h b = las.decodeFormat3 h' b.
Proof. unfold las.decodeFormat3. by intros -> -> -> -> -> ->. Qed.

Lemma used_fields_agree (data data' : list byte) :
  (forall i, used_by_reader i = true -> data !! i = data' !! i) ->
  let h := las.parseHeader (take 227 data) in
  let h' := las.parseHeader (take 227 data') in
  las.PointFormat h = las.PointFormat h'
  /\ las.PointCount h = las.PointCount h'
  /\ las.XScale h = las.XScale h' /\ las.YScale h = las.YScale h'
  /\ las.ZScale h = las.ZScale h' /\ las.XOffset h = las.XOffset h'
  /\ las.YOffset h = las.YOffset h' /\ las.ZOffset h = las.ZOffset h'.
Proof.
  intros Hsame h h'.
  assert (forall lo hi, (hi <= 227)%nat ->
            (forall i, (lo <= i < hi)%nat -> used_by_reader i = true) ->
            slice lo hi (take 227 data) = slice lo hi (take 227 data'))
    as Hslice.
  { intros lo hi Hhi Hused. apply slice_agree. intros i Hi.
    rewrite !lookup_take_lt by lia. apply Hsame, Hused, Hi. }
  assert (forall lo hi, (131 <= lo)%nat -> (hi <= 179)%nat ->
            forall i, (lo <= i < hi)%nat -> used_by_reader i = true)
    as Hfloat.
  { intros lo hi Hlo Hhi i Hi. unfold used_by_reader.
    destruct (Nat.leb_spec 131 i); [|lia].
    destruct (Nat.ltb_spec i 179); [|lia].
    by rewrite !orb_true_r. }
  unfold h, h', las.parseHeader.
  cbn [las.PointFormat las.PointCount las.XScale las.YScale las.ZScale
       las.XOffset las.YOffset las.ZOffset].
  split; [|split; [|repeat split]].
  - unfold byte_at. rewrite !lookup_take_lt by lia. by rewrite Hsame.
  - rewrite (Hslice 107 111)%nat; [done|lia|].
    intros i Hi. unfold used_by_reader.
    destruct (Nat.leb_spec 107 i); [|lia].
    destruct (Nat.ltb_spec i 111); [|lia].
    by rewrite !orb_true_r.
  - rewrite (Hslice 131 139)%nat; [done|lia|]. apply Hfloat; lia.
  - rewrite (Hslice 139 147)%nat; [done|lia|]. apply Hfloat; lia.
  - rewrite (Hslice 147 155)%nat; [done|lia|]. apply Hfloat; lia.
  - rewrite (Hslice 155 163)%nat; [done|lia|]. apply Hfloat; lia.
  - rewrite (Hslice 163 171)%nat; [done|lia|]. apply Hfloat; lia.
  - rewrite (Hslice 171 179)%nat; [done|lia|]. apply Hfloat; lia.
Qed.

(** X29. The reader takes the signature, the format id, the point count,
    the scales and the offsets from the header and the records from byte
    227 on, and nothing else: two files of the same length that agree on
    those bytes decode to the same result, whatever their headers say
    about the version, the header size, the offset to the point data,
    the record length or the bounds. *)
Theorem decode_ignores_other_header_bytes (name : string)
    (fs fs' : gmap string (list byte)) (data data' : list byte) :
  fs !! name = Some data ->
  fs' !! name = Some data' ->
  length data = length data' ->
  (forall i, used_by_reader i = true -> data !! i = data' !! i) ->
  decode name fs = decode name fs'.
Proof.
  intros Hfs Hfs' Hlen Hsame. unfold decode.
  destruct (Nat.lt_ge_cases (length data) 227) as [Hlt|Hge].
  { rewrite (NewReader_short _ _ data), (NewReader_short _ _ data');
      [done|done|lia|done|done]. }
  rewrite (NewReader_long _ _ data), (NewReader_long _ _ data');
    [|done|lia|done|done].
  assert (slice 0 4 data = slice 0 4 data') as <-.
  { apply slice_agree. intros i Hi. apply Hsame. unfold used_by_reader.
    destruct (Nat.ltb_spec i 4); [done|lia]. }
  destruct (bool_decide _); [|done].
  destruct (used_fields_agree data data' Hsame)
    as (Hf & Hc & Hxs & Hys & Hzs & Hxo & Hyo & Hzo).
  assert (drop 227 data = drop 227 data') as Hrest.
  { apply list_eq. intros i. rewrite !lookup_drop. apply Hsame.
    unfold used_by_reader. destruct (Nat.leb_spec 227 (227 + i)); [|lia].
    by rewrite !orb_true_r. }
  set (h := las.parseHeader (take 227 data)) in *.
  set (h' := las.parseHeader (take 227 data')) in *.
  destruct (decide (las.PointFormat h = 2)) as [H2|H2].
  { rewrite !ReadPoints_format2 by (cbn [las.header]; congruence).
    cbn [las.header las.file]. rewrite <- Hc.
    apply readLoop_rest; [done|]. intros b. by apply decodeFormat2_fields. }
  destruct (decide (las.PointFormat h = 3)) as [H3|H3].
  { rewrite !ReadPoints_format3 by (cbn [las.header]; congruence).
    cbn [las.header las.file]. rewrite <- Hc.
    apply readLoop_rest; [done|]. intros b. by apply decodeFormat3_fields. }
  rewrite !ReadPoints_unsupported by (cbn [las.header]; congruence).
  cbn [las.header]. by rewrite Hf.
Qed.

Lemma decode_ignores_other_header_bytes_witness :
  decode "near.las"
    {[ "near.las" := artifact (writer_of near_points) some_day ]}
  = decode "near.las"
      {[ "near.las" :=
           <[105%nat := Byte.x00]> (artifact (writer_of near_points) some_day) ]}.
Proof.
  apply (decode_ignores_other_header_bytes "near.las" _ _
           (artifact (writer_of near_points) some_day)
           (<[105%nat := Byte.x00]>
              (artifact (writer_of near_points) some_day))).
  - apply lookup_singleton_eq.
  - apply lookup_singleton_eq.
  - symmetry. apply length_insert.
  - intros i Hi. symmetry. apply list_lookup_insert_ne.
    intros <-. discriminate Hi.
Defined.

(** ** Rounding to binary64: the mantissa *)

Lemma digits2_pos_bounds m :
  2 ^ (Z.pos (digits2_pos m) - 1) <= Z.pos m < 2 ^ Z.pos (digits2_pos m).
Proof.
  induction m as [m IH|m IH|]; cbn [digits2_pos]; [| |cbn; lia].
  - rewrite Pos2Z.inj_succ, (Pos2Z.inj_xI m).
    replace (Z.succ (Z.pos (digits2_pos m)) - 1)
      with (Z.succ (Z.pos (digits2_pos m) - 1)) by lia.
    rewrite !Z.pow_succ_r by lia.
    set (a := 2 ^ (Z.pos (digits2_pos m) - 1)) in *.
    set (b := 2 ^ Z.pos (digits2_pos m)) in *. clearbody a b. lia.
  - rewrite Pos2Z.inj_succ, (Pos2Z.inj_xO m).
    replace (Z.succ (Z.pos (digits2_pos m)) - 1)
      with (Z.succ (Z.pos (digits2_pos m) - 1)) by lia.
    rewrite !Z.pow_succ_r by lia.
    set (a := 2 ^ (Z.pos (digits2_pos m) - 1)) in *.
    set (b := 2 ^ Z.pos (digits2_pos m)) in *. clearbody a b. lia.
Qed.

Lemma Zdigits2_bounds m :
  0 < m -> 2 ^ (Zdigits2 m - 1) <= m < 2 ^ Zdigits2 m /\ 0 < Zdigits2 m.
Proof.
  destruct m as [|p|p]; try lia. intros _. cbn [Zdigits2].
  split; [apply digits2_pos_bounds|lia].
Qed.

Lemma Zdigits2_unique m d :
  0 < d -> 2 ^ (d - 1) <= m < 2 ^ d -> Zdigits2 m = d.
Proof.
  intros Hd Hm.
  assert (0 < m) as Hpos.
  { assert (0 < 2 ^ (d - 1)) by (apply Z.pow_pos_nonneg; lia). lia. }
  destruct (Zdigits2_bounds m Hpos) as [Hb Hd'].
  destruct (Z.lt_trichotomy (Zdigits2 m) d) as [H|[H|H]]; [|exact H|].
  - assert (2 ^ Zdigits2 m <= 2 ^ (d - 1)) by (apply Z.pow_le_mono_r; lia).
    lia.
  - assert (2 ^ d <= 2 ^ (Zdigits2 m - 1)) by (apply Z.pow_le_mono_r; lia).
    lia.
Qed.

Lemma Zdigits2_nonneg m : 0 <= Zdigits2 m.
Proof. destruct m; cbn; lia. Qed.

(** The digits of a mantissa shifted to the right. *)
Lemma Zdigits2_div_pow2 m n :
  0 <= m -> 0 <= n ->
  (0 < m / 2 ^ n -> Zdigits2 (m / 2 ^ n) = Zdigits2 m - n)
  /\ (m / 2 ^ n = 0 -> Zdigits2 m <= n).
Proof.
  intros Hm Hn.
  assert (0 < 2 ^ n) as Hp by (apply Z.pow_pos_nonneg; lia).
  split.
  - intros Hq.
    assert (0 < m) as Hpos.
    { destruct (Z.eq_dec m 0) as [->|]; [|lia]. rewrite Z.div_0_l in Hq; lia. }
    destruct (Zdigits2_bounds m Hpos) as [[Hlo Hhi] Hd].
    assert (2 ^ n <= m).
    { destruct (Z.lt_ge_cases m (2 ^ n)); [|lia].
      rewrite Z.div_small in Hq by lia. lia. }
    assert (n < Zdigits2 m).
    { destruct (Z.lt_ge_cases n (Zdigits2 m)); [lia|].
      assert (2 ^ Zdigits2 m <= 2 ^ n) by (apply Z.pow_le_mono_r; lia). lia. }
    apply Zdigits2_unique; [lia|].
    assert (2 ^ Zdigits2 m = 2 ^ (Zdigits2 m - n) * 2 ^ n) as E1
      by (rewrite <- Z.pow_add_r by lia; f_equal; lia).
    assert (2 ^ (Zdigits2 m - 1) = 2 ^ (Zdigits2 m - n - 1) * 2 ^ n) as E2
      by (rewrite <- Z.pow_add_r by lia; f_equal; lia).
    rewrite E1 in Hhi. rewrite E2 in Hlo.
    split.
    + apply Z.div_le_lower_bound; lia.
    + apply Z.div_lt_upper_bound; lia.
  - intros Hq. destruct (Z.eq_dec m 0) as [->|Hne]; [cbn; lia|].
    destruct (Zdigits2_bounds m ltac:(lia)) as [[Hlo Hhi] Hd].
    destruct (Z.lt_ge_cases n (Zdigits2 m)); [|lia].
    assert (2 ^ n <= 2 ^ (Zdigits2 m - 1)) by (apply Z.pow_le_mono_r; lia).
    assert (1 <= m / 2 ^ n) by (apply Z.div_le_lower_bound; lia).
    lia.
Qed.

(** ** Rounding to binary64: shifting with a location *)

Lemma iter_pos_iter {A} (f : A -> A) p : forall x,
  SpecFloat.iter_pos f p x = Nat.iter (Pos.to_nat p) f x.
Proof.
  induction p as [p IH|p IH|]; intros x; cbn [SpecFloat.iter_pos].
  - rewrite !IH, Pos2Nat.inj_xI.
    replace (S (2 * Pos.to_nat p)) with (Pos.to_nat p + S (Pos.to_nat p))%nat
      by lia.
    rewrite Nat.iter_add. f_equal. by rewrite Nat.iter_succ_r.
  - rewrite !IH, Pos2Nat.inj_xO.
    replace (2 * Pos.to_nat p)%nat with (Pos.to_nat p + Pos.to_nat p)%nat
      by lia.
    by rewrite Nat.iter_add.
  - reflexivity.
Qed.

Lemma shr_1_spec mrs :
  0 <= shr_m mrs ->
  shr_m (shr_1 mrs) = shr_m mrs / 2
  /\ (shr_exact mrs -> shr_m mrs mod 2 = 0 -> shr_exact (shr_1 mrs)).
Proof.
  destruct mrs as [m r s]. cbn [shr_m]. intros Hm. unfold shr_exact.
  destruct m as [|[p|p|]|p]; cbn [shr_1 shr_m shr_r shr_s]; try lia.
  - split; [reflexivity|]. by intros [-> ->].
  - rewrite (Pos2Z.inj_xI p). split.
    + apply Z.div_unique with 1; lia.
    + intros _ H. exfalso. Z.div_mod_to_equations. lia.
  - rewrite (Pos2Z.inj_xO p). split.
    + apply Z.div_unique with 0; lia.
    + by intros [-> ->].
  - split; [reflexivity|]. intros _ H. vm_compute in H. discriminate.
Qed.

Lemma shr_iter_spec n : forall mrs,
  0 <= shr_m mrs ->
  shr_m (Nat.iter n shr_1 mrs) = shr_m mrs / 2 ^ Z.of_nat n
  /\ (shr_exact mrs -> shr_m mrs mod 2 ^ Z.of_nat n = 0 ->
      shr_exact (Nat.iter n shr_1 mrs)).
Proof.
  induction n as [|n IH]; intros mrs Hm.
  { change (Nat.iter 0 shr_1 mrs) with mrs. change (2 ^ Z.of_nat 0) with 1.
    rewrite Z.div_1_r. by split. }
  change (Nat.iter (S n) shr_1 mrs) with (shr_1 (Nat.iter n shr_1 mrs)).
  destruct (IH mrs Hm) as [IHm IHe].
  assert (0 < 2 ^ Z.of_nat n) as Hp by (apply Z.pow_pos_nonneg; lia).
  assert (0 <= shr_m (Nat.iter n shr_1 mrs)) as Hm'.
  { rewrite IHm. apply Z.div_pos; lia. }
  destruct (shr_1_spec _ Hm') as [H1 H2].
  rewrite Nat2Z.inj_succ, Z.pow_succ_r by lia.
  split.
  - rewrite H1, IHm, Z.div_div by lia. f_equal. lia.
  - intros He Hmod.
    assert (shr_m mrs mod 2 ^ Z.of_nat n = 0
            /\ (shr_m mrs / 2 ^ Z.of_nat n) mod 2 = 0) as [Ha Hb].
    { apply Z.mod_divide in Hmod as [k Hk]; [|lia].
      replace (k * (2 * 2 ^ Z.of_nat n)) with (k * 2 * 2 ^ Z.of_nat n) in Hk
        by lia.
      rewrite Hk, Z_mod_mult, Z_div_mult by lia.
      by rewrite Z_mod_mult. }
    apply H2; [by apply IHe|]. by rewrite IHm.
Qed.

Lemma shr_spec mrs e n :
  0 <= shr_m mrs ->
  let '(mrs', e') := shr mrs e n in
  e' = e + Z.max n 0
  /\ shr_m mrs' = shr_m mrs / 2 ^ Z.max n 0
  /\ (shr_exact mrs -> shr_m mrs mod 2 ^ Z.max n 0 = 0 -> shr_exact mrs').
Proof.
  intros Hm. destruct n as [|p|p]; cbn [shr].
  - change (Z.max 0 0) with 0. change (2 ^ 0) with 1.
    rewrite Z.div_1_r, Z.add_0_r. split; [reflexivity|]. by split.
  - rewrite iter_pos_iter. replace (Z.max (Z.pos p) 0) with (Z.pos p) by lia.
    destruct (shr_iter_spec (Pos.to_nat p) mrs Hm) as [H1 H2].
    rewrite positive_nat_Z in H1, H2. split; [reflexivity|]. by split.
  - replace (Z.max (Z.neg p) 0) with 0 by lia. change (2 ^ 0) with 1.
    rewrite Z.div_1_r, Z.add_0_r. split; [reflexivity|]. by split.
Qed.

Lemma fexp_fexp64 e : fexp 53 1024 e = fexp64 e.
Proof. reflexivity. Qed.

Lemma shr_fexp_spec m e l :
  0 <= m ->
  let '(mrs', e') := shr_fexp 53 1024 m e l in
  let n := Z.max (fexp64 (Zdigits2 m + e) - e) 0 in
  e' = e + n
  /\ shr_m mrs' = m / 2 ^ n
  /\ (l = loc_Exact -> m mod 2 ^ n = 0 ->
      loc_of_shr_record mrs' = loc_Exact).
Proof.
  intros Hm. unfold shr_fexp. rewrite fexp_fexp64.
  pose proof (shr_spec (shr_record_of_loc m l) e
                (fexp64 (Zdigits2 m + e) - e)) as H.
  destruct (shr _ _ _) as [mrs' e'].
  assert (shr_m (shr_record_of_loc m l) = m) as Em
    by (by destruct l as [|[]]).
  rewrite Em in H. destruct (H Hm) as (H1 & H2 & H3).
  cbv zeta. split; [exact H1|]. split; [exact H2|].
  intros -> Hmod.
  destruct (H3 ltac:(by split) Hmod) as [Hr Hs].
  destruct mrs' as [m' r' s']. cbn in Hr, Hs. by subst.
Qed.

Lemma round_nearest_even_spec m l :
  (round_nearest_even m l = m \/ round_nearest_even m l = m + 1)
  /\ (l = loc_Exact -> round_nearest_even m l = m).
Proof.
  destruct l as [|[]]; cbn [round_nearest_even];
    try destruct (Z.even m); split; (tauto || discriminate || auto).
Qed.

(** ** Rounding to binary64: the two steps *)

Lemma Zdigits2_le_53 m : 0 < m < 2 ^ 53 -> Zdigits2 m <= 53.
Proof.
  intros [H0 H1]. destruct (Zdigits2_bounds m H0) as [[Hlo _] Hd].
  destruct (Z.le_gt_cases (Zdigits2 m) 53) as [|H]; [done|].
  assert (2 ^ 53 <= 2 ^ (Zdigits2 m - 1)) by (apply Z.pow_le_mono_r; lia).
  lia.
Qed.

(** What the first step leaves: fewer than 54 bits, and 53 of them
    unless the exponent is the least one. *)
Lemma first_step_bounds mx ex :
  0 <= mx -> ex <= fexp64 (Zdigits2 mx + ex) ->
  let e1 := fexp64 (Zdigits2 mx + ex) in
  let m1 := mx / 2 ^ (e1 - ex) in
  0 <= m1 < 2 ^ 53 /\ (2 ^ 52 <= m1 \/ e1 = -1074).
Proof.
  intros Hmx Hex e1 m1.
  assert (0 < 2 ^ (e1 - ex)) as Hp by (apply Z.pow_pos_nonneg; lia).
  assert (0 <= m1) as H0 by (apply Z.div_pos; lia).
  destruct (Zdigits2_div_pow2 mx (e1 - ex) Hmx ltac:(lia)) as [Hd Hz].
  fold m1 in Hd, Hz.
  destruct (Z.eq_dec m1 0) as [E|E].
  - specialize (Hz E). unfold e1, fexp64 in *. lia.
  - specialize (Hd ltac:(lia)).
    destruct (Zdigits2_bounds m1 ltac:(lia)) as [[Hlo Hhi] Hpos].
    assert (Zdigits2 m1 <= 53) as Hle by (unfold e1, fexp64 in *; lia).
    assert (2 ^ Zdigits2 m1 <= 2 ^ 53) by (apply Z.pow_le_mono_r; lia).
    split; [lia|].
    destruct (Z.eq_dec e1 (-1074)) as [|Hne]; [by right|left].
    assert (Zdigits2 m1 = 53) as E53 by (unfold e1, fexp64 in *; lia).
    rewrite E53 in Hlo. exact (proj1 (conj Hlo I)).
Qed.

Lemma second_step s m2 e1 :
  0 <= m2 <= 2 ^ 53 -> -1074 <= e1 ->
  (let '(mrs, e) := shr_fexp 53 1024 m2 e1 loc_Exact in
   match shr_m mrs with
   | 0 => S754_zero s
   | Z.pos m => if e <=? 1024 - 53 then S754_finite s m e else S754_infinity s
   | Z.neg _ => S754_nan
   end) = rounded s m2 e1.
Proof.
  intros [H0 H1] He.
  pose proof (shr_fexp_spec m2 e1 loc_Exact H0) as H.
  destruct (shr_fexp 53 1024 m2 e1 loc_Exact) as [mrs e].
  cbv zeta in H. destruct H as (-> & -> & _).
  unfold rounded.
  destruct (Z.eqb_spec m2 (2 ^ 53)) as [->|Hne].
  - change (Zdigits2 (2 ^ 53)) with 54. unfold fexp64.
    replace (Z.max (Z.max (54 + e1 - 53) (-1074) - e1) 0) with 1 by lia.
    change (2 ^ 53 / 2 ^ 1) with (2 ^ 52). reflexivity.
  - assert (Z.max (fexp64 (Zdigits2 m2 + e1) - e1) 0 = 0) as ->.
    { destruct (Z.eq_dec m2 0) as [->|]; [cbn [Zdigits2]; unfold fexp64; lia|].
      pose proof (Zdigits2_le_53 m2 ltac:(lia)). unfold fexp64. lia. }
    change (2 ^ 0) with 1. rewrite Z.div_1_r, Z.add_0_r.
    destruct m2; [reflexivity|reflexivity|lia].
Qed.

(** [binary_round_aux] on a mantissa that is not shifted to the left:
    the mantissa is cut to 53 bits, the result is the cut or the next
    mantissa, and it is the cut when nothing was cut off. *)
Lemma round_aux_spec s mx ex lx :
  0 <= mx -> ex <= fexp64 (Zdigits2 mx + ex) ->
  let e1 := fexp64 (Zdigits2 mx + ex) in
  let m1 := mx / 2 ^ (e1 - ex) in
  exists m2,
    (m2 = m1 \/ m2 = m1 + 1)
    /\ (lx = loc_Exact -> mx mod 2 ^ (e1 - ex) = 0 -> m2 = m1)
    /\ binary_round_aux 53 1024 s mx ex lx = rounded s m2 e1.
Proof.
  intros Hmx Hex e1 m1.
  destruct (first_step_bounds mx ex Hmx Hex) as [Hm1 _].
  fold e1 m1 in Hm1.
  unfold binary_round_aux.
  pose proof (shr_fexp_spec mx ex lx Hmx) as H.
  destruct (shr_fexp 53 1024 mx ex lx) as [mrs' e'].
  cbv zeta in H.
  replace (Z.max (fexp64 (Zdigits2 mx + ex) - ex) 0) with (e1 - ex) in H
    by (unfold e1; lia).
  destruct H as (He' & Hm' & Hloc).
  assert (e' = e1) as -> by lia. fold m1 in Hm'. rewrite Hm'.
  destruct (round_nearest_even_spec m1 (loc_of_shr_record mrs')) as [Hr He].
  exists (round_nearest_even m1 (loc_of_shr_record mrs')).
  split; [exact Hr|]. split.
  - intros Hlx Hmod. apply He. by apply Hloc.
  - apply second_step; [lia|unfold e1, fexp64; lia].
Qed.

(** ** Rounding to binary64: the numbers *)

Section rounding_reals.

Import Rdefinitions Raxioms RIneq Rbasic_fun Rfunctions Lra.
Local Open Scope R_scope.

Lemma Rabs_le_inv a b : Rabs a <= b -> - b <= a <= b.
Proof. unfold Rabs. destruct (Rcase_abs a); lra. Qed.

Lemma pow2_pos e : 0 < pow2 e.
Proof. unfold pow2. apply powerRZ_lt. lra. Qed.

Lemma pow2_add a b : pow2 (a + b) = pow2 a * pow2 b.
Proof. unfold pow2. apply powerRZ_add. lra. Qed.

Lemma pow2_IZR e : (0 <= e)%Z -> pow2 e = IZR (2 ^ e).
Proof.
  intros He. unfold pow2. rewrite <- (Z2Nat.id e He).
  rewrite <- pow_powerRZ. by rewrite pow_IZR.
Qed.

Lemma pow2_ge_1 e : (0 <= e)%Z -> 1 <= pow2 e.
Proof.
  intros He. rewrite pow2_IZR by done. apply IZR_le.
  assert (0 < 2 ^ e)%Z by (apply Z.pow_pos_nonneg; lia). lia.
Qed.

Lemma pow2_le a b : (a <= b)%Z -> pow2 a <= pow2 b.
Proof.
  intros H. replace b with (a + (b - a))%Z by lia. rewrite pow2_add.
  pose proof (pow2_pos a). pose proof (pow2_ge_1 (b - a) ltac:(lia)).
  nra.
Qed.

Lemma pow2_lt a b : (a < b)%Z -> pow2 a < pow2 b.
Proof.
  intros H. replace b with (a + 1 + (b - a - 1))%Z by lia.
  rewrite !pow2_add.
  pose proof (pow2_pos a). pose proof (pow2_ge_1 (b - a - 1) ltac:(lia)).
  rewrite (pow2_IZR 1) by lia. change (2 ^ 1)%Z with 2%Z. nra.
Qed.

(** A mantissa at a lower exponent. *)
Lemma pow2_shift m e n :
  (0 <= n)%Z -> IZR (m * 2 ^ n) * pow2 e = IZR m * pow2 (e + n).
Proof.
  intros Hn. rewrite mult_IZR, pow2_add, <- pow2_IZR by done. ring.
Qed.

Lemma SF2R_cond_Zopp s m e :
  IZR (cond_Zopp s m) * pow2 e = if s then - (IZR m * pow2 e) else IZR m * pow2 e.
Proof. destruct s; cbn [cond_Zopp]; [rewrite opp_IZR|]; ring. Qed.

(** The value [rounded] makes of a mantissa. *)
Lemma rounded_spec s m2 e1 :
  (0 <= m2 <= 2 ^ 53)%Z -> (-1074 <= e1)%Z ->
  (2 ^ 52 <= m2 \/ e1 = -1074)%Z ->
  (rounded s m2 e1 = S754_infinity s /\ pow2 1024 <= IZR m2 * pow2 e1)
  \/ (finite_sf (rounded s m2 e1) = true
      /\ valid_sf (rounded s m2 e1)
      /\ SF2R (rounded s m2 e1) = IZR (cond_Zopp s m2) * pow2 e1).
Proof.
  intros [H0 H1] He Hn. unfold rounded.
  destruct (Z.eqb_spec m2 (2 ^ 53)) as [->|Hne].
  - change (2 ^ 52)%Z with (Z.pos 4503599627370496).
    destruct (Z.leb_spec (e1 + 1) 971) as [Hle|Hgt].
    + right. split; [reflexivity|]. split.
      { unfold valid_sf, bounded64. lia. }
      cbn [SF2R]. rewrite !SF2R_cond_Zopp.
      replace (IZR (2 ^ 53)) with (IZR (Z.pos 4503599627370496) * 2)
        by (rewrite <- mult_IZR; reflexivity).
      rewrite pow2_add, (pow2_IZR 1) by lia. change (2 ^ 1)%Z with 2%Z.
      destruct s; lra.
    + left. split; [reflexivity|].
      rewrite <- (pow2_IZR 53), <- pow2_add by lia. apply pow2_le. lia.
  - destruct m2 as [|p|p]; [| |lia].
    + right. split; [reflexivity|]. split; [exact I|].
      cbn [SF2R]. destruct s; cbn [cond_Zopp];
        rewrite ?Z.opp_0, Rmult_0_l; reflexivity.
    + destruct (Z.leb_spec e1 971) as [Hle|Hgt].
      * right. split; [reflexivity|]. split; [|reflexivity].
        unfold valid_sf, bounded64. lia.
      * left. split; [reflexivity|].
        destruct Hn as [Hn|Hn]; [|lia].
        apply IZR_le in Hn. rewrite <- pow2_IZR in Hn by lia.
        pose proof (pow2_le 972 e1 ltac:(lia)) as Hp.
        replace 1024%Z with (52 + 972)%Z by lia. rewrite pow2_add.
        pose proof (pow2_pos 52). pose proof (pow2_pos 972). nra.
Qed.

(** [binary_round_aux] in numbers: [x], of which [mx * 2 ^ ex] is the
    part known, is rounded to a number [y] of the exponent [e1]. *)
Lemma round_aux_real s mx ex lx (x : R) :
  (0 <= mx)%Z -> (ex <= fexp64 (Zdigits2 mx + ex))%Z ->
  IZR mx * pow2 ex <= x < (IZR mx + 1) * pow2 ex ->
  (lx = loc_Exact -> x = IZR mx * pow2 ex) ->
  let e1 := fexp64 (Zdigits2 mx + ex) in
  let r := binary_round_aux 53 1024 s mx ex lx in
  exists y : R,
    0 <= y
    /\ Rabs (y - x) <= pow2 e1
    /\ (pow2 52 * pow2 e1 <= x \/ e1 = (-1074)%Z)
    /\ (lx = loc_Exact -> forall k, x = IZR k * pow2 e1 -> y = x)
    /\ ((r = S754_infinity s /\ pow2 1024 <= y)
        \/ (finite_sf r = true /\ valid_sf r
            /\ SF2R r = if s then - y else y)).
Proof.
  intros Hmx Hex [Hlo Hhi] Hexact e1 r.
  destruct (first_step_bounds mx ex Hmx Hex) as [Hm1 Hn1].
  destruct (round_aux_spec s mx ex lx Hmx Hex) as (m2 & Hm2 & He & Hr).
  fold e1 in Hm1, Hn1, Hm2, He, Hr. fold r in Hr.
  set (n := (e1 - ex)%Z) in *. set (m1 := (mx / 2 ^ n)%Z) in *.
  assert (0 <= n)%Z as Hn by (unfold n; lia).
  assert (0 < 2 ^ n)%Z as Hp by (apply Z.pow_pos_nonneg; lia).
  assert (m1 * 2 ^ n <= mx /\ mx + 1 <= (m1 + 1) * 2 ^ n)%Z as [Hfl1 Hfl2].
  { pose proof (Z.div_mod mx (2 ^ n) ltac:(lia)).
    pose proof (Z.mod_pos_bound mx (2 ^ n) Hp). unfold m1. nia. }
  assert (pow2 e1 = IZR (2 ^ n) * pow2 ex) as Ee1.
  { replace e1 with (n + ex)%Z by (unfold n; lia).
    by rewrite pow2_add, pow2_IZR. }
  pose proof (pow2_pos ex) as Hpex. pose proof (pow2_pos e1) as Hpe1.
  assert (IZR m1 * pow2 e1 <= x < (IZR m1 + 1) * pow2 e1) as [Hx1 Hx2].
  { rewrite Ee1. apply IZR_le in Hfl1, Hfl2.
    rewrite mult_IZR in Hfl1. rewrite mult_IZR, !plus_IZR in Hfl2.
    split; nra. }
  exists (IZR m2 * pow2 e1).
  assert (IZR m2 = IZR m1 \/ IZR m2 = IZR m1 + 1) as Hm2R.
  { destruct Hm2 as [-> | ->]; [by left|right]. by rewrite plus_IZR. }
  assert (0 <= IZR m1) as Hm1R by (apply IZR_le; lia).
  split; [destruct Hm2R as [-> | ->]; nra|].
  split; [apply Rabs_le; destruct Hm2R as [-> | ->]; split; nra|].
  split.
  { destruct Hn1 as [Hn1|Hn1]; [left|by right].
    apply IZR_le in Hn1. rewrite <- pow2_IZR in Hn1 by lia. nra. }
  split.
  { intros Hl k Hk.
    assert (mx = k * 2 ^ n)%Z as Hmx'.
    { apply eq_IZR. rewrite mult_IZR.
      rewrite (Hexact Hl), Ee1 in Hk. nra. }
    assert (mx mod 2 ^ n = 0)%Z as Hmod by (rewrite Hmx'; apply Z_mod_mult).
    rewrite (He Hl Hmod), (Hexact Hl), Ee1.
    apply Z.div_exact in Hmod; [|lia]. fold m1 in Hmod.
    apply (f_equal IZR) in Hmod. rewrite mult_IZR in Hmod.
    rewrite Hmod. ring. }
  destruct (rounded_spec s m2 e1) as [[Hinf Hbig]|(Hfin & Hval & Hv)].
  - lia.
  - unfold e1, fexp64. lia.
  - destruct Hn1 as [Hn1|Hn1]; [left; lia|by right].
  - left. by rewrite Hr.
  - right. rewrite Hr. split; [done|]. split; [done|].
    rewrite Hv. apply SF2R_cond_Zopp.
Qed.

(** ** Rounding to binary64: a mantissa and an exponent *)

Lemma iter_xO m d : Z.pos (Pos.iter xO m d) = (Z.pos m * 2 ^ Z.pos d)%Z.
Proof.
  induction d as [|d IH] using Pos.peano_ind.
  - cbn [Pos.iter]. rewrite (Pos2Z.inj_xO m). change (2 ^ 1)%Z with 2%Z. lia.
  - rewrite Pos.iter_succ, (Pos2Z.inj_xO (Pos.iter xO m d)), IH.
    rewrite Pos2Z.inj_succ, Z.pow_succ_r by lia. lia.
Qed.

(** [shl_align] to an exponent [e']: the same number, at [e'] when that
    is the lower exponent. *)
Lemma shl_align_spec m e e' :
  let '(m', e'') := shl_align m e e' in
  e'' = Z.min e e' /\ Z.pos m' = (Z.pos m * 2 ^ (e - e''))%Z.
Proof.
  unfold shl_align. destruct (e' - e)%Z as [|d|d] eqn:E.
  - replace (Z.min e e') with e by lia. rewrite Z.sub_diag. split; lia.
  - replace (Z.min e e') with e by lia. rewrite Z.sub_diag. split; lia.
  - replace (Z.min e e') with e' by lia. split; [reflexivity|].
    rewrite iter_xO. do 2 f_equal. lia.
Qed.

Lemma Zdigits2_mul_pow2 m n :
  (0 < m)%Z -> (0 <= n)%Z -> Zdigits2 (m * 2 ^ n) = (Zdigits2 m + n)%Z.
Proof.
  intros Hm Hn. destruct (Zdigits2_bounds m Hm) as [[Hlo Hhi] Hd].
  assert (0 < 2 ^ n)%Z by (apply Z.pow_pos_nonneg; lia).
  apply Zdigits2_unique; [lia|].
  replace (Zdigits2 m + n - 1)%Z with (Zdigits2 m - 1 + n)%Z by lia.
  rewrite !Z.pow_add_r by lia. nia.
Qed.

Lemma max_float_lt : max_float < pow2 1024.
Proof.
  unfold max_float. replace 1024%Z with (53 + 971)%Z by lia.
  rewrite pow2_add. pose proof (pow2_pos 971). nra.
Qed.

(** [binary_round] in numbers, for an exponent that is not below the
    least one: the error is relative, a number of 53 bits is kept as it
    is, and nothing up to the largest float64 becomes an infinity. *)
Lemma binary_round_real s m e :
  (-1074 <= e)%Z ->
  let x := IZR (Z.pos m) * pow2 e in
  let r := binary_round 53 1024 s m e in
  exists y : R,
    0 <= y
    /\ Rabs (y - x) <= pow2 (-52) * x
    /\ ((Z.pos m < 2 ^ 53)%Z -> y = x)
    /\ ((r = S754_infinity s /\ max_float < x)
        \/ (finite_sf r = true /\ valid_sf r
            /\ SF2R r = if s then - y else y)).
Proof.
  intros He x r. unfold r, binary_round.
  pose proof (shl_align_spec m e (fexp 53 1024 (Z.pos (digits2_pos m) + e)))
    as Hal.
  destruct (shl_align m e _) as [mz ez].
  rewrite fexp_fexp64 in Hal.
  change (Z.pos (digits2_pos m)) with (Zdigits2 (Z.pos m)) in Hal.
  set (e1 := fexp64 (Zdigits2 (Z.pos m) + e)) in *.
  destruct Hal as [Hez Hmz].
  assert (0 <= e - ez)%Z as Hsh by lia.
  assert (Zdigits2 (Z.pos mz) + ez = Zdigits2 (Z.pos m) + e)%Z as Hdig.
  { rewrite Hmz, Zdigits2_mul_pow2 by lia. lia. }
  assert (x = IZR (Z.pos mz) * pow2 ez) as Hx.
  { unfold x. rewrite Hmz, pow2_shift by lia. do 2 f_equal. lia. }
  pose proof (pow2_pos ez) as Hpez.
  destruct (round_aux_real s (Z.pos mz) ez loc_Exact x)
    as (y & Hy0 & Hyx & Hrel & Hexact & Hres).
  { lia. }
  { rewrite Hdig. fold e1. lia. }
  { rewrite Hx. split; nra. }
  { intros _. exact Hx. }
  rewrite Hdig in Hyx, Hrel, Hexact. fold e1 in Hyx, Hrel, Hexact.
  assert (0 < x) as Hxpos.
  { rewrite Hx. assert (0 < IZR (Z.pos mz)) by (apply IZR_lt; lia). nra. }
  (* the grid of [e1] holds [x] when [e1] is not above [e] *)
  assert ((e1 <= e)%Z -> y = x) as Hgrid.
  { intros Hle. apply (Hexact eq_refl (Z.pos m * 2 ^ (e - e1))%Z).
    unfold x. rewrite pow2_shift by lia. do 2 f_equal. lia. }
  exists y. split; [exact Hy0|]. split; [|split].
  - destruct Hrel as [Hrel| ->].
    + assert (pow2 e1 <= pow2 (-52) * x); [|lra].
      assert (pow2 (-52) * pow2 52 = 1) as E
        by (rewrite <- pow2_add; reflexivity).
      pose proof (pow2_pos (-52)).
      apply Rmult_le_compat_l with (r := pow2 (-52)) in Hrel; [|lra].
      by rewrite <- Rmult_assoc, E, Rmult_1_l in Hrel.
    + rewrite Hgrid by lia. rewrite Rminus_diag, Rabs_R0.
      pose proof (pow2_pos (-52)). nra.
  - intros Hsmall. apply Hgrid.
    pose proof (Zdigits2_le_53 (Z.pos m) ltac:(lia)).
    unfold e1, fexp64. lia.
  - destruct Hres as [[Hinf Hbig]|Hfin]; [left|by right].
    split; [exact Hinf|].
    destruct (Rlt_le_dec max_float x) as [|Hle]; [done|exfalso].
    pose proof max_float_lt as Hmax.
    (* [x] below [2 ^ 1024]: the exponent is at most 971 *)
    assert (e1 <= 971)%Z as He1.
    { destruct (Zdigits2_bounds (Z.pos m) ltac:(lia)) as [[Hlo _] Hd].
      destruct (Z.le_gt_cases (Zdigits2 (Z.pos m) + e) 1024) as [Hs|Hs];
        [unfold e1, fexp64; lia|exfalso].
      apply IZR_le in Hlo. rewrite <- pow2_IZR in Hlo by lia.
      pose proof (pow2_le 1024 (Zdigits2 (Z.pos m) - 1 + e) ltac:(lia)) as Hp.
      rewrite pow2_add in Hp. pose proof (pow2_pos e). unfold x in *. nra. }
    pose proof (pow2_le e1 971 He1) as Hp971.
    assert (pow2 1024 = max_float + pow2 971) as E1024.
    { unfold max_float. replace 1024%Z with (53 + 971)%Z by lia.
      rewrite pow2_add. ring. }
    apply Rabs_le_inv in Hyx.
    assert (x = max_float) as Hxmax by lra.
    assert (pow2 e1 = pow2 971) as Ee by lra.
    assert (e1 = 971)%Z as ->.
    { destruct (Z.eq_dec e1 971) as [|Hne]; [done|].
      pose proof (pow2_lt e1 971 ltac:(lia)). lra. }
    assert (y = x); [|lra].
    apply (Hexact eq_refl (2 ^ 53 - 1)%Z).
    rewrite Hxmax. unfold max_float.
    rewrite minus_IZR, <- pow2_IZR by lia. reflexivity.
Qed.

(** ** The operations of binary64 in numbers *)

Lemma rounding_of_exact z r :
  valid_sf r -> finite_sf r = true -> SF2R r = z -> rounding_of 0 z r.
Proof.
  intros Hv Hf Hz. split; [exact Hv|]. split; [by destruct r|].
  intros _. rewrite Hz, Rminus_diag, Rabs_R0.
  pose proof (pow2_pos (-52)). pose proof (Rabs_pos z).
  split; [nra|]. split; lra.
Qed.

Lemma binary_round_signed s p e :
  (-1074 <= e)%Z ->
  let z := IZR (cond_Zopp s (Z.pos p)) * pow2 e in
  let r := binary_round 53 1024 s p e in
  rounding_of 0 z r
  /\ (Rabs z <= max_float -> finite_sf r = true)
  /\ ((Z.pos p < 2 ^ 53)%Z -> (e <= 971)%Z ->
      finite_sf r = true /\ SF2R r = z).
Proof.
  intros He z r. pose proof (pow2_pos e) as Hp.
  pose proof (pow2_pos (-52)) as Hu.
  destruct (binary_round_real s p e He) as (y & Hy0 & Hyx & Hsmall & Hres).
  fold r in Hres.
  assert (0 < IZR (Z.pos p)) as Hpos by (apply IZR_lt; lia).
  set (x := IZR (Z.pos p) * pow2 e) in *.
  assert (0 < x) as Hx by (unfold x; nra).
  assert (z = if s then - x else x) as Ez.
  { unfold z. by rewrite SF2R_cond_Zopp. }
  assert (Rabs z = x) as Eabs.
  { rewrite Ez. destruct s; [rewrite Rabs_Ropp|]; apply Rabs_pos_eq; lra. }
  rewrite Eabs.
  destruct Hres as [[Hinf Hbig]|(Hfin & Hval & Hv)].
  - split; [|split].
    + rewrite Hinf. by split.
    + intros. lra.
    + intros Hlt Hle. exfalso.
      assert (x <= max_float); [|lra].
      unfold x, max_float.
      assert (IZR (Z.pos p) <= pow2 53 - 1).
      { rewrite pow2_IZR, <- minus_IZR by lia. apply IZR_le. lia. }
      pose proof (pow2_le e 971 Hle). nra.
  - split; [|split].
    + split; [exact Hval|]. split.
      { intros E. by rewrite E in Hfin. }
      intros _. rewrite Eabs, Rplus_0_r, Hv, Ez.
      apply Rabs_le_inv in Hyx.
      split; [apply Rabs_le; destruct s; lra|]. split; destruct s; lra.
    + done.
    + intros Hlt _. split; [done|].
      rewrite Hv, Ez, (Hsmall Hlt). reflexivity.
Qed.

Lemma binary_normalize_real M e :
  (-1074 <= e)%Z ->
  let z := IZR M * pow2 e in
  let r := binary_normalize 53 1024 M e false in
  rounding_of 0 z r
  /\ (Rabs z <= max_float -> finite_sf r = true)
  /\ ((Z.abs M < 2 ^ 53)%Z -> (e <= 971)%Z ->
      finite_sf r = true /\ SF2R r = z).
Proof.
  intros He z r. unfold r, z.
  destruct M as [|p|p]; cbn [binary_normalize].
  - rewrite Rmult_0_l. split; [by apply rounding_of_exact|]. by split.
  - apply (binary_round_signed false p e He).
  - apply (binary_round_signed true p e He).
Qed.

(** A mantissa aligned to a lower exponent is the same number. *)
Lemma align_value s m e ez :
  (ez <= e)%Z ->
  IZR (cond_Zopp s (Z.pos (fst (shl_align m e ez)))) * pow2 ez
  = SF2R (S754_finite s m e).
Proof.
  intros Hle. pose proof (shl_align_spec m e ez) as H.
  destruct (shl_align m e ez) as [m' e']. cbn [fst SF2R].
  destruct H as [-> Hm]. rewrite Hm. rewrite !SF2R_cond_Zopp.
  replace (Z.min e ez) with ez by lia.
  rewrite pow2_shift by lia.
  replace (ez + (e - ez))%Z with e by lia. reflexivity.
Qed.

Lemma valid_finite_le s m e :
  bounded64 m e -> Rabs (SF2R (S754_finite s m e)) <= max_float.
Proof.
  intros (Hm & He & _). cbn [SF2R]. rewrite SF2R_cond_Zopp.
  assert (0 < IZR (Z.pos m)) by (apply IZR_lt; lia).
  pose proof (pow2_pos e).
  assert (IZR (Z.pos m) <= pow2 53 - 1).
  { rewrite pow2_IZR, <- minus_IZR by lia. apply IZR_le. lia. }
  pose proof (pow2_le e 971 ltac:(lia)).
  replace (Rabs (if s then - (IZR (Z.pos m) * pow2 e)
                 else IZR (Z.pos m) * pow2 e))
    with (IZR (Z.pos m) * pow2 e).
  - unfold max_float. nra.
  - destruct s; [rewrite Rabs_Ropp|]; symmetry; apply Rabs_pos_eq; nra.
Qed.

(** The sum of two numbers. *)
Lemma SFadd_real a b :
  valid_sf a -> valid_sf b -> finite_sf a = true -> finite_sf b = true ->
  let z := SF2R a + SF2R b in
  let r := SFadd 53 1024 a b in
  rounding_of 0 z r /\ (Rabs z <= max_float -> finite_sf r = true).
Proof.
  intros Ha Hb Fa Fb z r. unfold z, r.
  destruct a as [sa|sa| |sa ma ea], b as [sb|sb| |sb mb eb];
    try discriminate; cbn [SFadd].
  - cbn [SF2R]. rewrite Rplus_0_r.
    split; [|by destruct sa, sb].
    apply rounding_of_exact; by destruct sa, sb.
  - rewrite Rplus_0_l. split; [by apply rounding_of_exact|done].
  - rewrite Rplus_0_r. split; [by apply rounding_of_exact|done].
  - cbn [valid_sf] in Ha, Hb.
    assert (-1074 <= Z.min ea eb)%Z as Hmin.
    { destruct Ha as (_ & ? & _), Hb as (_ & ? & _). lia. }
    pose proof (binary_normalize_real
      (cond_Zopp sa (Z.pos (fst (shl_align ma ea (Z.min ea eb))))
       + cond_Zopp sb (Z.pos (fst (shl_align mb eb (Z.min ea eb)))))%Z
      (Z.min ea eb) Hmin) as H.
    cbv zeta in H. rewrite plus_IZR, Rmult_plus_distr_r in H.
    rewrite !align_value in H by lia.
    destruct H as (H1 & H2 & _). by split.
Qed.

Lemma SFsub_SFadd a b : SFsub 53 1024 a b = SFadd 53 1024 a (SFopp b).
Proof.
  destruct a as [sa|sa| |sa ma ea], b as [sb|sb| |sb mb eb];
    try reflexivity; by destruct sa, sb.
Qed.

(** The difference of two numbers. *)
Lemma SFsub_real a b :
  valid_sf a -> valid_sf b -> finite_sf a = true -> finite_sf b = true ->
  let z := SF2R a - SF2R b in
  let r := SFsub 53 1024 a b in
  rounding_of 0 z r /\ (Rabs z <= max_float -> finite_sf r = true).
Proof.
  intros Ha Hb Fa Fb. cbv zeta. rewrite SFsub_SFadd.
  assert (SF2R a - SF2R b = SF2R a + SF2R (SFopp b)) as ->.
  { destruct b as [sb|sb| |sb mb eb]; cbn [SFopp SF2R]; try lra.
    rewrite !SF2R_cond_Zopp. destruct sb; cbn [negb]; lra. }
  apply SFadd_real; by destruct b.
Qed.

(** [binary_round_aux] as a rounding of the number [z] of magnitude
    [x]. *)
Lemma round_aux_rounding (s : bool) mx ex lx (x z : R) :
  (0 <= mx)%Z -> (ex <= fexp64 (Zdigits2 mx + ex))%Z ->
  IZR mx * pow2 ex <= x < (IZR mx + 1) * pow2 ex ->
  (lx = loc_Exact -> x = IZR mx * pow2 ex) ->
  (x = 0 -> lx = loc_Exact) ->
  z = (if s then - x else x) ->
  let r := binary_round_aux 53 1024 s mx ex lx in
  rounding_of (pow2 (-1074)) z r
  /\ (x < pow2 1023 -> finite_sf r = true).
Proof.
  intros Hmx Hex Hx Hexact Hzero Ez r.
  destruct (round_aux_real s mx ex lx x Hmx Hex Hx Hexact)
    as (y & Hy0 & Hyx & Hrel & Hgrid & Hres).
  assert (x = 0 -> y = 0) as Hy.
  { intros E. rewrite (Hgrid (Hzero E) 0%Z); [exact E|]. rewrite E. ring. }
  fold r in Hres. set (e1 := fexp64 (Zdigits2 mx + ex)) in *.
  pose proof (pow2_pos ex) as Hpex. pose proof (pow2_pos e1) as Hpe1.
  pose proof (pow2_pos (-52)) as Hu.
  assert (0 <= x) as Hx0.
  { assert (0 <= IZR mx) by (apply IZR_le; lia). nra. }
  assert (Rabs z = x) as Eabs.
  { rewrite Ez. destruct s; [rewrite Rabs_Ropp|]; by apply Rabs_pos_eq. }
  assert (pow2 e1 <= pow2 (-52) * x + pow2 (-1074)) as Herr.
  { destruct Hrel as [Hrel|Hrel]; [|rewrite Hrel; nra].
    assert (pow2 (-52) * pow2 52 = 1) as E
      by (rewrite <- pow2_add; reflexivity).
    apply Rmult_le_compat_l with (r := pow2 (-52)) in Hrel; [|lra].
    rewrite <- Rmult_assoc, E, Rmult_1_l in Hrel.
    pose proof (pow2_pos (-1074)). lra. }
  apply Rabs_le_inv in Hyx.
  destruct Hres as [[Hinf Hbig]|(Hfin & Hval & Hv)].
  - split; [rewrite Hinf; by split|].
    intros Hlt. exfalso.
    assert (2 * pow2 (-1) = 1) as Ehalf.
    { change 2 with (IZR (2 ^ 1)). rewrite <- (pow2_IZR 1) by lia.
      rewrite <- pow2_add. reflexivity. }
    assert (pow2 (-52) * x + pow2 (-1074) <= x / 2 + 1 / 2).
    { pose proof (pow2_le (-52) (-1) ltac:(lia)).
      pose proof (pow2_le (-1074) (-1) ltac:(lia)).
      nra. }
    assert (pow2 1024 = 2 * pow2 1023) as E.
    { replace 1024%Z with (1 + 1023)%Z by lia.
      rewrite pow2_add, (pow2_IZR 1) by lia. reflexivity. }
    pose proof (pow2_ge_1 1023 ltac:(lia)). lra.
  - split; [|done].
    split; [exact Hval|]. split.
    { intros E. by rewrite E in Hfin. }
    intros _. rewrite Eabs, Hv, Ez.
    split; [apply Rabs_le; destruct s; lra|].
    split; intros Hz; destruct s; try lra;
      (assert (x = 0) as E0 by lra); specialize (Hy E0); lra.
Qed.

Lemma Zdigits2_mul a b :
  (0 < a)%Z -> (0 < b)%Z ->
  (Zdigits2 a + Zdigits2 b - 1 <= Zdigits2 (a * b))%Z.
Proof.
  intros Ha Hb.
  destruct (Zdigits2_bounds a Ha) as [[Hla _] Hda].
  destruct (Zdigits2_bounds b Hb) as [[Hlb _] Hdb].
  destruct (Zdigits2_bounds (a * b) ltac:(lia)) as [[_ Hh] Hd].
  destruct (Z.le_gt_cases (Zdigits2 a + Zdigits2 b - 1) (Zdigits2 (a * b)))
    as [|Hgt]; [done|exfalso].
  assert (2 ^ Zdigits2 (a * b) <= 2 ^ (Zdigits2 a - 1 + (Zdigits2 b - 1)))%Z
    as Hp by (apply Z.pow_le_mono_r; lia).
  rewrite Z.pow_add_r in Hp by lia.
  assert (0 < 2 ^ (Zdigits2 a - 1))%Z by (apply Z.pow_pos_nonneg; lia).
  assert (0 < 2 ^ (Zdigits2 b - 1))%Z by (apply Z.pow_pos_nonneg; lia).
  nia.
Qed.

Lemma Zdigits2_ge_53 m : (2 ^ 52 <= m)%Z -> (53 <= Zdigits2 m)%Z.
Proof.
  intros Hm. destruct (Zdigits2_bounds m ltac:(lia)) as [[_ Hh] Hd].
  destruct (Z.le_gt_cases 53 (Zdigits2 m)) as [|Hgt]; [done|exfalso].
  assert (2 ^ Zdigits2 m <= 2 ^ 52)%Z by (apply Z.pow_le_mono_r; lia).
  lia.
Qed.

(** The product of two numbers. *)
Lemma SFmul_real a b :
  valid_sf a -> valid_sf b -> finite_sf a = true -> finite_sf b = true ->
  let z := SF2R a * SF2R b in
  let r := SFmul 53 1024 a b in
  rounding_of (pow2 (-1074)) z r
  /\ (Rabs z < pow2 1023 -> finite_sf r = true).
Proof.
  intros Ha Hb Fa Fb z r. unfold z, r.
  pose proof (pow2_pos (-1074)) as Heta. pose proof (pow2_pos (-52)) as Hu.
  assert (forall s, rounding_of (pow2 (-1074)) 0 (S754_zero s)) as Hzero.
  { intros s. split; [exact I|]. split; [done|]. intros _. cbn [SF2R].
    rewrite Rminus_diag, Rabs_R0. split; [nra|]. split; lra. }
  destruct a as [sa|sa| |sa ma ea], b as [sb|sb| |sb mb eb];
    try discriminate; cbn [SFmul].
  - cbn [SF2R]. rewrite Rmult_0_l. by split.
  - cbn [SF2R]. rewrite Rmult_0_l. by split.
  - cbn [SF2R]. rewrite Rmult_0_r. by split.
  - cbn [valid_sf] in Ha, Hb.
    destruct Ha as (Ha1 & Ha2 & Ha3), Hb as (Hb1 & Hb2 & Hb3).
    set (x := IZR (Z.pos (ma * mb)) * pow2 (ea + eb)).
    assert (SF2R (S754_finite sa ma ea) * SF2R (S754_finite sb mb eb)
            = if xorb sa sb then - x else x) as Ez.
    { cbn [SF2R]. rewrite !SF2R_cond_Zopp. unfold x.
      rewrite Pos2Z.inj_mul, mult_IZR, pow2_add.
      destruct sa, sb; cbn [xorb]; ring. }
    assert (0 < x) as Hx.
    { unfold x. assert (0 < IZR (Z.pos (ma * mb))) by (apply IZR_lt; lia).
      pose proof (pow2_pos (ea + eb)). nra. }
    assert (Rabs (if xorb sa sb then - x else x) = x) as Eabs.
    { destruct (xorb sa sb); [rewrite Rabs_Ropp|]; apply Rabs_pos_eq; lra. }
    rewrite Ez, Eabs.
    apply (round_aux_rounding (xorb sa sb) (Z.pos (ma * mb)) (ea + eb)
             loc_Exact x); [lia| | |done|done|reflexivity].
    + pose proof (Zdigits2_mul (Z.pos ma) (Z.pos mb) ltac:(lia) ltac:(lia))
        as Hd.
      rewrite <- Pos2Z.inj_mul in Hd.
      destruct (Zdigits2_bounds (Z.pos ma) ltac:(lia)) as [_ Hda].
      destruct (Zdigits2_bounds (Z.pos mb) ltac:(lia)) as [_ Hdb].
      unfold fexp64.
      destruct Ha3 as [Ha3|Ha3]; [apply Zdigits2_ge_53 in Ha3; lia|].
      destruct Hb3 as [Hb3|Hb3]; [apply Zdigits2_ge_53 in Hb3; lia|].
      lia.
    + unfold x. pose proof (pow2_pos (ea + eb)). split; [lra|nra].
Qed.

Lemma new_location_exact n k : new_location n k = loc_Exact <-> k = 0%Z.
Proof.
  unfold new_location, new_location_even, new_location_odd.
  destruct (Z.even n), (Z.eqb_spec k 0); split; (done || discriminate).
Qed.

(** The quotient of two numbers. *)
Lemma SFdiv_real a sb mb eb :
  valid_sf a -> finite_sf a = true -> bounded64 mb eb ->
  let b := S754_finite sb mb eb in
  let z := SF2R a / SF2R b in
  let r := SFdiv 53 1024 a b in
  rounding_of (pow2 (-1074)) z r
  /\ (Rabs z < pow2 1023 -> finite_sf r = true).
Proof.
  intros Ha Fa Hb b z r. unfold z, r, b.
  pose proof (pow2_pos (-1074)) as Heta. pose proof (pow2_pos (-52)) as Hu.
  destruct a as [sa|sa| |sa ma ea]; try discriminate; cbn [SFdiv].
  { cbn [SF2R]. unfold Rdiv. rewrite Rmult_0_l. split; [|done].
    split; [exact I|]. split; [done|]. intros _. cbn [SF2R].
    rewrite Rminus_diag, Rabs_R0. split; [nra|]. split; lra. }
  cbn [valid_sf] in Ha.
  destruct Ha as (Ha1 & Ha2 & Ha3), Hb as (Hb1 & Hb2 & Hb3).
  unfold SFdiv_core_binary. rewrite fexp_fexp64.
  set (d1 := Zdigits2 (Z.pos ma)). set (d2 := Zdigits2 (Z.pos mb)).
  destruct (Zdigits2_bounds (Z.pos ma) ltac:(lia)) as [[Hl1 Hh1] Hd1].
  destruct (Zdigits2_bounds (Z.pos mb) ltac:(lia)) as [[Hl2 Hh2] Hd2].
  pose proof (Zdigits2_le_53 (Z.pos ma) ltac:(lia)) as Hd1'.
  pose proof (Zdigits2_le_53 (Z.pos mb) ltac:(lia)) as Hd2'.
  fold d1 in Hl1, Hh1, Hd1, Hd1'. fold d2 in Hl2, Hh2, Hd2, Hd2'.
  set (e' := Z.min (fexp64 (d1 + ea - (d2 + eb))) (ea - eb)).
  set (sh := (ea - eb - e')%Z).
  assert (0 <= sh)%Z as Hsh by (unfold sh, e'; lia).
  set (m' := match sh with
             | 0%Z => Z.pos ma
             | Z.pos _ => Z.shiftl (Z.pos ma) sh
             | Z.neg _ => 0%Z
             end).
  assert (m' = Z.pos ma * 2 ^ sh)%Z as Em'.
  { unfold m'. destruct sh as [|p|p] eqn:E; [lia| |lia].
    apply Z.shiftl_mul_pow2. lia. }
  clearbody m'.
  assert (0 < 2 ^ sh)%Z as Hpsh by (apply Z.pow_pos_nonneg; lia).
  destruct (Z.div_eucl m' (Z.pos mb)) as [q rem] eqn:Ediv.
  assert (m' = Z.pos mb * q + rem /\ 0 <= rem < Z.pos mb)%Z as [Eq Hrem].
  { pose proof (Z_div_mod m' (Z.pos mb) ltac:(lia)) as H.
    by rewrite Ediv in H. }
  assert (0 <= q)%Z as Hq by nia.
  set (x := IZR m' / IZR (Z.pos mb) * pow2 e').
  assert (0 < IZR (Z.pos mb)) as Hmb by (apply IZR_lt; lia).
  assert (0 < IZR (Z.pos ma)) as Hma by (apply IZR_lt; lia).
  pose proof (pow2_pos e') as Hpe'. pose proof (pow2_pos eb) as Hpeb.
  pose proof (pow2_pos ea) as Hpea.
  assert (SF2R (S754_finite sa ma ea) / SF2R (S754_finite sb mb eb)
          = if xorb sa sb then - x else x) as Ez.
  { cbn [SF2R]. rewrite !SF2R_cond_Zopp. unfold x.
    rewrite Em', mult_IZR, <- pow2_IZR by lia.
    assert (pow2 ea = pow2 sh * pow2 e' * pow2 eb) as ->.
    { rewrite <- !pow2_add. f_equal. unfold sh. lia. }
    pose proof (pow2_pos sh).
    destruct sa, sb; cbn [xorb]; field; lra. }
  assert (IZR q * pow2 e' <= x < (IZR q + 1) * pow2 e') as Hx.
  { unfold x.
    assert (IZR q <= IZR m' / IZR (Z.pos mb) < IZR q + 1) as [H1 H2].
    { assert (IZR m' = IZR (Z.pos mb) * IZR q + IZR rem) as E
        by (rewrite Eq at 1; by rewrite plus_IZR, mult_IZR).
      assert (0 <= IZR rem < IZR (Z.pos mb)) as [Hr1 Hr2]
        by (split; [apply IZR_le|apply IZR_lt]; lia).
      rewrite E. split.
      - apply Rmult_le_reg_r with (IZR (Z.pos mb)); [lra|].
        field_simplify; lra.
      - apply Rmult_lt_reg_r with (IZR (Z.pos mb)); [lra|].
        field_simplify; lra. }
    split; nra. }
  assert (0 <= x) as Hx0.
  { assert (0 <= IZR q) by (apply IZR_le; lia). nra. }
  assert (Rabs (if xorb sa sb then - x else x) = x) as Eabs.
  { destruct (xorb sa sb); [rewrite Rabs_Ropp|]; by apply Rabs_pos_eq. }
  rewrite Ez, Eabs.
  assert (rem = 0%Z -> x = IZR q * pow2 e') as Hexact.
  { intros E0. unfold x. rewrite Eq, E0, Z.add_0_r, mult_IZR.
    field. lra. }
  apply (round_aux_rounding (xorb sa sb) q e' (new_location (Z.pos mb) rem) x);
    [exact Hq| |exact Hx| | |reflexivity].
  - (* the quotient has 53 bits or the least exponent *)
    destruct (Z.eq_dec sh 0) as [E0|E0].
    { unfold sh, e', fexp64 in *. lia. }
    destruct (Z.eq_dec e' (-1074)) as [E1|E1].
    { unfold fexp64. lia. }
    assert (e' = d1 + ea - (d2 + eb) - 53)%Z as Ee'
      by (unfold sh, e', fexp64 in *; lia).
    assert (sh = 53 - d1 + d2)%Z as Esh by (unfold sh; lia).
    assert (2 ^ 52 <= q)%Z as Hq52.
    { assert (2 ^ 52 * 2 ^ d2 <= m')%Z as Hm'.
      { rewrite Em'.
        replace (2 ^ 52 * 2 ^ d2)%Z with (2 ^ (d1 - 1) * 2 ^ sh)%Z.
        - apply Z.mul_le_mono_nonneg_r; lia.
        - rewrite <- !Z.pow_add_r by lia. f_equal. lia. }
      destruct (Z.le_gt_cases (2 ^ 52) q) as [|Hlt]; [done|exfalso].
      nia. }
    apply Zdigits2_ge_53 in Hq52. unfold fexp64. lia.
  - intros Hloc. apply Hexact. by apply new_location_exact in Hloc.
  - intros E0. apply new_location_exact.
    destruct (Z.eq_dec rem 0) as [|Hne]; [done|exfalso].
    assert (0 < x); [|lra].
    unfold x. assert (0 < IZR m').
    { apply IZR_lt. lia. }
    apply Rmult_lt_0_compat; [|done].
    apply Rdiv_lt_0_compat; lra.
Qed.

End rounding_reals.

(** ** The bits of a value of binary64 *)

Lemma to_sf_valid x : valid_sf (f64.to_sf x).
Proof.
  unfold f64.to_sf.
  change 0xFFFFFFFFFFFFF with (Z.ones 52).
  change (Z.land (Z.shiftr x 52) 0x7FF)
    with (Z.land (Z.shiftr x 52) (Z.ones 11)).
  rewrite !Z.land_ones by lia.
  pose proof (Z.mod_pos_bound (Z.shiftr x 52) (2 ^ 11) ltac:(lia)) as He.
  pose proof (Z.mod_pos_bound x (2 ^ 52) ltac:(lia)) as Hm.
  set (e := Z.shiftr x 52 mod 2 ^ 11) in *. set (m := x mod 2 ^ 52) in *.
  clearbody e m. change (2 ^ 11) with 2048 in He.
  destruct (Z.eqb_spec e 0) as [E0|E0].
  - destruct m as [|p|p]; cbn [valid_sf]; try exact I.
    unfold bounded64. lia.
  - destruct (Z.eqb_spec e 2047) as [E1|E1].
    { by destruct (m =? 0). }
    destruct (m + 2 ^ 52) as [|p|p] eqn:Em; cbn [valid_sf]; try exact I.
    unfold bounded64. lia.
Qed.

(** The three fields of a pattern put together from them. *)
Lemma fields_of_bits s E M :
  0 <= E < 2048 -> 0 <= M < 2 ^ 52 ->
  let b := f64.sign_bit s + E * 2 ^ 52 + M in
  Z.testbit b 63 = s
  /\ Z.land (Z.shiftr b 52) 0x7FF = E
  /\ Z.land b 0xFFFFFFFFFFFFF = M.
Proof.
  intros HE HM b.
  change 0xFFFFFFFFFFFFF with (Z.ones 52). change 0x7FF with (Z.ones 11).
  rewrite !Z.land_ones, Z.shiftr_div_pow2, Z.testbit_odd, Z.shiftr_div_pow2
    by lia.
  set (sb := if s then 1 else 0).
  assert (b = sb * 2 ^ 63 + E * 2 ^ 52 + M) as Eb
    by (unfold b, f64.sign_bit, sb; destruct s; lia).
  assert (0 <= sb <= 1) as Hsb by (unfold sb; destruct s; lia).
  assert (Z.odd sb = s) as Hodd by (unfold sb; destruct s; reflexivity).
  clearbody b sb.
  assert (b / 2 ^ 63 = sb) as E63.
  { symmetry. apply Z.div_unique with (E * 2 ^ 52 + M); lia. }
  assert (b / 2 ^ 52 = sb * 2 ^ 11 + E) as E52.
  { symmetry. apply Z.div_unique with M; lia. }
  assert (b mod 2 ^ 52 = M) as Em.
  { symmetry. apply Z.mod_unique with (sb * 2 ^ 11 + E); lia. }
  rewrite E63, E52, Em. split; [|split; [|reflexivity]].
  - exact Hodd.
  - symmetry. apply Z.mod_unique with sb; lia.
Qed.

(** A value of binary64 is the value of its bits. *)
Lemma to_sf_of_sf f : valid_sf f -> f64.to_sf (f64.of_sf f) = f.
Proof.
  destruct f as [s|s| |s m e]; intros Hv.
  - by destruct s.
  - by destruct s.
  - reflexivity.
  - cbn [valid_sf] in Hv. destruct Hv as (Hm & He & Hn).
    unfold f64.of_sf.
    destruct (Z.leb_spec (2 ^ 52) (Z.pos m)) as [Hle|Hlt].
    + destruct (fields_of_bits s (e + 1075) (Z.pos m - 2 ^ 52))
        as (H1 & H2 & H3); [lia..|].
      cbv zeta in H1, H2, H3. unfold f64.to_sf. rewrite H1, H2, H3.
      destruct (Z.eqb_spec (e + 1075) 0); [lia|].
      destruct (Z.eqb_spec (e + 1075) 2047); [lia|].
      replace (Z.pos m - 2 ^ 52 + 2 ^ 52) with (Z.pos m) by lia.
      f_equal. lia.
    + destruct (fields_of_bits s 0 (Z.pos m)) as (H1 & H2 & H3); [lia..|].
      cbv zeta in H1, H2, H3.
      replace (f64.sign_bit s + 0 * 2 ^ 52 + Z.pos m)
        with (f64.sign_bit s + Z.pos m) in H1, H2, H3 by lia.
      unfold f64.to_sf. rewrite H1, H2, H3.
      cbn [Z.eqb]. f_equal. lia.
Qed.

Lemma is_finite_finite_sf x : is_finite x = finite_sf (f64.to_sf x).
Proof. reflexivity. Qed.

(** ** The distance of a coordinate that was stored and read back *)

Section quantization_error.

Import Rdefinitions Raxioms RIneq Rbasic_fun Rfunctions Lra.
Local Open Scope R_scope.

Lemma SFsub_valid a b :
  valid_sf a -> valid_sf b ->
  valid_sf (SFsub 53 1024 a b)
  /\ (finite_sf (SFsub 53 1024 a b) = true ->
      finite_sf a = true /\ finite_sf b = true).
Proof.
  intros Ha Hb.
  destruct (finite_sf a) eqn:Fa, (finite_sf b) eqn:Fb.
  - split; [|done]. by destruct (SFsub_real a b Ha Hb Fa Fb) as [(? & _) _].
  - destruct a as [[]|[]| |[] ? ?], b as [[]|[]| |[] ? ?];
      try discriminate; by split.
  - destruct a as [[]|[]| |[] ? ?], b as [[]|[]| |[] ? ?];
      try discriminate; by split.
  - destruct a as [[]|[]| |[] ? ?], b as [[]|[]| |[] ? ?];
      try discriminate; by split.
Qed.

Lemma SFdiv_valid a sb mb eb :
  valid_sf a -> bounded64 mb eb ->
  valid_sf (SFdiv 53 1024 a (S754_finite sb mb eb))
  /\ (finite_sf (SFdiv 53 1024 a (S754_finite sb mb eb)) = true ->
      finite_sf a = true).
Proof.
  intros Ha Hb.
  destruct (finite_sf a) eqn:Fa.
  - split; [|done].
    by destruct (SFdiv_real a sb mb eb Ha Fa Hb) as [(? & _) _].
  - destruct a as [[]|[]| |[] ? ?], sb; try discriminate; by split.
Qed.

(** What [rounding_of] says of a number that is not negative, and of
    any number. *)
Lemma rounding_of_nonneg eta z r :
  rounding_of eta z r -> finite_sf r = true -> 0 <= z ->
  0 <= SF2R r
  /\ - (pow2 (-52) * z + eta) <= SF2R r - z <= pow2 (-52) * z + eta.
Proof.
  intros (_ & _ & H) Hf Hz. destruct (H Hf) as (Habs & Hpos & _).
  rewrite (Rabs_pos_eq z Hz) in Habs.
  split; [by apply Hpos|]. by apply Rabs_le_inv.
Qed.

Lemma rounding_of_bound eta z r :
  rounding_of eta z r -> finite_sf r = true ->
  - (pow2 (-52) * Rabs z + eta) <= SF2R r - z <= pow2 (-52) * Rabs z + eta.
Proof.
  intros (_ & _ & H) Hf. destruct (H Hf) as (Habs & _).
  by apply Rabs_le_inv.
Qed.

(** The integer part of a value that is not negative. *)
Lemma trunc_real f z :
  f64.trunc f = Some z -> 0 <= SF2R f ->
  (0 <= z)%Z /\ IZR z <= SF2R f < IZR z + 1.
Proof.
  intros Htr Hpos. pose proof (trunc_toward_zero f z Htr) as H.
  destruct f as [s|s| |s m e]; cbn [integer_part_toward_zero SF2R] in *;
    try contradiction.
  - subst z. split; [lia|]. lra.
  - rewrite SF2R_cond_Zopp in *.
    assert (0 < IZR (Z.pos m)) as Hm by (apply IZR_lt; lia).
    pose proof (pow2_pos e) as He.
    assert (0 < IZR (Z.pos m) * pow2 e) as Hx
      by (by apply Rmult_lt_0_compat).
    destruct s; [lra|]. destruct H as [Hz H]. cbn [cond_Zopp] in Hz.
    assert (0 <= z)%Z as Hz0 by lia.
    rewrite Z.abs_eq in H by lia. split; [exact Hz0|].
    destruct (Z.leb_spec 0 e) as [He0|He0].
    + rewrite H, mult_IZR, <- pow2_IZR by lia. lra.
    + assert (pow2 e * IZR (2 ^ (- e)) = 1) as Hinv.
      { rewrite <- pow2_IZR by lia. rewrite <- pow2_add.
        replace (e + - e)%Z with 0%Z by lia. reflexivity. }
      destruct H as [H1 H2].
      apply IZR_le in H1. apply IZR_lt in H2.
      rewrite mult_IZR in H1, H2. rewrite plus_IZR in H2.
      set (N := IZR (2 ^ (- e))) in *. set (P := pow2 e) in *.
      set (M := IZR (Z.pos m)) in *. set (zr := IZR z) in *.
      assert (0 < N) by nra.
      split.
      * apply Rmult_le_reg_r with N; [assumption|].
        replace (M * P * N) with (M * (P * N)) by ring. rewrite Hinv. lra.
      * apply Rmult_lt_reg_r with N; [assumption|].
        replace (M * P * N) with (M * (P * N)) by ring. rewrite Hinv. lra.
Qed.

(** [float64(n)] is [n] for an integer of at most 53 bits. *)
Lemma of_int_real z :
  (Z.abs z < 2 ^ 53)%Z ->
  let k := binary_normalize 53 1024 z 0 false in
  valid_sf k /\ finite_sf k = true /\ SF2R k = IZR z.
Proof.
  intros Hz k.
  destruct (binary_normalize_real z 0 ltac:(lia)) as ((Hv & _) & _ & Hex).
  destruct (Hex Hz ltac:(lia)) as [Hf He].
  split; [exact Hv|]. split; [exact Hf|].
  unfold k. rewrite He. change (pow2 0) with 1. ring.
Qed.

(** The order of the values and the order of the numbers. *)
Lemma bounded64_exp_lt m1 e1 m2 e2 :
  bounded64 m1 e1 -> bounded64 m2 e2 -> (e1 < e2)%Z ->
  IZR (Z.pos m1) * pow2 e1 < IZR (Z.pos m2) * pow2 e2.
Proof.
  intros (H1 & He1 & _) (_ & He2 & [H2|H2]) Hlt; [|lia].
  assert (IZR (Z.pos m1) < 2 * pow2 52) as Hm1.
  { rewrite (pow2_IZR 52) by lia. rewrite <- mult_IZR. apply IZR_lt. lia. }
  assert (pow2 52 <= IZR (Z.pos m2)) as Hm2.
  { rewrite (pow2_IZR 52) by lia. apply IZR_le. lia. }
  assert (2 * pow2 e1 <= pow2 e2) as He.
  { replace (2 * pow2 e1) with (pow2 (e1 + 1)).
    - apply pow2_le. lia.
    - rewrite pow2_add. change (pow2 1) with (2 * 1). ring. }
  pose proof (pow2_pos e1). pose proof (pow2_pos e2). pose proof (pow2_pos 52).
  apply Rlt_le_trans with (2 * pow2 52 * pow2 e1).
  - apply Rmult_lt_compat_r; assumption.
  - apply Rle_trans with (pow2 52 * pow2 e2).
    + replace (2 * pow2 52 * pow2 e1) with (pow2 52 * (2 * pow2 e1)) by ring.
      apply Rmult_le_compat_l; lra.
    + apply Rmult_le_compat_r; lra.
Qed.

Lemma cmp_finite_real m1 e1 m2 e2 :
  bounded64 m1 e1 -> bounded64 m2 e2 ->
  match cmp_finite m1 e1 m2 e2 with
  | Lt => IZR (Z.pos m1) * pow2 e1 < IZR (Z.pos m2) * pow2 e2
  | Eq => IZR (Z.pos m1) * pow2 e1 = IZR (Z.pos m2) * pow2 e2
  | Gt => IZR (Z.pos m2) * pow2 e2 < IZR (Z.pos m1) * pow2 e1
  end.
Proof.
  intros H1 H2. unfold cmp_finite.
  change (Pos.compare_cont Eq m1 m2) with (Pos.compare m1 m2).
  destruct (Z.compare_spec e1 e2) as [He|He|He].
  - subst e2. pose proof (pow2_pos e1).
    destruct (Pos.compare_spec m1 m2) as [Hm|Hm|Hm].
    + by subst.
    + apply Rmult_lt_compat_r; [assumption|]. apply IZR_lt. lia.
    + apply Rmult_lt_compat_r; [assumption|]. apply IZR_lt. lia.
  - by apply bounded64_exp_lt.
  - by apply bounded64_exp_lt.
Qed.

Lemma SFltb_false_real a b :
  valid_sf a -> valid_sf b -> finite_sf a = true -> finite_sf b = true ->
  SFltb a b = false -> SF2R b <= SF2R a.
Proof.
  intros Ha Hb Fa Fb H. unfold SFltb in H.
  destruct a as [sa|sa| |sa ma ea], b as [sb|sb| |sb mb eb];
    try discriminate; cbn [SF2R valid_sf] in *.
  - lra.
  - rewrite SF2R_cond_Zopp.
    assert (0 < IZR (Z.pos mb) * pow2 eb)
      by (apply Rmult_lt_0_compat; [apply IZR_lt; lia|apply pow2_pos]).
    destruct sb; [lra|discriminate].
  - rewrite SF2R_cond_Zopp.
    assert (0 < IZR (Z.pos ma) * pow2 ea)
      by (apply Rmult_lt_0_compat; [apply IZR_lt; lia|apply pow2_pos]).
    destruct sa; [discriminate|lra].
  - rewrite SFcompare_finite in H. rewrite !SF2R_cond_Zopp.
    assert (0 < IZR (Z.pos ma) * pow2 ea)
      by (apply Rmult_lt_0_compat; [apply IZR_lt; lia|apply pow2_pos]).
    assert (0 < IZR (Z.pos mb) * pow2 eb)
      by (apply Rmult_lt_0_compat; [apply IZR_lt; lia|apply pow2_pos]).
    pose proof (cmp_finite_real ma ea mb eb Ha Hb) as Hc.
    destruct sa, sb; try discriminate; try lra;
      destruct (cmp_finite ma ea mb eb); try discriminate; cbn in H; lra.
Qed.

(** The values from [2 ^ 1022] on are multiples of [2 ^ 970]. *)
Lemma large_value_grid f :
  valid_sf f -> pow2 1022 <= SF2R f ->
  exists k : Z, SF2R f = IZR k * pow2 970.
Proof.
  pose proof (pow2_pos 1022) as Hbig.
  destruct f as [s|s| |s m e]; cbn [valid_sf SF2R]; intros Hv Hge;
    try lra.
  destruct Hv as (Hm & He & _). rewrite SF2R_cond_Zopp in *.
  assert (0 < IZR (Z.pos m)) as Hm0 by (apply IZR_lt; lia).
  pose proof (pow2_pos e) as He0.
  assert (0 < IZR (Z.pos m) * pow2 e) by (by apply Rmult_lt_0_compat).
  destruct s; [lra|].
  destruct (Z_lt_le_dec e 970) as [Hlt|Hle].
  - exfalso.
    assert (IZR (Z.pos m) < pow2 53) as Hm1.
    { rewrite (pow2_IZR 53) by lia. apply IZR_lt. lia. }
    assert (pow2 e <= pow2 969) as He1 by (apply pow2_le; lia).
    assert (pow2 1022 = pow2 53 * pow2 969) as Heq
      by (rewrite <- pow2_add; reflexivity).
    pose proof (pow2_pos 969). pose proof (pow2_pos 53).
    assert (IZR (Z.pos m) * pow2 e < pow2 53 * pow2 969); [|lra].
    apply Rlt_le_trans with (pow2 53 * pow2 e).
    + by apply Rmult_lt_compat_r.
    + apply Rmult_le_compat_l; lra.
  - exists (Z.pos m * 2 ^ (e - 970))%Z.
    rewrite pow2_shift by lia. do 2 f_equal. lia.
Qed.

(** The constants of the bound. *)
Lemma pow2_m52 : pow2 (-52) = / 4503599627370496.
Proof.
  assert (pow2 (-52) * pow2 52 = 1) as H
    by (rewrite <- pow2_add; reflexivity).
  rewrite (pow2_IZR 52) in H by lia.
  change (2 ^ 52)%Z with 4503599627370496%Z in H.
  apply Rmult_eq_reg_r with 4503599627370496; [|lra].
  rewrite H. field.
Qed.

Lemma pow2_m49 : pow2 (-49) = / 562949953421312.
Proof.
  assert (pow2 (-49) * pow2 49 = 1) as H
    by (rewrite <- pow2_add; reflexivity).
  rewrite (pow2_IZR 49) in H by lia.
  change (2 ^ 49)%Z with 562949953421312%Z in H.
  apply Rmult_eq_reg_r with 562949953421312; [|lra].
  rewrite H. field.
Qed.

Lemma pow2_m1074_le : pow2 (-1074) <= / 4503599627370496.
Proof. rewrite <- pow2_m52. apply pow2_le. lia. Qed.

Lemma scale_sf :
  f64.to_sf las.scale = S754_finite false 4611686018427388 (-62).
Proof. reflexivity. Qed.

Lemma scale_bounded : bounded64 4611686018427388 (-62).
Proof. unfold bounded64. lia. Qed.

Lemma scale_real :
  SF2R (S754_finite false 4611686018427388 (-62))
  = 4611686018427388 / 4611686018427387904.
Proof.
  cbn [SF2R cond_Zopp].
  assert (pow2 (-62) * pow2 62 = 1) as H
    by (rewrite <- pow2_add; reflexivity).
  rewrite (pow2_IZR 62) in H by lia.
  change (2 ^ 62)%Z with 4611686018427387904%Z in H.
  apply Rmult_eq_reg_r with 4611686018427387904; [|lra].
  replace (4611686018427388 * pow2 (-62) * 4611686018427387904)
    with (4611686018427388 * (pow2 (-62) * 4611686018427387904)) by ring.
  rewrite H. field.
Qed.

Lemma max_float_ge : pow2 1022 + 8388608 <= max_float.
Proof.
  unfold max_float.
  assert (pow2 53 * pow2 971 = 4 * pow2 1022) as H1.
  { rewrite <- pow2_add. change (53 + 971)%Z with (2 + 1022)%Z.
    rewrite pow2_add. rewrite (pow2_IZR 2) by lia.
    change (2 ^ 2)%Z with 4%Z. reflexivity. }
  assert (pow2 971 <= pow2 1022) as H2 by (apply pow2_le; lia).
  assert (pow2 23 <= pow2 1022) as H3 by (apply pow2_le; lia).
  rewrite (pow2_IZR 23) in H3 by lia.
  change (2 ^ 23)%Z with 8388608%Z in H3.
  lra.
Qed.

End quantization_error.

Section reconstruction.

Import Rdefinitions Raxioms RIneq Rbasic_fun Rfunctions Lra.
Local Open Scope R_scope.

Lemma trunc_finite f z : f64.trunc f = Some z -> finite_sf f = true.
Proof. by destruct f. Qed.

Lemma SF2R_le_max f : valid_sf f -> Rabs (SF2R f) <= max_float.
Proof.
  assert (0 <= max_float) as H0.
  { pose proof max_float_ge. pose proof (pow2_pos 1022). lra. }
  destruct f as [s|s| |s m e]; cbn [valid_sf]; intros Hv;
    try (cbn [SF2R]; rewrite Rabs_R0; exact H0).
  by apply valid_finite_le.
Qed.

(** From a coordinate to its stored integer, in numbers: the difference
    [D] to the offset, its quotient [Q] by the scale, and the integer
    part [z] of the quotient. *)
Lemma stored_real v off :
  f64.ltb v off = false -> quotient_fits v off = true ->
  let V := real_value v in
  let O := real_value off in
  exists (z : Z) (D Q0 Q : R),
    stored v off = z
    /\ is_finite v = true /\ is_finite off = true
    /\ (0 <= z < 2 ^ 31)%Z
    /\ O <= V
    /\ 0 <= D
    /\ - (/ 4503599627370496 * (V - O)) <= D - (V - O)
       <= / 4503599627370496 * (V - O)
    /\ D = Q0 * (4611686018427388 / 4611686018427387904)
    /\ 0 <= Q
    /\ - (/ 4503599627370496 * Q0 + pow2 (-1074)) <= Q - Q0
       <= / 4503599627370496 * Q0 + pow2 (-1074)
    /\ IZR z <= Q < IZR z + 1.
Proof.
  intros Hlt Hfit V O. unfold quotient_fits in Hfit.
  destruct (f64.trunc _) as [z|] eqn:Htr; [|discriminate].
  assert (stored v off = z) as Hst
    by (unfold stored, f64.to_int32; by rewrite Htr, Hfit).
  unfold f64.div, f64.sub, f64.prec, f64.emax in Htr.
  pose proof (to_sf_valid v) as Hva. pose proof (to_sf_valid off) as Hvb.
  destruct (SFsub_valid _ _ Hva Hvb) as [Hvd Hfd].
  rewrite (to_sf_of_sf _ Hvd), scale_sf in Htr.
  destruct (SFdiv_valid _ false _ _ Hvd scale_bounded) as [Hvq Hfq].
  rewrite (to_sf_of_sf _ Hvq) in Htr.
  pose proof (trunc_finite _ _ Htr) as Fq.
  pose proof (Hfq Fq) as Fd. destruct (Hfd Fd) as [Fa Fb].
  pose proof (SFltb_false_real _ _ Hva Hvb Fa Fb Hlt) as HOV.
  fold (real_value v) in HOV. fold (real_value off) in HOV.
  fold V in HOV. fold O in HOV.
  destruct (SFsub_real _ _ Hva Hvb Fa Fb) as [Hrd _]. cbv zeta in Hrd.
  fold (real_value v) in Hrd. fold (real_value off) in Hrd.
  fold V in Hrd. fold O in Hrd.
  destruct (rounding_of_nonneg _ _ _ Hrd Fd ltac:(lra)) as [HD0 HD].
  destruct (SFdiv_real _ false _ _ Hvd Fd scale_bounded) as [Hrq _].
  cbv zeta in Hrq. rewrite scale_real in Hrq.
  set (d := SFsub 53 1024 (f64.to_sf v) (f64.to_sf off)) in *.
  set (q := SFdiv 53 1024 d _) in *.
  set (D := SF2R d) in *.
  assert (0 <= D / (4611686018427388 / 4611686018427387904)) as HQ00.
  { apply Rmult_le_pos; [exact HD0|]. left. apply Rinv_0_lt_compat. lra. }
  destruct (rounding_of_nonneg _ _ _ Hrq Fq HQ00) as [HQ0 HQ].
  destruct (trunc_real _ _ Htr HQ0) as [Hz0 Hzq].
  exists z, D, (D / (4611686018427388 / 4611686018427387904)), (SF2R q).
  rewrite pow2_m52 in HD, HQ. rewrite Rplus_0_r in HD.
  unfold f64.in_int32 in Hfit. apply andb_true_iff in Hfit as [_ Hz1].
  apply Z.ltb_lt in Hz1.
  repeat split; try assumption; try lra; try lia.
Qed.

(** A coordinate that was stored and read back is a number, and within
    one scale unit and a rounding error of the coordinate. *)
Lemma reconstructed_close v off :
  f64.ltb v off = false -> quotient_fits v off = true ->
  is_finite v = true
  /\ is_finite (reconstructed v off) = true
  /\ Rabs (real_value (reconstructed v off) - real_value v)
     <= 1 / 1000
        + pow2 (-49) * (Rabs (real_value v) + Rabs (real_value off) + 1).
Proof.
  intros Hlt Hfit.
  destruct (stored_real v off Hlt Hfit)
    as (z & D & Q0 & Q & Hst & Fv & Fo & Hz & HOV & HD0 & HD & EQ0 & HQ0 & HQ
        & Hzq).
  split; [exact Fv|].
  unfold reconstructed. rewrite Hst. clear Hst Hlt Hfit.
  pose proof (to_sf_valid v) as Hva. pose proof (to_sf_valid off) as Hvb.
  pose proof (eq_refl : real_value v = SF2R (f64.to_sf v)) as EV.
  pose proof (eq_refl : real_value off = SF2R (f64.to_sf off)) as EO.
  set (V := real_value v) in *. set (O := real_value off) in *.
  clearbody V O.
  pose proof pow2_m1074_le as Heta. pose proof (pow2_pos (-1074)) as Heta0.
  rewrite pow2_m49.
  pose proof (Rabs_pos V) as HaV0. pose proof (Rle_abs V) as HaV1.
  pose proof (Rle_abs (- V)) as HaV2. rewrite Rabs_Ropp in HaV2.
  pose proof (Rabs_pos O) as HaO0. pose proof (Rle_abs O) as HaO1.
  pose proof (Rle_abs (- O)) as HaO2. rewrite Rabs_Ropp in HaO2.
  assert (IZR z <= 2147483647) as Hzmax by (apply IZR_le; lia).
  assert (0 <= IZR z) as Hzmin by (apply IZR_le; lia).
  assert (V - O < 4194304) as HA by lra.
  destruct (Rle_lt_dec O (pow2 1022)) as [Hsmall|Hbig].
  - (* the offset leaves room for the sum *)
    destruct (of_int_real z ltac:(lia)) as (Hvk & Fk & Ek).
    unfold f64.add, f64.mul, f64.of_int, f64.prec, f64.emax.
    rewrite (to_sf_of_sf _ Hvk), scale_sf.
    destruct (SFmul_real _ (S754_finite false 4611686018427388 (-62))
                Hvk scale_bounded Fk eq_refl) as [Hrp Hfp].
    cbv zeta in Hrp, Hfp. rewrite scale_real, Ek in Hrp, Hfp.
    assert (0 <= IZR z * (4611686018427388 / 4611686018427387904)) as HP00
      by lra.
    assert (finite_sf (SFmul 53 1024 (binary_normalize 53 1024 z 0 false)
              (S754_finite false 4611686018427388 (-62))) = true) as Fp.
    { apply Hfp. rewrite (Rabs_pos_eq _ HP00).
      apply Rlt_le_trans with (pow2 31); [|apply pow2_le; lia].
      rewrite (pow2_IZR 31) by lia. change (2 ^ 31)%Z with 2147483648%Z.
      lra. }
    destruct (rounding_of_nonneg _ _ _ Hrp Fp HP00) as [HP0 HP].
    pose proof (proj1 Hrp) as Hvp.
    rewrite (to_sf_of_sf _ Hvp).
    set (p := SFmul 53 1024 _ _) in *. set (P := SF2R p) in *.
    rewrite pow2_m52 in HP.
    destruct (SFadd_real _ _ Hvp Hvb Fp Fo) as [Hrx Hfx].
    cbv zeta in Hrx, Hfx. fold P in Hrx, Hfx. rewrite <- EO in Hrx, Hfx.
    pose proof (SF2R_le_max _ Hvb) as HOmax. rewrite <- EO in HOmax.
    apply Rabs_le_inv in HOmax.
    pose proof max_float_ge as Hmax.
    assert (finite_sf (SFadd 53 1024 p (f64.to_sf off)) = true) as Fx.
    { apply Hfx. apply Rabs_le. lra. }
    pose proof (rounding_of_bound _ _ _ Hrx Fx) as HX.
    pose proof (proj1 Hrx) as Hvx.
    rewrite is_finite_finite_sf. unfold real_value at 1.
    rewrite (to_sf_of_sf _ Hvx).
    split; [exact Fx|].
    set (X := SF2R (SFadd 53 1024 p (f64.to_sf off))) in *. clearbody X.
    rewrite pow2_m52, Rplus_0_r in HX.
    assert (Rabs (P + O) <= P + Rabs O) as HPO.
    { eapply Rle_trans; [apply Rabs_triang|].
      rewrite (Rabs_pos_eq P HP0). lra. }
    clearbody P. apply Rabs_le. lra.
  - (* a large offset: the coordinate is the offset *)
    assert (0 < pow2 1022) as Hpos by apply pow2_pos.
    assert (pow2 1022 <= SF2R (f64.to_sf off)) as HbO by (rewrite <- EO; lra).
    assert (pow2 1022 <= SF2R (f64.to_sf v)) as HbV by (rewrite <- EV; lra).
    destruct (large_value_grid _ Hvb HbO) as [kO HkO].
    destruct (large_value_grid _ Hva HbV) as [kV HkV].
    rewrite <- EO in HkO. rewrite <- EV in HkV.
    assert (4194304 <= pow2 970) as Hg.
    { apply Rle_trans with (pow2 22); [|apply pow2_le; lia].
      rewrite (pow2_IZR 22) by lia. change (2 ^ 22)%Z with 4194304%Z. lra. }
    assert (V = O) as HVO.
    { destruct (Z_lt_le_dec kO kV) as [Hk|Hk].
      - exfalso. assert (IZR kO + 1 <= IZR kV) as Hk1
          by (rewrite <- plus_IZR; apply IZR_le; lia).
        assert (pow2 970 <= V - O); [|lra].
        rewrite HkV, HkO.
        replace (IZR kV * pow2 970 - IZR kO * pow2 970)
          with ((IZR kV - IZR kO) * pow2 970) by ring.
        rewrite <- (Rmult_1_l (pow2 970)) at 1.
        apply Rmult_le_compat_r; lra.
      - apply IZR_le in Hk.
        assert (V <= O); [|lra].
        rewrite HkV, HkO. apply Rmult_le_compat_r; lra. }
    assert (z = 0%Z) as ->.
    { assert (IZR z < 1) as Hz1 by lra. apply lt_IZR in Hz1. lia. }
    assert (f64.mul (f64.of_int 0) las.scale = 0%Z) as -> by reflexivity.
    unfold f64.add, f64.prec, f64.emax.
    change (f64.to_sf 0%Z) with (S754_zero false).
    destruct (f64.to_sf off) as [sb|sb| |sb mb eb] eqn:Eb;
      cbn [SF2R] in HbO; try lra.
    change (SFadd 53 1024 (S754_zero false) (S754_finite sb mb eb))
      with (S754_finite sb mb eb).
    rewrite is_finite_finite_sf. unfold real_value at 1.
    rewrite (to_sf_of_sf _ Hvb).
    split; [reflexivity|].
    rewrite <- EO, HVO.
    replace (O - O) with 0 by ring. rewrite Rabs_R0. lra.
Qed.

End reconstruction.

Section quotient_range.

Import Rdefinitions Raxioms RIneq Rbasic_fun Rfunctions Lra.
Local Open Scope R_scope.

Lemma finite_trunc f : finite_sf f = true -> exists z, f64.trunc f = Some z.
Proof. destruct f; try discriminate; intros _; eexists; reflexivity. Qed.

(** A coordinate within 2147483 units of the offset has a quotient that
    fits. *)
Lemma quotient_fits_near_offset v off :
  is_finite v = true -> is_finite off = true ->
  f64.ltb v off = false ->
  real_value v - real_value off <= 2147483 ->
  quotient_fits v off = true.
Proof.
  intros Fa Fb Hlt Hnear. rewrite is_finite_finite_sf in Fa, Fb.
  pose proof (to_sf_valid v) as Hva. pose proof (to_sf_valid off) as Hvb.
  pose proof (SFltb_false_real _ _ Hva Hvb Fa Fb Hlt) as HOV.
  unfold real_value in Hnear.
  destruct (SFsub_real _ _ Hva Hvb Fa Fb) as [Hrd Hfd].
  cbv zeta in Hrd, Hfd.
  pose proof max_float_ge as Hmax. pose proof (pow2_pos 1022) as Hpos.
  assert (finite_sf (SFsub 53 1024 (f64.to_sf v) (f64.to_sf off)) = true)
    as Fd by (apply Hfd, Rabs_le; lra).
  destruct (rounding_of_nonneg _ _ _ Hrd Fd ltac:(lra)) as [HD0 HD].
  pose proof (proj1 Hrd) as Hvd.
  destruct (SFdiv_real _ false _ _ Hvd Fd scale_bounded) as [Hrq Hfq].
  cbv zeta in Hrq, Hfq. rewrite scale_real in Hrq, Hfq.
  rewrite pow2_m52, Rplus_0_r in HD.
  set (A := SF2R (f64.to_sf v) - SF2R (f64.to_sf off)) in *.
  set (d := SFsub 53 1024 (f64.to_sf v) (f64.to_sf off)) in *.
  set (D := SF2R d) in *.
  set (Q0 := D / (4611686018427388 / 4611686018427387904)) in *.
  assert (D = Q0 * (4611686018427388 / 4611686018427387904)) as EQ0
    by (unfold Q0; field).
  assert (0 <= Q0) as HQ00.
  { apply Rmult_le_pos; [exact HD0|]. left. apply Rinv_0_lt_compat. lra. }
  assert (Q0 <= 2147483100) as HQ0max by (clearbody Q0 D A; lra).
  assert (finite_sf (SFdiv 53 1024 d
            (S754_finite false 4611686018427388 (-62))) = true) as Fq.
  { apply Hfq. rewrite (Rabs_pos_eq _ HQ00).
    apply Rle_lt_trans with (pow2 32); [|apply pow2_lt; lia].
    rewrite (pow2_IZR 32) by lia. change (2 ^ 32)%Z with 4294967296%Z.
    lra. }
  destruct (rounding_of_nonneg _ _ _ Hrq Fq HQ00) as [HQ0 HQ].
  pose proof (proj1 Hrq) as Hvq.
  destruct (finite_trunc _ Fq) as [z Htr].
  destruct (trunc_real _ _ Htr HQ0) as [Hz0 [Hzq _]].
  rewrite pow2_m52 in HQ.
  pose proof pow2_m1074_le as Heta. pose proof (pow2_pos (-1074)) as Heta0.
  assert (IZR z < 2147483648) as Hz1 by (clearbody Q0 D A; lra).
  apply lt_IZR in Hz1.
  unfold quotient_fits, f64.div, f64.sub, f64.prec, f64.emax.
  fold d. rewrite (to_sf_of_sf _ Hvd), scale_sf, (to_sf_of_sf _ Hvq), Htr.
  unfold f64.in_int32. apply andb_true_iff. split.
  - apply Z.leb_le. lia.
  - apply Z.ltb_lt. lia.
Qed.

End quotient_range.

(** ** Encoding, then decoding: how far a coordinate moves *)

Section round_trip.

Import Rdefinitions Raxioms RIneq Rbasic_fun Rfunctions.
Local Open Scope R_scope.

Lemma coord_requantize a w p :
  coord a (requantize w p) = reconstructed (coord a p) (axis_offset a w).
Proof. by destruct a. Qed.

(** C1, with the range and the rounding error it needs. For one or more
    points, fewer than [2 ^ 32], encoding and then decoding yields as
    many points in the same order, each the image of its original under
    [requantize]: intensity, R, G, B, classification and the bits of the
    timestamp are those of the original. Take an axis, the coordinate
    [v] of a point on it and the [offset] of the axis, which is its
    smallest coordinate. Where the scaled difference of [v] and
    [offset] has an integer part that fits a signed 32-bit integer, [v]
    and the decoded coordinate are numbers and, as real numbers, differ
    by at most [0.001 + 2 ^ -49 * (|v| + |offset| + 1)]. The integer
    part fits whenever [v] and [offset] are numbers and [v] is at most
    2147483 above [offset]. *)
Theorem roundtrip_within_quantization_step (pts : list las.Point)
    (filename : string) (now : Time) (fs : gmap string (list byte)) :
  pts <> [] -> Forall wf_Point pts -> (Z.of_nat (length pts) < 2 ^ 32)%Z ->
  exists decoded,
    encode_decode pts filename now fs = Ok decoded
    /\ decoded = map (requantize (writer_of pts)) pts
    /\ length decoded = length pts
    /\ forall (i : nat) (p : las.Point), pts !! i = Some p ->
       exists q,
         decoded !! i = Some q
         /\ las.Intensity q = las.Intensity p
         /\ las.R q = las.R p /\ las.G q = las.G p /\ las.B q = las.B p
         /\ las.Classification q = las.Classification p
         /\ las.GPSTime q = las.GPSTime p
         /\ forall a : Axis,
              (is_finite (coord a p) = true ->
               is_finite (axis_offset a (writer_of pts)) = true ->
               real_value (coord a p)
               - real_value (axis_offset a (writer_of pts)) <= 2147483 ->
               quotient_fits (coord a p) (axis_offset a (writer_of pts))
               = true)
              /\ (quotient_fits (coord a p) (axis_offset a (writer_of pts))
                  = true ->
                  is_finite (coord a p) = true
                  /\ is_finite (coord a q) = true
                  /\ Rabs (real_value (coord a q) - real_value (coord a p))
                     <= 1 / 1000
                        + pow2 (-49)
                          * (Rabs (real_value (coord a p))
                             + Rabs (real_value
                                       (axis_offset a (writer_of pts)))
                             + 1)).
Proof.
  intros Hne Hwf Hlen.
  exists (map (requantize (writer_of pts)) pts).
  split; [by apply encode_decode_map_requantize|].
  split; [reflexivity|].
  split; [apply length_map|].
  intros i p Hi. exists (requantize (writer_of pts) p).
  split; [by rewrite list_lookup_fmap, Hi|].
  do 6 (split; [reflexivity|]).
  intros a.
  assert (f64.ltb (coord a p) (axis_offset a (writer_of pts)) = false)
    as Hlt.
  { apply axis_offset_below. by apply list_elem_of_lookup_2 with i. }
  split.
  - intros Fv Fo Hnear. by apply quotient_fits_near_offset.
  - intros Hfit. rewrite coord_requantize.
    by apply reconstructed_close.
Qed.

Lemma roundtrip_within_quantization_step_witness :
  quotient_fits f_65536_003 (axis_offset AxisX (writer_of near_points))
  = true
  /\ exists decoded,
    encode_decode near_points "near.las" some_day ∅ = Ok decoded
    /\ decoded = map (requantize (writer_of near_points)) near_points
    /\ length decoded = length near_points
    /\ forall (i : nat) (p : las.Point), near_points !! i = Some p ->
       exists q,
         decoded !! i = Some q
         /\ las.Intensity q = las.Intensity p
         /\ las.R q = las.R p /\ las.G q = las.G p /\ las.B q = las.B p
         /\ las.Classification q = las.Classification p
         /\ las.GPSTime q = las.GPSTime p
         /\ forall a : Axis,
              (is_finite (coord a p) = true ->
               is_finite (axis_offset a (writer_of near_points)) = true ->
               real_value (coord a p)
               - real_value (axis_offset a (writer_of near_points))
               <= 2147483 ->
               quotient_fits (coord a p)
                 (axis_offset a (writer_of near_points)) = true)
              /\ (quotient_fits (coord a p)
                    (axis_offset a (writer_of near_points)) = true ->
                  is_finite (coord a p) = true
                  /\ is_finite (coord a q) = true
                  /\ Rabs (real_value (coord a q) - real_value (coord a p))
                     <= 1 / 1000
                        + pow2 (-49)
                          * (Rabs (real_value (coord a p))
                             + Rabs (real_value
                                       (axis_offset a
                                          (writer_of near_points)))
                             + 1)).
Proof.
  split; [reflexivity|].
  apply (roundtrip_within_quantization_step near_points "near.las"
           some_day ∅).
  - discriminate.
  - wf_points.
  - reflexivity.
Defined.

End round_trip.

(** ** The decoder, field by field *)

Lemma chunks_lookup {A} len n (l : list A) : forall i,
  (i < n)%nat -> chunks len n l !! i = Some (take len (drop (len * i) l)).
Proof.
  revert l. induction n as [|n IH]; intros l i Hi; [lia|].
  cbn [chunks]. destruct i as [|i].
  - by rewrite Nat.mul_0_r, drop_0.
  - cbn [lookup list_lookup]. rewrite IH by lia. rewrite drop_drop.
    do 3 f_equal. lia.
Qed.

Lemma slice_take_drop {A} lo hi len k (l : list A) :
  (hi <= len)%nat ->
  slice lo hi (take len (drop k l)) = slice (k + lo) (k + hi) l.
Proof.
  intros Hhi. apply list_eq. intros j. rewrite !slice_lookup.
  replace (k + hi - (k + lo))%nat with (hi - lo)%nat by lia.
  destruct (decide (j < hi - lo)%nat); [|reflexivity].
  rewrite lookup_take_lt by lia. rewrite lookup_drop. f_equal. lia.
Qed.

Lemma byte_at_take_drop j len k (l : list byte) :
  (j < len)%nat -> byte_at (take len (drop k l)) j = byte_at l (k + j).
Proof.
  intros Hj. unfold byte_at. rewrite lookup_take_lt by lia.
  by rewrite lookup_drop.
Qed.

Lemma slice_header_take lo hi (data : list byte) :
  (hi <= 227)%nat -> slice lo hi (take 227 data) = slice lo hi data.
Proof.
  intros H. rewrite <- (drop_0 data) at 1.
  by rewrite slice_take_drop.
Qed.

Lemma parseHeader_scale_offset (data : list byte) (a : Axis) :
  let h := las.parseHeader (take 227 data) in
  match a with
  | AxisX => las.XScale h | AxisY => las.YScale h | AxisZ => las.ZScale h
  end = header_scale a data
  /\ match a with
     | AxisX => las.XOffset h | AxisY => las.YOffset h | AxisZ => las.ZOffset h
     end = header_offset a data.
Proof.
  unfold header_scale, header_offset, las.parseHeader.
  destruct a; cbn [las.XScale las.YScale las.ZScale las.XOffset las.YOffset
                   las.ZOffset axis_index Nat.mul Nat.add];
    by rewrite !slice_header_take by lia.
Qed.

Lemma parseHeader_format_count (data : list byte) :
  las.PointFormat (las.parseHeader (take 227 data)) = header_format data
  /\ Z.to_nat (las.PointCount (las.parseHeader (take 227 data)))
     = header_count data.
Proof.
  unfold header_format, header_count, las.parseHeader.
  cbn [las.PointFormat las.PointCount].
  rewrite slice_header_take by lia. split; [|reflexivity].
  rewrite <- (drop_0 data) at 1. by rewrite byte_at_take_drop by lia.
Qed.

(** The record [i] of a file, as the loop cuts it out. *)
Lemma record_of_file len n (data : list byte) i rec :
  chunks len n (drop 227 data) !! i = Some rec ->
  (i < n)%nat /\ rec = take len (drop (227 + len * i) data).
Proof.
  intros H.
  assert (i < n)%nat as Hi.
  { apply lookup_lt_Some in H. by rewrite chunks_length in H. }
  split; [exact Hi|].
  rewrite chunks_lookup in H by exact Hi. rewrite drop_drop in H.
  by injection H as <-.
Qed.

Lemma decodeFormat2_record (data : list byte) i :
  let p := las.decodeFormat2 (las.parseHeader (take 227 data))
             (take 26 (drop (227 + 26 * i) data)) in
  record_fields 26 20 data i p /\ las.GPSTime p = 0.
Proof.
  cbv zeta. split; [|reflexivity].
  unfold record_fields, record_uint16, record_byte, record_int32,
    las.decodeFormat2.
  cbn [las.Intensity las.Classification las.R las.G las.B].
  rewrite !slice_take_drop by lia. rewrite byte_at_take_drop by lia.
  repeat (split; [f_equal; f_equal; lia|]).
  intros a _ _.
  destruct (parseHeader_scale_offset data a) as [Hs Ho].
  cbv zeta in Hs, Ho.
  destruct a; cbn [coord las.X las.Y las.Z_ axis_index];
    rewrite Hs, Ho, ?slice_take_drop by lia;
    do 6 f_equal; lia.
Qed.

Lemma decodeFormat3_record (data : list byte) i :
  let p := las.decodeFormat3 (las.parseHeader (take 227 data))
             (take 34 (drop (227 + 34 * i) data)) in
  record_fields 34 28 data i p
  /\ las.GPSTime p = record_float64 34 data i 20.
Proof.
  cbv zeta. split.
  - unfold record_fields, record_uint16, record_byte, record_int32,
      las.decodeFormat3.
    cbn [las.Intensity las.Classification las.R las.G las.B].
    rewrite !slice_take_drop by lia. rewrite byte_at_take_drop by lia.
    repeat (split; [f_equal; f_equal; lia|]).
    intros a _ _.
    destruct (parseHeader_scale_offset data a) as [Hs Ho].
    cbv zeta in Hs, Ho.
    destruct a; cbn [coord las.X las.Y las.Z_ axis_index];
      rewrite Hs, Ho, ?slice_take_drop by lia;
      do 6 f_equal; lia.
  - unfold record_float64, las.decodeFormat3, las.parse_float.
    cbn [las.GPSTime]. rewrite slice_take_drop by lia.
    do 3 f_equal; lia.
Qed.

(** [ReadPoints] with its allocation, from the loops. *)
Lemma machine_ReadPoints can_allocate r :
  machine.ReadPoints can_allocate r
  = if (las.PointFormat (las.header r) =? 2)
       || (las.PointFormat (las.header r) =? 3)
    then if can_allocate (Z.to_nat (las.PointCount (las.header r)))
         then machine.Returns (las.ReadPoints r)
         else machine.Dies
    else machine.Returns (las.ReadPoints r).
Proof.
  unfold machine.ReadPoints, las.ReadPoints, machine.readPointsFormat2,
    machine.readPointsFormat3.
  cbn [las.header].
  destruct (_ =? 2); [by destruct (can_allocate _)|].
  destruct (_ =? 3); [by destruct (can_allocate _)|].
  reflexivity.
Qed.

(** C7. The decoder on a file [data], with the format id of byte 104 and
    the point count of bytes 107 to 110. Opening fails when the first
    four bytes are not the signature, whatever the length, and when the
    file ends before the 227 header bytes. Once open, reading the points
    fails for a format id other than 2 and 3 (unsupported format). For
    the two formats it first allocates the slice of the points, and the
    program ends there when the machine cannot provide one of the
    capacity the file asks for. With the slice, a file that ends before
    the count of records of the header is an error that names the first
    record that is not complete. In every other case the decoder
    returns exactly the count of points, the [i]-th read from the bytes
    of the [i]-th record: records of 26 bytes with the colour at byte 20
    and a GPS time of zero for format 2, records of 34 bytes with the
    GPS time of bytes 20 to 27 and the colour at byte 28 for format
    3. *)
Theorem decoder_fails_exactly (can_allocate : nat -> bool) (name : string)
    (fs : gmap string (list byte)) (data : list byte) :
  fs !! name = Some data ->
  let format := header_format data in
  let count := header_count data in
  let signature_ok := slice 0 4 data = bytes_of_string "LASF" in
  (~ signature_ok -> exists e, las.NewReader name fs = Err e)
  /\ ((length data < 227)%nat -> las.NewReader name fs = Err ErrReadHeader)
  /\ (signature_ok -> (227 <= length data)%nat ->
      exists r,
        las.NewReader name fs = Ok r
        /\ (format <> 2 -> format <> 3 ->
            exists r',
              machine.ReadPoints can_allocate r
              = machine.Returns (Err (ErrUnsupportedFormat format), r'))
        /\ (format = 2 \/ format = 3 -> can_allocate count = false ->
            machine.ReadPoints can_allocate r = machine.Dies)
        /\ (format = 2 -> can_allocate count = true ->
            (length data < 227 + count * 26)%nat ->
            exists r',
              machine.ReadPoints can_allocate r
              = machine.Returns
                  (Err (ErrReadPoint ((length data - 227) / 26)), r'))
        /\ (format = 2 -> can_allocate count = true ->
            (227 + count * 26 <= length data)%nat ->
            exists pts r',
              machine.ReadPoints can_allocate r
              = machine.Returns (Ok pts, r')
              /\ length pts = count
              /\ forall i p, pts !! i = Some p ->
                   record_fields 26 20 data i p /\ las.GPSTime p = 0)
        /\ (format = 3 -> can_allocate count = true ->
            (length data < 227 + count * 34)%nat ->
            exists r',
              machine.ReadPoints can_allocate r
              = machine.Returns
                  (Err (ErrReadPoint ((length data - 227) / 34)), r'))
        /\ (format = 3 -> can_allocate count = true ->
            (227 + count * 34 <= length data)%nat ->
            exists pts r',
              machine.ReadPoints can_allocate r
              = machine.Returns (Ok pts, r')
              /\ length pts = count
              /\ forall i p, pts !! i = Some p ->
                   record_fields 34 28 data i p
                   /\ las.GPSTime p = record_float64 34 data i 20)).
Proof.
  intros Hfs format count signature_ok.
  destruct (NewReader_ReadPoints_cases name fs data Hfs)
    as (Hsig & Hshort & Hopen).
  destruct (parseHeader_format_count data) as [Hformat Hcount].
  split; [exact Hsig|]. split; [exact Hshort|].
  intros Hok Hlen.
  destruct (Hopen Hok Hlen)
    as (r & Hr & Hh & Hother & H2short & H2 & H3short & H3).
  rewrite Hformat in Hother, H2short, H2, H3short, H3.
  rewrite Hcount in H2short, H2, H3short, H3.
  fold format count in Hother, H2short, H2, H3short, H3.
  exists r. split; [exact Hr|].
  pose proof (machine_ReadPoints can_allocate r) as HM.
  rewrite Hh, Hformat, Hcount in HM. fold format count in HM.
  destruct (las.ReadPoints r) as [res r'] eqn:ER. cbn [fst] in *.
  split; [|split; [|split; [|split; [|split]]]].
  - intros N2 N3. exists r'. rewrite HM.
    destruct (Z.eqb_spec format 2); [done|].
    destruct (Z.eqb_spec format 3); [done|].
    cbn [orb]. by rewrite (Hother N2 N3).
  - intros Hf Hmem. rewrite HM, Hmem.
    by destruct Hf as [-> | ->].
  - intros F2 Hmem Hfew. exists r'. rewrite HM, Hmem, F2. cbn [Z.eqb Pos.eqb orb].
    by rewrite (H2short F2 Hfew).
  - intros F2 Hmem Hall.
    destruct (H2 F2 Hall) as (pts & -> & Hn & Hpts & _).
    exists pts, r'. rewrite HM, Hmem, F2. cbn [Z.eqb Pos.eqb orb].
    split; [reflexivity|]. split; [exact Hn|].
    intros i p Hp. rewrite Hpts in Hp.
    apply list_lookup_fmap_Some in Hp as (rec & -> & Hrec).
    apply record_of_file in Hrec as [_ ->].
    apply decodeFormat2_record.
  - intros F3 Hmem Hfew. exists r'. rewrite HM, Hmem, F3. cbn [Z.eqb Pos.eqb orb].
    by rewrite (H3short F3 Hfew).
  - intros F3 Hmem Hall.
    destruct (H3 F3 Hall) as (pts & -> & Hn & Hpts).
    exists pts, r'. rewrite HM, Hmem, F3. cbn [Z.eqb Pos.eqb orb].
    split; [reflexivity|]. split; [exact Hn|].
    intros i p Hp. rewrite Hpts in Hp.
    apply list_lookup_fmap_Some in Hp as (rec & -> & Hrec).
    apply record_of_file in Hrec as [_ ->].
    apply decodeFormat3_record.
Qed.

Lemma decoder_fails_exactly_witness :
  let can_allocate := fun n => (n <? 1000)%nat in
  let near := artifact (writer_of near_points) some_day in
  (exists r,
     las.NewReader "near.las" {[ "near.las" := near ]} = Ok r
     /\ exists pts r',
          machine.ReadPoints can_allocate r = machine.Returns (Ok pts, r')
          /\ length pts = header_count near
          /\ forall i p, pts !! i = Some p ->
               record_fields 34 28 near i p
               /\ las.GPSTime p = record_float64 34 near i 20)
  /\ (exists r,
        las.NewReader "over.las" {[ "over.las" := overcounted_file ]} = Ok r
        /\ machine.ReadPoints can_allocate r = machine.Dies).
Proof.
  intros can_allocate near. split.
  - destruct (decoder_fails_exactly can_allocate "near.las"
                {[ "near.las" := near ]} near (lookup_singleton_eq _ _))
      as (_ & _ & H).
    destruct H as (r & Hr & _ & _ & _ & _ & _ & H3).
    + vm_compute. reflexivity.
    + apply Nat.leb_le. vm_compute. reflexivity.
    + exists r. split; [exact Hr|]. apply H3.
      * vm_compute. reflexivity.
      * vm_compute. reflexivity.
      * apply Nat.leb_le. vm_compute. reflexivity.
  - destruct (decoder_fails_exactly can_allocate "over.las"
                {[ "over.las" := overcounted_file ]} overcounted_file
                (lookup_singleton_eq _ _))
      as (_ & _ & H).
    destruct H as (r & Hr & _ & Hdies & _).
    + vm_compute. reflexivity.
    + apply Nat.leb_le. vm_compute. reflexivity.
    + exists r. split; [exact Hr|]. apply Hdies.
      * right. vm_compute. reflexivity.
      * vm_compute. reflexivity.
Defined.

(** ** A conversion that fails *)

(** X15. A conversion that returns an error other than the writer's has
    changed no file of the output directory (the directory itself may
    have been made): this is so for a CSV file that cannot be opened or
    read, that is empty, lacks a column or has an invalid value in a
    row. The writer's error for an empty list of points never comes out
    of [ConvertCSVToLAS]: where it calls [Write] there is a data row,
    and so a point. *)
Theorem failed_conversion_writes_no_file
    (ParseFloat : string -> option float64) (csvPath : string) (now : Time)
    (inputs : gmap string (list sorter.csv_line))
    (fs fs' : gmap string (list byte)) (e : convert.convert_error) :
  convert.ConvertCSVToLAS ParseFloat csvPath now inputs fs
  = convert.Returned (Some e) fs' ->
  e <> convert.ErrWriteLAS ErrNoPoints
  /\ ((forall e', e <> convert.ErrWriteLAS e') -> fs' = fs).
Proof.
  unfold convert.ConvertCSVToLAS.
  destruct (inputs !! csvPath) as [lines|] eqn:Hin; [|by intros [= <- <-]].
  destruct (convert.ReadAll lines) as [records|] eqn:Hread;
    [|by intros [= <- <-]].
  destruct (length records <? 2)%nat eqn:Elen; [by intros [= <- <-]|].
  destruct (convert.missing_column _ _); [by intros [= <- <-]|].
  destruct (convert.parseRows _ _ _ _ _) as [err|w] eqn:E.
  { intros [= <- <-]. split; [|done].
    by apply parseRows_error_row in E as (row & col & ->). }
  destruct (String.length _ <? 4)%nat; [discriminate|].
  pose proof (parsed_rows_points _ _ _ Elen E) as Hpts.
  unfold las.Write.
  destruct (length (las.points w) =? 0)%nat eqn:E0.
  { apply Nat.eqb_eq in E0. by destruct (las.points w). }
  discriminate.
Qed.

Lemma failed_conversion_writes_no_file_witness :
  convert.ErrRowValue 3 "CellN_m" <> convert.ErrWriteLAS ErrNoPoints
  /\ ((forall e', convert.ErrRowValue 3 "CellN_m" <> convert.ErrWriteLAS e') ->
      (∅ : gmap string (list byte)) = ∅).
Proof.
  apply (failed_conversion_writes_no_file example_ParseFloat "in/bad.csv"
           some_day {[ "in/bad.csv" := bad_csv ]} ∅ ∅).
  vm_compute. reflexivity.
Defined.

(** ** The row and the column of an invalid value *)





(** ** The count of the command-line tool *)

Lemma cli_convertAll_skip PF now (inputs : gmap string (list sorter.csv_line))
    files : forall c (fs : gmap string (list byte)) n,
  cli.convertAll PF files true now inputs c fs = Some n ->
  n = (c + length files)%nat.
Proof.
  induction files as [|f files IH]; intros c fs n; cbn [cli.convertAll].
  { intros [= <-]. cbn. lia. }
  destruct (cli.convertCSVtoLAS PF f true now inputs fs) as [[e|] fs1|];
    [| |discriminate]; cbn [negb]; intros H; apply IH in H;
    cbn [length]; lia.
Qed.

Lemma cli_convertAll_no_skip PF now
    (inputs : gmap string (list sorter.csv_line)) files :
  forall c (fs : gmap string (list byte)) n,
  cli.convertAll PF files false now inputs c fs = Some n ->
  (c <= n <= c + length files)%nat.
Proof.
  induction files as [|f files IH]; intros c fs n; cbn [cli.convertAll].
  { intros [= <-]. cbn. lia. }
  destruct (cli.convertCSVtoLAS PF f false now inputs fs) as [[e|] fs1|];
    [| |discriminate]; cbn [negb]; intros H; apply IH in H;
    cbn [length]; lia.
Qed.

Lemma cli_convertAll_missing PF now
    (inputs : gmap string (list sorter.csv_line)) skip files :
  forall c (fs : gmap string (list byte)),
  Forall (fun f => inputs !! f = None) files ->
  cli.convertAll PF files skip now inputs c fs
  = Some (if skip then c + length files else c)%nat.
Proof.
  induction files as [|f files IH]; intros c fs Hall; cbn [cli.convertAll].
  { destruct skip; cbn [length]; f_equal; lia. }
  apply Forall_cons_1 in Hall as [Hf Hall].
  unfold cli.convertCSVtoLAS. rewrite Hf.
  destruct skip; cbn [negb]; rewrite IH by done; cbn [length];
    f_equal; lia.
Qed.

(** X23. The count of the command-line tool. With [skipErrors] the loop
    of [main] counts every file, also the files whose conversion
    failed: the count it ends with is the number of files. Without it
    the count is at most that number. So when none of the files can be
    opened, the count is the number of files with [skipErrors] and 0
    without it. *)
Theorem cli_counts_failed_files (ParseFloat : string -> option float64)
    (files : list string) (now : Time)
    (inputs : gmap string (list sorter.csv_line))
    (fs : gmap string (list byte)) :
  (forall n,
     cli.convertAll ParseFloat files true now inputs 0 fs = Some n ->
     n = length files)
  /\ (forall n,
        cli.convertAll ParseFloat files false now inputs 0 fs = Some n ->
        (n <= length files)%nat)
  /\ (Forall (fun f => inputs !! f = None) files ->
      cli.convertAll ParseFloat files true now inputs 0 fs
      = Some (length files)
      /\ cli.convertAll ParseFloat files false now inputs 0 fs = Some 0%nat).
Proof.
  split; [|split].
  - intros n H. by apply cli_convertAll_skip in H.
  - intros n H. apply cli_convertAll_no_skip in H. lia.
  - intros Hall. by rewrite !cli_convertAll_missing.
Qed.
